(** * Panorama decode engine: a shallow embedding and its verified properties

    The development follows the TypeScript sources of the panorama decode
    engine (half-float codec, Radiance HDR reader, OpenEXR reader, the
    decode worker's size policy and the decoder client).  Every definition
    is a transcription of the source function whose name it carries; the
    theorems state the behaviour documented for the engine. *)

From Stdlib Require Import ZArith Lia Ascii String.
From Stdlib Require Uint63 PrimFloat SpecFloat FloatOps.
From stdpp Require Import base tactics option list strings gmap.

(** ** Common runtime notions *)

(** Exceptions of the JavaScript runtime that the decoders can raise:
    [Error m] is [new Error(m)] thrown by the source itself, [RangeError]
    is the exception raised by typed-array and [DataView] primitives on an
    out-of-bounds access, [TypeError] the one raised by reading a property
    of [undefined]. *)
Inductive js_error :=
  | Error (message : string)
  | RangeError
  | TypeError.

Inductive result (A : Type) :=
  | Ok (a : A)
  | Throw (e : js_error).
Arguments Ok {A} a.
Arguments Throw {A} e.

(** Sequencing of computations that may throw: [x ← r; k] runs [k] on the
    value of [r] and propagates its exception. *)
#[global] Instance result_bind : MBind result := fun A B k r =>
  match r with
  | Ok a => k a
  | Throw e => Throw e
  end.
#[global] Instance result_ret : MRet result := fun A a => Ok a.
#[global] Instance result_fmap : FMap result := fun A B f r =>
  match r with
  | Ok a => Ok (f a)
  | Throw e => Throw e
  end.

(** A [Uint8Array] is the list of its elements (each in [0, 255]); indices
    are natural numbers. *)
Abbreviation bytes := (list Z).

(** [bytes.slice(start, stop)] for [start <= stop]. *)
Definition slice (b : bytes) (start stop : nat) : bytes :=
  take (stop - start) (drop start b).

(** [out.fill(val, start, stop)]: positions outside the array are ignored. *)
Definition typed_fill (out : bytes) (val : Z) (start stop : nat) : bytes :=
  imap (fun i v => if decide (start <= i < stop) then val else v) out.

(** [out.set(src, offset)]: raises [RangeError] when the source does not
    fit in the target. *)
Definition typed_set (out src : bytes) (offset : nat) : result bytes :=
  if decide (length out < length src + offset) then Throw RangeError
  else Ok (take offset out ++ src ++ drop (offset + length src) out).

(** ** Powers of two *)
Module Pow2.
Local Open Scope Z_scope.

Lemma pow2_pos n : 0 <= n -> 0 < 2 ^ n.
Proof. intros. apply Z.pow_pos_nonneg; lia. Qed.

Lemma pow2_split a b : 0 <= a -> 0 <= b -> 2 ^ (a + b) = 2 ^ a * 2 ^ b.
Proof. intros. apply Z.pow_add_r; lia. Qed.

Lemma pow2_le a b : 0 <= a <= b -> 2 ^ a <= 2 ^ b.
Proof. intros. apply Z.pow_le_mono_r; lia. Qed.

End Pow2.

(** ** Radiance HDR: scanline decoding *)
Module HdrScanline.

Definition eof_data : js_error := Error "Unexpected end of HDR data".
Definition eof_rle : js_error := Error "Unexpected end of HDR RLE".

(** [decodeOldPixels(bytes, offset, width, out)] returns the new offset and
    the updated [out]. *)
Definition decodeOldPixels (b : bytes) (offset width : nat) (out : bytes)
  : result (nat * bytes) :=
  let needed := width * 4 in
  let stop := offset + needed in
  if decide (length b < stop) then Throw eof_data
  else
    out' ← typed_set out (slice b offset stop) 0;
    Ok (stop, out').

(** State of the [while (x < width)] loop of [decodeRLEChannel]. *)
Record rle_state := RleState { rle_x : nat; rle_off : nat; rle_out : bytes }.

Inductive rle_step_result :=
  | RleContinue (s : rle_state)
  | RleReturn (off : nat) (out : bytes)
  | RleThrow (e : js_error).

(** One evaluation of the loop test followed, when it holds, by one loop
    body. *)
Definition rle_step (b : bytes) (width : nat) (s : rle_state) : rle_step_result :=
  let x := rle_x s in
  let off := rle_off s in
  let out := rle_out s in
  if decide (x < width) then
    match b !! off with
    | None => RleThrow eof_rle
    | Some count =>
        let off := S off in
        if (128 <? count)%Z then
          let run := Z.to_nat (count - 128) in
          match b !! off with
          | None => RleThrow eof_rle
          | Some val =>
              RleContinue (RleState (x + run) (S off) (typed_fill out val x (x + run)))
          end
        else if (0 <? count)%Z then
          let run := Z.to_nat count in
          let stop := off + run in
          if decide (length b < stop) then RleThrow eof_rle
          else
            match typed_set out (slice b off stop) x with
            | Throw e => RleThrow e
            | Ok out' => RleContinue (RleState (x + run) stop out')
            end
        else RleContinue (RleState x off out)
    end
  else RleReturn off out.

(** The loop, unrolled at most [fuel] times; [None] means the fuel ran out
    before the loop left. *)
Fixpoint rle_loop (b : bytes) (width : nat) (fuel : nat) (s : rle_state)
  : option (result (nat * bytes)) :=
  match fuel with
  | O => None
  | S fuel' =>
      match rle_step b width s with
      | RleContinue s' => rle_loop b width fuel' s'
      | RleReturn off out => Some (Ok (off, out))
      | RleThrow e => Some (Throw e)
      end
  end.

(** Number of loop tests that always suffices: every continuing
    iteration consumes at least one byte of the buffer. *)
Definition rle_fuel (b : bytes) (offset : nat) : nat := S (length b - offset).

(** [decodeRLEChannel(bytes, offset, width, out)]. *)
Definition decodeRLEChannel (b : bytes) (offset width : nat) (out : bytes)
  : option (result (nat * bytes)) :=
  rle_loop b width (rle_fuel b offset) (RleState 0 offset out).

(** Sequencing of a looping computation with its continuation. *)
Definition and_then {A B} (r : option (result A)) (k : A -> option (result B))
  : option (result B) :=
  match r with
  | None => None
  | Some (Throw e) => Some (Throw e)
  | Some (Ok a) => k a
  end.

(** [decodeScanline(bytes, offset, width, scanline)].  The four
    [subarray] views alias the scanline buffer, which the caller allocates
    with [width * 4] elements: the planes written through the views are
    the four quarters of the resulting scanline. *)
Definition decodeScanline (b : bytes) (offset width : nat) (scanline : bytes)
  : option (result (nat * bytes)) :=
  if decide (width < 8 \/ (32767 < Z.of_nat width)%Z) then
    Some (decodeOldPixels b offset width scanline)
  else if decide (length b < offset + 4) then Some (Throw eof_data)
  else
    let b0 := b !!! offset in
    let b1 := b !!! (offset + 1) in
    let b2 := b !!! (offset + 2) in
    let b3 := b !!! (offset + 3) in
    let rleWidth := Z.lor (Z.shiftl b2 8) b3 in
    let isRle := bool_decide (b0 = 2%Z /\ b1 = 2%Z /\ rleWidth = Z.of_nat width) in
    if negb isRle then Some (decodeOldPixels b offset width scanline)
    else
      let off := offset + 4 in
      let r := slice scanline 0 width in
      let g := slice scanline width (width * 2) in
      let bl := slice scanline (width * 2) (width * 3) in
      let e := slice scanline (width * 3) (width * 4) in
      and_then (decodeRLEChannel b off width r) (fun '(off, r') =>
      and_then (decodeRLEChannel b off width g) (fun '(off, g') =>
      and_then (decodeRLEChannel b off width bl) (fun '(off, bl') =>
      and_then (decodeRLEChannel b off width e) (fun '(off, e') =>
      Some (Ok (off, r' ++ g' ++ bl' ++ e' ++ drop (width * 4) scanline)))))).

(** *** Properties of the run-length loop *)

Lemma rle_step_advances b width s s' :
  rle_step b width s = RleContinue s' ->
  rle_off s < rle_off s' <= length b.
Proof.
  unfold rle_step. intros H.
  destruct (decide (rle_x s < width)); [|discriminate].
  destruct (b !! rle_off s) as [count|] eqn:Hc; [|discriminate].
  apply lookup_lt_Some in Hc.
  destruct (128 <? count)%Z.
  - destruct (b !! S (rle_off s)) as [val|] eqn:Hv; [|discriminate].
    apply lookup_lt_Some in Hv. inversion H; subst; simpl. lia.
  - destruct (0 <? count)%Z eqn:Hpos.
    + destruct (decide (length b < S (rle_off s) + Z.to_nat count)); [discriminate|].
      destruct (typed_set _ _ _); inversion H; subst; simpl.
      apply Z.ltb_lt in Hpos. lia.
    + inversion H; subst; simpl. lia.
Qed.

Lemma rle_step_zero_count b width s :
  rle_x s < width ->
  b !! rle_off s = Some 0%Z ->
  rle_step b width s = RleContinue (RleState (rle_x s) (S (rle_off s)) (rle_out s)).
Proof.
  intros Hx Hc. unfold rle_step.
  destruct (decide (rle_x s < width)); [|lia].
  rewrite Hc. reflexivity.
Qed.

Lemma rle_loop_total b width fuel : forall s,
  length b - rle_off s < fuel ->
  exists r, rle_loop b width fuel s = Some r.
Proof.
  induction fuel as [|fuel IH]; intros s Hlt; [lia|].
  simpl. destruct (rle_step b width s) as [s'|off out|e] eqn:Hstep; eauto.
  apply IH. apply rle_step_advances in Hstep. lia.
Qed.

Lemma rle_loop_more_fuel b width fuel : forall s r fuel',
  rle_loop b width fuel s = Some r ->
  fuel <= fuel' ->
  rle_loop b width fuel' s = Some r.
Proof.
  induction fuel as [|fuel IH]; intros s r fuel' Hrun Hle; [discriminate|].
  destruct fuel' as [|fuel']; [lia|].
  simpl in *. destruct (rle_step b width s); eauto with lia.
Qed.

(** The states that the loop goes through from a given state. *)
Inductive reaches (b : bytes) (width : nat) : rle_state -> rle_state -> Prop :=
  | reaches_here s : reaches b width s s
  | reaches_next s s' s'' :
      rle_step b width s = RleContinue s' -> reaches b width s' s'' ->
      reaches b width s s''.

(** A read at the end of the buffer: of the count byte, of the value of
    a repeat run, or of the bytes of a literal run. *)
Definition reads_past_end (b : bytes) (s : rle_state) : Prop :=
  length b <= rle_off s \/
  (exists count, b !! rle_off s = Some count /\ (128 < count)%Z /\
     length b <= S (rle_off s)) \/
  (exists count, b !! rle_off s = Some count /\ (0 < count <= 128)%Z /\
     length b < S (rle_off s) + Z.to_nat count).

(** A literal run, all of it in the buffer, that is longer than what is
    left of the plane. *)
Definition literal_overruns_plane (b : bytes) (s : rle_state) : Prop :=
  exists count, b !! rle_off s = Some count /\ (0 < count <= 128)%Z /\
    S (rle_off s) + Z.to_nat count <= length b /\
    length (rle_out s) < rle_x s + Z.to_nat count.

Lemma rle_step_return b width s off out :
  rle_step b width s = RleReturn off out ->
  width <= rle_x s /\ off = rle_off s /\ out = rle_out s.
Proof.
  unfold rle_step. intros H.
  destruct (decide (rle_x s < width)).
  - destruct (b !! rle_off s) as [count|]; [|discriminate].
    destruct (128 <? count)%Z.
    + by destruct (b !! S (rle_off s)).
    + destruct (0 <? count)%Z; [|discriminate].
      destruct (decide _); [discriminate|]. by destruct (typed_set _ _ _).
  - inversion H. split; [lia|done].
Qed.

Lemma rle_step_throw b width s e :
  rle_step b width s = RleThrow e ->
  rle_x s < width /\
  (e = eof_rle /\ reads_past_end b s \/ e = RangeError /\ literal_overruns_plane b s).
Proof.
  unfold rle_step, reads_past_end, literal_overruns_plane. intros H.
  destruct (decide (rle_x s < width)); [|discriminate]. split; [done|].
  destruct (b !! rle_off s) as [count|] eqn:Hc.
  2: { inversion H. left. split; [done|]. left. by apply lookup_ge_None_1. }
  destruct (Z.ltb_spec 128 count).
  - destruct (b !! S (rle_off s)) eqn:Hv; inversion H.
    left. split; [done|]. right. left. exists count.
    split; [done|]. split; [done|]. by apply lookup_ge_None_1.
  - destruct (Z.ltb_spec 0 count); [|discriminate].
    destruct (decide (length b < S (rle_off s) + Z.to_nat count)).
    { inversion H. left. split; [done|]. right. right. exists count. repeat split; [lia..|done]. }
    unfold typed_set in H.
    destruct (decide (length (rle_out s) <
      length (slice b (S (rle_off s)) (S (rle_off s) + Z.to_nat count)) + rle_x s))
      as [Hlt|]; [|discriminate].
    inversion H; subst. right. split; [reflexivity|].
    exists count. split; [reflexivity|]. split; [lia|]. split; [lia|].
    unfold slice in Hlt. rewrite length_take, length_drop in Hlt. lia.
Qed.

Lemma rle_loop_outcome b width fuel : forall s r,
  rle_loop b width fuel s = Some r ->
  exists s', reaches b width s s' /\
    match r with
    | Ok (off, out) => width <= rle_x s' /\ off = rle_off s' /\ out = rle_out s'
    | Throw e =>
        rle_x s' < width /\
        (e = eof_rle /\ reads_past_end b s' \/
         e = RangeError /\ literal_overruns_plane b s')
    end.
Proof.
  induction fuel as [|fuel IH]; intros s r Hrun; [discriminate|].
  cbn [rle_loop] in Hrun.
  destruct (rle_step b width s) as [s1|off out|e] eqn:Hstep.
  - destruct (IH _ _ Hrun) as (s' & Hreach & Hr).
    exists s'. split; [|done]. by eapply reaches_next.
  - injection Hrun as <-. exists s. split; [constructor|].
    by apply rle_step_return in Hstep.
  - injection Hrun as <-. exists s. split; [constructor|].
    by apply rle_step_throw in Hstep.
Qed.

(** C9 (amended). [decodeRLEChannel] terminates on every buffer, starting
    offset and width: the loop leaves within [length bytes - offset + 1]
    loop tests, because every iteration that goes on strictly advances
    the read offset, which never passes the end of the buffer; a count
    byte of zero consumes that one byte and writes nothing.  The loop
    leaves in one of three ways: it returns, having filled the width; it
    throws the end-of-data error, at a read that would pass the end of
    the buffer; or it throws a [RangeError], at a literal run that is in
    the buffer but longer than what is left of the plane. *)
Theorem decodeRLEChannel_terminates (b : bytes) (offset width : nat) (out : bytes) :
  (exists r, decodeRLEChannel b offset width out = Some r /\
     (forall fuel, rle_fuel b offset <= fuel ->
        rle_loop b width fuel (RleState 0 offset out) = Some r) /\
     exists s, reaches b width (RleState 0 offset out) s /\
       match r with
       | Ok (off, out') => width <= rle_x s /\ off = rle_off s /\ out' = rle_out s
       | Throw e =>
           rle_x s < width /\
           (e = eof_rle /\ reads_past_end b s \/
            e = RangeError /\ literal_overruns_plane b s)
       end) /\
  (forall s s', rle_step b width s = RleContinue s' ->
     rle_off s < rle_off s' <= length b) /\
  (forall s, rle_x s < width -> b !! rle_off s = Some 0%Z ->
     rle_step b width s = RleContinue (RleState (rle_x s) (S (rle_off s)) (rle_out s))).
Proof.
  split; [|split].
  - destruct (rle_loop_total b width (rle_fuel b offset) (RleState 0 offset out))
      as [r Hr]; [unfold rle_fuel; simpl; lia|].
    exists r. split; [exact Hr|]. split.
    + intros fuel Hle. eapply rle_loop_more_fuel; eauto.
    + by apply (rle_loop_outcome b width (rle_fuel b offset)).
  - apply rle_step_advances.
  - apply rle_step_zero_count.
Qed.

(** C9 as stated fails in its account of how the loop leaves: on a
    literal run of 9 bytes for a plane of 8, the loop throws at its first
    iteration, a [RangeError], while the width is not filled and the
    offset is far from the end of the buffer, which holds the run and
    eight bytes more. *)
Lemma decodeRLEChannel_leaves_before_end :
  let b := [9; 1; 2; 3; 4; 5; 6; 7; 8; 9; 0; 0; 0; 0; 0; 0; 0; 0]%Z in
  decodeRLEChannel b 0 8 (replicate 8 0%Z) = Some (Throw RangeError) /\
  rle_step b 8 (RleState 0 0 (replicate 8 0%Z)) = RleThrow RangeError /\
  1 + 9 < length b.
Proof. cbv zeta. split; [|split]; [by vm_compute..|simpl; lia]. Qed.

(** *** Failures of the scanline decoder *)

Lemma decodeOldPixels_eof b offset width out :
  length b < offset + width * 4 ->
  decodeOldPixels b offset width out = Throw eof_data.
Proof.
  intros H. unfold decodeOldPixels.
  destruct (decide (length b < offset + width * 4)); [reflexivity|lia].
Qed.

(** The three reads of the run-length loop that would pass the end of the
    buffer raise the end-of-data error. *)
Lemma rle_step_eof b width s :
  rle_x s < width ->
  (length b <= rle_off s \/
   (exists count, b !! rle_off s = Some count /\ (128 < count)%Z /\
      length b <= S (rle_off s)) \/
   (exists count, b !! rle_off s = Some count /\ (0 < count <= 128)%Z /\
      length b < S (rle_off s) + Z.to_nat count)) ->
  rle_step b width s = RleThrow eof_rle.
Proof.
  intros Hx H. unfold rle_step.
  destruct (decide (rle_x s < width)); [|lia].
  destruct H as [H|[(count & Hc & Hgt & Hlen)|(count & Hc & Hrange & Hlen)]].
  - rewrite (lookup_ge_None_2 _ _ H). reflexivity.
  - rewrite Hc. destruct (Z.ltb_spec 128 count); [|lia].
    rewrite (lookup_ge_None_2 b (S (rle_off s))) by lia. reflexivity.
  - rewrite Hc. destruct (Z.ltb_spec 128 count); [lia|].
    destruct (Z.ltb_spec 0 count); [|lia].
    destruct (decide (length b < S (rle_off s) + Z.to_nat count)); [reflexivity|lia].
Qed.

(** The only other exception of the loop is the [RangeError] of
    [out.set], raised by a literal run longer than what is left of the
    plane. *)
Lemma rle_step_throws b width s e :
  rle_step b width s = RleThrow e ->
  e = eof_rle \/
  (e = RangeError /\ exists count, b !! rle_off s = Some count /\
     (0 < count <= 128)%Z /\ length (rle_out s) < rle_x s + Z.to_nat count).
Proof.
  unfold rle_step. intros H.
  destruct (decide (rle_x s < width)); [|discriminate].
  destruct (b !! rle_off s) as [count|] eqn:Hc; [|inversion H; auto].
  destruct (Z.ltb_spec 128 count).
  - destruct (b !! S (rle_off s)); inversion H; auto.
  - destruct (Z.ltb_spec 0 count); [|discriminate].
    destruct (decide (length b < S (rle_off s) + Z.to_nat count)); [inversion H; auto|].
    unfold typed_set in H.
    destruct (decide (length (rle_out s) <
      length (slice b (S (rle_off s)) (S (rle_off s) + Z.to_nat count)) + rle_x s))
      as [Hlt|]; [|discriminate].
    inversion H; subst. right. split; [reflexivity|].
    exists count. split; [reflexivity|]. split; [lia|].
    unfold slice in Hlt. rewrite length_take, length_drop in Hlt. lia.
Qed.

(** A new-format scanline of width 8 whose first plane starts with a
    literal run of 9 bytes, all of them present in the buffer. *)
Definition overlong_literal_scanline : bytes :=
  [2; 2; 0; 8; 9; 1; 2; 3; 4; 5; 6; 7; 8; 9]%Z.

(** C8. The end-of-data error is not the only failure of the scanline
    decoder: on [overlong_literal_scanline] no read passes the end of the
    buffer, and the decoder fails with the [RangeError] of [out.set],
    because the literal run does not fit in the 8-element plane. *)
Theorem decodeScanline_overlong_literal_RangeError :
  decodeScanline overlong_literal_scanline 0 8 (replicate 32 0%Z)
    = Some (Throw RangeError).
Proof. vm_compute. reflexivity. Qed.

(** The sibling repeat run of the same length is clipped by [out.fill]
    and raises nothing. *)
Lemma decodeRLEChannel_overlong_repeat_clipped :
  decodeRLEChannel [137; 7]%Z 0 8 (replicate 8 0%Z)
    = Some (Ok (2, replicate 8 7%Z)).
Proof. vm_compute. reflexivity. Qed.

End HdrScanline.

(** ** JavaScript strings *)
Module JsString.

(** A string of the program is held as the bytes of its UTF-8 form, one
    [ascii] per byte.  The strings that the decoders handle are the
    literals of the source, which are ASCII, and the texts that
    [TextDecoder] returns, which are sequences of Unicode scalar values:
    such a text and its UTF-8 form determine each other, two texts are
    equal when their forms are, and one starts with or contains another
    when its form does. *)

Definition byte_char (b : Z) : ascii := ascii_of_N (Z.to_N b).

Definition in_range (lo hi b : Z) : bool := ((lo <=? b) && (b <=? hi))%Z.

(** The bounds of the first continuation byte after the lead byte [b0]:
    they exclude the overlong forms, the surrogates and the code points
    above U+10FFFF. *)
Definition first_lower (b0 : Z) : Z :=
  if (b0 =? 224)%Z then 160%Z else if (b0 =? 240)%Z then 144%Z else 128%Z.
Definition first_upper (b0 : Z) : Z :=
  if (b0 =? 237)%Z then 159%Z else if (b0 =? 244)%Z then 143%Z else 191%Z.

(** U+FFFD, which the decoder puts for the bytes it cannot decode. *)
Definition replacement (s : string) : string :=
  String "239" (String "191" (String "189" s)).

(** The UTF-8 decoder of [TextDecoder] (not fatal): a well-formed
    sequence gives its code point, kept here as the same bytes; a byte
    that cannot start a sequence, and a sequence cut short by a byte that
    cannot continue it or by the end of the input, give U+FFFD, and the
    byte that cut the sequence is decoded again as a first byte. *)
Fixpoint utf8_decode (b : bytes) : string :=
  match b with
  | [] => EmptyString
  | b0 :: rest =>
      if in_range 0 127 b0 then String (byte_char b0) (utf8_decode rest)
      else if in_range 194 223 b0 then
        match rest with
        | b1 :: rest1 =>
            if in_range 128 191 b1
            then String (byte_char b0) (String (byte_char b1) (utf8_decode rest1))
            else replacement (utf8_decode rest)
        | [] => replacement EmptyString
        end
      else if in_range 224 239 b0 then
        match rest with
        | b1 :: rest1 =>
            if in_range (first_lower b0) (first_upper b0) b1 then
              match rest1 with
              | b2 :: rest2 =>
                  if in_range 128 191 b2
                  then String (byte_char b0) (String (byte_char b1)
                         (String (byte_char b2) (utf8_decode rest2)))
                  else replacement (utf8_decode rest1)
              | [] => replacement EmptyString
              end
            else replacement (utf8_decode rest)
        | [] => replacement EmptyString
        end
      else if in_range 240 244 b0 then
        match rest with
        | b1 :: rest1 =>
            if in_range (first_lower b0) (first_upper b0) b1 then
              match rest1 with
              | b2 :: rest2 =>
                  if in_range 128 191 b2 then
                    match rest2 with
                    | b3 :: rest3 =>
                        if in_range 128 191 b3
                        then String (byte_char b0) (String (byte_char b1)
                               (String (byte_char b2) (String (byte_char b3)
                                  (utf8_decode rest3))))
                        else replacement (utf8_decode rest2)
                    | [] => replacement EmptyString
                    end
                  else replacement (utf8_decode rest1)
              | [] => replacement EmptyString
              end
            else replacement (utf8_decode rest)
        | [] => replacement EmptyString
        end
      else replacement (utf8_decode rest)
  end.

(** A byte order mark (U+FEFF) at the start of the text is left out. *)
Definition drop_bom (s : string) : string :=
  match s with
  | String c1 (String c2 (String c3 s')) =>
      if bool_decide (c1 = "239"%char /\ c2 = "187"%char /\ c3 = "191"%char) then s' else s
  | _ => s
  end.

(** [new TextDecoder().decode(b)]. *)
Definition decodeText (b : bytes) : string := drop_bom (utf8_decode b).

(** The bytes of a string. *)
Definition encodeText (s : string) : bytes :=
  map (fun a => Z.of_N (N_of_ascii a)) (list_ascii_of_string s).

(** [s.startsWith(p)]. *)
Fixpoint startsWith (s p : string) : bool :=
  match p, s with
  | EmptyString, _ => true
  | String a p', String c s' => bool_decide (a = c) && startsWith s' p'
  | String _ _, EmptyString => false
  end.

(** [s.includes(p)]. *)
Fixpoint includes (s p : string) : bool :=
  startsWith s p ||
  match s with
  | EmptyString => false
  | String _ s' => includes s' p
  end.

(** The white space of the language ([WhiteSpace] and [LineTerminator],
    which [trim], [\s] and [parseInt] share) that takes two bytes, U+00A0,
    and three bytes: U+1680, U+2000 to U+200A, U+2028, U+2029, U+202F,
    U+205F, U+3000 and U+FEFF.  That of one byte is [Ascii.is_space]:
    U+0009 to U+000D and U+0020. *)
Definition space2 (c1 c2 : ascii) : bool :=
  bool_decide (c1 = "194"%char /\ c2 = "160"%char).

Definition space3 (c1 c2 c3 : ascii) : bool :=
  let n3 := N_of_ascii c3 in
  bool_decide (c1 = "225"%char /\ c2 = "154"%char /\ c3 = "128"%char)
  || (bool_decide (c1 = "226"%char /\ c2 = "128"%char)
      && (((128 <=? n3) && (n3 <=? 138)) || (n3 =? 168) || (n3 =? 169) || (n3 =? 175))%N)
  || bool_decide (c1 = "226"%char /\ c2 = "129"%char /\ c3 = "159"%char)
  || bool_decide (c1 = "227"%char /\ c2 = "128"%char /\ c3 = "128"%char)
  || bool_decide (c1 = "239"%char /\ c2 = "187"%char /\ c3 = "191"%char).

(** [s.trimStart()]. *)
Fixpoint trimStart (s : string) : string :=
  match s with
  | EmptyString => EmptyString
  | String c1 s1 =>
      if Ascii.is_space c1 then trimStart s1
      else
        match s1 with
        | String c2 s2 =>
            if space2 c1 c2 then trimStart s2
            else
              match s2 with
              | String c3 s3 => if space3 c1 c2 c3 then trimStart s3 else s
              | EmptyString => s
              end
        | EmptyString => s
        end
  end.

(** The white space at the end of a text, on the text read backwards. *)
Fixpoint trimStart_reversed (s : string) : string :=
  match s with
  | EmptyString => EmptyString
  | String c1 s1 =>
      if Ascii.is_space c1 then trimStart_reversed s1
      else
        match s1 with
        | String c2 s2 =>
            if space2 c2 c1 then trimStart_reversed s2
            else
              match s2 with
              | String c3 s3 => if space3 c3 c2 c1 then trimStart_reversed s3 else s
              | EmptyString => s
              end
        | EmptyString => s
        end
  end.

(** [s.trim()]. *)
Definition trim (s : string) : string :=
  String.rev (trimStart_reversed (String.rev (trimStart s))).

(** [s.split(/\s+/)]: the pieces between maximal runs of white space; a
    run at either end of [s] leaves an empty piece there.  [cur] is the
    piece being read, backwards, and [in_gap] tells that the last
    character was white space. *)
Fixpoint split_go (cur : string) (in_gap : bool) (s : string) : list string :=
  match s with
  | EmptyString => [String.rev cur]
  | String c1 s1 =>
      if Ascii.is_space c1 then
        if in_gap then split_go cur true s1
        else String.rev cur :: split_go EmptyString true s1
      else
        match s1 with
        | String c2 s2 =>
            if space2 c1 c2 then
              if in_gap then split_go cur true s2
              else String.rev cur :: split_go EmptyString true s2
            else
              match s2 with
              | String c3 s3 =>
                  if space3 c1 c2 c3 then
                    if in_gap then split_go cur true s3
                    else String.rev cur :: split_go EmptyString true s3
                  else split_go (String c1 cur) false s1
              | EmptyString => split_go (String c1 cur) false s1
              end
        | EmptyString => split_go (String c1 cur) false s1
        end
  end.
Definition split_ws (s : string) : list string := split_go EmptyString false s.

Definition digit_value (c : ascii) : option Z :=
  Z.of_nat <$> Ascii.is_nat c.

(** Value of the longest prefix of decimal digits, [None] when it is
    empty. *)
Fixpoint parse_digits (acc : option Z) (s : string) : option Z :=
  match s with
  | EmptyString => acc
  | String c s' =>
      match digit_value c with
      | Some d => parse_digits (Some (10 * default 0%Z acc + d)%Z) s'
      | None => acc
      end
  end.

(** The number that stands for the integer [z]: the double nearest to
    it, ties to the even significand.  It is an integer again; from
    [2^1024] on it stands for an infinity. *)
Definition nearest_double (z : Z) : Z :=
  let a := Z.abs z in
  if (a <? 2 ^ 53)%Z then z
  else
    let e := (Z.log2 a - 52)%Z in
    let q := (a / 2 ^ e)%Z in
    let r := (a mod 2 ^ e)%Z in
    let up := ((2 ^ e <? 2 * r) || ((2 ^ e =? 2 * r) && Z.odd q))%Z in
    (Z.sgn z * ((if up then q + 1 else q) * 2 ^ e))%Z.

(** [Number.parseInt(s, 10)]; [None] is [NaN].  The digits are read
    exactly and the integer rounded once, as the engines do; the language
    lets an implementation drop the digits after the twentieth. *)
Definition parseInt (s : string) : option Z :=
  nearest_double <$>
    match trimStart s with
    | String "-" s' => Z.opp <$> parse_digits None s'
    | String "+" s' => parse_digits None s'
    | s' => parse_digits None s'
    end.

(** [Number.isFinite] on the result of [parseInt]. *)
Definition isFinite (n : option Z) : bool :=
  match n with
  | None => false
  | Some z => (Z.abs z <? 2 ^ 1024)%Z
  end.

End JsString.

(** ** Radiance HDR: header *)
Module HdrHeader.
Import JsString.

Inductive PanoramaFormat := hdr | exr.

Record PanoramaMetadata := Metadata {
  format : PanoramaFormat;
  width : Z;
  height : Z
}.

Record Resolution := MkResolution {
  res_width : Z;
  res_height : Z;
  ySign : string;
  xSign : string
}.

(** The [while] loop of [readLine]: index of the first line feed at or
    after [stop], or the length of the buffer. *)
Fixpoint scan_line (rest : bytes) (stop : nat) : nat :=
  match rest with
  | [] => stop
  | c :: rest' => if bool_decide (c = 10%Z) then stop else scan_line rest' (S stop)
  end.

(** [readLine(bytes, offset)] returns [{ line, next }]. *)
Definition readLine (b : bytes) (offset : nat) : string * nat :=
  let stop := scan_line (drop offset b) offset in
  (decodeText (slice b offset stop), Nat.min (length b) (stop + 1)).

(** [parseResolution(line)]; [None] is [null]. *)
Definition parseResolution (line : string) : option Resolution :=
  match split_ws (trim line) with
  | [ySign; yStr; xSign; xStr] =>
      if bool_decide (ySign = "" \/ xSign = "" \/ yStr = "" \/ xStr = "") then None
      else
        let height := parseInt yStr in
        let width := parseInt xStr in
        if negb (isFinite width) || negb (isFinite height) then None
        else
          let w := default 0%Z width in
          let h := default 0%Z height in
          if bool_decide (w <= 0 \/ h <= 0)%Z then None
          else if bool_decide (ySign <> "-Y" /\ ySign <> "+Y") then None
          else if bool_decide (xSign <> "+X" /\ xSign <> "-X") then None
          else Some (MkResolution w h ySign xSign)
  | _ => None
  end.

(** Result of the header loop shared by [readHDRMetadata] and
    [decodeHDRToFloatRGB]: the variables [formatOk], [resolution] and
    [offset] when the loop is left. *)
Record HeaderScan := MkHeaderScan {
  formatOk : bool;
  resolution : option Resolution;
  dataOffset : nat
}.

Definition supported_format : string := "FORMAT=32-bit_rle_rgbe".

(** The loop [while (offset < bytes.length)], unrolled at most [fuel]
    times. *)
Fixpoint header_loop (fuel : nat) (b : bytes) (offset : nat) (ok : bool)
  : option (result HeaderScan) :=
  match fuel with
  | O => None
  | S fuel' =>
      if decide (offset < length b) then
        let '(line, next) := readLine b offset in
        let offset := next in
        let ok := if startsWith line "FORMAT=" then bool_decide (trim line = supported_format)
                  else ok in
        if bool_decide (trim line = "") then
          let '(resLine, next2) := readLine b offset in
          match parseResolution resLine with
          | None => Some (Throw (Error "Invalid HDR resolution"))
          | Some res => Some (Ok (MkHeaderScan ok (Some res) next2))
          end
        else header_loop fuel' b offset ok
      else Some (Ok (MkHeaderScan ok None offset))
  end.

Definition scanHeader (b : bytes) : option (result HeaderScan) :=
  header_loop (S (length b)) b 0 false.

(** [readHDRMetadata(buffer)]. *)
Definition readHDRMetadata (b : bytes) : option (result PanoramaMetadata) :=
  match scanHeader b with
  | None => None
  | Some (Throw e) => Some (Throw e)
  | Some (Ok scan) =>
      if negb (formatOk scan) then Some (Throw (Error "Unsupported HDR format"))
      else
        match resolution scan with
        | None => Some (Throw (Error "Missing HDR resolution"))
        | Some res => Some (Ok (Metadata hdr (res_width res) (res_height res)))
        end
  end.

Definition HDR_SIGNATURE : string := "#?RADIANCE".

Inductive Validation := ValidationOk | ValidationFailed (message : string).

(** The [hdr] branch of [validatePanoramaBuffer(format, buffer)]. *)
Definition validatePanoramaBuffer_hdr (b : bytes) : Validation :=
  let text := decodeText (slice b 0 4096) in
  if negb (startsWith text HDR_SIGNATURE) then ValidationFailed "Invalid HDR signature"
  else if negb (includes text "FORMAT=32-bit_rle_rgbe") then
    ValidationFailed "Unsupported HDR format"
  else ValidationOk.

(** A buffer made of the given lines, each ended by a line feed. *)
Definition join_lines (ls : list bytes) : bytes :=
  concat (map (fun l => l ++ [10%Z]) ls).

Definition file_of_lines (ls : list string) : bytes :=
  join_lines (map encodeText ls).

(** Spec-side reading of the header: [format_flag ok ls] is the value of
    [formatOk] after the lines [ls] were read starting from [ok], and
    [last_format_line ls] is the last of the lines that start with
    [FORMAT=]. *)
Definition format_flag (ok : bool) (ls : list string) : bool :=
  fold_left (fun ok line =>
    if startsWith line "FORMAT=" then bool_decide (trim line = supported_format) else ok)
    ls ok.

Definition last_format_line (ls : list string) : option string :=
  last (List.filter (fun l => startsWith l "FORMAT=") ls).

(** A line made of white space of the ASCII range only. *)
Fixpoint all_space (s : string) : bool :=
  match s with
  | EmptyString => true
  | String c s' => Ascii.is_space c && all_space s'
  end.

(** *** White space and the ASCII range *)

Definition is_ascii (c : ascii) : bool := (N_of_ascii c <? 128)%N.

Fixpoint ascii_text (s : string) : bool :=
  match s with
  | EmptyString => true
  | String c s' => is_ascii c && ascii_text s'
  end.

(** A character of a word: of the ASCII range and no white space. *)
Definition word_char (c : ascii) : bool := is_ascii c && negb (Ascii.is_space c).

Fixpoint has_word_char (s : string) : bool :=
  match s with
  | EmptyString => false
  | String c s' => word_char c || has_word_char s'
  end.

Lemma space2_not_ascii c1 c2 :
  space2 c1 c2 = true -> is_ascii c1 = false /\ is_ascii c2 = false.
Proof. unfold space2. intros [-> ->]%bool_decide_eq_true. done. Qed.

Lemma space3_not_ascii c1 c2 c3 :
  space3 c1 c2 c3 = true ->
  is_ascii c1 = false /\ is_ascii c2 = false /\ is_ascii c3 = false.
Proof.
  unfold space3. cbv zeta. rewrite !orb_true_iff, andb_true_iff.
  intros [[[[H|[H Hn]]|H]|H]|H]; apply bool_decide_eq_true in H.
  - by destruct H as (-> & -> & ->).
  - destruct H as (-> & ->). repeat split. unfold is_ascii. apply N.ltb_ge.
    rewrite !orb_true_iff, andb_true_iff, N.leb_le, !N.eqb_eq in Hn. lia.
  - by destruct H as (-> & -> & ->).
  - by destruct H as (-> & -> & ->).
  - by destruct H as (-> & -> & ->).
Qed.

Lemma space2_ascii_l c1 c2 : is_ascii c1 = true -> space2 c1 c2 = false.
Proof.
  intros Hc. destruct (space2 c1 c2) eqn:Hs; [|done].
  apply space2_not_ascii in Hs as [Hs _]. congruence.
Qed.

Lemma space2_ascii_r c1 c2 : is_ascii c2 = true -> space2 c1 c2 = false.
Proof.
  intros Hc. destruct (space2 c1 c2) eqn:Hs; [|done].
  apply space2_not_ascii in Hs as [_ Hs]. congruence.
Qed.

Lemma space3_ascii_l c1 c2 c3 : is_ascii c1 = true -> space3 c1 c2 c3 = false.
Proof.
  intros Hc. destruct (space3 c1 c2 c3) eqn:Hs; [|done].
  apply space3_not_ascii in Hs as (Hs & _). congruence.
Qed.

Lemma space3_ascii_r c1 c2 c3 : is_ascii c3 = true -> space3 c1 c2 c3 = false.
Proof.
  intros Hc. destruct (space3 c1 c2 c3) eqn:Hs; [|done].
  apply space3_not_ascii in Hs as (_ & _ & Hs). congruence.
Qed.

(** A text that starts with a character of a word has no white space
    to lose at its start. *)
Lemma trimStart_word c s : word_char c = true -> trimStart (String c s) = String c s.
Proof.
  unfold word_char. intros [Ha Hs]%andb_true_iff. apply negb_true_iff in Hs.
  cbn [trimStart]. rewrite Hs.
  destruct s as [|c2 [|c3 s]]; [done|..]; rewrite space2_ascii_l by done; [done|].
  by rewrite space3_ascii_l.
Qed.

Lemma trimStart_all_space s : all_space s = true -> trimStart s = "".
Proof.
  induction s as [|c s IH]; simpl; [done|].
  destruct (Ascii.is_space c); simpl; [auto|discriminate].
Qed.

Lemma trimStart_reversed_all_space s :
  all_space s = true -> trimStart_reversed s = "".
Proof.
  induction s as [|c s IH]; simpl; [done|].
  destruct (Ascii.is_space c); simpl; [auto|discriminate].
Qed.

Lemma all_space_rev_app s1 s2 :
  all_space (String.rev_app s1 s2) = all_space s1 && all_space s2.
Proof.
  revert s2. induction s1 as [|c s1 IH]; intros s2; simpl; [done|].
  rewrite IH. simpl. destruct (Ascii.is_space c), (all_space s1); reflexivity.
Qed.

Lemma all_space_rev s : all_space (String.rev s) = all_space s.
Proof. unfold String.rev. rewrite all_space_rev_app. simpl. apply andb_true_r. Qed.

Lemma rev_app_empty s1 s2 : String.rev_app s1 s2 = "" -> s1 = "" /\ s2 = "".
Proof.
  revert s2. induction s1 as [|c s1 IH]; intros s2; simpl; [done|].
  intros H. apply IH in H. destruct H; discriminate.
Qed.

Lemma has_word_char_rev_app s1 s2 :
  has_word_char (String.rev_app s1 s2) = has_word_char s1 || has_word_char s2.
Proof.
  revert s2. induction s1 as [|c s1 IH]; intros s2; simpl; [done|].
  rewrite IH. simpl. destruct (word_char c), (has_word_char s1); reflexivity.
Qed.

(** White space is removed whole: a text that holds a character of a
    word is not emptied. *)
Lemma trimStart_reversed_word n : forall s,
  String.length s <= n -> has_word_char s = true -> trimStart_reversed s <> "".
Proof.
  induction n as [|n IH]; intros s Hlen Hword.
  { destruct s; [done|simpl in Hlen; lia]. }
  destruct s as [|c1 s1]; [done|]. cbn [trimStart_reversed].
  cbn [has_word_char] in Hword. cbn [String.length] in Hlen.
  destruct (Ascii.is_space c1) eqn:Hs1.
  { apply IH; [lia|]. unfold word_char in Hword. rewrite Hs1, andb_false_r in Hword.
    done. }
  destruct s1 as [|c2 s2]; [done|]. cbn [String.length] in Hlen.
  destruct (space2 c2 c1) eqn:H2.
  { apply space2_not_ascii in H2 as [Hc2 Hc1]. apply IH; [lia|].
    cbn [has_word_char] in Hword. unfold word_char in Hword.
    rewrite Hc1, Hc2 in Hword. done. }
  destruct s2 as [|c3 s3]; [done|]. cbn [String.length] in Hlen.
  destruct (space3 c3 c2 c1) eqn:H3; [|done].
  apply space3_not_ascii in H3 as (Hc3 & Hc2 & Hc1). apply IH; [lia|].
  cbn [has_word_char] in Hword. unfold word_char in Hword.
  rewrite Hc1, Hc2, Hc3 in Hword. done.
Qed.

(** A text that starts with a character of a word is not blank. *)
Lemma trim_word c s : word_char c = true -> trim (String c s) <> "".
Proof.
  intros Hc. unfold trim. rewrite trimStart_word by done.
  unfold String.rev at 1. intros [H _]%rev_app_empty. revert H.
  apply (trimStart_reversed_word (String.length (String.rev (String c s)))); [done|].
  unfold String.rev. rewrite has_word_char_rev_app. cbn [has_word_char].
  rewrite Hc. by destruct (has_word_char s).
Qed.

Lemma trim_all_space s : all_space s = true -> trim s = "".
Proof. intros H. unfold trim. by rewrite (trimStart_all_space s H). Qed.

Lemma blank_not_format s : trim s = "" -> startsWith s "FORMAT=" = false.
Proof.
  intros H. destruct s as [|c s]; [done|].
  cbn [startsWith]. destruct (bool_decide (_ = c)) eqn:Hc; [|done].
  apply bool_decide_eq_true in Hc. subst c. by apply trim_word in H.
Qed.

(** The decoder leaves the bytes of the ASCII range as they are. *)
Definition ascii_bytes (b : bytes) : Prop := Forall (fun z => 0 <= z < 128)%Z b.

Lemma utf8_decode_ascii b :
  ascii_bytes b -> utf8_decode b = string_of_list_ascii (map byte_char b).
Proof.
  induction 1 as [|z b Hz _ IH]; [done|].
  cbn [utf8_decode map string_of_list_ascii]. unfold in_range at 1.
  replace (0 <=? z)%Z with true by (symmetry; apply Z.leb_le; lia).
  replace (z <=? 127)%Z with true by (symmetry; apply Z.leb_le; lia).
  cbn [andb]. by rewrite IH.
Qed.

Lemma byte_char_ascii z : (0 <= z < 128)%Z -> is_ascii (byte_char z) = true.
Proof.
  intros Hz. unfold is_ascii, byte_char. rewrite N_ascii_embedding by lia.
  apply N.ltb_lt. lia.
Qed.

Lemma drop_bom_ascii c s : is_ascii c = true -> drop_bom (String c s) = String c s.
Proof.
  intros Hc. destruct s as [|c2 [|c3 s]]; [done..|]. cbn [drop_bom].
  rewrite bool_decide_eq_false_2; [done|]. by intros (-> & _).
Qed.

Lemma decodeText_ascii b :
  ascii_bytes b -> decodeText b = string_of_list_ascii (map byte_char b).
Proof.
  intros Hb. unfold decodeText. rewrite utf8_decode_ascii by done.
  destruct Hb as [|z b Hz _]; [done|].
  cbn [map string_of_list_ascii]. apply drop_bom_ascii. by apply byte_char_ascii.
Qed.

Lemma encodeText_ascii s : ascii_text s = true -> ascii_bytes (encodeText s).
Proof.
  induction s as [|c s IH]; [constructor|].
  cbn [ascii_text]. intros [Hc Hs]%andb_true_iff.
  unfold encodeText. cbn [list_ascii_of_string map]. constructor; [|by apply IH].
  unfold is_ascii in Hc. apply N.ltb_lt in Hc. lia.
Qed.

Lemma decodeText_encodeText s : ascii_text s = true -> decodeText (encodeText s) = s.
Proof.
  intros Hs. rewrite decodeText_ascii by by apply encodeText_ascii.
  unfold encodeText, byte_char. rewrite map_map.
  clear Hs. induction s as [|c s IH]; [done|].
  cbn [list_ascii_of_string map string_of_list_ascii].
  by rewrite N2Z.id, ascii_N_embedding, IH.
Qed.

(** *** The header loop on a buffer given line by line *)

Lemma scan_line_stop l rest n :
  10%Z ∉ l -> scan_line (l ++ 10%Z :: rest) n = n + length l.
Proof.
  revert n. induction l as [|c l IH]; intros n Hnl; cbn [scan_line app length].
  - rewrite bool_decide_eq_true_2 by done. lia.
  - apply not_elem_of_cons in Hnl as [Hc Hl].
    rewrite bool_decide_eq_false_2 by done. rewrite IH by done. lia.
Qed.

Lemma scan_line_end l n :
  10%Z ∉ l -> scan_line l n = n + length l.
Proof.
  revert n. induction l as [|c l IH]; intros n Hnl; cbn [scan_line length]; [lia|].
  apply not_elem_of_cons in Hnl as [Hc Hl].
  rewrite bool_decide_eq_false_2 by done. rewrite IH by done. lia.
Qed.

Lemma slice_middle (pre l post : bytes) :
  slice (pre ++ l ++ post) (length pre) (length pre + length l) = l.
Proof.
  unfold slice. rewrite drop_app_length.
  replace (length pre + length l - length pre) with (length l) by lia.
  by rewrite take_app_length.
Qed.

Lemma readLine_line pre l rest :
  10%Z ∉ l ->
  readLine (pre ++ l ++ 10%Z :: rest) (length pre)
    = (decodeText l, length (pre ++ l ++ [10%Z])).
Proof.
  intros Hnl. unfold readLine.
  rewrite drop_app_length, scan_line_stop by done.
  rewrite slice_middle. f_equal.
  rewrite !length_app. simpl. lia.
Qed.

Lemma readLine_last pre l :
  10%Z ∉ l ->
  readLine (pre ++ l) (length pre) = (decodeText l, length (pre ++ l)).
Proof.
  intros Hnl. unfold readLine.
  rewrite drop_app_length, scan_line_end by done.
  pose proof (slice_middle pre l []) as Hs. rewrite app_nil_r in Hs.
  rewrite Hs. f_equal. rewrite !length_app. lia.
Qed.

Lemma format_flag_last ls : forall ok,
  format_flag ok ls =
    match last_format_line ls with
    | Some l => bool_decide (trim l = supported_format)
    | None => ok
    end.
Proof.
  unfold format_flag, last_format_line.
  induction ls as [|l ls IH]; intros ok; simpl; [done|].
  rewrite IH. destruct (startsWith l "FORMAT=") eqn:Hl; [|done].
  rewrite last_cons. destruct (last _); done.
Qed.

Lemma join_lines_cons l ls : join_lines (l :: ls) = l ++ 10%Z :: join_lines ls.
Proof. unfold join_lines. simpl. by rewrite <- app_assoc. Qed.

Lemma header_loop_unfold fuel b offset ok :
  header_loop (S fuel) b offset ok =
    if decide (offset < length b) then
      let '(line, next) := readLine b offset in
      let ok := if startsWith line "FORMAT=" then bool_decide (trim line = supported_format)
                else ok in
      if bool_decide (trim line = "") then
        let '(resLine, next2) := readLine b next in
        match parseResolution resLine with
        | None => Some (Throw (Error "Invalid HDR resolution"))
        | Some res => Some (Ok (MkHeaderScan ok (Some res) next2))
        end
      else header_loop fuel b next ok
    else Some (Ok (MkHeaderScan ok None offset)).
Proof. reflexivity. Qed.

Lemma header_loop_finds (hdrLines : list bytes) (blank resLine tail : bytes) res :
  Forall (fun l => 10%Z ∉ l) (hdrLines ++ [blank; resLine]) ->
  (tail = [] \/ exists rest, tail = 10%Z :: rest) ->
  Forall (fun l => trim (decodeText l) <> "") hdrLines ->
  trim (decodeText blank) = "" ->
  parseResolution (decodeText resLine) = Some res ->
  forall pre ok fuel,
  length hdrLines < fuel ->
  exists off,
  header_loop fuel (pre ++ join_lines (hdrLines ++ [blank]) ++ resLine ++ tail)
      (length pre) ok
    = Some (Ok (MkHeaderScan (format_flag ok (map decodeText hdrLines)) (Some res) off)).
Proof.
  intros Hnl Htail Hnb Hblank Hres.
  induction hdrLines as [|l ls IH]; intros pre ok fuel Hfuel.
  - destruct fuel as [|fuel]; [simpl in Hfuel; lia|].
    apply Forall_cons in Hnl as [Hb Hnl]. apply Forall_cons in Hnl as [Hr _].
    rewrite header_loop_unfold.
    cbn [app]. rewrite join_lines_cons. change (join_lines []) with (@nil Z).
    rewrite <- !app_assoc. cbn [app].
    destruct (decide _) as [_|Hge]; [|rewrite !length_app in Hge; simpl in Hge; lia].
    rewrite readLine_line by done.
    rewrite (blank_not_format _ Hblank). rewrite Hblank.
    rewrite bool_decide_eq_true_2 by done.
    assert (exists off, readLine (pre ++ blank ++ 10%Z :: resLine ++ tail)
              (length (pre ++ blank ++ [10%Z])) = (decodeText resLine, off)) as [off Hoff].
    { replace (pre ++ blank ++ 10%Z :: resLine ++ tail)
        with ((pre ++ blank ++ [10%Z]) ++ resLine ++ tail)
        by (rewrite <- !app_assoc; reflexivity).
      destruct Htail as [->|[rest ->]].
      - rewrite app_nil_r. rewrite readLine_last by done. eauto.
      - rewrite readLine_line by done. eauto. }
    rewrite Hoff, Hres. cbn [map format_flag fold_left]. eauto.
  - destruct fuel as [|fuel]; [simpl in Hfuel; lia|].
    apply Forall_cons in Hnl as [Hl Hnl]. apply Forall_cons in Hnb as [Hlb Hnb].
    rewrite header_loop_unfold.
    cbn [app]. rewrite join_lines_cons.
    rewrite <- !app_assoc. cbn [app].
    destruct (decide _) as [_|Hge]; [|rewrite !length_app in Hge; simpl in Hge; lia].
    rewrite readLine_line by done.
    rewrite (bool_decide_eq_false_2 _ Hlb).
    specialize (IH Hnl Hnb (pre ++ l ++ [10%Z])
      (if startsWith (decodeText l) "FORMAT="
       then bool_decide (trim (decodeText l) = supported_format) else ok) fuel).
    destruct IH as [off IH]; [simpl in Hfuel; lia|].
    rewrite <- !app_assoc in IH. cbn [app] in IH. rewrite IH. eauto.
Qed.

Lemma length_join_lines ls : length ls <= length (join_lines ls).
Proof.
  induction ls as [|l ls IH]; [done|].
  rewrite join_lines_cons, length_app. simpl. lia.
Qed.

Lemma scan_line_ge rest n : n <= scan_line rest n <= n + length rest.
Proof.
  revert n. induction rest as [|c rest IH]; intros n; cbn [scan_line length]; [lia|].
  destruct (bool_decide _); [lia|]. specialize (IH (S n)). lia.
Qed.

(** A line read before the end of the buffer ends after its start and
    not after the end of the buffer. *)
Lemma readLine_next b offset :
  offset < length b -> offset < (readLine b offset).2 <= length b.
Proof.
  intros Hlt. unfold readLine. cbn [snd].
  pose proof (scan_line_ge (drop offset b) offset). lia.
Qed.

Lemma header_loop_total fuel : forall b offset ok,
  length b - offset < fuel -> exists r, header_loop fuel b offset ok = Some r.
Proof.
  induction fuel as [|fuel IH]; intros b offset ok Hfuel; [lia|].
  rewrite header_loop_unfold.
  destruct (decide (offset < length b)) as [Hlt|]; [|eauto].
  pose proof (readLine_next b offset Hlt) as Hnext.
  destruct (readLine b offset) as [line next]. cbn [snd] in Hnext.
  destruct (bool_decide (trim line = "")).
  - destruct (readLine b next) as [resLine next2].
    destruct (parseResolution resLine); eauto.
  - apply IH. lia.
Qed.

Lemma header_loop_more_fuel fuel : forall b offset ok r fuel',
  header_loop fuel b offset ok = Some r -> fuel <= fuel' ->
  header_loop fuel' b offset ok = Some r.
Proof.
  induction fuel as [|fuel IH]; intros b offset ok r fuel' Hrun Hle; [discriminate|].
  destruct fuel' as [|fuel']; [lia|].
  rewrite header_loop_unfold in *.
  destruct (decide (offset < length b)); [|done].
  destruct (readLine b offset) as [line next].
  destruct (bool_decide (trim line = "")); [done|].
  apply (IH _ _ _ _ _ Hrun). lia.
Qed.

(** *** The header loop does not depend on what is before the offset *)

Lemma scan_line_shift rest n k : scan_line rest (k + n) = k + scan_line rest n.
Proof.
  revert n. induction rest as [|c rest IH]; intros n; cbn [scan_line]; [done|].
  destruct (bool_decide _); [done|]. by rewrite <- IH, Nat.add_succ_r.
Qed.

Lemma readLine_shift pre b offset :
  readLine (pre ++ b) (length pre + offset)
    = ((readLine b offset).1, length pre + (readLine b offset).2).
Proof.
  unfold readLine. cbn [fst snd].
  rewrite drop_app_add', scan_line_shift by done.
  set (stop := scan_line (drop offset b) offset).
  f_equal.
  - f_equal. unfold slice. rewrite drop_app_add' by done. f_equal. lia.
  - rewrite length_app. lia.
Qed.

Definition shift_scan (k : nat) (r : result HeaderScan) : result HeaderScan :=
  match r with
  | Ok scan => Ok (MkHeaderScan (formatOk scan) (resolution scan) (k + dataOffset scan))
  | Throw e => Throw e
  end.

Lemma header_loop_shift pre fuel : forall b offset ok,
  header_loop fuel (pre ++ b) (length pre + offset) ok
    = shift_scan (length pre) <$> header_loop fuel b offset ok.
Proof.
  induction fuel as [|fuel IH]; intros b offset ok; [done|].
  rewrite !header_loop_unfold.
  destruct (decide (offset < length b)) as [Hlt|Hge].
  - rewrite decide_True by (rewrite length_app; lia).
    rewrite readLine_shift. destruct (readLine b offset) as [line next]. cbn [fst snd].
    destruct (bool_decide (trim line = "")).
    + rewrite readLine_shift. destruct (readLine b next) as [resLine next2]. cbn [fst snd].
      by destruct (parseResolution resLine).
    + apply IH.
  - rewrite decide_False by (rewrite length_app; lia). done.
Qed.

(** The outcome of [readHDRMetadata] from the outcome of the loop. *)
Definition metadata_of (r : option (result HeaderScan)) : option (result PanoramaMetadata) :=
  match r with
  | None => None
  | Some (Throw e) => Some (Throw e)
  | Some (Ok scan) =>
      if negb (formatOk scan) then Some (Throw (Error "Unsupported HDR format"))
      else
        match resolution scan with
        | None => Some (Throw (Error "Missing HDR resolution"))
        | Some res => Some (Ok (Metadata hdr (res_width res) (res_height res)))
        end
  end.

Lemma metadata_of_shift k r : metadata_of (shift_scan k <$> r) = metadata_of r.
Proof. by destruct r as [[scan|e]|]. Qed.

(** A first line that is neither blank nor a [FORMAT=] line, the
    signature for one, changes nothing. *)
Lemma readHDRMetadata_skips_line (l b : bytes) :
  10%Z ∉ l -> trim (decodeText l) <> "" -> startsWith (decodeText l) "FORMAT=" = false ->
  readHDRMetadata (l ++ 10%Z :: b) = readHDRMetadata b.
Proof.
  intros Hnl Hnb Hnf.
  change (metadata_of (scanHeader (l ++ 10%Z :: b)) = metadata_of (scanHeader b)).
  unfold scanHeader. rewrite header_loop_unfold.
  rewrite decide_True by (rewrite length_app; simpl; lia).
  pose proof (readLine_line [] l b Hnl) as Hline. cbn [app length] in Hline.
  rewrite Hline, Hnf, (bool_decide_eq_false_2 _ Hnb).
  pose proof (header_loop_shift (l ++ [10%Z]) (length (l ++ 10%Z :: b)) b 0 false) as Hshift.
  rewrite <- app_assoc, Nat.add_0_r in Hshift. cbn [app] in Hshift.
  cbv zeta. rewrite Hshift.
  rewrite metadata_of_shift.
  destruct (header_loop_total (S (length b)) b 0 false ltac:(lia)) as [r Hr].
  rewrite Hr, (header_loop_more_fuel _ _ _ _ _ (length (l ++ 10%Z :: b)) Hr); [done|].
  rewrite length_app. simpl. lia.
Qed.

(** *** What the decoded text starts with *)

Lemma byte_char_N b : (0 <= b < 256)%Z -> N_of_ascii (byte_char b) = Z.to_N b.
Proof. intros Hb. unfold byte_char. apply N_ascii_embedding. lia. Qed.

Ltac split_decoder :=
  repeat match goal with
         | |- context [if in_range ?lo ?hi ?x then _ else _] =>
             destruct (in_range lo hi x) eqn:?
         | |- context [match ?l with [] => _ | _ :: _ => _ end] => destruct l
         end.

Lemma first_bounds b0 : (128 <= first_lower b0 /\ first_upper b0 <= 191)%Z.
Proof.
  unfold first_lower, first_upper.
  destruct (b0 =? 224)%Z, (b0 =? 240)%Z, (b0 =? 237)%Z, (b0 =? 244)%Z; lia.
Qed.

Ltac range_facts :=
  repeat match goal with
         | H : in_range (first_lower ?x) _ _ = true |- _ =>
             pose proof (first_bounds x);
             unfold in_range in H; apply andb_true_iff in H as [?%Z.leb_le ?%Z.leb_le]
         | H : in_range _ _ _ = true |- _ =>
             unfold in_range in H; apply andb_true_iff in H as [?%Z.leb_le ?%Z.leb_le]
         end.

(** A byte outside the ASCII range never gives a character of that
    range. *)
Lemma utf8_decode_head b0 rest :
  in_range 0 127 b0 = false ->
  exists c s, utf8_decode (b0 :: rest) = String c s /\ is_ascii c = false.
Proof.
  intros H0. cbn [utf8_decode]. rewrite H0. split_decoder;
    (eexists _, _; split; [reflexivity|]); try reflexivity;
    range_facts; unfold is_ascii; rewrite byte_char_N by lia; apply N.ltb_ge; lia.
Qed.

Lemma startsWith_utf8_decode p : forall b,
  ascii_text p = true ->
  startsWith (utf8_decode b) p = true <-> encodeText p `prefix_of` b.
Proof.
  induction p as [|a p IH]; intros b Hp.
  - split; [intros _; apply prefix_nil|intros _; by destruct (utf8_decode b)].
  - cbn [ascii_text] in Hp. apply andb_true_iff in Hp as [Ha Hp].
    unfold encodeText. cbn [list_ascii_of_string map]. fold (encodeText p).
    destruct b as [|b0 rest].
    { split; [done|]. by intros ?%prefix_nil_not. }
    destruct (in_range 0 127 b0) eqn:H0.
    + cbn [utf8_decode]. rewrite H0. cbn [startsWith].
      rewrite andb_true_iff, bool_decide_eq_true, (IH rest Hp).
      range_facts. unfold is_ascii in Ha. apply N.ltb_lt in Ha.
      split.
      * intros [-> Hpre]. rewrite byte_char_N by lia. rewrite Z2N.id by lia.
        by apply prefix_cons.
      * intros Hpre. pose proof (prefix_cons_inv_1 _ _ _ _ Hpre) as <-.
        apply prefix_cons_inv_2 in Hpre. split; [|done].
        unfold byte_char. by rewrite N2Z.id, ascii_N_embedding.
    + destruct (utf8_decode_head b0 rest H0) as (c & s & -> & Hc).
      cbn [startsWith]. split.
      * intros [Hac _]%andb_true_iff. apply bool_decide_eq_true in Hac. congruence.
      * intros Hpre. pose proof (prefix_cons_inv_1 _ _ _ _ Hpre) as <-.
        unfold is_ascii in Ha. apply N.ltb_lt in Ha.
        unfold in_range in H0. apply andb_false_iff in H0 as [?%Z.leb_gt|?%Z.leb_gt]; lia.
Qed.

Definition byte_order_mark : bytes := [239; 187; 191]%Z.

Lemma byte_char_eq b c :
  (0 <= b < 256)%Z -> byte_char b = c -> b = Z.of_N (N_of_ascii c).
Proof. intros Hb <-. rewrite byte_char_N by done. lia. Qed.

(** The text starts with U+FEFF when the bytes start with its three
    bytes, and only then. *)
Lemma utf8_decode_bom b s :
  utf8_decode b = String "239" (String "187" (String "191" s)) ->
  exists rest, b = byte_order_mark ++ rest /\ s = utf8_decode rest.
Proof.
  destruct b as [|b0 b]; [done|]. cbn [utf8_decode].
  split_decoder; unfold replacement; intros H; inversion H; clear H; range_facts;
    repeat match goal with
           | Hc : byte_char _ = _ |- _ =>
               apply byte_char_eq in Hc; [|lia]; vm_compute in Hc
           end;
    try lia.
  subst. by eexists.
Qed.

Lemma decodeText_bom rest : decodeText (byte_order_mark ++ rest) = utf8_decode rest.
Proof. reflexivity. Qed.

Lemma decodeText_no_bom b :
  ~ byte_order_mark `prefix_of` b -> decodeText b = utf8_decode b.
Proof.
  intros Hno. unfold decodeText, drop_bom.
  destruct (utf8_decode b) as [|c1 [|c2 [|c3 s]]] eqn:Hu; [done..|].
  destruct (bool_decide _) eqn:Hbom; [|done].
  apply bool_decide_eq_true in Hbom as (-> & -> & ->).
  apply utf8_decode_bom in Hu as (rest & -> & _). destruct Hno. by eexists.
Qed.

(** The decoded text starts with an ASCII text when the bytes start with
    it, after a byte order mark or not. *)
Lemma startsWith_decodeText p b :
  ascii_text p = true -> p <> "" ->
  startsWith (decodeText b) p = true
  <-> encodeText p `prefix_of` b \/ (byte_order_mark ++ encodeText p) `prefix_of` b.
Proof.
  intros Hp Hne.
  assert (forall rest, ~ encodeText p `prefix_of` byte_order_mark ++ rest) as Hfirst.
  { destruct p as [|a p]; [done|]. intros rest Hpre.
    cbn [ascii_text] in Hp. apply andb_true_iff in Hp as [Ha _].
    unfold encodeText in Hpre. cbn [list_ascii_of_string map] in Hpre.
    apply prefix_cons_inv_1 in Hpre. unfold is_ascii in Ha. apply N.ltb_lt in Ha. lia. }
  destruct (decide (byte_order_mark `prefix_of` b)) as [[rest ->]|Hno].
  - rewrite decodeText_bom, startsWith_utf8_decode by done. split.
    + intros Hpre. right. by apply prefix_app.
    + intros [Hpre|Hpre]; [by apply Hfirst in Hpre|]. by apply prefix_app_inv in Hpre.
  - rewrite decodeText_no_bom, startsWith_utf8_decode by done. split; [by left|].
    intros [Hpre|Hpre]; [done|]. destruct Hno.
    etrans; [|exact Hpre]. by apply prefix_app_r.
Qed.

Lemma prefix_of_slice (l b : bytes) n :
  length l <= n -> l `prefix_of` slice b 0 n <-> l `prefix_of` b.
Proof.
  intros Hlen. unfold slice. rewrite drop_0, Nat.sub_0_r. split.
  - intros Hpre. etrans; [exact Hpre|]. apply prefix_take.
  - intros [k ->]. rewrite take_app_ge by done. by apply prefix_app_r.
Qed.

(** [validatePanoramaBuffer] is where the signature is looked at. *)
Lemma validatePanoramaBuffer_hdr_signature b :
  validatePanoramaBuffer_hdr b = ValidationFailed "Invalid HDR signature"
  <-> ~ (encodeText HDR_SIGNATURE `prefix_of` b \/
         (byte_order_mark ++ encodeText HDR_SIGNATURE) `prefix_of` b).
Proof.
  rewrite <- (prefix_of_slice (encodeText HDR_SIGNATURE) b 4096) by (vm_compute; lia).
  rewrite <- (prefix_of_slice (byte_order_mark ++ encodeText HDR_SIGNATURE) b 4096)
    by (vm_compute; lia).
  rewrite <- (startsWith_decodeText HDR_SIGNATURE) by done.
  unfold validatePanoramaBuffer_hdr. cbv zeta.
  destruct (startsWith (decodeText (slice b 0 4096)) HDR_SIGNATURE); cbn [negb].
  - split; [|done]. by destruct (negb _).
  - split; [by intros _|done].
Qed.

(** C10 (amended). [readHDRMetadata] does not look at the [#?RADIANCE]
    signature: a first line that holds it can be there or not, the
    outcome is the same.  It succeeds on every buffer made of header
    lines, none of them blank, the LAST of those that start with
    [FORMAT=] having the trimmed text [FORMAT=32-bit_rle_rgbe], then a
    blank line, then a line that [parseResolution] accepts, whatever
    follows that line; it returns the dimensions of that line.  The
    signature is what [validatePanoramaBuffer] checks: it answers
    "Invalid HDR signature" on the buffers that do not start with the
    signature (after a byte order mark or not), and on no other. *)
Theorem readHDRMetadata_accepts
    (hdrLines : list bytes) (blank resLine tail : bytes) (fmt : string) (res : Resolution) :
  Forall (fun l => 10%Z ∉ l) (hdrLines ++ [blank; resLine]) ->
  (tail = [] \/ exists rest, tail = 10%Z :: rest) ->
  Forall (fun l => trim (decodeText l) <> "") hdrLines ->
  trim (decodeText blank) = "" ->
  last_format_line (map decodeText hdrLines) = Some fmt ->
  trim fmt = supported_format ->
  parseResolution (decodeText resLine) = Some res ->
  readHDRMetadata (join_lines (hdrLines ++ [blank]) ++ resLine ++ tail)
    = Some (Ok (Metadata hdr (res_width res) (res_height res))) /\
  (forall b, readHDRMetadata (encodeText HDR_SIGNATURE ++ 10%Z :: b) = readHDRMetadata b) /\
  (forall b, validatePanoramaBuffer_hdr b = ValidationFailed "Invalid HDR signature"
     <-> ~ (encodeText HDR_SIGNATURE `prefix_of` b \/
            (byte_order_mark ++ encodeText HDR_SIGNATURE) `prefix_of` b)).
Proof.
  intros Hnl Htail Hnb Hblank Hlast Hfmt Hres. split; [|split].
  - unfold readHDRMetadata, scanHeader.
    destruct (header_loop_finds hdrLines blank resLine tail res Hnl Htail Hnb Hblank Hres
                [] false (S (length (join_lines (hdrLines ++ [blank]) ++ resLine ++ tail))))
      as [off Hloop].
    { rewrite length_app.
      pose proof (length_join_lines (hdrLines ++ [blank])) as Hlen.
      rewrite length_app in Hlen. simpl in Hlen. lia. }
    cbn [app length] in Hloop. rewrite Hloop. cbn [formatOk resolution].
    rewrite format_flag_last, Hlast, Hfmt.
    rewrite bool_decide_eq_true_2 by done. reflexivity.
  - intros b. apply readHDRMetadata_skips_line.
    + apply (bool_decide_unpack _). by vm_compute.
    + by vm_compute.
    + reflexivity.
  - apply validatePanoramaBuffer_hdr_signature.
Qed.

(** The header of the documented example, without and with its
    signature line, followed by a scanline of pixel data. *)
Lemma readHDRMetadata_accepts_witness :
  readHDRMetadata
    (join_lines ([encodeText "FORMAT=32-bit_rle_rgbe"] ++ [[]])
       ++ encodeText "-Y 1 +X 2" ++ [10; 200; 130; 255; 140; 10; 0; 0; 129]%Z)
    = Some (Ok (Metadata hdr 2 1)) /\
  (forall b, readHDRMetadata (encodeText HDR_SIGNATURE ++ 10%Z :: b) = readHDRMetadata b) /\
  (forall b, validatePanoramaBuffer_hdr b = ValidationFailed "Invalid HDR signature"
     <-> ~ (encodeText HDR_SIGNATURE `prefix_of` b \/
            (byte_order_mark ++ encodeText HDR_SIGNATURE) `prefix_of` b)).
Proof.
  apply (readHDRMetadata_accepts [encodeText "FORMAT=32-bit_rle_rgbe"] []
           (encodeText "-Y 1 +X 2") [10; 200; 130; 255; 140; 10; 0; 0; 129]%Z
           "FORMAT=32-bit_rle_rgbe" (MkResolution 2 1 "-Y" "+X")).
  - apply (bool_decide_unpack _). by vm_compute.
  - right. by eexists.
  - repeat constructor. by vm_compute.
  - reflexivity.
  - reflexivity.
  - reflexivity.
  - reflexivity.
Defined.

(** C10 as stated fails: a header with a supported [FORMAT=] line followed
    by another [FORMAT=] line, then the blank line and a valid resolution
    line, is rejected, because each [FORMAT=] line overwrites [formatOk]. *)
Lemma readHDRMetadata_later_format_line_overrides :
  let hdrLines := [encodeText "FORMAT=32-bit_rle_rgbe"; encodeText "FORMAT=32-bit_rle_xyze"] in
  let resLine := encodeText "-Y 4 +X 8" in
  let b := join_lines (hdrLines ++ [[]]) ++ resLine ++ [10%Z] in
  (exists l, l ∈ map decodeText hdrLines /\
     startsWith l "FORMAT=" = true /\ trim l = supported_format) /\
  Forall (fun l => trim (decodeText l) <> "") hdrLines /\
  trim (decodeText []) = "" /\
  parseResolution (decodeText resLine) = Some (MkResolution 8 4 "-Y" "+X") /\
  readHDRMetadata b = Some (Throw (Error "Unsupported HDR format")).
Proof.
  cbv zeta. split; [|split; [|split; [|split]]].
  - exists "FORMAT=32-bit_rle_rgbe". split; [|split]; [|reflexivity..].
    vm_compute. constructor.
  - repeat constructor; vm_compute; discriminate.
  - reflexivity.
  - reflexivity.
  - vm_compute. reflexivity.
Qed.

End HdrHeader.

(** ** OpenEXR: channel selection *)
Module ExrChannels.

(** [s.lastIndexOf('.')]; [None] is [-1]. *)
Fixpoint lastIndexOf_from (s : string) (i : nat) (found : option nat) : option nat :=
  match s with
  | EmptyString => found
  | String c s' =>
      lastIndexOf_from s' (S i) (if bool_decide (c = "."%char) then Some i else found)
  end.
Definition lastIndexOf_dot (s : string) : option nat := lastIndexOf_from s 0 None.

Definition to_upper (c : ascii) : ascii :=
  let n := N_of_ascii c in
  if ((97 <=? n) && (n <=? 122))%N then ascii_of_N (n - 32) else c.

(** [s.toUpperCase()] on the ASCII range. *)
Fixpoint toUpperCase (s : string) : string :=
  match s with
  | EmptyString => EmptyString
  | String c s' => String (to_upper c) (toUpperCase s')
  end.

(** [splitChannelName(name)] returns [{ layer, component }]. *)
Definition splitChannelName (name : string) : string * string :=
  match lastIndexOf_dot name with
  | None => (EmptyString, name)
  | Some dot =>
      (String.substring 0 dot name,
       String.substring (dot + 1) (String.length name - (dot + 1)) name)
  end.

Record EXRChannel := MkChannel {
  name : string;
  pixelType : Z;
  xSampling : Z;
  ySampling : Z
}.

Record SelectedChannels := MkSelected {
  sel_r : option nat;
  sel_g : option nat;
  sel_b : option nat;
  sel_y : option nat
}.

(** A JavaScript [Map] with string keys: the entries in insertion order;
    [set] on a present key keeps its place. *)
Definition jsmap (V : Type) := list (string * V).

Fixpoint map_get {V} (m : jsmap V) (k : string) : option V :=
  match m with
  | [] => None
  | (k', v) :: m' => if decide (k' = k) then Some v else map_get m' k
  end.

Definition map_has {V} (m : jsmap V) (k : string) : bool :=
  match map_get m k with Some _ => true | None => false end.

Fixpoint map_set {V} (m : jsmap V) (k : string) (v : V) : jsmap V :=
  match m with
  | [] => [(k, v)]
  | (k', v') :: m' =>
      if decide (k' = k) then (k, v) :: m' else (k', v') :: map_set m' k v
  end.

Record LayerEntry := MkEntry { order : nat; cmap : jsmap nat }.

(** Body of the loop over the channels: the state is [layers] and
    [nextOrder].  The entry is an object shared with [layers], so that
    [entry.map.set] updates the entry that [layers] holds. *)
Definition add_channel (st : jsmap LayerEntry * nat) (i : nat) (ch : EXRChannel)
  : jsmap LayerEntry * nat :=
  let '(layers, nextOrder) := st in
  let '(layer, component) := splitChannelName (name ch) in
  let key := toUpperCase component in
  let '(entry, layers, nextOrder) :=
    match map_get layers layer with
    | Some entry => (entry, layers, nextOrder)
    | None =>
        let entry := MkEntry nextOrder [] in
        (entry, map_set layers layer entry, S nextOrder)
    end in
  if map_has (cmap entry) key then (layers, nextOrder)
  else (map_set layers layer (MkEntry (order entry) (map_set (cmap entry) key i)), nextOrder).

Fixpoint build_layers (chs : list EXRChannel) (i : nat) (st : jsmap LayerEntry * nat)
  : jsmap LayerEntry * nat :=
  match chs with
  | [] => st
  | ch :: rest => build_layers rest (S i) (add_channel st i ch)
  end.

(** [entries.sort((a, b) => a[1].order - b[1].order)], a stable sort. *)
Fixpoint insert_by_order (x : string * LayerEntry) (l : list (string * LayerEntry))
  : list (string * LayerEntry) :=
  match l with
  | [] => [x]
  | y :: l' =>
      if order (snd x) <=? order (snd y) then x :: y :: l'
      else y :: insert_by_order x l'
  end.
Fixpoint sort_by_order (l : list (string * LayerEntry)) : list (string * LayerEntry) :=
  match l with
  | [] => []
  | x :: l' => insert_by_order x (sort_by_order l')
  end.

Definition has_rgb_entry (e : LayerEntry) : bool :=
  map_has (cmap e) "R" && map_has (cmap e) "G" && map_has (cmap e) "B".

(** [a || b] on the results of [Array.prototype.find]. *)
Definition or_else {A} (a b : option A) : option A :=
  match a with Some _ => a | None => b end.

(** [selectChannels(channels)]. *)
Definition selectChannels (channels : list EXRChannel) : SelectedChannels :=
  let layers := fst (build_layers channels 0 ([], 0)) in
  let orderedLayers := sort_by_order layers in
  let rgbLayer :=
    or_else
      (List.find (fun '(layer, e) => bool_decide (layer = "") && has_rgb_entry e) orderedLayers)
      (List.find (fun '(_, e) => has_rgb_entry e) orderedLayers) in
  match rgbLayer with
  | Some (_, e) =>
      MkSelected (map_get (cmap e) "R") (map_get (cmap e) "G") (map_get (cmap e) "B") None
  | None =>
      let yLayer :=
        or_else
          (List.find (fun '(layer, e) => bool_decide (layer = "") && map_has (cmap e) "Y")
             orderedLayers)
          (List.find (fun '(_, e) => map_has (cmap e) "Y") orderedLayers) in
      match yLayer with
      | Some (_, e) => MkSelected None None None (map_get (cmap e) "Y")
      | None => MkSelected (Some 0) None None None
      end
  end.

(** The three-way choice made for every pixel by [readRGB] and
    [sampleLine]: [readValueAt] reads the value of a channel position. *)
Definition readRGB {V} (selected : SelectedChannels) (readValueAt : nat -> V) : V * V * V :=
  match sel_r selected, sel_g selected, sel_b selected with
  | Some r, Some g, Some b => (readValueAt r, readValueAt g, readValueAt b)
  | _, _, _ =>
      match sel_y selected with
      | Some y => let yv := readValueAt y in (yv, yv, yv)
      | None => let first := readValueAt 0 in (first, first, first)
      end
  end.

(** *** The selection as the documentation words it *)

Definition layer_of (ch : EXRChannel) : string := fst (splitChannelName (name ch)).
Definition component_of (ch : EXRChannel) : string :=
  toUpperCase (snd (splitChannelName (name ch))).

(** The distinct elements of a list, in the order of their first
    occurrence. *)
Definition first_seen (l : list string) : list string :=
  fold_left (fun acc x => if decide (x ∈ acc) then acc else acc ++ [x]) l [].

Definition layers_seen (chs : list EXRChannel) : list string :=
  first_seen (map layer_of chs).

(** Position of the first channel of [layer] whose component is [key]. *)
Definition first_index (chs : list EXRChannel) (layer key : string) : option nat :=
  fst <$> list_find (fun ch => layer_of ch = layer /\ component_of ch = key) chs.

Definition has_component (chs : list EXRChannel) (layer key : string) : bool :=
  match first_index chs layer key with Some _ => true | None => false end.

Definition has_rgb (chs : list EXRChannel) (layer : string) : bool :=
  has_component chs layer "R" && has_component chs layer "G" && has_component chs layer "B".

Definition rgb_of (chs : list EXRChannel) (layer : string) : SelectedChannels :=
  MkSelected (first_index chs layer "R") (first_index chs layer "G")
    (first_index chs layer "B") None.

Definition y_of (chs : list EXRChannel) (layer : string) : SelectedChannels :=
  MkSelected None None None (first_index chs layer "Y").

Definition scalar_fallback : SelectedChannels := MkSelected (Some 0) None None None.

Definition documented_selection (chs : list EXRChannel) : SelectedChannels :=
  if has_rgb chs "" then rgb_of chs ""
  else
    match List.find (has_rgb chs) (layers_seen chs) with
    | Some layer => rgb_of chs layer
    | None =>
        if has_component chs "" "Y" then y_of chs ""
        else
          match List.find (fun layer => has_component chs layer "Y") (layers_seen chs) with
          | Some layer => y_of chs layer
          | None => scalar_fallback
          end
    end.

(** Invariant of the loop over the channels. *)
Definition layers_inv (done : list EXRChannel) (st : jsmap LayerEntry * nat) : Prop :=
  map fst (fst st) = layers_seen done /\
  map (fun p => order (snd p)) (fst st) = seq 0 (length (fst st)) /\
  snd st = length (fst st) /\
  forall layer e, map_get (fst st) layer = Some e ->
    forall key, map_get (cmap e) key = first_index done layer key.

(** Channels named as in a file, with the [HALF] pixel type. *)
Definition named (names : list string) : list EXRChannel :=
  map (fun n => MkChannel n 1 1 1) names.

(** *** Facts on maps and on the first-seen order *)

Section jsmap_facts.
Context {V : Type}.
Implicit Types (m : jsmap V) (k : string) (v : V).

Lemma map_get_set m k v k' :
  map_get (map_set m k v) k' = if decide (k = k') then Some v else map_get m k'.
Proof.
  induction m as [|[k0 v0] m IH]; simpl.
  - destruct (decide (k = k')); reflexivity.
  - destruct (decide (k0 = k)) as [->|Hne]; simpl.
    + destruct (decide (k = k')); reflexivity.
    + destruct (decide (k0 = k')) as [->|Hne'].
      * destruct (decide (k = k')); [congruence|reflexivity].
      * exact IH.
Qed.

Lemma map_get_None m k : map_get m k = None <-> k ∉ map fst m.
Proof.
  induction m as [|[k0 v0] m IH]; simpl.
  - split; [intros _; apply not_elem_of_nil|done].
  - destruct (decide (k0 = k)) as [->|Hne].
    + split; [discriminate|]. intros H. exfalso. apply H. left.
    + rewrite IH, not_elem_of_cons. split; [by intros ?; split; [congruence|]|by intros [_ ?]].
Qed.

Lemma map_set_keys_absent m k v :
  map_get m k = None -> map fst (map_set m k v) = map fst m ++ [k].
Proof.
  induction m as [|[k0 v0] m IH]; simpl; [done|].
  destruct (decide (k0 = k)); [discriminate|].
  intros H. simpl. by rewrite IH.
Qed.

Lemma map_set_keys_present m k v v0 :
  map_get m k = Some v0 -> map fst (map_set m k v) = map fst m.
Proof.
  induction m as [|[k0 v1] m IH]; simpl; [done|].
  destruct (decide (k0 = k)) as [->|]; [done|].
  intros H. simpl. by rewrite IH.
Qed.

Lemma map_get_elem m k v : map_get m k = Some v -> (k, v) ∈ m.
Proof.
  induction m as [|[k0 v0] m IH]; simpl; [done|].
  destruct (decide (k0 = k)) as [->|].
  - intros [= ->]. left.
  - intros H. right. auto.
Qed.

Lemma elem_map_get m k v : NoDup (map fst m) -> (k, v) ∈ m -> map_get m k = Some v.
Proof.
  induction m as [|[k0 v0] m IH]; simpl; intros Hnd Hin.
  - by apply elem_of_nil in Hin.
  - apply NoDup_cons in Hnd as [Hk0 Hnd].
    apply elem_of_cons in Hin as [[= <- <-]|Hin].
    + by rewrite decide_True.
    + destruct (decide (k0 = k)) as [->|]; [|auto].
      exfalso. apply Hk0. apply list_elem_of_fmap. by exists (k, v).
Qed.
Lemma map_set_length_present m k v v0 :
  map_get m k = Some v0 -> length (map_set m k v) = length m.
Proof.
  intros H. rewrite <- (length_map fst), (map_set_keys_present _ _ _ _ H).
  apply length_map.
Qed.

Lemma map_set_length_absent m k v :
  map_get m k = None -> length (map_set m k v) = S (length m).
Proof.
  intros H. rewrite <- (length_map fst), (map_set_keys_absent _ _ _ H).
  rewrite length_app, length_map. simpl. lia.
Qed.
End jsmap_facts.

Lemma map_set_orders_absent (m : jsmap LayerEntry) k e :
  map_get m k = None ->
  map (fun p => order (snd p)) (map_set m k e) = map (fun p => order (snd p)) m ++ [order e].
Proof.
  induction m as [|[k0 v0] m IH]; simpl; [done|].
  destruct (decide (k0 = k)); [discriminate|].
  intros H. simpl. by rewrite IH.
Qed.

Lemma map_set_orders_present (m : jsmap LayerEntry) k e e0 :
  map_get m k = Some e0 -> order e = order e0 ->
  map (fun p => order (snd p)) (map_set m k e) = map (fun p => order (snd p)) m.
Proof.
  induction m as [|[k0 v0] m IH]; simpl; [done|].
  destruct (decide (k0 = k)) as [->|].
  - intros [= <-] Ho. simpl. by rewrite Ho.
  - intros H Ho. simpl. by rewrite IH.
Qed.

(** first_seen *)
Lemma first_seen_snoc l x :
  first_seen (l ++ [x]) =
    if decide (x ∈ first_seen l) then first_seen l else first_seen l ++ [x].
Proof. unfold first_seen. rewrite fold_left_app. reflexivity. Qed.

Lemma first_seen_elem l x : x ∈ first_seen l <-> x ∈ l.
Proof.
  induction l as [|y l IH] using rev_ind.
  - done.
  - rewrite first_seen_snoc. destruct (decide (y ∈ first_seen l)) as [Hy|Hy].
    + rewrite elem_of_app, IH, list_elem_of_singleton.
      split; [auto|]. intros [?| ->]; [done|]. by apply IH.
    + rewrite !elem_of_app, IH. done.
Qed.

Lemma first_seen_NoDup l : NoDup (first_seen l).
Proof.
  induction l as [|y l IH] using rev_ind.
  - constructor.
  - rewrite first_seen_snoc. destruct (decide (y ∈ first_seen l)) as [Hy|Hy]; [done|].
    apply NoDup_app. split; [done|]. split.
    + intros z Hz Hz'. apply list_elem_of_singleton in Hz'. by subst.
    + apply NoDup_singleton.
Qed.

Lemma list_find_snoc {A} (P : A -> Prop) `{!forall x, Decision (P x)} (l : list A) x :
  list_find P (l ++ [x]) =
    match list_find P l with
    | Some r => Some r
    | None => if decide (P x) then Some (length l, x) else None
    end.
Proof.
  induction l as [|c l IH]; simpl.
  - destruct (decide (P x)); reflexivity.
  - destruct (decide (P c)); [done|].
    rewrite IH. destruct (list_find P l) as [[j y]|]; simpl; [done|].
    destruct (decide (P x)); reflexivity.
Qed.

Lemma first_index_snoc chs ch layer key :
  first_index (chs ++ [ch]) layer key =
    match first_index chs layer key with
    | Some j => Some j
    | None =>
        if decide (layer_of ch = layer /\ component_of ch = key) then Some (length chs)
        else None
    end.
Proof.
  unfold first_index. rewrite list_find_snoc.
  destruct (list_find _ chs) as [[j y]|]; simpl; [done|].
  destruct (decide _); reflexivity.
Qed.

Lemma first_index_layer chs layer key j :
  first_index chs layer key = Some j -> layer ∈ map layer_of chs.
Proof.
  unfold first_index. destruct (list_find _ chs) as [[i c]|] eqn:Hf; [|done].
  intros _. apply list_find_Some in Hf as (Hi & [Hl _] & _).
  apply list_elem_of_fmap. exists c. split; [done|]. by eapply list_elem_of_lookup_2.
Qed.

Lemma layers_inv_init : layers_inv [] ([], 0).
Proof. repeat split. intros layer e H. discriminate. Qed.

Lemma map_get_not_layer done layers layer e ch key :
  (forall layer e, map_get layers layer = Some e ->
    forall key, map_get (cmap e) key = first_index done layer key) ->
  map_get layers layer = Some e ->
  layer_of ch <> layer ->
  map_get (cmap e) key = first_index (done ++ [ch]) layer key.
Proof.
  intros Hinv Hget Hne. rewrite first_index_snoc, <- (Hinv _ _ Hget).
  destruct (map_get (cmap e) key); [done|].
  rewrite decide_False; [done|]. intros [? _]. done.
Qed.

Lemma add_channel_inv done st ch :
  layers_inv done st ->
  layers_inv (done ++ [ch]) (add_channel st (length done) ch).
Proof.
  destruct st as [layers n]. intros (Hkeys & Hord & Hn & Hmaps). simpl in *. subst n.
  unfold add_channel.
  assert (layer_of ch = fst (splitChannelName (name ch))) as Hl by reflexivity.
  assert (component_of ch = toUpperCase (snd (splitChannelName (name ch)))) as Hc
    by reflexivity.
  destruct (splitChannelName (name ch)) as [layer component]. simpl in Hl, Hc.
  assert (layers_seen (done ++ [ch]) =
          if decide (layer ∈ layers_seen done) then layers_seen done
          else layers_seen done ++ [layer]) as Hseen.
  { unfold layers_seen. rewrite map_app. simpl. rewrite first_seen_snoc, Hl. done. }
  destruct (map_get layers layer) as [entry|] eqn:Hget.
  - (* the layer is known *)
    assert (layer ∈ layers_seen done) as Hin.
    { rewrite <- Hkeys. apply list_elem_of_fmap. exists (layer, entry).
      split; [done|]. by apply map_get_elem. }
    rewrite decide_True in Hseen by done.
    unfold map_has. destruct (map_get (cmap entry) (toUpperCase component)) as [j|] eqn:Hkey.
    + (* the component is known too *)
      repeat split; simpl; try done; [congruence|].
      intros layer' e' Hget' key.
      destruct (decide (layer_of ch = layer')) as [Heq|Hne].
      * rewrite Hl in Heq. subst layer'. rewrite Hget in Hget'. injection Hget' as <-.
        rewrite first_index_snoc, <- (Hmaps _ _ Hget).
        destruct (map_get (cmap entry) key) eqn:Hk; [done|].
        rewrite decide_False; [done|]. intros [_ Hck]. rewrite Hc in Hck. congruence.
      * by eapply map_get_not_layer.
    + (* a new component of a known layer *)
      repeat split; simpl.
      * rewrite (map_set_keys_present _ _ _ _ Hget). congruence.
      * rewrite (map_set_orders_present _ _ _ _ Hget) by done.
        rewrite Hord. by rewrite (map_set_length_present _ _ _ _ Hget).
      * by rewrite (map_set_length_present _ _ _ _ Hget).
      * intros layer' e' Hget' key. rewrite map_get_set in Hget'.
        destruct (decide (layer = layer')) as [<-|Hne].
        -- injection Hget' as <-. simpl. rewrite map_get_set.
           rewrite first_index_snoc, <- (Hmaps _ _ Hget).
           destruct (decide (toUpperCase component = key)) as [<-|Hk].
           ++ rewrite Hkey. rewrite decide_True; [done|]. done.
           ++ destruct (map_get (cmap entry) key); [done|].
              rewrite decide_False; [done|]. intros [_ Hck]. congruence.
        -- eapply map_get_not_layer; eauto. congruence.
  - (* a new layer *)
    assert (layer ∉ layers_seen done) as Hnin.
    { rewrite <- Hkeys. by apply map_get_None. }
    rewrite decide_False in Hseen by done.
    simpl. unfold map_has. simpl.
    assert (map_get (map_set layers layer (MkEntry (length layers) [])) layer
            = Some (MkEntry (length layers) [])) as Hget0.
    { rewrite map_get_set. by rewrite decide_True. }
    assert (map fst (map_set layers layer (MkEntry (length layers) []))
            = map fst layers ++ [layer]) as Hk0 by (by apply map_set_keys_absent).
    assert (length (map_set layers layer (MkEntry (length layers) [])) = S (length layers))
      as Hlen0 by (by apply map_set_length_absent).
    repeat split; simpl.
    + rewrite (map_set_keys_present _ _ _ _ Hget0), Hk0. congruence.
    + rewrite (map_set_orders_present _ _ _ _ Hget0) by done.
      rewrite map_set_orders_absent by done. simpl.
      rewrite (map_set_length_present _ _ _ _ Hget0), Hlen0.
      rewrite seq_S. simpl. by rewrite Hord.
    + by rewrite (map_set_length_present _ _ _ _ Hget0), Hlen0.
    + intros layer' e' Hget' key. rewrite !map_get_set in Hget'.
      destruct (decide (layer = layer')) as [<-|Hne].
      * injection Hget' as <-. simpl.
        rewrite first_index_snoc.
        destruct (first_index done layer key) as [j|] eqn:Hfi.
        { exfalso. apply Hnin. apply first_seen_elem. by eapply first_index_layer. }
        destruct (decide (toUpperCase component = key)) as [<-|Hk].
        -- by rewrite decide_True.
        -- rewrite decide_False; [done|]. intros [_ Hck]. congruence.
      * eapply map_get_not_layer; eauto. congruence.
Qed.

Lemma build_layers_inv rest : forall done st,
  layers_inv done st ->
  layers_inv (done ++ rest) (build_layers rest (length done) st).
Proof.
  induction rest as [|ch rest IH]; intros done st Hinv; simpl.
  - by rewrite app_nil_r.
  - replace (done ++ ch :: rest) with ((done ++ [ch]) ++ rest)
      by (by rewrite <- app_assoc).
    replace (S (length done)) with (length (done ++ [ch]))
      by (rewrite length_app; simpl; lia).
    apply IH. by apply add_channel_inv.
Qed.

Lemma insert_by_order_head x l :
  (forall y, head l = Some y -> order (snd x) <= order (snd y)) ->
  insert_by_order x l = x :: l.
Proof.
  destruct l as [|y l]; simpl; [done|].
  intros H. specialize (H y eq_refl).
  destruct (Nat.leb_spec (order (snd x)) (order (snd y))); [done|lia].
Qed.

Lemma sort_by_order_sorted l : forall start,
  map (fun p => order (snd p)) l = seq start (length l) ->
  sort_by_order l = l.
Proof.
  induction l as [|x l IH]; intros start Hord; simpl; [done|].
  simpl in Hord. injection Hord as Hx Hl.
  rewrite (IH (S start) Hl). apply insert_by_order_head.
  intros y Hy. destruct l as [|y' l]; simpl in *; [done|].
  injection Hy as ->. injection Hl as Hy _. lia.
Qed.

(** Searching the entries with a test that only depends on the layer
    name. *)
Lemma find_entries (P : string * LayerEntry -> bool) (Q : string -> bool)
    (layers : jsmap LayerEntry) :
  Forall (fun p => P p = Q (fst p)) layers ->
  match List.find P layers with
  | Some p => List.find Q (map fst layers) = Some (fst p) /\ p ∈ layers
  | None => List.find Q (map fst layers) = None
  end.
Proof.
  induction layers as [|p layers IH]; intros Hall; simpl; [done|].
  apply Forall_cons in Hall as [Hp Hall]. rewrite <- Hp.
  destruct (P p).
  - split; [done|left].
  - specialize (IH Hall). destruct (List.find P layers).
    + destruct IH. split; [done|by right].
    + done.
Qed.

Lemma find_default (Q : string -> bool) (names : list string) :
  match List.find (fun l => bool_decide (l = "") && Q l) names with
  | Some l => l = "" /\ Q "" = true
  | None => "" ∈ names -> Q "" = false
  end.
Proof.
  induction names as [|l names IH]; simpl.
  - intros H. by apply elem_of_nil in H.
  - destruct (bool_decide (l = "")) eqn:Hl; simpl.
    + apply bool_decide_eq_true in Hl. subst l. destruct (Q "") eqn:HQ; [done|].
      destruct (List.find _ names); [|done]. destruct IH; congruence.
    + apply bool_decide_eq_false in Hl.
      destruct (List.find _ names); [done|].
      intros Hin. apply elem_of_cons in Hin as [?|?]; [done|auto].
Qed.

Lemma has_component_layer chs layer key :
  has_component chs layer key = true -> layer ∈ layers_seen chs.
Proof.
  unfold has_component. destruct (first_index chs layer key) eqn:H; [|done].
  intros _. apply first_seen_elem. by eapply first_index_layer.
Qed.

Lemma selectChannels_refines chs : selectChannels chs = documented_selection chs.
Proof.
  unfold selectChannels, documented_selection.
  pose proof (build_layers_inv chs [] ([], 0) layers_inv_init) as Hinv.
  simpl in Hinv. destruct (build_layers chs 0 ([], 0)) as [layers n].
  destruct Hinv as (Hkeys & Hord & _ & Hmaps). simpl in *.
  rewrite (sort_by_order_sorted layers 0 Hord).
  assert (NoDup (map fst layers)) as Hnd by (rewrite Hkeys; apply first_seen_NoDup).
  assert (forall l e, (l, e) ∈ layers ->
            forall key, map_get (cmap e) key = first_index chs l key) as Hent.
  { intros l e Hin. apply Hmaps. by apply elem_map_get. }
  assert (forall key l e, (l, e) ∈ layers ->
            map_has (cmap e) key = has_component chs l key) as Hhas1.
  { intros key l e Hin. unfold map_has, has_component. by rewrite (Hent l e Hin). }
  assert (forall key, Forall (fun p : string * LayerEntry =>
            map_has (cmap (snd p)) key = has_component chs (fst p) key) layers) as Hhas.
  { intros key. apply Forall_forall. intros [l e] Hin. simpl. by apply Hhas1. }
  assert (Forall (fun p : string * LayerEntry =>
            has_rgb_entry (snd p) = has_rgb chs (fst p)) layers) as Hrgb.
  { apply Forall_forall. intros [l e] Hin. simpl. unfold has_rgb_entry, has_rgb.
    by rewrite !(Hhas1 _ _ _ Hin). }
  (* the four searches *)
  pose proof (find_entries (fun '(layer, e) => bool_decide (layer = "") && has_rgb_entry e)
                (fun l => bool_decide (l = "") && has_rgb chs l) layers) as F1.
  pose proof (find_entries (fun '(_, e) => has_rgb_entry e) (has_rgb chs) layers) as F2.
  pose proof (find_entries (fun '(layer, e) => bool_decide (layer = "") && map_has (cmap e) "Y")
                (fun l => bool_decide (l = "") && has_component chs l "Y") layers) as F3.
  pose proof (find_entries (fun '(_, e) => map_has (cmap e) "Y")
                (fun l => has_component chs l "Y") layers) as F4.
  rewrite Hkeys in F1, F2, F3, F4.
  pose proof (find_default (has_rgb chs) (layers_seen chs)) as D1.
  pose proof (find_default (fun l => has_component chs l "Y") (layers_seen chs)) as D3.
  cbv beta in D1, D3.
  destruct (List.find _ layers) as [[l1 e1]|] eqn:E1 in F1 |- *.
  - (* the default layer has R, G and B *)
    destruct F1 as [F1 Hin]; [|]. 
    { eapply Forall_impl; [exact Hrgb|]. intros [l e] H. simpl in *. by rewrite H. }
    simpl in F1. rewrite F1 in D1. destruct D1 as [-> D1]. rewrite D1. simpl.
    unfold rgb_of. by rewrite !(Hent _ _ Hin).
  - assert (has_rgb chs "" = false) as Hno.
    { rewrite F1 in D1.
      2:{ eapply Forall_impl; [exact Hrgb|]. intros [l e] H. simpl in *. by rewrite H. }
      destruct (has_rgb chs "") eqn:Hd; [|done]. apply D1.
      unfold has_rgb in Hd. apply andb_true_iff in Hd as [Hd _].
      apply andb_true_iff in Hd as [Hd _]. by eapply has_component_layer. }
    rewrite Hno. simpl.
    destruct (List.find _ layers) as [[l2 e2]|] eqn:E2 in F2 |- *.
    + destruct F2 as [F2 Hin].
      { eapply Forall_impl; [exact Hrgb|]. intros [l e] H. simpl in *. done. }
      simpl in F2. rewrite F2. unfold rgb_of. by rewrite !(Hent _ _ Hin).
    + rewrite F2.
      2:{ eapply Forall_impl; [exact Hrgb|]. intros [l e] H. simpl in *. done. }
      destruct (List.find _ layers) as [[l3 e3]|] eqn:E3 in F3 |- *.
      * destruct F3 as [F3 Hin].
        { eapply Forall_impl; [exact (Hhas "Y")|]. intros [l e] H. simpl in *. by rewrite H. }
        simpl in F3. rewrite F3 in D3. destruct D3 as [-> D3]. rewrite D3. simpl.
        unfold y_of. by rewrite !(Hent _ _ Hin).
      * assert (has_component chs "" "Y" = false) as HnoY.
        { rewrite F3 in D3.
          2:{ eapply Forall_impl; [exact (Hhas "Y")|]. intros [l e] H. simpl in *. by rewrite H. }
          destruct (has_component chs "" "Y") eqn:Hd; [|done]. apply D3.
          by eapply has_component_layer. }
        rewrite HnoY. simpl.
        destruct (List.find _ layers) as [[l4 e4]|] eqn:E4 in F4 |- *.
        -- destruct F4 as [F4 Hin].
           { eapply Forall_impl; [exact (Hhas "Y")|]. intros [l e] H. simpl in *. done. }
           simpl in F4. rewrite F4. unfold y_of. by rewrite !(Hent _ _ Hin).
        -- rewrite F4; [done|].
           eapply Forall_impl; [exact (Hhas "Y")|]. intros [l e] H. simpl in *. done.
Qed.


End ExrChannels.

(** ** The decoder client and its worker *)
Module DecoderClient.
Import HdrHeader.

(** The fields of a [PanoramaDecodeRequest] that the client and the
    metadata stage of the worker look at. *)
Record request := MkRequest {
  req_id : string;
  req_format : PanoramaFormat;
  req_buffer : bytes
}.

(** A response of the worker: a [PanoramaDecodeResult] (with its [kind]
    and dimensions) or a [PanoramaDecodeError]. *)
Inductive response :=
  | DecodeResult (id : string) (decodeWidth decodeHeight : Z)
  | DecodeError (id : string) (message : string).

Definition response_id (data : response) : string :=
  match data with
  | DecodeResult id _ _ => id
  | DecodeError id _ => id
  end.

(** What the client does, in order.  A promise is named by the rank of
    the [decode] call that created it; an entry of [pending] holds the
    [resolve] and [reject] of one promise. *)
Inductive event :=
  | EvReject (promise : nat) (message : string)
  | EvResolve (promise : nat) (data : response)
  | EvDelete (id : string)
  | EvSet (id : string) (promise : nat)
  | EvPost (req : request).

Record client := MkClient {
  pending : gmap string nat;
  next_promise : nat;
  events : list event
}.

Definition new_client : client := MkClient ∅ 0 [].

(** [PanoramaDecoderClient.decode(request)]: returns the client after the
    call and the promise handed to the caller.  The executor of
    [new Promise] runs inside the call. *)
Definition decode (req : request) (c : client) : client * nat :=
  let c1 :=
    match pending c !! req_id req with
    | Some existing =>
        MkClient (delete (req_id req) (pending c)) (next_promise c)
          (events c ++ [EvReject existing "Decode request replaced"; EvDelete (req_id req)])
    | None => c
    end in
  let p := next_promise c1 in
  (MkClient (<[req_id req := p]> (pending c1)) (S p)
     (events c1 ++ [EvSet (req_id req) p; EvPost req]),
   p).

(** Settlement of the entry's promise by a response. *)
Definition settle (p : nat) (data : response) : event :=
  match data with
  | DecodeError _ message => EvReject p message
  | DecodeResult _ _ _ => EvResolve p data
  end.

(** The [worker.onmessage] handler of the client. *)
Definition onmessage (data : response) (c : client) : client :=
  match pending c !! response_id data with
  | None => c
  | Some entry =>
      MkClient (delete (response_id data) (pending c)) (next_promise c)
        (events c ++ [EvDelete (response_id data); settle entry data])
  end.

(** State of a promise: the first settlement wins. *)
Inductive outcome :=
  | Rejected (message : string)
  | Resolved (data : response).

Fixpoint outcome_of (log : list event) (p : nat) : option outcome :=
  match log with
  | [] => None
  | EvReject q m :: log' => if decide (q = p) then Some (Rejected m) else outcome_of log' p
  | EvResolve q d :: log' => if decide (q = p) then Some (Resolved d) else outcome_of log' p
  | _ :: log' => outcome_of log' p
  end.

(** Every outstanding entry belongs to a promise already created and not
    yet settled. *)
Definition client_wf (c : client) : Prop :=
  (forall id p, pending c !! id = Some p ->
     p < next_promise c /\ outcome_of (events c) p = None) /\
  (forall p, next_promise c <= p -> outcome_of (events c) p = None) /\
  (forall id1 id2 p, pending c !! id1 = Some p -> pending c !! id2 = Some p -> id1 = id2).

(** The message handler of the worker up to the metadata stage of an HDR
    request: an exception of [readMetadata] is caught and posted as a
    [PanoramaDecodeError] with the id of the request.  What follows a
    successful metadata read, and the EXR reader, are the parameter
    [decode_rest]. *)
Definition worker_response (decode_rest : request -> response) (req : request) : response :=
  match req_format req with
  | hdr =>
      match readHDRMetadata (req_buffer req) with
      | Some (Throw (Error message)) => DecodeError (req_id req) message
      | _ => decode_rest req
      end
  | exr => decode_rest req
  end.

(** The client, the requests posted to the worker and not yet handled,
    and the responses posted to the client and not yet delivered; both
    channels deliver in order. *)
Record system := MkSystem {
  sys_client : client;
  to_worker : list request;
  to_client : list response
}.

Inductive action :=
  | Submit (req : request)
  | WorkerHandles
  | ClientReceives.

Definition step (decode_rest : request -> response) (s : system) (a : action) : system :=
  match a with
  | Submit req =>
      MkSystem (fst (decode req (sys_client s))) (to_worker s ++ [req]) (to_client s)
  | WorkerHandles =>
      match to_worker s with
      | [] => s
      | req :: rest =>
          MkSystem (sys_client s) rest (to_client s ++ [worker_response decode_rest req])
      end
  | ClientReceives =>
      match to_client s with
      | [] => s
      | data :: rest => MkSystem (onmessage data (sys_client s)) (to_worker s) rest
      end
  end.

Definition run (decode_rest : request -> response) (actions : list action) : system :=
  fold_left (step decode_rest) actions (MkSystem new_client [] []).


(** Two HDR requests with the same id: the buffer of the first has no
    [FORMAT=] line, the buffer of the second has a blank line and no
    resolution line.  Both fail in the metadata stage, so that what follows
    it is never run. *)
Definition stale : request := MkRequest "a" hdr [].
Definition fresh : request := MkRequest "a" hdr [10%Z].
Definition unused_rest (req : request) : response := DecodeResult (req_id req) 1 1.


(** *** Supersession *)

Lemma outcome_of_app log1 log2 p :
  outcome_of (log1 ++ log2) p =
    match outcome_of log1 p with
    | Some o => Some o
    | None => outcome_of log2 p
    end.
Proof.
  induction log1 as [|e log1 IH]; simpl; [done|].
  destruct e; try done; destruct (decide _); done.
Qed.

Lemma new_client_wf : client_wf new_client.
Proof.
  split; [|split].
  - intros id p H. simpl in H. by rewrite lookup_empty in H.
  - done.
  - intros id1 id2 p H. simpl in H. by rewrite lookup_empty in H.
Qed.

Lemma decode_wf req c : client_wf c -> client_wf (fst (decode req c)).
Proof.
  intros (Hpend & Hfresh & Hinj). unfold decode, client_wf.
  destruct (pending c !! req_id req) as [existing|] eqn:Hex;
    cbn [pending next_promise events fst snd].
  - destruct (Hpend _ _ Hex) as [Hlt Hnone].
    split; [|split].
    + intros id p. destruct (decide (id = req_id req)) as [->|Hne].
      * rewrite lookup_insert_eq. intros [= <-]. split; [lia|].
        rewrite !outcome_of_app. simpl. rewrite (Hfresh (next_promise c)) by lia.
        rewrite decide_False by lia. done.
      * rewrite lookup_insert_ne, lookup_delete_ne by done. intros Hp.
        destruct (Hpend _ _ Hp) as [Hlt' Hnone']. split; [lia|].
        rewrite !outcome_of_app. simpl. rewrite Hnone'.
        rewrite decide_False; [done|]. intros ->. apply Hne. by eapply Hinj.
    + intros p Hp. rewrite !outcome_of_app. simpl. rewrite (Hfresh p) by lia.
      rewrite decide_False by lia. done.
    + intros id1 id2 p.
      destruct (decide (id1 = req_id req)) as [->|Hne1];
        destruct (decide (id2 = req_id req)) as [->|Hne2]; [done|..].
      * rewrite lookup_insert_eq, lookup_insert_ne, lookup_delete_ne by done.
        intros [= <-] Hp. apply Hpend in Hp. lia.
      * rewrite lookup_insert_eq, lookup_insert_ne, lookup_delete_ne by done.
        intros Hp [= <-]. apply Hpend in Hp. lia.
      * rewrite !lookup_insert_ne, !lookup_delete_ne by done. apply Hinj.
  - split; [|split].
    + intros id p. destruct (decide (id = req_id req)) as [->|Hne].
      * rewrite lookup_insert_eq. intros [= <-]. split; [lia|].
        rewrite !outcome_of_app. simpl. by rewrite (Hfresh (next_promise c)) by lia.
      * rewrite lookup_insert_ne by done. intros Hp.
        destruct (Hpend _ _ Hp) as [Hlt' Hnone']. split; [lia|].
        rewrite !outcome_of_app. simpl. by rewrite Hnone'.
    + intros p Hp. rewrite !outcome_of_app. simpl. by rewrite (Hfresh p) by lia.
    + intros id1 id2 p.
      destruct (decide (id1 = req_id req)) as [->|Hne1];
        destruct (decide (id2 = req_id req)) as [->|Hne2]; [done|..].
      * rewrite lookup_insert_eq, lookup_insert_ne by done.
        intros [= <-] Hp. apply Hpend in Hp. lia.
      * rewrite lookup_insert_eq, lookup_insert_ne by done.
        intros Hp [= <-]. apply Hpend in Hp. lia.
      * rewrite !lookup_insert_ne by done. apply Hinj.
Qed.

Lemma outcome_of_settle p data q :
  outcome_of [settle p data] q =
    if decide (p = q) then
      Some (match data with
            | DecodeError _ m => Rejected m
            | DecodeResult _ _ _ => Resolved data
            end)
    else None.
Proof. destruct data; simpl; destruct (decide _); done. Qed.

Lemma onmessage_wf data c : client_wf c -> client_wf (onmessage data c).
Proof.
  intros (Hpend & Hfresh & Hinj). unfold onmessage.
  destruct (pending c !! response_id data) as [entry|] eqn:Hex;
    [|exact (conj Hpend (conj Hfresh Hinj))].
  destruct (Hpend _ _ Hex) as [Hlt Hnone]. unfold client_wf.
  cbn [pending next_promise events fst snd].
  split; [|split].
  - intros id p. destruct (decide (id = response_id data)) as [->|Hne].
    + by rewrite lookup_delete_eq.
    + rewrite lookup_delete_ne by done. intros Hp.
      destruct (Hpend _ _ Hp) as [Hlt' Hnone']. split; [done|].
      rewrite outcome_of_app, Hnone'. simpl.
      change (outcome_of [settle entry data] p = None).
      rewrite outcome_of_settle, decide_False; [done|].
      intros ->. apply Hne. by eapply Hinj.
  - intros p Hp. rewrite outcome_of_app, (Hfresh p) by done. simpl.
    change (outcome_of [settle entry data] p = None).
    rewrite outcome_of_settle, decide_False; [done|]. lia.
  - intros id1 id2 p.
    destruct (decide (id1 = response_id data)) as [->|Hne1]; [by rewrite lookup_delete_eq|].
    destruct (decide (id2 = response_id data)) as [->|Hne2]; [by rewrite lookup_delete_eq|].
    rewrite !lookup_delete_ne by done. apply Hinj.
Qed.

(** The submission itself is as documented: a [decode] call whose id has
    an outstanding entry first rejects the promise of that entry with the
    error "Decode request replaced" and deletes the entry, and only then
    registers the new entry and posts the request; the promise of the new
    entry is a new one, not yet settled, and the other entries are
    untouched.  But the new entry is then settled, and removed, by the
    next response carrying that id that is delivered, whichever request
    the worker produced it for. *)
Theorem decode_supersedes (c : client) (req : request) (existing : nat) :
  client_wf c ->
  pending c !! req_id req = Some existing ->
  let c' := fst (decode req c) in
  let p := snd (decode req c) in
  events c' = events c ++
    [EvReject existing "Decode request replaced"; EvDelete (req_id req);
     EvSet (req_id req) p; EvPost req] /\
  outcome_of (events c') existing = Some (Rejected "Decode request replaced") /\
  p <> existing /\
  outcome_of (events c') p = None /\
  pending c' !! req_id req = Some p /\
  (forall other, other <> req_id req -> pending c' !! other = pending c !! other) /\
  (forall data, response_id data = req_id req ->
     events (onmessage data c') = events c' ++ [EvDelete (req_id req); settle p data] /\
     outcome_of (events (onmessage data c')) p = outcome_of [settle p data] p /\
     pending (onmessage data c') !! req_id req = None).
Proof.
  intros Hwf Hex c' p.
  pose proof (decode_wf req c Hwf) as Hwf'. fold c' in Hwf'.
  destruct Hwf as (Hpend & Hfresh & Hinj).
  destruct (Hpend _ _ Hex) as [Hlt Hnone].
  assert (c' = MkClient (<[req_id req := next_promise c]> (delete (req_id req) (pending c)))
            (S (next_promise c))
            ((events c ++ [EvReject existing "Decode request replaced"; EvDelete (req_id req)])
               ++ [EvSet (req_id req) (next_promise c); EvPost req])) as Hc'
    by (unfold c', decode; rewrite Hex; reflexivity).
  assert (p = next_promise c) as Hp
    by (unfold p, decode; rewrite Hex; reflexivity).
  clearbody c' p. subst c' p.
  assert (outcome_of
            ((events c ++ [EvReject existing "Decode request replaced"; EvDelete (req_id req)])
               ++ [EvSet (req_id req) (next_promise c); EvPost req]) (next_promise c) = None)
    as Hunsettled.
  { apply (proj1 Hwf' (req_id req)). cbn [pending]. apply lookup_insert_eq. }
  cbn [pending next_promise events].
  split; [by rewrite <- app_assoc|].
  split; [rewrite !outcome_of_app, Hnone; simpl; by rewrite decide_True|].
  split; [lia|].
  split; [exact Hunsettled|].
  split; [apply lookup_insert_eq|].
  split; [intros other Hne; by rewrite lookup_insert_ne, lookup_delete_ne|].
  intros data Hid. unfold onmessage. cbn [pending next_promise events].
  rewrite Hid, lookup_insert_eq. cbn [pending next_promise events].
  split; [done|]. split.
  - rewrite outcome_of_app, Hunsettled. done.
  - apply lookup_delete_eq.
Qed.

Lemma decode_supersedes_witness :
  let c := fst (decode stale new_client) in
  let c' := fst (decode fresh c) in
  let p := snd (decode fresh c) in
  events c' = events c ++
    [EvReject 0 "Decode request replaced"; EvDelete (req_id fresh);
     EvSet (req_id fresh) p; EvPost fresh] /\
  outcome_of (events c') 0 = Some (Rejected "Decode request replaced") /\
  p <> 0 /\
  outcome_of (events c') p = None /\
  pending c' !! req_id fresh = Some p /\
  (forall other, other <> req_id fresh -> pending c' !! other = pending c !! other) /\
  (forall data, response_id data = req_id fresh ->
     events (onmessage data c') = events c' ++ [EvDelete (req_id fresh); settle p data] /\
     outcome_of (events (onmessage data c')) p = outcome_of [settle p data] p /\
     pending (onmessage data c') !! req_id fresh = None).
Proof.
  apply (decode_supersedes (fst (decode stale new_client)) fresh 0).
  - apply decode_wf, new_client_wf.
  - vm_compute. reflexivity.
Defined.

(** C6. The second request does not resolve or fail on its own merits:
    after two submissions with the same id, the first promise is rejected
    with "Decode request replaced", as documented, but the response that
    the worker produces for the superseded request is not discarded; it
    is delivered first and settles the promise of the second request,
    which is rejected with the error of the first buffer and not with the
    error that its own buffer produces when submitted alone.  The
    response to the second request finds no entry and is dropped. *)
Lemma stale_response_settles_new_request :
  let s := run unused_rest
             [Submit stale; Submit fresh; WorkerHandles; ClientReceives;
              WorkerHandles; ClientReceives] in
  let alone := run unused_rest [Submit fresh; WorkerHandles; ClientReceives] in
  outcome_of (events (sys_client s)) 0 = Some (Rejected "Decode request replaced") /\
  outcome_of (events (sys_client s)) 1 = Some (Rejected "Unsupported HDR format") /\
  worker_response unused_rest stale = DecodeError "a" "Unsupported HDR format" /\
  worker_response unused_rest fresh = DecodeError "a" "Invalid HDR resolution" /\
  outcome_of (events (sys_client alone)) 0 = Some (Rejected "Invalid HDR resolution").
Proof. vm_compute. repeat split. Qed.

End DecoderClient.

(** ** Half-float codec *)
Module HalfFloat.
Import Pow2.
Local Open Scope Z_scope.

(** The numbers that the codec reads and returns.  A finite number is
    written exactly, as a sign and a count of units of [2^-149], the
    smallest positive binary32 value: every binary32 and binary16 value
    is such a multiple, and the products of [halfToFloat] are exact in
    double precision. *)
Inductive number :=
  | NaN
  | Infinity (negative : bool)
  | Finite (negative : bool) (units : Z).

#[global] Instance number_eq_dec : EqDecision number.
Proof. solve_decision. Defined.

(** [(negative ? -1 : 1) * Math.pow(2, p) * (num / 2^den_log2)]. *)
Definition pow2_times (negative : bool) (p num den_log2 : Z) : number :=
  Finite negative (num * 2 ^ (p - den_log2 + 149)).

(** The three fields of a binary32 bit pattern. *)
Definition sign_bit (x : Z) : Z := x / 2 ^ 31.
Definition exponent_field (x : Z) : Z := (x / 2 ^ 23) mod 2 ^ 8.
Definition mantissa_field (x : Z) : Z := x mod 2 ^ 23.

(** The binary32 number held by [floatView[0]] when [intView[0]] is the
    bit pattern [x]. *)
Definition float32_value (x : Z) : number :=
  let sign := negb (sign_bit x =? 0) in
  let e := exponent_field x in
  let m := mantissa_field x in
  if e =? 255 then (if m =? 0 then Infinity sign else NaN)
  else if e =? 0 then pow2_times sign (-126) m 23
  else pow2_times sign (e - 127) (2 ^ 23 + m) 23.

(** [floatToHalf(value)], on the bit pattern [x] of [value]. *)
Definition floatToHalf (x : Z) : Z :=
  let sign := Z.land (Z.shiftr x 31) 1 in
  let exp := Z.land (Z.shiftr x 23) 0xff in
  let mantissa := Z.land x 0x7fffff in
  if exp =? 255 then
    if negb (mantissa =? 0) then Z.lor (Z.shiftl sign 15) 0x7e00
    else Z.lor (Z.shiftl sign 15) 0x7c00
  else
    let exp := exp - 127 in
    if exp <? -14 then
      if exp <? -24 then Z.shiftl sign 15
      else
        let mantissa := Z.lor mantissa 0x800000 in
        let shift := - exp - 14 in
        let halfMantissa := Z.shiftr mantissa (shift + 13) in
        let roundBit := Z.land (Z.shiftr mantissa (shift + 12)) 1 in
        Z.lor (Z.shiftl sign 15) (halfMantissa + roundBit)
    else if 15 <? exp then Z.lor (Z.shiftl sign 15) 0x7c00
    else
      let halfExp := Z.land (exp + 15) 0x1f in
      let halfMantissa := Z.shiftr mantissa 13 in
      let roundBit := Z.land (Z.shiftr mantissa 12) 1 in
      Z.lor (Z.lor (Z.shiftl sign 15) (Z.shiftl halfExp 10)) (halfMantissa + roundBit).

(** [halfToFloat(half)]. *)
Definition halfToFloat (half : Z) : number :=
  let sign := negb (Z.land (Z.shiftr half 15) 1 =? 0) in
  let exp := Z.land (Z.shiftr half 10) 0x1f in
  let mantissa := Z.land half 0x3ff in
  if exp =? 0 then
    if mantissa =? 0 then Finite sign 0
    else pow2_times sign (-14) mantissa 10
  else if exp =? 31 then
    (if mantissa =? 0 then Infinity sign else NaN)
  else pow2_times sign (exp - 15) (1024 + mantissa) 10.

(** *** IEEE 754 binary16, as the standard defines it *)

(** Value of the binary16 datum with the bit pattern [h]. *)
Definition binary16_value (h : Z) : number :=
  let sign := negb (h / 2 ^ 15 =? 0) in
  let e := (h / 2 ^ 10) mod 2 ^ 5 in
  let m := h mod 2 ^ 10 in
  if e =? 31 then (if m =? 0 then Infinity sign else NaN)
  else if e =? 0 then pow2_times sign (-14) m 10
  else pow2_times sign (e - 15) (2 ^ 10 + m) 10.

(** Magnitude, in units of [2^-149], of a finite binary32 bit pattern. *)
Definition float32_units (x : Z) : Z :=
  let e := exponent_field x in
  let m := mantissa_field x in
  if e =? 0 then m else (2 ^ 23 + m) * 2 ^ (e - 1).

(** Magnitude of the binary16 datum whose 15 low bits are [h], for
    [h <= 0x7C00]; the pattern [0x7C00] of infinity stands for [2^16]. *)
Definition binary16_units (h : Z) : Z :=
  let e := h / 2 ^ 10 in
  let m := h mod 2 ^ 10 in
  if e =? 0 then m * 2 ^ 125 else (2 ^ 10 + m) * 2 ^ (e + 124).

(** Binary logarithm of the distance between the binary16 values around
    the magnitude [u]: [2^-24] below [2^-14], [2^(e-10)] in the binade
    [2^e]. *)
Definition spacing_log2 (u : Z) : Z := Z.max 125 (Z.log2 u - 10).

(** Nearest multiple of the spacing, a tie going to the even multiple, and
    the bit pattern of the result: a multiple [k * 2^q] with [k <= 2^11]
    is encoded by [(q - 125) * 2^10 + k], and what rounds to [2^16] or
    more becomes infinity. *)
Definition round_to_even (u q : Z) : Z :=
  let k := u / 2 ^ q in
  let r := u mod 2 ^ q in
  if r <? 2 ^ (q - 1) then k
  else if 2 ^ (q - 1) <? r then k + 1
  else if Z.even k then k else k + 1.

Definition binary16_nearest_even (u : Z) : Z :=
  let q := spacing_log2 u in
  Z.min 0x7c00 ((q - 125) * 2 ^ 10 + round_to_even u q).

(** The same with a tie going away from zero. *)
Definition round_half_up (u q : Z) : Z := (u + 2 ^ (q - 1)) / 2 ^ q.

Definition binary16_nearest_away (u : Z) : Z :=
  let q := spacing_log2 u in
  Z.min 0x7c00 ((q - 125) * 2 ^ 10 + round_half_up u q).

(** The conversion that IEEE 754 prescribes, with round-to-nearest-even. *)
Definition ieee_float_to_half (x : Z) : Z :=
  let sign := sign_bit x in
  let e := exponent_field x in
  let m := mantissa_field x in
  if e =? 255 then sign * 2 ^ 15 + (if m =? 0 then 0x7c00 else 0x7e00)
  else sign * 2 ^ 15 + binary16_nearest_even (float32_units x).

(** The three fields of a binary16 bit pattern. *)
Definition half_sign (h : Z) : Z := h / 2 ^ 15.
Definition half_exponent (h : Z) : Z := (h / 2 ^ 10) mod 2 ^ 5.
Definition half_mantissa (h : Z) : Z := h mod 2 ^ 10.


(** *** What [floatToHalf] computes, field by field *)

(** The inputs on which the carry of the rounded mantissa is lost: the
    mantissa rounds up to [2^10] and the exponent field of the half is
    odd, so that [(halfExp << 10) | 0x400] is [halfExp << 10]. *)
Definition carry_lost (x : Z) : bool :=
  let e := exponent_field x in
  let m := mantissa_field x in
  (113 <=? e) && (e <=? 142) && Z.odd (e - 112) && (0x7ff000 <=? m).

Definition floatToHalf_fields (x : Z) : Z :=
  let s := sign_bit x in
  let e := exponent_field x in
  let m := mantissa_field x in
  if e =? 255 then s * 2 ^ 15 + (if m =? 0 then 0x7c00 else 0x7e00)
  else if e <? 103 then s * 2 ^ 15
  else if e <? 113 then s * 2 ^ 15 + (2 ^ 23 + m + 2 ^ (125 - e)) / 2 ^ (126 - e)
  else if 142 <? e then s * 2 ^ 15 + 0x7c00
  else if carry_lost x then s * 2 ^ 15 + (e - 112) * 2 ^ 10
  else s * 2 ^ 15 + (e - 112) * 2 ^ 10 + (m + 2 ^ 12) / 2 ^ 13.

(** *** Bit operations as arithmetic *)

Lemma land_low_mul_pow2 a b n :
  0 <= n -> 0 <= b < 2 ^ n -> Z.land (a * 2 ^ n) b = 0.
Proof.
  intros Hn Hb. apply Z.bits_inj'. intros i Hi.
  rewrite Z.land_spec, Z.bits_0.
  destruct (Z.lt_ge_cases i n) as [Hlt|Hge].
  - rewrite Z.mul_pow2_bits_low by lia. reflexivity.
  - assert (Z.testbit b i = false) as ->; [|apply Bool.andb_false_r].
    destruct (Z.eq_dec b 0) as [->|Hnz]; [apply Z.bits_0|].
    apply Z.bits_above_log2; [lia|].
    apply Z.log2_lt_pow2; [lia|].
    apply Z.lt_le_trans with (2 ^ n); [lia|].
    apply Z.pow_le_mono_r; lia.
Qed.

Lemma lor_mul_pow2 a b n :
  0 <= n -> 0 <= b < 2 ^ n -> Z.lor (a * 2 ^ n) b = a * 2 ^ n + b.
Proof.
  intros Hn Hb. pose proof (land_low_mul_pow2 a b n Hn Hb) as Hland.
  rewrite <- Z.lxor_lor by exact Hland.
  symmetry. apply Z.add_nocarry_lxor. exact Hland.
Qed.

Lemma round_bit_sum M k :
  0 <= k -> M / 2 ^ (k + 1) + (M / 2 ^ k) mod 2 = (M + 2 ^ k) / 2 ^ (k + 1).
Proof.
  intros Hk. rewrite Z.pow_add_r by lia. change (2 ^ 1) with 2.
  rewrite <- !Z.div_div by lia.
  replace (M + 2 ^ k) with (M + 1 * 2 ^ k) by lia.
  rewrite Z.div_add by lia.
  generalize (M / 2 ^ k). intros a. Z.div_mod_to_equations. lia.
Qed.

Lemma fields_range x :
  0 <= x < 2 ^ 32 ->
  0 <= sign_bit x <= 1 /\ 0 <= exponent_field x < 256 /\ 0 <= mantissa_field x < 2 ^ 23.
Proof.
  intros Hx. unfold sign_bit, exponent_field, mantissa_field.
  split; [|split]; Z.div_mod_to_equations; lia.
Qed.

Lemma field_sign x : 0 <= x < 2 ^ 32 -> Z.land (Z.shiftr x 31) 1 = sign_bit x.
Proof.
  intros Hx. rewrite Z.shiftr_div_pow2 by lia. change 1 with (Z.ones 1).
  rewrite Z.land_ones by lia. fold (sign_bit x).
  pose proof (fields_range x Hx). change (2 ^ 1) with 2. Z.div_mod_to_equations. lia.
Qed.

Lemma field_exp x : Z.land (Z.shiftr x 23) 0xff = exponent_field x.
Proof.
  rewrite Z.shiftr_div_pow2 by lia. change 0xff with (Z.ones 8).
  rewrite Z.land_ones by lia. reflexivity.
Qed.

Lemma field_mantissa x : Z.land x 0x7fffff = mantissa_field x.
Proof. change 0x7fffff with (Z.ones 23). rewrite Z.land_ones by lia. reflexivity. Qed.

Lemma land_one a : Z.land a 1 = a mod 2.
Proof. change 1 with (Z.ones 1). rewrite Z.land_ones by lia. reflexivity. Qed.

Lemma lor_sign s t : 0 <= t < 2 ^ 15 -> Z.lor (Z.shiftl s 15) t = s * 2 ^ 15 + t.
Proof. intros Ht. rewrite Z.shiftl_mul_pow2 by lia. apply lor_mul_pow2; lia. Qed.

Lemma floatToHalf_arith x : 0 <= x < 2 ^ 32 -> floatToHalf x = floatToHalf_fields x.
Proof.
  intros Hx. unfold floatToHalf, floatToHalf_fields, carry_lost.
  rewrite (field_sign x Hx), field_exp, field_mantissa.
  destruct (fields_range x Hx) as (Hs & He & Hm).
  set (s := sign_bit x) in *. set (e := exponent_field x) in *.
  set (m := mantissa_field x) in *.
  destruct (Z.eqb_spec e 255) as [He255|He255].
  { destruct (Z.eqb_spec m 0); simpl; rewrite lor_sign by lia; reflexivity. }
  destruct (Z.ltb_spec (e - 127) (-14)) as [Hsub|Hnorm].
  - destruct (Z.ltb_spec (e - 127) (-24)) as [Hflush|Hden].
    + destruct (Z.ltb_spec e 103); [|lia]. apply Z.shiftl_mul_pow2. lia.
    + destruct (Z.ltb_spec e 103); [lia|]. destruct (Z.ltb_spec e 113); [|lia].
      change 0x800000 with (1 * 2 ^ 23).
      rewrite (Z.lor_comm m), lor_mul_pow2 by lia.
      rewrite !Z.shiftr_div_pow2 by lia.
      rewrite land_one.
      replace (- (e - 127) - 14 + 13) with ((125 - e) + 1) by lia.
      replace (- (e - 127) - 14 + 12) with (125 - e) by lia.
      rewrite round_bit_sum by lia.
      replace (125 - e + 1) with (126 - e) by lia.
      replace (1 * 2 ^ 23 + m + 2 ^ (125 - e)) with (2 ^ 23 + m + 2 ^ (125 - e)) by lia.
      apply lor_sign.
      assert (2 ^ 14 <= 2 ^ (126 - e)) by (apply Z.pow_le_mono_r; lia).
      assert (0 < 2 ^ (125 - e) <= 2 ^ 22).
      { split; [apply Z.pow_pos_nonneg; lia|apply Z.pow_le_mono_r; lia]. }
      split; [apply Z.div_pos; lia|].
      apply Z.div_lt_upper_bound; [lia|]. nia.
  - destruct (Z.ltb_spec e 103); [lia|]. destruct (Z.ltb_spec e 113); [lia|].
    destruct (Z.ltb_spec 15 (e - 127)) as [Hbig|Hfit].
    + destruct (Z.ltb_spec 142 e); [|lia]. apply lor_sign. lia.
    + destruct (Z.ltb_spec 142 e); [lia|].
      destruct (Z.leb_spec 113 e); [|lia]. destruct (Z.leb_spec e 142); [|lia].
      cbn [andb].
      change 0x1f with (Z.ones 5). rewrite Z.land_ones by lia.
      rewrite (Z.mod_small (e - 127 + 15)) by lia.
      replace (e - 127 + 15) with (e - 112) by lia.
      rewrite !Z.shiftr_div_pow2 by lia.
      rewrite land_one.
      pose proof (round_bit_sum m 12 ltac:(lia)) as Hround.
      change (12 + 1) with 13 in Hround. rewrite Hround. clear Hround.
      rewrite (Z.shiftl_mul_pow2 (e - 112)) by lia.
      rewrite lor_sign by lia.
      set (t := (m + 2 ^ 12) / 2 ^ 13).
      assert (0 <= t <= 1024) as Ht by (unfold t; Z.div_mod_to_equations; lia).
      assert (t = 1024 <-> 0x7ff000 <= m) as Hcarry
        by (unfold t; Z.div_mod_to_equations; lia).
      replace (s * 2 ^ 15 + (e - 112) * 2 ^ 10) with ((s * 32 + (e - 112)) * 2 ^ 10) by lia.
      destruct (Z.leb_spec 0x7ff000 m) as [Hm1|Hm1].
      * assert (t = 1024) as -> by (apply Hcarry; lia).
        destruct (Z.odd (e - 112)) eqn:Hodd; cbn [andb].
        -- apply Z.odd_spec in Hodd. destruct Hodd as [j Hj].
           replace ((s * 32 + (e - 112)) * 2 ^ 10) with ((s * 16 + j) * 2 ^ 11 + 1024) by lia.
           rewrite <- (lor_mul_pow2 (s * 16 + j) 1024 11) by lia.
           rewrite <- Z.lor_assoc, Z.lor_diag. reflexivity.
        -- rewrite <- Z.negb_even in Hodd. apply Bool.negb_false_iff in Hodd.
           apply Z.even_spec in Hodd. destruct Hodd as [j Hj].
           replace ((s * 32 + (e - 112)) * 2 ^ 10) with ((s * 16 + j) * 2 ^ 11) by lia.
           rewrite lor_mul_pow2 by lia. reflexivity.
      * rewrite Bool.andb_false_r. rewrite lor_mul_pow2 by lia. reflexivity.
Qed.

Lemma half_fields_range h :
  0 <= h < 2 ^ 16 ->
  0 <= half_sign h <= 1 /\ 0 <= half_exponent h < 32 /\ 0 <= half_mantissa h < 2 ^ 10 /\
  h = half_sign h * 2 ^ 15 + half_exponent h * 2 ^ 10 + half_mantissa h.
Proof.
  intros Hh. unfold half_sign, half_exponent, half_mantissa.
  repeat split; Z.div_mod_to_equations; lia.
Qed.

Lemma land_ones_5 a : Z.land a 0x1f = a mod 2 ^ 5.
Proof. change 0x1f with (Z.ones 5). apply Z.land_ones. lia. Qed.

Lemma land_ones_10 a : Z.land a 0x3ff = a mod 2 ^ 10.
Proof. change 0x3ff with (Z.ones 10). apply Z.land_ones. lia. Qed.

Lemma halfToFloat_binary16 h : 0 <= h < 2 ^ 16 -> halfToFloat h = binary16_value h.
Proof.
  intros Hh. unfold halfToFloat, binary16_value.
  rewrite !Z.shiftr_div_pow2 by lia. rewrite land_one, land_ones_5, land_ones_10.
  assert ((h / 2 ^ 15) mod 2 = h / 2 ^ 15) as -> by (Z.div_mod_to_equations; lia).
  destruct (Z.eqb_spec ((h / 2 ^ 10) mod 2 ^ 5) 0) as [He|He].
  - rewrite He. cbn [Z.eqb].
    destruct (Z.eqb_spec (h mod 2 ^ 10) 0) as [->|]; reflexivity.
  - destruct (Z.eqb_spec ((h / 2 ^ 10) mod 2 ^ 5) 31); reflexivity.
Qed.

Lemma log2_significand a k n :
  0 <= k -> 0 <= n -> 2 ^ n <= a < 2 ^ (n + 1) -> Z.log2 (a * 2 ^ k) = n + k.
Proof.
  intros Hk Hn Ha.
  assert (0 < 2 ^ n) by (apply Z.pow_pos_nonneg; lia).
  rewrite Z.log2_mul_pow2 by lia.
  rewrite (Z.log2_unique a n) by lia. lia.
Qed.

Lemma sign_flag_inj a b :
  0 <= a <= 1 -> 0 <= b <= 1 -> negb (a =? 0) = negb (b =? 0) -> a = b.
Proof.
  intros Ha Hb. destruct (Z.eqb_spec a 0), (Z.eqb_spec b 0); simpl; intros; lia || discriminate.
Qed.

Lemma representable_fields x h :
  0 <= x < 2 ^ 32 -> 0 <= h < 2 ^ 16 ->
  binary16_value h = float32_value x ->
  float32_value x <> NaN ->
  floatToHalf_fields x = h.
Proof.
  intros Hx Hh Heq Hnan.
  destruct (fields_range x Hx) as (Hs & He & Hm).
  destruct (half_fields_range h Hh) as (Hhs & HhE & HhM & Hdecomp).
  unfold binary16_value, float32_value, pow2_times in *.
  fold (half_sign h) (half_exponent h) (half_mantissa h) in *.
  unfold floatToHalf_fields, carry_lost.
  set (s := sign_bit x) in *. set (e := exponent_field x) in *.
  set (m := mantissa_field x) in *.
  set (hs := half_sign h) in *. set (E := half_exponent h) in *.
  set (M := half_mantissa h) in *.
  rewrite Hdecomp. clear Hdecomp.
  replace (-126 - 23 + 149) with 0 in * by lia.
  replace (e - 127 - 23 + 149) with (e - 1) in * by lia.
  replace (-14 - 10 + 149) with 125 in * by lia.
  replace (E - 15 - 10 + 149) with (E + 124) in * by lia.
  rewrite Z.pow_0_r, Z.mul_1_r in *.
  destruct (Z.eqb_spec e 255) as [He255|He255].
  { (* infinity *)
    destruct (Z.eqb_spec m 0) as [Hm0|Hm0]; [|done].
    destruct (Z.eqb_spec E 31) as [HE|HE].
    - destruct (Z.eqb_spec M 0) as [HM|HM]; [|discriminate].
      injection Heq as Hsign. apply sign_flag_inj in Hsign; lia.
    - destruct (E =? 0); discriminate. }
  assert (0 < 2 ^ 125) as Hp125 by (apply Z.pow_pos_nonneg; lia).
  destruct (Z.eqb_spec E 31) as [HE31|HE31].
  { destruct (M =? 0); destruct (e =? 0); discriminate. }
  destruct (Z.eqb_spec e 0) as [He0|He0].
  - (* zero: a binary32 subnormal is below every positive binary16 value *)
    destruct (Z.ltb_spec e 103); [|lia].
    destruct (Z.eqb_spec E 0) as [HE0|HE0].
    + injection Heq as Hsign Hunits. apply sign_flag_inj in Hsign; [|lia..].
      assert (M = 0) by nia. lia.
    + injection Heq as Hsign Hunits. exfalso.
      assert (2 ^ 125 <= 2 ^ (E + 124)) by (apply Z.pow_le_mono_r; lia).
      nia.
  - destruct (Z.eqb_spec E 0) as [HE0|HE0].
    + (* binary16 subnormal *)
      injection Heq as Hsign Hunits. apply sign_flag_inj in Hsign; [|lia..].
      assert (0 < M) as HMpos.
      { assert (0 < (2 ^ 23 + m) * 2 ^ (e - 1)); [|nia].
        apply Z.mul_pos_pos; [lia|apply Z.pow_pos_nonneg; lia]. }
      assert (Z.log2 (M * 2 ^ 125) = Z.log2 M + 125) as HlogM
        by (rewrite Z.log2_mul_pow2 by lia; lia).
      assert (Z.log2 ((2 ^ 23 + m) * 2 ^ (e - 1)) = 23 + (e - 1)) as Hlogx
        by (apply log2_significand; lia).
      rewrite Hunits in HlogM. rewrite Hlogx in HlogM.
      assert (0 <= Z.log2 M < 10) as HlM.
      { split; [apply Z.log2_nonneg|]. apply Z.log2_lt_pow2; lia. }
      destruct (Z.ltb_spec e 103); [lia|]. destruct (Z.ltb_spec e 113); [|lia].
      assert (2 ^ 23 + m = M * 2 ^ (126 - e)) as Hsig.
      { replace 125 with ((126 - e) + (e - 1)) in Hunits by lia.
        rewrite Z.pow_add_r in Hunits by lia.
        assert (0 < 2 ^ (e - 1)) by (apply Z.pow_pos_nonneg; lia).
        nia. }
      rewrite Hsig. replace (126 - e) with ((125 - e) + 1) by lia.
      rewrite Z.pow_add_r by lia. change (2 ^ 1) with 2.
      assert (0 < 2 ^ (125 - e)) by (apply Z.pow_pos_nonneg; lia).
      replace (M * (2 ^ (125 - e) * 2) + 2 ^ (125 - e))
        with (2 ^ (125 - e) + M * (2 ^ (125 - e) * 2)) by lia.
      rewrite Z.div_add by lia. rewrite Z.div_small by lia. lia.
    + (* binary16 normal *)
      injection Heq as Hsign Hunits. apply sign_flag_inj in Hsign; [|lia..].
      assert (Z.log2 ((2 ^ 10 + M) * 2 ^ (E + 124)) = 10 + (E + 124)) as HlogM
        by (apply log2_significand; lia).
      assert (Z.log2 ((2 ^ 23 + m) * 2 ^ (e - 1)) = 23 + (e - 1)) as Hlogx
        by (apply log2_significand; lia).
      rewrite Hunits in HlogM. rewrite Hlogx in HlogM.
      assert (e = E + 112) as HeE by lia.
      destruct (Z.ltb_spec e 103); [lia|]. destruct (Z.ltb_spec e 113); [lia|].
      destruct (Z.ltb_spec 142 e); [lia|].
      assert (m = M * 2 ^ 13) as Hsig.
      { replace (E + 124) with (13 + (e - 1)) in Hunits by lia.
        rewrite Z.pow_add_r in Hunits by lia.
        assert (0 < 2 ^ (e - 1)) by (apply Z.pow_pos_nonneg; lia).
        nia. }
      destruct (Z.leb_spec 0x7ff000 m); [lia|].
      rewrite Bool.andb_false_r.
      replace ((m + 2 ^ 12) / 2 ^ 13) with M by (Z.div_mod_to_equations; lia).
      lia.
Qed.

Lemma float32_units_normal x :
  0 <= x < 2 ^ 32 -> 0 < exponent_field x ->
  float32_units x = (2 ^ 23 + mantissa_field x) * 2 ^ (exponent_field x - 1) /\
  Z.log2 (float32_units x) = exponent_field x + 22.
Proof.
  intros Hx He. destruct (fields_range x Hx) as (_ & _ & Hm).
  unfold float32_units. destruct (Z.eqb_spec (exponent_field x) 0); [lia|].
  split; [reflexivity|]. rewrite (log2_significand _ _ 23) by lia. lia.
Qed.

Lemma nearest_away_fields x :
  0 <= x < 2 ^ 32 ->
  103 <= exponent_field x < 255 ->
  carry_lost x = false ->
  floatToHalf_fields x = sign_bit x * 2 ^ 15 + binary16_nearest_away (float32_units x).
Proof.
  intros Hx He Hcarry.
  destruct (fields_range x Hx) as (Hs & _ & Hm).
  destruct (float32_units_normal x Hx ltac:(lia)) as [Hu Hlog].
  unfold floatToHalf_fields, binary16_nearest_away, spacing_log2, round_half_up.
  rewrite Hcarry, Hlog, Hu. unfold carry_lost in Hcarry.
  set (s := sign_bit x) in *. set (e := exponent_field x) in *.
  set (m := mantissa_field x) in *.
  destruct (Z.eqb_spec e 255); [lia|]. destruct (Z.ltb_spec e 103); [lia|].
  assert (0 < 2 ^ (e - 1)) as Hpos by (apply Z.pow_pos_nonneg; lia).
  destruct (Z.ltb_spec e 113) as [Hsub|Hnorm].
  - (* binary16 subnormal: the spacing is 2^-24 *)
    rewrite Z.max_l by lia. replace (125 - 125) with 0 by lia. rewrite Z.mul_0_l, Z.add_0_l.
    assert (2 ^ (125 - 1) = 2 ^ (125 - e) * 2 ^ (e - 1)) as ->
      by (rewrite <- Z.pow_add_r by lia; f_equal; lia).
    assert (2 ^ 125 = 2 ^ (126 - e) * 2 ^ (e - 1)) as ->
      by (rewrite <- Z.pow_add_r by lia; f_equal; lia).
    rewrite <- Z.mul_add_distr_r.
    assert (0 < 2 ^ (126 - e)) by (apply Z.pow_pos_nonneg; lia).
    rewrite Z.div_mul_cancel_r by lia.
    rewrite Z.min_r; [reflexivity|].
    assert (2 ^ 14 <= 2 ^ (126 - e)) by (apply Z.pow_le_mono_r; lia).
    assert (0 < 2 ^ (125 - e) <= 2 ^ 22).
    { split; [apply Z.pow_pos_nonneg; lia|apply Z.pow_le_mono_r; lia]. }
    apply Z.lt_le_incl, Z.div_lt_upper_bound; [lia|]. nia.
  - rewrite Z.max_r by lia.
    assert (2 ^ (e + 22 - 10 - 1) = 2 ^ 12 * 2 ^ (e - 1)) as ->
      by (rewrite <- Z.pow_add_r by lia; f_equal; lia).
    assert (2 ^ (e + 22 - 10) = 2 ^ 13 * 2 ^ (e - 1)) as ->
      by (rewrite <- Z.pow_add_r by lia; f_equal; lia).
    rewrite <- Z.mul_add_distr_r.
    rewrite Z.div_mul_cancel_r by lia.
    replace (2 ^ 23 + m + 2 ^ 12) with (m + 2 ^ 12 + 1024 * 2 ^ 13) by lia.
    rewrite Z.div_add by lia.
    assert (0 <= (m + 2 ^ 12) / 2 ^ 13 <= 1024) as Ht by (Z.div_mod_to_equations; lia).
    destruct (Z.ltb_spec 142 e) as [Hbig|Hfit].
    + rewrite Z.min_l by lia. reflexivity.
    + rewrite Z.min_r by lia. lia.
Qed.

(** *** The binary16 magnitudes *)

(** A pattern written as [(q - 125) * 2^10 + k] has the magnitude
    [k * 2^q]. *)
Lemma binary16_units_encode q k :
  (q = 125 /\ 0 <= k <= 2048) \/ (125 < q /\ 1024 <= k <= 2048) ->
  binary16_units ((q - 125) * 2 ^ 10 + k) = k * 2 ^ q.
Proof.
  intros Hk. unfold binary16_units.
  assert (0 < 2 ^ q) by (apply pow2_pos; lia).
  destruct (Z.eq_dec k 2048) as [->|Hk2].
  - replace ((q - 125) * 2 ^ 10 + 2048) with ((q - 123) * 2 ^ 10) by lia.
    rewrite Z.div_mul, Z.mod_mul by lia.
    destruct (Z.eqb_spec (q - 123) 0); [lia|].
    replace (q - 123 + 124) with (1 + q) by lia. rewrite pow2_split by lia. lia.
  - destruct (Z.lt_ge_cases k 1024) as [Hlow|Hhigh].
    + assert (q = 125) as -> by lia.
      replace ((125 - 125) * 2 ^ 10 + k) with k by lia.
      rewrite Z.div_small, Z.mod_small by lia. reflexivity.
    + replace ((q - 125) * 2 ^ 10 + k) with ((k - 1024) + (q - 124) * 2 ^ 10) by lia.
      rewrite Z.div_add, Z_mod_plus_full by lia.
      rewrite Z.div_small, Z.mod_small by lia.
      destruct (Z.eqb_spec (0 + (q - 124)) 0); [lia|].
      replace (0 + (q - 124) + 124) with q by lia. f_equal. lia.
Qed.

(** Decomposition of a pattern into a multiple of its own spacing. *)
Lemma binary16_units_decode h :
  0 <= h <= 0x7c00 ->
  exists q k, 125 <= q <= 155 /\ binary16_units h = k * 2 ^ q /\
    h = (q - 125) * 2 ^ 10 + k /\
    ((q = 125 /\ 0 <= k < 2048) \/ (125 < q /\ 1024 <= k < 2048)).
Proof.
  intros Hh.
  destruct (Z.lt_ge_cases h 2048) as [Hlow|Hhigh].
  - exists 125, h. repeat split; try lia.
    rewrite <- (binary16_units_encode 125 h) by lia. f_equal; lia.
  - set (E := h / 2 ^ 10). set (M := h mod 2 ^ 10).
    assert (h = E * 2 ^ 10 + M /\ 0 <= M < 2 ^ 10 /\ 2 <= E <= 31) as (HhEM & HM & HE)
      by (unfold E, M; Z.div_mod_to_equations; lia).
    exists (E + 124), (1024 + M). repeat split; try lia.
    rewrite <- (binary16_units_encode (E + 124) (1024 + M)) by lia. f_equal; lia.
Qed.

Lemma binary16_units_mono h1 h2 :
  0 <= h1 -> h1 < h2 -> h2 <= 0x7c00 -> binary16_units h1 < binary16_units h2.
Proof.
  intros H1 Hlt H2.
  destruct (binary16_units_decode h1 ltac:(lia)) as (q1 & k1 & Hq1 & -> & -> & Hk1).
  destruct (binary16_units_decode h2 ltac:(lia)) as (q2 & k2 & Hq2 & -> & -> & Hk2).
  assert (0 < 2 ^ q1) by (apply pow2_pos; lia).
  destruct (Z.lt_trichotomy q1 q2) as [Hq|[Hq|Hq]].
  - assert (2 ^ q2 = 2 ^ (q2 - q1 - 1) * 2 * 2 ^ q1) as ->.
    { replace q2 with ((q2 - q1 - 1) + 1 + q1) at 1 by lia.
      rewrite !pow2_split by lia. reflexivity. }
    assert (0 < 2 ^ (q2 - q1 - 1)) by (apply pow2_pos; lia).
    assert (k1 < k2 * (2 ^ (q2 - q1 - 1) * 2)) by nia.
    rewrite Z.mul_assoc. apply Z.mul_lt_mono_pos_r; lia.
  - subst q2. apply Z.mul_lt_mono_pos_r; lia.
  - exfalso. lia.
Qed.

Lemma binary16_units_mono_le h1 h2 :
  0 <= h1 -> h1 <= h2 -> h2 <= 0x7c00 -> binary16_units h1 <= binary16_units h2.
Proof.
  intros H1 Hle H2. destruct (Z.eq_dec h1 h2) as [->|Hne]; [lia|].
  apply Z.lt_le_incl, binary16_units_mono; lia.
Qed.

(** The pattern chosen by [binary16_nearest_away] has the magnitude
    nearest to [u] among all the binary16 patterns up to infinity (which
    stands for [2^16]); of two nearest patterns it is the larger. *)
Lemma binary16_nearest_away_optimal u h' :
  0 < u -> 0 <= h' <= 0x7c00 ->
  0 <= binary16_nearest_away u <= 0x7c00 /\
  Z.abs (binary16_units (binary16_nearest_away u) - u) <= Z.abs (binary16_units h' - u) /\
  (Z.abs (binary16_units (binary16_nearest_away u) - u) = Z.abs (binary16_units h' - u) ->
   h' <= binary16_nearest_away u).
Proof.
  intros Hu Hh'. unfold binary16_nearest_away, round_half_up.
  set (q := spacing_log2 u).
  assert (125 <= q) as Hq by (unfold q, spacing_log2; lia).
  assert (0 < 2 ^ (q - 1)) as Hhalf by (apply pow2_pos; lia).
  assert (2 ^ q = 2 * 2 ^ (q - 1)) as Hdouble.
  { replace q with (1 + (q - 1)) at 1 by lia. rewrite pow2_split by lia. reflexivity. }
  set (K := (u + 2 ^ (q - 1)) / 2 ^ q).
  assert (K * 2 ^ q <= u + 2 ^ (q - 1) < (K + 1) * 2 ^ q) as HK.
  { unfold K. pose proof (Z.div_mod (u + 2 ^ (q - 1)) (2 ^ q) ltac:(lia)) as Hdm.
    pose proof (Z.mod_pos_bound (u + 2 ^ (q - 1)) (2 ^ q) ltac:(lia)). lia. }
  assert (u < 2 ^ (q + 11)) as Hup.
  { destruct (Z.log2_spec u Hu) as [_ Hlt].
    apply Z.lt_le_trans with (2 ^ Z.succ (Z.log2 u)); [exact Hlt|].
    apply Z.pow_le_mono_r; [lia|]. unfold q, spacing_log2. lia. }
  assert (125 < q -> 2 ^ (q + 10) <= u) as Hlow.
  { intros Hq'. destruct (Z.log2_spec u Hu) as [Hle _].
    replace (q + 10) with (Z.log2 u); [exact Hle|]. unfold q, spacing_log2 in *. lia. }
  assert (2 ^ (q + 11) = 2048 * 2 ^ q) as H11
    by (rewrite Z.add_comm, pow2_split by lia; reflexivity).
  assert (2 ^ (q + 10) = 1024 * 2 ^ q) as H10
    by (rewrite Z.add_comm, pow2_split by lia; reflexivity).
  assert (0 <= K <= 2048) as HKr by nia.
  assert (125 < q -> 1024 <= K) as HKlow by (intros Hq'; specialize (Hlow Hq'); nia).
  destruct (Z.le_gt_cases 155 q) as [Hsat|Hfit].
  - (* beyond the finite range: infinity, the largest pattern *)
    rewrite Z.min_l by (specialize (HKlow ltac:(lia)); lia).
    assert (binary16_units 0x7c00 = 2 ^ 165) as Hinf by reflexivity.
    assert (2 ^ 165 <= u) as Hbig.
    { apply Z.le_trans with (2 ^ (q + 10)); [apply Z.pow_le_mono_r; lia|apply Hlow; lia]. }
    pose proof (binary16_units_mono_le h' 0x7c00 ltac:(lia) ltac:(lia) ltac:(lia)) as Hmono.
    split; [lia|]. split; [lia|]. intros _. lia.
  - assert (0 <= (q - 125) * 2 ^ 10 + K <= 0x7c00) as Hrange
      by (destruct (Z.eq_dec q 125); [lia|specialize (HKlow ltac:(lia)); lia]).
    rewrite Z.min_r by lia.
    assert (binary16_units ((q - 125) * 2 ^ 10 + K) = K * 2 ^ q) as Hr.
    { apply binary16_units_encode.
      destruct (Z.eq_dec q 125); [left; lia|right]. specialize (HKlow ltac:(lia)). lia. }
    split; [exact Hrange|].
    (* it is enough to compare the magnitudes *)
    cut (Z.abs (K * 2 ^ q - u) <= Z.abs (binary16_units h' - u) /\
         (Z.abs (K * 2 ^ q - u) = Z.abs (binary16_units h' - u) ->
          binary16_units h' <= K * 2 ^ q)).
    { rewrite Hr. intros [Hnear Htie]. split; [exact Hnear|].
      intros Heq. specialize (Htie Heq).
      destruct (Z.le_gt_cases h' ((q - 125) * 2 ^ 10 + K)) as [Hle|Hgt]; [exact Hle|].
      pose proof (binary16_units_mono ((q - 125) * 2 ^ 10 + K) h'
                    ltac:(lia) ltac:(lia) ltac:(lia)) as Hm.
      rewrite Hr in Hm. lia. }
    destruct (binary16_units_decode h' Hh') as (q' & k' & Hq' & Hu' & Hh'eq & Hk').
    rewrite Hu'. rewrite Hdouble in *.
    set (P := 2 ^ (q - 1)) in *.
    destruct (Z.le_gt_cases q q') as [Hge|Hlt].
    + (* the magnitude of h' is a multiple of the spacing at u *)
      assert (2 ^ q' = 2 ^ (q' - q) * (2 * P)) as ->.
      { rewrite <- Hdouble, <- pow2_split by lia. f_equal. lia. }
      set (j := k' * 2 ^ (q' - q)).
      replace (k' * (2 ^ (q' - q) * (2 * P))) with (2 * (j * P)) by (unfold j; lia).
      replace (K * (2 * P)) with (2 * (K * P)) in * by lia.
      assert (j * P <= K * P - P \/ j = K \/ K * P + P <= j * P) as Hcases.
      { destruct (Z.lt_trichotomy j K) as [Hj|[Hj|Hj]]; [left|right; left|right; right];
          [nia|exact Hj|nia]. }
      destruct Hcases as [Hc|[->|Hc]]; lia.
    + (* h' lies in a binade below the one of u *)
      assert (P = 2 ^ (q - 1 - q') * 2 ^ q') as HP
        by (unfold P; rewrite <- pow2_split by lia; f_equal; lia).
      assert (0 < 2 ^ (q - 1 - q')) by (apply pow2_pos; lia).
      assert (0 < 2 ^ q') by (apply pow2_pos; lia).
      specialize (Hlow ltac:(lia)). specialize (HKlow ltac:(lia)).
      assert (k' * 2 ^ q' + P <= u) by nia.
      lia.
Qed.

(** *** The codec against IEEE 754 *)

(** C3. When the binary32 input [x] has the value of some binary16 datum
    [h] (a normal or subnormal number, a zero of either sign, an infinity
    or a NaN), [halfToFloat (floatToHalf x)] is the value of [x]; for a
    number or an infinity [floatToHalf x] is that very pattern [h], so an
    infinity goes to [0x7C00] or [0xFC00] and back, and a NaN goes to the
    NaN pattern [0x7E00] with its sign bit, which [halfToFloat] reads as
    NaN. *)
Theorem half_float_round_trip (x : Z) :
  0 <= x < 2 ^ 32 ->
  (forall h, 0 <= h < 2 ^ 16 -> binary16_value h = float32_value x ->
     halfToFloat (floatToHalf x) = float32_value x /\
     (float32_value x <> NaN -> floatToHalf x = h)) /\
  (forall negative, float32_value x = Infinity negative ->
     floatToHalf x = (if negative then 0xfc00 else 0x7c00) /\
     halfToFloat (floatToHalf x) = Infinity negative) /\
  (float32_value x = NaN ->
     floatToHalf x = sign_bit x * 2 ^ 15 + 0x7e00 /\
     binary16_value (floatToHalf x) = NaN /\
     halfToFloat (floatToHalf x) = NaN).
Proof.
  intros Hx. rewrite (floatToHalf_arith x Hx).
  destruct (fields_range x Hx) as (Hs & He & Hm).
  assert (float32_value x = NaN ->
          floatToHalf_fields x = sign_bit x * 2 ^ 15 + 0x7e00 /\
          binary16_value (floatToHalf_fields x) = NaN /\
          halfToFloat (floatToHalf_fields x) = NaN) as Hnan.
  { unfold float32_value, floatToHalf_fields, pow2_times.
    destruct (Z.eqb_spec (exponent_field x) 255) as [He255|He255].
    - destruct (Z.eqb_spec (mantissa_field x) 0); [discriminate|]. intros _.
      assert (sign_bit x = 0 \/ sign_bit x = 1) as [-> | ->] by lia;
        repeat split; reflexivity.
    - destruct (exponent_field x =? 0); discriminate. }
  split; [|split; [|exact Hnan]].
  - intros h Hh Hrep.
    destruct (decide (float32_value x = NaN)) as [Hisnan|Hnotnan].
    + split; [|done]. destruct (Hnan Hisnan) as (_ & _ & ->). by rewrite Hisnan.
    + rewrite (representable_fields x h Hx Hh Hrep Hnotnan).
      split; [|done]. rewrite halfToFloat_binary16 by lia. exact Hrep.
  - intros negative Hinf.
    assert (floatToHalf_fields x = if negative then 0xfc00 else 0x7c00) as ->.
    { apply representable_fields; [done|destruct negative; lia| |by rewrite Hinf].
      rewrite Hinf. by destruct negative. }
    split; [done|]. by destruct negative.
Qed.

Lemma half_float_round_trip_witness :
  halfToFloat (floatToHalf 0x3f800000) = float32_value 0x3f800000 /\
  (float32_value 0x3f800000 <> NaN -> floatToHalf 0x3f800000 = 0x3c00).
Proof.
  apply (proj1 (half_float_round_trip 0x3f800000 ltac:(lia)) 0x3c00).
  - lia.
  - reflexivity.
Defined.

(** The round trip on a binary16 subnormal, on the negative zero, on an
    infinity and on a NaN. *)
Lemma half_float_round_trip_examples :
  halfToFloat (floatToHalf 0xb3800000) = float32_value 0xb3800000 /\
  floatToHalf 0xb3800000 = 0x8001 /\
  halfToFloat (floatToHalf 0x80000000) = Finite true 0 /\
  halfToFloat (floatToHalf 0xff800000) = Infinity true /\
  halfToFloat (floatToHalf 0x7fc00001) = NaN.
Proof. repeat split; reflexivity. Qed.

(** C1 (amended). [floatToHalf] returns the NaN pattern [0x7E00] with the
    sign bit for a NaN, the infinity pattern [0x7C00] with the sign bit
    for an infinity and for every magnitude from [2^16] on, the zero of
    the same sign for a zero and for every magnitude below [2^-24]; for
    the other inputs, unless the rounded mantissa carries into an odd
    exponent field, it returns the sign bit with the binary16 magnitude
    nearest to the input, the larger of the two on a tie (round half up
    on the mantissa), which is a binary16 subnormal, or the smallest
    normal, below [2^-14], and infinity when the input rounds to [2^16]. *)
Theorem floatToHalf_nearest_ties_away (x : Z) :
  0 <= x < 2 ^ 32 ->
  (exponent_field x = 255 ->
     floatToHalf x = sign_bit x * 2 ^ 15 + (if mantissa_field x =? 0 then 0x7c00 else 0x7e00)) /\
  (exponent_field x < 103 -> floatToHalf x = sign_bit x * 2 ^ 15) /\
  (142 < exponent_field x < 255 -> floatToHalf x = sign_bit x * 2 ^ 15 + 0x7c00) /\
  (103 <= exponent_field x < 255 -> carry_lost x = false ->
     floatToHalf x = sign_bit x * 2 ^ 15 + binary16_nearest_away (float32_units x) /\
     0 <= binary16_nearest_away (float32_units x) <= 0x7c00 /\
     (exponent_field x < 113 -> binary16_nearest_away (float32_units x) <= 0x400) /\
     forall h', 0 <= h' <= 0x7c00 ->
       Z.abs (binary16_units (binary16_nearest_away (float32_units x)) - float32_units x)
         <= Z.abs (binary16_units h' - float32_units x) /\
       (Z.abs (binary16_units (binary16_nearest_away (float32_units x)) - float32_units x)
          = Z.abs (binary16_units h' - float32_units x) ->
        h' <= binary16_nearest_away (float32_units x))).
Proof.
  intros Hx. rewrite (floatToHalf_arith x Hx).
  destruct (fields_range x Hx) as (Hs & He & Hm).
  split; [|split; [|split]].
  - intros He255. unfold floatToHalf_fields. rewrite He255. reflexivity.
  - intros Hsmall. unfold floatToHalf_fields.
    destruct (Z.eqb_spec (exponent_field x) 255); [lia|].
    destruct (Z.ltb_spec (exponent_field x) 103); [reflexivity|lia].
  - intros Hbig. unfold floatToHalf_fields.
    destruct (Z.eqb_spec (exponent_field x) 255); [lia|].
    destruct (Z.ltb_spec (exponent_field x) 103); [lia|].
    destruct (Z.ltb_spec (exponent_field x) 113); [lia|].
    destruct (Z.ltb_spec 142 (exponent_field x)); [reflexivity|lia].
  - intros Hrange Hcarry.
    pose proof (nearest_away_fields x Hx Hrange Hcarry) as Heq.
    destruct (float32_units_normal x Hx ltac:(lia)) as [Hu Hlog].
    assert (0 < float32_units x) as Hpos.
    { rewrite Hu. apply Z.mul_pos_pos; [lia|apply pow2_pos; lia]. }
    split; [exact Heq|].
    split; [apply (binary16_nearest_away_optimal _ 0 Hpos); lia|].
    split.
    + intros Hsub. unfold floatToHalf_fields in Heq.
      destruct (Z.eqb_spec (exponent_field x) 255); [lia|].
      destruct (Z.ltb_spec (exponent_field x) 103); [lia|].
      destruct (Z.ltb_spec (exponent_field x) 113); [|lia].
      assert (binary16_nearest_away (float32_units x)
              = (2 ^ 23 + mantissa_field x + 2 ^ (125 - exponent_field x))
                  / 2 ^ (126 - exponent_field x)) as -> by lia.
      assert (2 ^ (126 - exponent_field x) = 2 * 2 ^ (125 - exponent_field x)) as ->.
      { replace (126 - exponent_field x) with (1 + (125 - exponent_field x)) by lia.
        rewrite pow2_split by lia. reflexivity. }
      assert (2 ^ 13 <= 2 ^ (125 - exponent_field x)) by (apply Z.pow_le_mono_r; lia).
      apply Z.lt_succ_r, Z.div_lt_upper_bound; lia.
    + intros h' Hh'. apply (binary16_nearest_away_optimal _ h' Hpos Hh').
Qed.

Lemma floatToHalf_nearest_ties_away_witness :
  floatToHalf 0x3f801000
    = sign_bit 0x3f801000 * 2 ^ 15 + binary16_nearest_away (float32_units 0x3f801000).
Proof.
  apply (proj2 (proj2 (proj2 (floatToHalf_nearest_ties_away 0x3f801000 ltac:(lia))))).
  - vm_compute. split; [discriminate|reflexivity].
  - reflexivity.
Defined.

(** C1 as stated fails: [1 + 2^-11] lies half way between the binary16
    values [1] (pattern [0x3C00], even) and [1 + 2^-10] (pattern [0x3C01]);
    round-to-nearest-even gives the first, [floatToHalf] returns the
    second. *)
Lemma floatToHalf_tie_not_to_even :
  floatToHalf 0x3f801000 = 0x3c01 /\
  ieee_float_to_half 0x3f801000 = 0x3c00 /\
  float32_units 0x3f801000 - binary16_units 0x3c00
    = binary16_units 0x3c01 - float32_units 0x3f801000 /\
  Z.even 0x3c00 = true /\ Z.even 0x3c01 = false.
Proof. repeat split; reflexivity. Qed.

(** Below [2^-24] the result is zero although the smallest subnormal is
    nearer: [2^-25 + 2^-48] goes to [0], IEEE 754 gives [0x0001]. *)
Lemma floatToHalf_flushes_to_zero :
  floatToHalf 0x33000001 = 0 /\ ieee_float_to_half 0x33000001 = 1.
Proof. split; reflexivity. Qed.

(** The lost carry: when the mantissa rounds up to [2^10] and the
    exponent field of the half is odd, the result keeps the exponent and
    has a zero mantissa; the largest binary32 below [2] goes to [1.0]
    ([0x3C00]) instead of [2.0] ([0x4000]). *)
Lemma floatToHalf_carry_lost (x : Z) :
  0 <= x < 2 ^ 32 -> carry_lost x = true ->
  floatToHalf x = sign_bit x * 2 ^ 15 + (exponent_field x - 112) * 2 ^ 10.
Proof.
  intros Hx Hcarry. rewrite (floatToHalf_arith x Hx). unfold floatToHalf_fields.
  rewrite Hcarry. unfold carry_lost in Hcarry.
  destruct (Z.leb_spec 113 (exponent_field x)); [|discriminate].
  destruct (Z.leb_spec (exponent_field x) 142); [|discriminate].
  destruct (Z.eqb_spec (exponent_field x) 255); [lia|].
  destruct (Z.ltb_spec (exponent_field x) 103); [lia|].
  destruct (Z.ltb_spec (exponent_field x) 113); [lia|].
  destruct (Z.ltb_spec 142 (exponent_field x)); [lia|]. reflexivity.
Qed.

Lemma floatToHalf_carry_lost_example :
  floatToHalf 0x3fffffff = 0x3c00 /\ ieee_float_to_half 0x3fffffff = 0x4000.
Proof. split; reflexivity. Qed.

End HalfFloat.

(** ** Double-precision arithmetic

    The JavaScript numbers of the size policy and of the column mapping
    are non-negative doubles obtained from integers by one division and
    one multiplication.  A double is written exactly, by its 53-bit
    significand and its exponent; an operation is the exact operation
    followed by rounding to the nearest double, ties to the even
    significand (the results here are far from overflow and underflow). *)
Module Double.
Import Pow2.
Local Open Scope Z_scope.

(** The number [sig * 2^expo]: zero is [(0, 0)], a positive double has
    [2^52 <= sig < 2^53]. *)
Record double := MkDouble { sig : Z; expo : Z }.

#[global] Instance double_eq_dec : EqDecision double.
Proof. solve_decision. Defined.

(** [n / d < 2^g], for positive [n] and [d]. *)
Definition below_pow2 (n d g : Z) : bool :=
  if 0 <=? g then n <? d * 2 ^ g else n * 2 ^ (- g) <? d.

(** The integer [g] with [2^g <= n / d < 2^(g+1)], for positive [n], [d]. *)
Definition ilog2 (n d : Z) : Z :=
  let g := Z.log2 n - Z.log2 d in
  if below_pow2 n d g then g - 1 else g.

(** Integer nearest to [n / d], a tie going to the even one. *)
Definition rne (n d : Z) : Z :=
  let q := n / d in
  let r := n mod d in
  if 2 * r <? d then q
  else if d <? 2 * r then q + 1
  else if Z.even q then q else q + 1.

(** The double nearest to the rational [n / d], for [0 <= n] and [0 < d]. *)
Definition round53 (n d : Z) : double :=
  if n =? 0 then MkDouble 0 0
  else
    let e := ilog2 n d - 52 in
    let k := if 0 <=? e then rne n (d * 2 ^ e) else rne (n * 2 ^ (- e)) d in
    if k =? 2 ^ 53 then MkDouble (2 ^ 52) (e + 1) else MkDouble k e.

(** The double of an integer, exact below [2^53]. *)
Definition of_int (n : Z) : double := round53 n 1.

Definition one : double := of_int 1.

(** [a / b] on the doubles of two positive integers. *)
Definition fdiv (a b : Z) : double := round53 a b.

(** [x * y]. *)
Definition fmul (x y : double) : double :=
  let e := expo x + expo y in
  if 0 <=? e then round53 (sig x * sig y * 2 ^ e) 1
  else round53 (sig x * sig y) (2 ^ (- e)).

(** [x < y] and [Math.min(x, y)]. *)
Definition flt (x y : double) : bool :=
  if expo x <=? expo y then sig x <? sig y * 2 ^ (expo y - expo x)
  else sig x * 2 ^ (expo x - expo y) <? sig y.

Definition fmin (x y : double) : double := if flt y x then y else x.

(** [Math.floor(x)]. *)
Definition ffloor (x : double) : Z :=
  if 0 <=? expo x then sig x * 2 ^ expo x else sig x / 2 ^ (- expo x).

(** [Math.round(x)]: the integer nearest to [x], a tie going up. *)
Definition fround (x : double) : Z :=
  if 0 <=? expo x then sig x * 2 ^ expo x
  else (2 * sig x + 2 ^ (- expo x)) / 2 ^ (1 - expo x).

(** [x <= w] and [w <= x] for an integer [w]. *)
Definition le_int (x : double) (w : Z) : Prop :=
  if 0 <=? expo x then sig x * 2 ^ expo x <= w else sig x <= w * 2 ^ (- expo x).

Definition ge_int (x : double) (w : Z) : Prop :=
  if 0 <=? expo x then w <= sig x * 2 ^ expo x else w * 2 ^ (- expo x) <= sig x.

(** *** Rounding and order *)

(** [ilog2] from below. *)
Lemma ilog2_lower n d :
  0 < n -> 0 < d -> 0 <= ilog2 n d -> d * 2 ^ ilog2 n d <= n.
Proof.
  intros Hn Hd. unfold ilog2, below_pow2.
  destruct (Z.log2_spec n Hn) as [Hn1 Hn2]. destruct (Z.log2_spec d Hd) as [Hd1 Hd2].
  pose proof (Z.log2_nonneg n). pose proof (Z.log2_nonneg d).
  set (g := Z.log2 n - Z.log2 d) in *.
  destruct (Z.leb_spec 0 g) as [Hg|Hg].
  - destruct (Z.ltb_spec n (d * 2 ^ g)) as [Hb|Hb]; [|lia].
    intros Hg1.
    assert (2 ^ Z.log2 n = 2 ^ (Z.log2 d + 1) * 2 ^ (g - 1)) as Hsplit
      by (rewrite <- pow2_split by lia; f_equal; lia).
    replace (Z.succ (Z.log2 d)) with (Z.log2 d + 1) in Hd2 by lia.
    assert (0 < 2 ^ (g - 1)) by (apply pow2_pos; lia).
    nia.
  - destruct (n * 2 ^ (- g) <? d); lia.
Qed.

Lemma rne_bounds n d :
  0 <= n -> 0 < d -> n / d <= rne n d <= n / d + 1.
Proof.
  intros Hn Hd. unfold rne.
  destruct (2 * (n mod d) <? d); [lia|].
  destruct (d <? 2 * (n mod d)); [lia|].
  destruct (Z.even (n / d)); lia.
Qed.

Lemma rne_le_int n d M : 0 <= n -> 0 < d -> n <= M * d -> rne n d <= M.
Proof.
  intros Hn Hd Hle. unfold rne.
  pose proof (Z.div_mod n d ltac:(lia)) as Hdm.
  pose proof (Z.mod_pos_bound n d Hd) as Hr.
  assert (n / d <= M) by nia.
  destruct (Z.eq_dec (n / d) M) as [Heq|Hne].
  - assert (n mod d = 0) as -> by nia.
    destruct (Z.ltb_spec (2 * 0) d); lia.
  - destruct (2 * (n mod d) <? d); [lia|].
    destruct (d <? 2 * (n mod d)); [lia|].
    destruct (Z.even (n / d)); lia.
Qed.

Lemma rne_ge_int n d M : 0 <= n -> 0 < d -> M * d <= n -> M <= rne n d.
Proof.
  intros Hn Hd Hle. pose proof (rne_bounds n d Hn Hd) as [Hlow _].
  apply Z.le_trans with (n / d); [|exact Hlow].
  apply Z.div_le_lower_bound; lia.
Qed.

Lemma rne_unit n : rne n 1 = n.
Proof.
  unfold rne. rewrite Z.div_1_r, Z.mod_1_r. reflexivity.
Qed.

Lemma le_int_nonpos x w : expo x <= 0 -> (le_int x w <-> sig x <= w * 2 ^ (- expo x)).
Proof.
  intros He. unfold le_int. destruct (Z.leb_spec 0 (expo x)); [|done].
  assert (expo x = 0) as -> by lia. simpl. lia.
Qed.

Lemma ge_int_nonpos x w : expo x <= 0 -> (ge_int x w <-> w * 2 ^ (- expo x) <= sig x).
Proof.
  intros He. unfold ge_int. destruct (Z.leb_spec 0 (expo x)); [|done].
  assert (expo x = 0) as -> by lia. simpl. lia.
Qed.

(** Rounding does not cross a dyadic number [W / 2^t] of at most 53
    bits. *)
Lemma round53_le_dyadic n d W t :
  0 < n -> 0 < d -> 0 <= t <= 52 -> 0 < W < 2 ^ 53 -> n * 2 ^ t <= W * d ->
  expo (round53 n d) <= - t /\ 0 <= sig (round53 n d) /\
  sig (round53 n d) <= W * 2 ^ (- expo (round53 n d) - t).
Proof.
  intros Hn Hd Ht HW Hle. unfold round53.
  assert (0 < 2 ^ t) as Hpt by (apply pow2_pos; lia).
  destruct (Z.eqb_spec n 0) as [Hn0|Hn0]; [lia|].
  set (e := ilog2 n d - 52).
  assert (e <= - t) as He.
  { destruct (Z.le_gt_cases e (- t)) as [|Hpos]; [done|]. exfalso.
    pose proof (ilog2_lower n d ltac:(lia) Hd ltac:(lia)) as Hlow.
    assert (2 ^ 53 <= 2 ^ (ilog2 n d + t)) as Hbig by (apply pow2_le; lia).
    rewrite pow2_split in Hbig by lia. nia. }
  assert (0 < 2 ^ (- e - t)) as Hpet by (apply pow2_pos; lia).
  assert (2 ^ (- e) = 2 ^ t * 2 ^ (- e - t)) as Hsplit
    by (rewrite <- pow2_split by lia; f_equal; lia).
  assert (0 < 2 ^ (- e)) as Hp by (apply pow2_pos; lia).
  assert (rne (n * 2 ^ (- e)) d <= W * 2 ^ (- e - t)) as Hk
    by (apply rne_le_int; [nia|lia|nia]).
  pose proof (rne_bounds (n * 2 ^ (- e)) d ltac:(nia) Hd) as [Hk0 _].
  assert (0 <= n * 2 ^ (- e) / d) by (apply Z.div_pos; nia).
  assert ((if 0 <=? e then rne n (d * 2 ^ e) else rne (n * 2 ^ (- e)) d)
          = rne (n * 2 ^ (- e)) d) as ->.
  { destruct (Z.leb_spec 0 e); [|done].
    assert (e = 0) as -> by lia. simpl. by rewrite !Z.mul_1_r. }
  destruct (Z.eqb_spec (rne (n * 2 ^ (- e)) d) (2 ^ 53)) as [Heq|Hne]; simpl; [|lia].
  rewrite Heq in Hk.
  assert (- e - t <> 0) as Hnz by (intros Hz; rewrite Hz in Hk; simpl in Hk; lia).
  assert (2 ^ (- e - t) = 2 * 2 ^ (- (e + 1) - t)) as Hs.
  { replace (- e - t) with (1 + (- (e + 1) - t)) by lia.
    rewrite pow2_split by lia. reflexivity. }
  rewrite Hs in Hk. lia.
Qed.

(** Rounding does not cross an integer below [2^53]. *)
Lemma round53_le_int n d w :
  0 <= n -> 0 < d -> 0 < w < 2 ^ 53 -> n <= w * d ->
  expo (round53 n d) <= 0 /\ 0 <= sig (round53 n d) /\
  sig (round53 n d) <= w * 2 ^ (- expo (round53 n d)).
Proof.
  intros Hn Hd Hw Hle.
  destruct (Z.eq_dec n 0) as [->|Hn0]; [simpl; lia|].
  destruct (round53_le_dyadic n d w 0 ltac:(lia) Hd ltac:(lia) Hw ltac:(simpl; lia))
    as (He & Hs0 & Hs).
  rewrite Z.sub_0_r in Hs. split; [lia|]. split; [lia|exact Hs].
Qed.

Lemma round53_ge_int n d w :
  0 < n -> 0 < d -> 0 < w < 2 ^ 53 -> w * d <= n ->
  ge_int (round53 n d) w.
Proof.
  intros Hn Hd Hw Hle. unfold round53, ge_int.
  destruct (Z.eqb_spec n 0); [lia|].
  set (e := ilog2 n d - 52).
  destruct (Z.leb_spec 0 e) as [He0|Hneg].
  - (* the quotient is 2^52 or more *)
    pose proof (ilog2_lower n d Hn Hd ltac:(lia)) as Hlow.
    assert (ilog2 n d = 52 + e) as Hi by lia. rewrite Hi, pow2_split in Hlow by lia.
    assert (0 < 2 ^ e) as Hp by (apply pow2_pos; lia).
    pose proof (rne_ge_int n (d * 2 ^ e) (2 ^ 52) ltac:(lia) ltac:(nia) ltac:(nia)) as Hk.
    destruct (Z.eq_dec e 0) as [He|He].
    + rewrite He in *. rewrite Z.pow_0_r, Z.mul_1_r in *.
      pose proof (rne_ge_int n d w ltac:(lia) Hd Hle) as Hk'.
      destruct (Z.eqb_spec (rne n d) (2 ^ 53)); simpl; lia.
    + assert (2 <= 2 ^ e).
      { replace e with (1 + (e - 1)) by lia. rewrite pow2_split by lia.
        assert (0 < 2 ^ (e - 1)) by (apply pow2_pos; lia). lia. }
      destruct (Z.eqb_spec (rne n (d * 2 ^ e)) (2 ^ 53)); simpl.
      * destruct (Z.leb_spec 0 (e + 1)); [|lia].
        rewrite pow2_split by lia. change (2 ^ 1) with 2. nia.
      * destruct (Z.leb_spec 0 e); [|lia]. nia.
  - assert (0 < 2 ^ (- e)) as Hp by (apply pow2_pos; lia).
    pose proof (rne_ge_int (n * 2 ^ (- e)) d (w * 2 ^ (- e)) ltac:(nia) Hd ltac:(nia)) as Hk.
    destruct (Z.eqb_spec (rne (n * 2 ^ (- e)) d) (2 ^ 53)) as [Heq|Hne]; simpl.
    + assert (2 ^ (- e) = 2 * 2 ^ (- (e + 1))) as Hs.
      { replace (- e) with (1 + - (e + 1)) by lia. rewrite pow2_split by lia. reflexivity. }
      rewrite Heq, Hs in Hk.
      destruct (Z.leb_spec 0 (e + 1)).
      * assert (e + 1 = 0) as He1 by lia. rewrite He1 in *. simpl in *. lia.
      * lia.
    + destruct (Z.leb_spec 0 e); [lia|]. lia.
Qed.

Lemma one_eq : one = MkDouble (2 ^ 52) (-52).
Proof. reflexivity. Qed.

Lemma of_int_exact w :
  0 < w < 2 ^ 53 ->
  expo (of_int w) <= 0 /\ sig (of_int w) = w * 2 ^ (- expo (of_int w)).
Proof.
  intros Hw. unfold of_int.
  destruct (round53_le_int w 1 w ltac:(lia) ltac:(lia) Hw ltac:(lia)) as (He & _ & Hle).
  pose proof (round53_ge_int w 1 w ltac:(lia) ltac:(lia) Hw ltac:(lia)) as Hge.
  apply ge_int_nonpos in Hge; [|exact He]. split; [exact He|lia].
Qed.

Lemma round53_sig_nonneg n d : 0 <= n -> 0 < d -> 0 <= sig (round53 n d).
Proof.
  intros Hn Hd. unfold round53. destruct (n =? 0); [simpl; lia|].
  set (e := ilog2 n d - 52).
  assert (0 <= (if 0 <=? e then rne n (d * 2 ^ e) else rne (n * 2 ^ (- e)) d)) as Hk.
  { destruct (Z.leb_spec 0 e).
    - assert (0 < 2 ^ e) by (apply pow2_pos; lia).
      pose proof (rne_bounds n (d * 2 ^ e) Hn ltac:(nia)) as [Hk _].
      assert (0 <= n / (d * 2 ^ e)) by (apply Z.div_pos; nia). lia.
    - assert (0 < 2 ^ (- e)) by (apply pow2_pos; lia).
      pose proof (rne_bounds (n * 2 ^ (- e)) d ltac:(nia) Hd) as [Hk _].
      assert (0 <= n * 2 ^ (- e) / d) by (apply Z.div_pos; nia). lia. }
  destruct (_ =? 2 ^ 53); simpl; lia.
Qed.

(** The product of an integer below [2^53] by a double that is at most 1
    is at most that integer. *)
Lemma fmul_of_int_le w y :
  0 < w < 2 ^ 53 -> expo y < 0 -> 0 <= sig y <= 2 ^ (- expo y) ->
  expo (fmul (of_int w) y) <= 0 /\ 0 <= sig (fmul (of_int w) y) /\
  sig (fmul (of_int w) y) <= w * 2 ^ (- expo (fmul (of_int w) y)).
Proof.
  intros Hw Hey Hy. destruct (of_int_exact w Hw) as [He1 Hs1].
  unfold fmul. set (e1 := expo (of_int w)) in *.
  destruct (Z.leb_spec 0 (e1 + expo y)); [lia|].
  assert (0 < 2 ^ (- e1)) by (apply pow2_pos; lia).
  assert (0 < 2 ^ (- expo y)) by (apply pow2_pos; lia).
  assert (2 ^ (- (e1 + expo y)) = 2 ^ (- e1) * 2 ^ (- expo y)) as Hsplit
    by (rewrite <- pow2_split by lia; f_equal; lia).
  assert (0 <= w * 2 ^ (- e1)) by nia.
  apply round53_le_int; [rewrite Hs1; nia|rewrite Hsplit; nia|lia|].
  rewrite Hs1, Hsplit.
  replace (w * (2 ^ (- e1) * 2 ^ (- expo y))) with (w * 2 ^ (- e1) * 2 ^ (- expo y)) by lia.
  apply Z.mul_le_mono_nonneg_l; lia.
Qed.

Lemma fmul_of_int_ge w y :
  0 < w < 2 ^ 53 -> expo y < 0 -> 2 ^ (- expo y) <= sig y ->
  ge_int (fmul (of_int w) y) w.
Proof.
  intros Hw Hey Hy. destruct (of_int_exact w Hw) as [He1 Hs1].
  unfold fmul. set (e1 := expo (of_int w)) in *.
  destruct (Z.leb_spec 0 (e1 + expo y)); [lia|].
  assert (0 < 2 ^ (- e1)) by (apply pow2_pos; lia).
  assert (0 < 2 ^ (- expo y)) by (apply pow2_pos; lia).
  assert (2 ^ (- (e1 + expo y)) = 2 ^ (- e1) * 2 ^ (- expo y)) as Hsplit
    by (rewrite <- pow2_split by lia; f_equal; lia).
  assert (0 < w * 2 ^ (- e1)) by nia.
  apply round53_ge_int; [rewrite Hs1; nia|rewrite Hsplit; nia|lia|].
  rewrite Hs1, Hsplit.
  replace (w * (2 ^ (- e1) * 2 ^ (- expo y))) with (w * 2 ^ (- e1) * 2 ^ (- expo y)) by lia.
  apply Z.mul_le_mono_nonneg_l; lia.
Qed.

Lemma fround_le x w :
  expo x <= 0 -> 0 <= sig x -> sig x <= w * 2 ^ (- expo x) -> fround x <= w.
Proof.
  intros He Hs Hle. unfold fround.
  destruct (Z.leb_spec 0 (expo x)).
  - assert (expo x = 0) as Hz by lia. rewrite Hz in *. simpl in *. lia.
  - assert (0 < 2 ^ (- expo x)) by (apply pow2_pos; lia).
    assert (2 ^ (1 - expo x) = 2 * 2 ^ (- expo x)) as ->
      by (replace (1 - expo x) with (1 + - expo x) by lia;
          rewrite pow2_split by lia; reflexivity).
    apply Z.lt_succ_r, Z.div_lt_upper_bound; lia.
Qed.

Lemma fround_ge x w : ge_int x w -> expo x <= 0 -> w <= fround x.
Proof.
  intros Hge He. apply ge_int_nonpos in Hge; [|exact He]. unfold fround.
  destruct (Z.leb_spec 0 (expo x)).
  - assert (expo x = 0) as Hz by lia. rewrite Hz in *. simpl in *. lia.
  - assert (0 < 2 ^ (- expo x)) by (apply pow2_pos; lia).
    assert (2 ^ (1 - expo x) = 2 * 2 ^ (- expo x)) as ->
      by (replace (1 - expo x) with (1 + - expo x) by lia;
          rewrite pow2_split by lia; reflexivity).
    apply Z.div_le_lower_bound; lia.
Qed.

(** A quotient that is at most [1 - 2^-13] rounds below 1. *)
Lemma fdiv_lt_one a b :
  0 < a -> 0 < b -> a * 2 ^ 13 <= (2 ^ 13 - 1) * b ->
  flt (fdiv a b) one = true /\ expo (fdiv a b) < 0 /\
  0 <= sig (fdiv a b) <= 2 ^ (- expo (fdiv a b)).
Proof.
  intros Ha Hb Hle. unfold fdiv.
  destruct (round53_le_dyadic a b (2 ^ 13 - 1) 13 Ha Hb ltac:(lia) ltac:(lia) Hle)
    as (He & Hs0 & Hs).
  set (r := round53 a b) in *.
  assert (0 < 2 ^ (- expo r - 13)) by (apply pow2_pos; lia).
  assert (2 ^ (- expo r) = 2 ^ 13 * 2 ^ (- expo r - 13)) as Hsplit
    by (rewrite <- pow2_split by lia; f_equal; lia).
  assert (sig r < 2 ^ (- expo r)) as Hlt by (rewrite Hsplit; lia).
  split; [|split; [lia|lia]].
  rewrite one_eq. unfold flt. cbn [sig expo].
  destruct (Z.leb_spec (expo r) (-52)).
  - apply Z.ltb_lt.
    assert (2 ^ (- expo r) = 2 ^ 52 * 2 ^ (-52 - expo r)) as <-
      by (rewrite <- pow2_split by lia; f_equal; lia).
    exact Hlt.
  - apply Z.ltb_lt.
    assert (2 ^ 52 = 2 ^ (- expo r) * 2 ^ (expo r - -52)) as Hs52
      by (rewrite <- pow2_split by lia; f_equal; lia).
    assert (0 < 2 ^ (expo r - -52)) by (apply pow2_pos; lia).
    rewrite Hs52. nia.
Qed.

Lemma fdiv_ge_one a b :
  0 < b -> b <= a -> a < 2 ^ 53 -> flt (fdiv a b) one = false.
Proof.
  intros Hb Hle Ha. unfold fdiv.
  pose proof (round53_ge_int a b 1 ltac:(lia) Hb ltac:(lia) ltac:(lia)) as Hge.
  set (r := round53 a b) in *.
  rewrite one_eq. unfold flt, ge_int in *. cbn [sig expo].
  destruct (Z.leb_spec (expo r) (-52)).
  - destruct (Z.leb_spec 0 (expo r)); [lia|].
    apply Z.ltb_ge.
    assert (2 ^ (- expo r) = 2 ^ 52 * 2 ^ (-52 - expo r)) as <-
      by (rewrite <- pow2_split by lia; f_equal; lia).
    lia.
  - apply Z.ltb_ge.
    destruct (Z.leb_spec 0 (expo r)).
    + assert (2 ^ (expo r - -52) = 2 ^ 52 * 2 ^ expo r) as ->
        by (rewrite <- pow2_split by lia; f_equal; lia).
      nia.
    + assert (2 ^ 52 = 2 ^ (- expo r) * 2 ^ (expo r - -52)) as Hs52
        by (rewrite <- pow2_split by lia; f_equal; lia).
      assert (0 < 2 ^ (expo r - -52)) by (apply pow2_pos; lia).
      rewrite Hs52. nia.
Qed.

Lemma ffloor_nonneg x : 0 <= sig x -> 0 <= ffloor x.
Proof.
  intros Hs. unfold ffloor. destruct (Z.leb_spec 0 (expo x)).
  - assert (0 < 2 ^ expo x) by (apply pow2_pos; lia). nia.
  - apply Z.div_pos; [lia|apply pow2_pos; lia].
Qed.

Lemma fmul_sig_nonneg x y : 0 <= sig x -> 0 <= sig y -> 0 <= sig (fmul x y).
Proof.
  intros Hx Hy. unfold fmul. destruct (Z.leb_spec 0 (expo x + expo y)).
  - assert (0 < 2 ^ (expo x + expo y)) by (apply pow2_pos; lia).
    apply round53_sig_nonneg; nia.
  - apply round53_sig_nonneg; [nia|apply pow2_pos; lia].
Qed.


(** *** The model against the primitive floating-point numbers

    The kernel's primitive floats are IEEE 754 binary64 numbers, as
    JavaScript numbers are; the operations of this module are compared
    with theirs on the operands met in the examples and on a grid. *)

(** The double held by a primitive float that is zero or positive. *)
Definition of_primitive (f : PrimFloat.float) : option double :=
  match FloatOps.Prim2SF f with
  | SpecFloat.S754_zero _ => Some (MkDouble 0 0)
  | SpecFloat.S754_finite false m e =>
      let shift := 52 - Z.log2 (Z.pos m) in
      Some (MkDouble (Z.pos m * 2 ^ shift) (e - shift))
  | _ => None
  end.

Definition primitive (n : Z) : PrimFloat.float := PrimFloat.of_uint63 (Uint63.of_Z n).

(** [x * (a / b)] gives the same double in the model and on the primitive
    floats. *)
Definition agrees (a b x : Z) : bool :=
  bool_decide (of_primitive (PrimFloat.div (primitive a) (primitive b)) = Some (fdiv a b)) &&
  bool_decide (of_primitive (PrimFloat.mul (primitive x)
                               (PrimFloat.div (primitive a) (primitive b)))
               = Some (fmul (of_int x) (fdiv a b))).

Definition span (first count : Z) : list Z :=
  map (fun i => first + Z.of_nat i) (seq 0 (Z.to_nat count)).

Lemma model_agrees_with_primitive_floats :
  forallb (fun '(a, b, x) => agrees a b x)
    [(122, 14, 7); (520, 510, 459); (1000, 1216, 76); (1000, 1216, 1216);
     (1024, 4096, 4096); (1024, 4096, 2048); (1024, 1044, 520); (1, 49, 49);
     (4096, 9007199254740991, 9007199254740991); (9007199254740991, 1, 3)] = true /\
  forallb (fun a => forallb (fun b => forallb (agrees a b) (span 0 4)) (span 1 24))
    (span 1 24) = true.
Proof. split; vm_compute; reflexivity. Qed.

(** The rounding of an integer to a number, as [Number.parseInt] does it,
    gives the double of the model, and the one that the primitive floats
    give where they convert integers (below [2^63]). *)
Definition rounds_alike (z : Z) : bool :=
  (if 0 <=? expo (round53 z 1)
   then bool_decide (JsString.nearest_double z = sig (round53 z 1) * 2 ^ expo (round53 z 1))
   else bool_decide (JsString.nearest_double z * 2 ^ (- expo (round53 z 1))
                     = sig (round53 z 1))) &&
  (bool_decide (2 ^ 63 <= z) || bool_decide (of_primitive (primitive z) = Some (round53 z 1))).

Lemma nearest_double_agrees_with_primitive_floats :
  forallb rounds_alike
    [1; 8; 4096; 2 ^ 53 - 1; 2 ^ 53; 2 ^ 53 + 1; 2 ^ 53 + 2; 2 ^ 53 + 3; 2 ^ 54 + 2;
     2 ^ 54 + 6; 2 ^ 60 + 129; 2 ^ 62 + 2 ^ 9; 2 ^ 62 + 2 ^ 9 + 1; 2 ^ 63 - 1;
     10 ^ 20 + 1; 10 ^ 30 + 7; 2 ^ 1024 - 2 ^ 970 - 1; 2 ^ 1023 + 5] = true /\
  JsString.nearest_double (2 ^ 1024 - 2 ^ 970) = 2 ^ 1024 /\
  JsString.nearest_double (- (2 ^ 53 + 1)) = - 2 ^ 53.
Proof. repeat split; vm_compute; reflexivity. Qed.

End Double.

(** ** The size policy of the decode worker *)
Module SizePolicy.
Import HdrHeader Double.
Local Open Scope Z_scope.

Inductive PanoramaDecodeQuality := low | medium | high.

(** [chooseDecodeMaxDim(quality, maxTextureSize)]. *)
Definition chooseDecodeMaxDim (quality : PanoramaDecodeQuality) (maxTextureSize : Z) : Z :=
  let base :=
    match quality with
    | low => 1024
    | medium => 2048
    | high => 4096
    end in
  Z.max 256 (Z.min base maxTextureSize).

(** [computeDecodeSize(meta, quality, maxTextureSize)] returns
    [{ decodeWidth, decodeHeight }]. *)
Definition computeDecodeSize (meta : PanoramaMetadata)
    (quality : PanoramaDecodeQuality) (maxTextureSize : Z) : Z * Z :=
  let maxDim := chooseDecodeMaxDim quality maxTextureSize in
  let srcMax := Z.max (width meta) (height meta) in
  let scale := if maxDim <? srcMax then fdiv maxDim srcMax else one in
  let decodeWidth := Z.max 1 (fround (fmul (of_int (width meta)) scale)) in
  let decodeHeight := Z.max 1 (fround (fmul (of_int (height meta)) scale)) in
  (decodeWidth, decodeHeight).

(** The size as the policy is documented: [maxDim] is 1024, 2048 or
    4096, brought down to [maxTextureSize] and then up to 256, and each
    dimension is [round(dim * min(1, maxDim / max(width, height)))], at
    least 1. *)
Definition documented_maxDim (quality : PanoramaDecodeQuality) (maxTextureSize : Z) : Z :=
  match quality with
  | low => Z.max 256 (Z.min 1024 maxTextureSize)
  | medium => Z.max 256 (Z.min 2048 maxTextureSize)
  | high => Z.max 256 (Z.min 4096 maxTextureSize)
  end.

Definition documented_size (meta : PanoramaMetadata)
    (quality : PanoramaDecodeQuality) (maxTextureSize : Z) : Z * Z :=
  let maxDim := documented_maxDim quality maxTextureSize in
  let scale := fmin one (fdiv maxDim (Z.max (width meta) (height meta))) in
  (Z.max 1 (fround (fmul (of_int (width meta)) scale)),
   Z.max 1 (fround (fmul (of_int (height meta)) scale))).

Lemma scaled_dimension_le w y :
  0 < w < 2 ^ 53 -> expo y < 0 -> 0 <= sig y <= 2 ^ (- expo y) ->
  1 <= Z.max 1 (fround (fmul (of_int w) y)) <= w.
Proof.
  intros Hw He Hs. destruct (fmul_of_int_le w y Hw He Hs) as (He' & Hs0 & Hle).
  pose proof (fround_le _ w He' Hs0 Hle). lia.
Qed.

Lemma unscaled_dimension w :
  0 < w < 2 ^ 53 -> Z.max 1 (fround (fmul (of_int w) one)) = w.
Proof.
  intros Hw. rewrite one_eq.
  destruct (fmul_of_int_le w (MkDouble (2 ^ 52) (-52)) Hw) as (He' & Hs0 & Hle);
    [simpl; lia..|].
  pose proof (fround_le _ w He' Hs0 Hle).
  pose proof (fmul_of_int_ge w (MkDouble (2 ^ 52) (-52)) Hw ltac:(simpl; lia) ltac:(simpl; lia))
    as Hge.
  pose proof (fround_ge _ w Hge He'). lia.
Qed.

(** C4 (amended). For a source of positive dimensions,
    [computeDecodeSize] takes [maxDim] to be 1024, 2048 or 4096 for the
    low, medium or high quality, brought down to [maxTextureSize] and
    then up to 256: it is within [256, maxTextureSize] when
    [maxTextureSize] is 256 or more, and 256 otherwise.  It returns
    [round(dim * min(1, maxDim / max(width, height)))], at least 1, for
    each dimension, the arithmetic being that of doubles; neither result
    exceeds the source dimension, a source that fits in [maxDim] keeps
    its size, and a 4096 x 2048 source at low quality with
    [maxTextureSize = 4096] is decoded at 1024 x 512. *)
Theorem computeDecodeSize_policy (meta : PanoramaMetadata)
    (quality : PanoramaDecodeQuality) (maxTextureSize : Z) :
  0 < width meta < 2 ^ 53 ->
  0 < height meta < 2 ^ 53 ->
  chooseDecodeMaxDim low maxTextureSize = Z.max 256 (Z.min 1024 maxTextureSize) /\
  chooseDecodeMaxDim medium maxTextureSize = Z.max 256 (Z.min 2048 maxTextureSize) /\
  chooseDecodeMaxDim high maxTextureSize = Z.max 256 (Z.min 4096 maxTextureSize) /\
  (256 <= maxTextureSize ->
   256 <= chooseDecodeMaxDim quality maxTextureSize <= maxTextureSize) /\
  (maxTextureSize < 256 -> chooseDecodeMaxDim quality maxTextureSize = 256) /\
  computeDecodeSize meta quality maxTextureSize
    = documented_size meta quality maxTextureSize /\
  1 <= fst (computeDecodeSize meta quality maxTextureSize) <= width meta /\
  1 <= snd (computeDecodeSize meta quality maxTextureSize) <= height meta /\
  (Z.max (width meta) (height meta) <= chooseDecodeMaxDim quality maxTextureSize ->
   computeDecodeSize meta quality maxTextureSize = (width meta, height meta)) /\
  computeDecodeSize (Metadata exr 4096 2048) low 4096 = (1024, 512).
Proof.
  intros Hw Hh.
  assert (256 <= chooseDecodeMaxDim quality maxTextureSize <= 4096) as Hdim
    by (unfold chooseDecodeMaxDim; destruct quality; simpl; lia).
  assert (chooseDecodeMaxDim quality maxTextureSize
          = documented_maxDim quality maxTextureSize) as Hdoc
    by (by destruct quality).
  do 3 (split; [reflexivity|]).
  split; [unfold chooseDecodeMaxDim; destruct quality; lia|].
  split; [unfold chooseDecodeMaxDim; destruct quality; lia|].
  unfold computeDecodeSize, documented_size. rewrite <- Hdoc.
  set (maxDim := chooseDecodeMaxDim quality maxTextureSize) in *.
  set (srcMax := Z.max (width meta) (height meta)).
  assert (0 < srcMax < 2 ^ 53) as Hsrc by (unfold srcMax; lia).
  destruct (Z.ltb_spec maxDim srcMax) as [Hlt|Hge].
  - destruct (fdiv_lt_one maxDim srcMax ltac:(lia) ltac:(lia) ltac:(lia))
      as (Hflt & He & Hs).
    unfold fmin. rewrite Hflt. cbn [fst snd].
    split; [reflexivity|].
    split; [by apply scaled_dimension_le|].
    split; [by apply scaled_dimension_le|].
    split; [|reflexivity]. intros Habs. lia.
  - rewrite (unscaled_dimension _ Hw), (unscaled_dimension _ Hh).
    unfold fmin. rewrite (fdiv_ge_one maxDim srcMax) by lia. cbn [fst snd].
    rewrite (unscaled_dimension _ Hw), (unscaled_dimension _ Hh).
    split; [reflexivity|]. split; [lia|]. split; [lia|]. done.
Qed.

Lemma computeDecodeSize_policy_witness :
  chooseDecodeMaxDim low 2048 = Z.max 256 (Z.min 1024 2048) /\
  chooseDecodeMaxDim medium 2048 = Z.max 256 (Z.min 2048 2048) /\
  chooseDecodeMaxDim high 2048 = Z.max 256 (Z.min 4096 2048) /\
  (256 <= 2048 -> 256 <= chooseDecodeMaxDim high 2048 <= 2048) /\
  (2048 < 256 -> chooseDecodeMaxDim high 2048 = 256) /\
  computeDecodeSize (Metadata hdr 6000 3000) high 2048
    = documented_size (Metadata hdr 6000 3000) high 2048 /\
  1 <= fst (computeDecodeSize (Metadata hdr 6000 3000) high 2048) <= 6000 /\
  1 <= snd (computeDecodeSize (Metadata hdr 6000 3000) high 2048) <= 3000 /\
  (Z.max 6000 3000 <= chooseDecodeMaxDim high 2048 ->
   computeDecodeSize (Metadata hdr 6000 3000) high 2048 = (6000, 3000)) /\
  computeDecodeSize (Metadata exr 4096 2048) low 4096 = (1024, 512).
Proof.
  apply (computeDecodeSize_policy (Metadata hdr 6000 3000) high 2048); simpl; lia.
Defined.

(** C4 as stated fails for a texture limit below 256: the floor of 256
    comes last, so that [maxDim] is 256, outside [256, maxTextureSize],
    and the decode size exceeds [maxTextureSize]. *)
Lemma maxDim_above_small_texture_limit :
  chooseDecodeMaxDim low 128 = 256 /\
  ~ (256 <= chooseDecodeMaxDim low 128 <= 128) /\
  computeDecodeSize (Metadata hdr 1024 512) low 128 = (256, 128).
Proof. split; [reflexivity|]. split; [|reflexivity]. cbn. lia. Qed.

(** The documented scenario: a 4096 x 2048 source at low quality. *)
Lemma computeDecodeSize_example :
  computeDecodeSize (Metadata exr 4096 2048) low 4096 = (1024, 512).
Proof. reflexivity. Qed.

(** The product is rounded before [Math.round] sees it: with
    [maxTextureSize = 1000], the width 76 of a source 1216 high scales to
    exactly 62.5 in real arithmetic, and to a double just below it. *)
Lemma computeDecodeSize_tie :
  computeDecodeSize (Metadata hdr 76 1216) low 1000 = (62, 1000) /\
  2 * (76 * 1000) = (2 * 62 + 1) * 1216.
Proof. split; reflexivity. Qed.

End SizePolicy.

(** ** Radiance HDR: sampling a scanline into an output row *)
Module HdrSampling.
Import Double.
Local Open Scope Z_scope.

(** A linear colour component: the exact product [(c + 0.5) * 2^(e - 136)]
    is [(2 c + 1) * 2^(e - 137)]. *)
Definition component (c e : Z) : double := MkDouble (2 * c + 1) (e - 137).

Definition black : double := MkDouble 0 0.

(** [rgbeToLinear(r, g, b, e)] returns [{ r, g, b }]. *)
Definition rgbeToLinear (r g b e : Z) : double * double * double :=
  if e =? 0 then (black, black, black)
  else (component r e, component g e, component b e).

(** [Math.min(width - 1, Math.floor(x * stepX))] with
    [stepX = width / decodeWidth]. *)
Definition srcX (width decodeWidth x : Z) : Z :=
  let stepX := fdiv width decodeWidth in
  Z.min (width - 1) (ffloor (fmul (of_int x) stepX)).

(** [xSign === '+X' ? srcX : width - 1 - srcX]. *)
Definition column_index (xSign : string) (width decodeWidth x : Z) : Z :=
  let srcX := srcX width decodeWidth x in
  if bool_decide (xSign = "+X") then srcX else width - 1 - srcX.

(** An element of the scanline buffer, which holds the four planes of
    [width] bytes one after the other. *)
Definition byte_at (scanline : bytes) (i : Z) : Z := scanline !!! Z.to_nat i.

(** Body of the loop over [x]: the three stores into [out]. *)
Definition write_pixel (scanline : bytes) (xSign : string) (width decodeWidth : Z)
    (outRowBase : Z) (out : list double) (x : Z) : list double :=
  let idx := column_index xSign width decodeWidth x in
  let r8 := byte_at scanline idx in
  let g8 := byte_at scanline (idx + width) in
  let b8 := byte_at scanline (idx + width * 2) in
  let e8 := byte_at scanline (idx + width * 3) in
  let '(r, g, b) := rgbeToLinear r8 g8 b8 e8 in
  let o := Z.to_nat (outRowBase + x * 3) in
  <[(o + 2)%nat := b]> (<[(o + 1)%nat := g]> (<[o := r]> out)).

(** The columns [0 .. decodeWidth - 1], in the order of the loop. *)
Definition columns (decodeWidth : Z) : list Z :=
  map Z.of_nat (seq 0 (Z.to_nat decodeWidth)).

(** The loop over [x] for the output row [y]. *)
Definition write_row (scanline : bytes) (xSign : string) (width decodeWidth : Z)
    (out : list double) (y : Z) : list double :=
  let outRowBase := y * decodeWidth * 3 in
  fold_left (write_pixel scanline xSign width decodeWidth outRowBase)
    (columns decodeWidth) out.

(** The loop over the target rows of one source scanline. *)
Definition write_rows (scanline : bytes) (xSign : string) (width decodeWidth : Z)
    (out : list double) (targetRows : list Z) : list double :=
  fold_left (write_row scanline xSign width decodeWidth) targetRows out.

(** The colour that the row receives at column [x]. *)
Definition sampled (scanline : bytes) (xSign : string) (width decodeWidth x : Z)
  : double * double * double :=
  let idx := column_index xSign width decodeWidth x in
  rgbeToLinear (byte_at scanline idx) (byte_at scanline (idx + width))
    (byte_at scanline (idx + width * 2)) (byte_at scanline (idx + width * 3)).

(** The three components stored from position [o] on. *)
Definition pixel_at (out : list double) (o : nat) : option (double * double * double) :=
  match out !! o, out !! (o + 1)%nat, out !! (o + 2)%nat with
  | Some r, Some g, Some b => Some (r, g, b)
  | _, _, _ => None
  end.

(** *** The columns of a row *)

Lemma srcX_range width decodeWidth x :
  0 < width -> 0 < decodeWidth -> 0 <= x ->
  0 <= srcX width decodeWidth x <= width - 1.
Proof.
  intros Hw Hd Hx. unfold srcX.
  assert (0 <= ffloor (fmul (of_int x) (fdiv width decodeWidth))); [|lia].
  apply ffloor_nonneg, fmul_sig_nonneg; apply round53_sig_nonneg; lia.
Qed.

Lemma column_index_range xSign width decodeWidth x :
  0 < width -> 0 < decodeWidth -> 0 <= x ->
  0 <= column_index xSign width decodeWidth x <= width - 1.
Proof.
  intros Hw Hd Hx. pose proof (srcX_range width decodeWidth x Hw Hd Hx).
  unfold column_index. destruct (bool_decide _); lia.
Qed.

Section row.
Variables (scanline : bytes) (xSign : string) (width decodeWidth outRowBase : Z).
Hypothesis Hbase : 0 <= outRowBase.

Lemma write_pixel_length out x :
  length (write_pixel scanline xSign width decodeWidth outRowBase out x) = length out.
Proof.
  unfold write_pixel. destruct (rgbeToLinear _ _ _ _) as [[r g] b].
  by rewrite !length_insert.
Qed.

Lemma write_pixel_other out x (i : nat) :
  0 <= x ->
  (i < Z.to_nat (outRowBase + x * 3) \/ Z.to_nat (outRowBase + x * 3) + 2 < i)%nat ->
  write_pixel scanline xSign width decodeWidth outRowBase out x !! i = out !! i.
Proof.
  intros Hx Hi. unfold write_pixel. destruct (rgbeToLinear _ _ _ _) as [[r g] b].
  rewrite !list_lookup_insert_ne by lia. reflexivity.
Qed.

Lemma write_pixel_self out x :
  0 <= x ->
  (Z.to_nat (outRowBase + x * 3) + 2 < length out)%nat ->
  pixel_at (write_pixel scanline xSign width decodeWidth outRowBase out x)
    (Z.to_nat (outRowBase + x * 3))
    = Some (sampled scanline xSign width decodeWidth x).
Proof.
  intros Hx Hlen. unfold write_pixel, sampled, pixel_at.
  destruct (rgbeToLinear _ _ _ _) as [[r g] b].
  rewrite (list_lookup_insert_ne _ (_ + 2)%nat) by lia.
  rewrite (list_lookup_insert_ne _ (_ + 1)%nat) by lia.
  rewrite list_lookup_insert_eq by lia.
  rewrite (list_lookup_insert_ne _ (_ + 2)%nat (_ + 1)%nat) by lia.
  rewrite list_lookup_insert_eq by (rewrite length_insert; lia).
  rewrite list_lookup_insert_eq by (rewrite !length_insert; lia).
  reflexivity.
Qed.

Lemma pixel_at_other out out' (o : nat) :
  (forall i, (o <= i <= o + 2)%nat -> out' !! i = out !! i) ->
  pixel_at out' o = pixel_at out o.
Proof.
  intros H. unfold pixel_at. rewrite !H by lia. reflexivity.
Qed.

Lemma columns_snoc (n : nat) :
  columns (Z.of_nat (S n)) = columns (Z.of_nat n) ++ [Z.of_nat n].
Proof.
  unfold columns. rewrite !Nat2Z.id, seq_S, map_app. reflexivity.
Qed.

Lemma write_columns_length out (n : nat) :
  length (fold_left (write_pixel scanline xSign width decodeWidth outRowBase)
            (columns (Z.of_nat n)) out) = length out.
Proof.
  induction n as [|n IH]; [reflexivity|].
  rewrite columns_snoc, fold_left_app. simpl. by rewrite write_pixel_length.
Qed.

Lemma write_columns_pixel out (n : nat) x :
  0 <= x < Z.of_nat n ->
  (Z.to_nat (outRowBase + Z.of_nat n * 3) <= length out)%nat ->
  pixel_at (fold_left (write_pixel scanline xSign width decodeWidth outRowBase)
              (columns (Z.of_nat n)) out)
    (Z.to_nat (outRowBase + x * 3))
    = Some (sampled scanline xSign width decodeWidth x).
Proof.
  induction n as [|n IH]; intros Hx Hlen; [lia|].
  rewrite columns_snoc, fold_left_app. cbn [fold_left].
  destruct (Z.eq_dec x (Z.of_nat n)) as [->|Hne].
  - apply write_pixel_self; [lia|]. rewrite write_columns_length. lia.
  - rewrite <- IH by lia. apply pixel_at_other. intros i Hi.
    apply write_pixel_other; lia.
Qed.

Lemma write_columns_outside out (n : nat) (i : nat) :
  (i < Z.to_nat outRowBase \/ Z.to_nat (outRowBase + Z.of_nat n * 3) <= i)%nat ->
  fold_left (write_pixel scanline xSign width decodeWidth outRowBase)
    (columns (Z.of_nat n)) out !! i = out !! i.
Proof.
  induction n as [|n IH]; intros Hi; [reflexivity|].
  rewrite columns_snoc, fold_left_app. cbn [fold_left].
  rewrite write_pixel_other by lia. apply IH. lia.
Qed.

End row.




(** The source column is the floor of a product of doubles, which can be
    one less than [floor(x * width / decodeWidth)]: a source 520 wide and
    1044 high is decoded 510 wide at low quality, and output column 459
    reads source column 467, not 468. *)
Lemma hdr_column_rounding :
  SizePolicy.computeDecodeSize (HdrHeader.Metadata HdrHeader.hdr 520 1044) SizePolicy.low 4096
    = (510, 1024) /\
  srcX 520 510 459 = 467 /\ 459 * 520 / 510 = 468 /\
  srcX 122 14 7 = 60 /\ 7 * 122 / 14 = 61.
Proof. repeat split; reflexivity. Qed.

End HdrSampling.

(** ** OpenEXR: scanline blocks and the zip transform *)
Module ExrBlocks.
Import ExrChannels HalfFloat Double.
Local Open Scope Z_scope.

Inductive EXRCompression := none | zips | zip.

Inductive ZipTransform := predictor_then_unshuffle | unshuffle_then_predictor.

Record EXRHeader := MkHeader {
  width : Z;
  height : Z;
  dataMinX : Z;
  dataMinY : Z;
  channels : list EXRChannel;
  compression : EXRCompression;
  offsetTablePos : Z
}.

(** The elements of [a] and [b] in turn, starting with [a]. *)
Fixpoint interleave (a b : bytes) : bytes :=
  match a, b with
  | x :: a', y :: b' => x :: y :: interleave a' b'
  | _, [] => a
  | [], _ => b
  end.

(** [unshuffle(input)]: the first half of the input goes to the even
    positions, the second half to the odd ones. *)
Definition unshuffle (input : bytes) : bytes :=
  let half := ((length input + 1) / 2)%nat in
  interleave (take half input) (drop half input).

(** The loop of [reversePredictor] from index 1 on: [prev] is the element
    just written. *)
Fixpoint reversePredictor_from (prev : Z) (data : bytes) : bytes :=
  match data with
  | [] => []
  | d :: rest =>
      let v := Z.land (d + prev - 128) 0xff in
      v :: reversePredictor_from v rest
  end.

(** [reversePredictor(data)], as the array it leaves in [data];
    [reversePredictorCopy] returns the same array and leaves its argument
    alone. *)
Definition reversePredictor (data : bytes) : bytes :=
  match data with
  | [] => []
  | d :: rest => d :: reversePredictor_from d rest
  end.

Definition reversePredictorCopy (data : bytes) : bytes := reversePredictor data.

(** The [count] bytes that a [DataView] accessor reads at [offset]. *)
Definition view_bytes (b : bytes) (offset : Z) (count : nat) : result bytes :=
  if (offset <? 0) || (Z.of_nat (length b) <? offset + Z.of_nat count) then Throw RangeError
  else Ok (take count (drop (Z.to_nat offset) b)).

(** Little-endian value of a byte sequence. *)
Definition little_endian (bs : bytes) : Z :=
  fold_right (fun byte acc => byte + 256 * acc) 0 bs.

Definition getUint16 (b : bytes) (offset : Z) : result Z :=
  little_endian <$> view_bytes b offset 2.

Definition getUint32 (b : bytes) (offset : Z) : result Z :=
  little_endian <$> view_bytes b offset 4.

Definition readInt32LE (b : bytes) (offset : Z) : result Z :=
  (fun v => if v <? 2 ^ 31 then v else v - 2 ^ 32) <$> getUint32 b offset.

(** [readUint64LE(view, offset)]: the value is used as an offset in the
    buffer or found too large for one, so its rounding to a double is of
    no consequence. *)
Definition readUint64LE (b : bytes) (offset : Z) : result Z :=
  lo ← getUint32 b offset;
  hi ← getUint32 b (offset + 4);
  Ok (hi * 2 ^ 32 + lo).

(** [decodePixel(view, offset, type)]. *)
Definition decodePixel (view : bytes) (offset : Z) (type : Z) : result number :=
  if type =? 0 then (fun v => Finite false (v * 2 ^ 149)) <$> getUint32 view offset
  else if type =? 1 then halfToFloat <$> getUint16 view offset
  else float32_value <$> getUint32 view offset.

Definition pixelByteSize (type : Z) : Z := if type =? 1 then 2 else 4.

(** [Number.isFinite(v) && Math.abs(v) < 1e6]. *)
Definition plausible (v : number) : bool :=
  match v with
  | Finite _ units => units <? 10 ^ 6 * 2 ^ 149
  | _ => false
  end.

Section decode.

(** [decompressDeflate], the inflate of the platform, and the writes of
    [sampleLine] into [out] (which neither read nor write
    [zipTransform]) are parameters; [sampleLine] receives the block, the
    line index and the target rows. *)
Variable decompressDeflate : bytes -> result bytes.
Variable Out : Type.
Variable sampleLine : Out -> bytes -> Z -> list Z -> result Out.

Variable header : EXRHeader.
Variable buffer : bytes.
Variables decodeWidth decodeHeight : Z.

Definition byteLength : Z := Z.of_nat (length buffer).
Definition blockLines : Z := match compression header with zip => 16 | _ => 1 end.
Definition channelOrder : list EXRChannel := channels header.
Definition selected : SelectedChannels := selectChannels channelOrder.

Definition bytesPerLine : Z :=
  fold_left (fun sum ch => sum + width header * pixelByteSize (pixelType ch)) channelOrder 0.

(** [channelBaseWithinLine[channelPos]]. *)
Definition channelBaseWithinLine (channelPos : nat) : Z :=
  fold_left (fun base ch => base + width header * pixelByteSize (pixelType ch))
    (take channelPos channelOrder) 0.

(** [readValueAt(channelPos, x, lineIndex)] of [scoreUncompressed]. *)
Definition readValueAt (chunk : bytes) (channelPos : nat) (x lineIndex : Z) : result number :=
  match channelOrder !! channelPos with
  | None => Throw TypeError
  | Some ch =>
      let o := lineIndex * bytesPerLine + channelBaseWithinLine channelPos
               + x * pixelByteSize (pixelType ch) in
      decodePixel chunk o (pixelType ch)
  end.

(** [readRGB(x, lineIndex)] of [scoreUncompressed]. *)
Definition readRGB (chunk : bytes) (x lineIndex : Z) : result (number * number * number) :=
  match sel_r selected, sel_g selected, sel_b selected with
  | Some r, Some g, Some b =>
      rv ← readValueAt chunk r x lineIndex;
      gv ← readValueAt chunk g x lineIndex;
      bv ← readValueAt chunk b x lineIndex;
      Ok (rv, gv, bv)
  | _, _, _ =>
      match sel_y selected with
      | Some y => yv ← readValueAt chunk y x lineIndex; Ok (yv, yv, yv)
      | None => first ← readValueAt chunk 0 x lineIndex; Ok (first, first, first)
      end
  end.

(** The sample grid of [scoreUncompressed]: the columns [0, step, ...]
    below [width] of the first line and, in a block of several lines, of
    the middle line. *)
Definition sample_columns : list Z :=
  let sampleXs := Z.min (width header) 24 in
  let step := Z.max 1 (width header / sampleXs) in
  map (fun i => Z.of_nat i * step) (seq 0 (Z.to_nat ((width header + step - 1) / step))).

Definition sample_lines (linesInBlock : Z) : list Z :=
  if 1 <? linesInBlock then [0; linesInBlock / 2] else [0].

(** The counters [score] and [total] after the sample at [(x, lineIndex)]. *)
Definition count_sample (chunk : bytes) (lineIndex : Z) (acc : result (Z * Z)) (x : Z)
  : result (Z * Z) :=
  '(score, total) ← acc;
  '(r, g, b) ← readRGB chunk x lineIndex;
  let total := total + 3 in
  let score := if plausible r then score + 1 else score in
  let score := if plausible g then score + 1 else score in
  let score := if plausible b then score + 1 else score in
  Ok (score, total).

Definition count_samples (chunk : bytes) (linesInBlock : Z) : result (Z * Z) :=
  fold_left (fun acc lineIndex => fold_left (count_sample chunk lineIndex) sample_columns acc)
    (sample_lines linesInBlock) (Ok (0, 0)).

(** [scoreUncompressed(uncompressed, linesInBlock)]. *)
Definition scoreUncompressed (uncompressed : bytes) (linesInBlock : Z) : result double :=
  '(score, total) ← count_samples uncompressed linesInBlock;
  Ok (if 0 <? total then fdiv score total else MkDouble 0 0).

(** The two candidate orderings of a block. *)
Definition apply_transform (t : ZipTransform) (inflated : bytes) : bytes :=
  match t with
  | predictor_then_unshuffle => unshuffle (reversePredictorCopy inflated)
  | unshuffle_then_predictor => reversePredictor (unshuffle inflated)
  end.

(** The choice made when [zipTransform] is still [null]. *)
Definition choose_transform (inflated : bytes) (linesInBlock : Z) : result ZipTransform :=
  let a := unshuffle (reversePredictorCopy inflated) in
  let b := reversePredictor (unshuffle inflated) in
  sa ← scoreUncompressed a linesInBlock;
  sb ← scoreUncompressed b linesInBlock;
  Ok (if negb (flt sa sb) then predictor_then_unshuffle else unshuffle_then_predictor).

(** What the loop did to one compressed block: the inflated bytes, the
    number of lines, whether the ordering was chosen on this block, the
    ordering applied, the bytes it gave, and the first line of the
    block. *)
Record Decoded := MkDecoded {
  inflated_bytes : bytes;
  lines_in_block : Z;
  chosen_here : bool;
  transform : ZipTransform;
  uncompressed_bytes : bytes;
  block_y0 : Z
}.

(** The variables [zipTransform] and [out] of the loop over the blocks,
    and the record of the compressed blocks decoded so far. *)
Record State := MkState {
  zipTransform : option ZipTransform;
  out : Out;
  decoded : list Decoded
}.

(** The rows of the output that take the source line [srcY]:
    [sourceYToTargets.get(srcY)], in the order they were pushed. *)
Definition sourceY (y : Z) : Z :=
  let stepY := fdiv (height header) decodeHeight in
  Z.min (height header - 1) (ffloor (fmul (of_int y) stepY)).

Definition sourceYToTargets (srcY : Z) : list Z :=
  List.filter (fun y => sourceY y =? srcY)
    (map Z.of_nat (seq 0 (Z.to_nat decodeHeight))).

(** The loop over the lines of a block. *)
Definition sample_block (o : Out) (chunk : bytes) (y0 linesInBlock : Z) : result Out :=
  fold_left (fun acc line =>
      o ← acc;
      match sourceYToTargets (y0 + line) with
      | [] => Ok o
      | outYs => sampleLine o chunk line outYs
      end)
    (map Z.of_nat (seq 0 (Z.to_nat linesInBlock))) (Ok o).

(** [new Uint8Array(buffer, byteOffset, length)]. *)
Definition typed_view (byteOffset len : Z) : result bytes :=
  if (len <? 0) || (byteLength <? byteOffset + len) then Throw RangeError
  else Ok (take (Z.to_nat len) (drop (Z.to_nat byteOffset) buffer)).

Definition invalid_chunk : js_error := Error "Invalid EXR chunk size".

(** Body of the loop over the blocks, for the block at [blockOffset]. *)
Definition decode_block (st : State) (blockOffset : Z) : result State :=
  if (blockOffset <=? 0) || (byteLength <=? blockOffset) then Ok st
  else
    y ← readInt32LE buffer blockOffset;
    size ← readInt32LE buffer (blockOffset + 4);
    let dataStart := blockOffset + 8 in
    let dataEnd := dataStart + size in
    if byteLength <? dataEnd then Throw invalid_chunk
    else
      let y0 := y - dataMinY header in
      let linesInBlock := Z.min blockLines (height header - y0) in
      compressed ← typed_view dataStart size;
      let expectedBytes := bytesPerLine * linesInBlock in
      match compression header with
      | none =>
          if negb (Z.of_nat (length compressed) =? expectedBytes) then Throw invalid_chunk
          else
            o ← sample_block (out st) compressed y0 linesInBlock;
            Ok (MkState (zipTransform st) o (decoded st))
      | _ =>
          inflated ← decompressDeflate compressed;
          if negb (Z.of_nat (length inflated) =? expectedBytes) then Throw invalid_chunk
          else
            t ← match zipTransform st with
                | None => choose_transform inflated linesInBlock
                | Some t => Ok t
                end;
            let uncompressed := apply_transform t inflated in
            o ← sample_block (out st) uncompressed y0 linesInBlock;
            Ok (MkState (Some t) o
                  (decoded st ++
                   [MkDecoded inflated linesInBlock
                      (match zipTransform st with None => true | Some _ => false end)
                      t uncompressed y0]))
      end.

(** The loop over the blocks, given the offsets read from the table. *)
Definition decode_blocks (st : State) (offsets : list Z) : result State :=
  fold_left (fun acc blockOffset => st ← acc; decode_block st blockOffset) offsets (Ok st).

(** The offset table: [blocks] little-endian 64-bit offsets from
    [offsetTablePos] on. *)
Definition read_offsets : result (list Z) :=
  let blocks := (height header + blockLines - 1) / blockLines in
  mapM (fun i => readUint64LE buffer (offsetTablePos header + 8 * Z.of_nat i))
    (seq 0 (Z.to_nat blocks)).

(** [decodeEXRToFloatRGB] after [parseHeader]: [zipTransform] starts as
    [null] and [out] as the fresh array [out0]. *)
Definition decodeEXRBlocks (out0 : Out) : result State :=
  offsets ← read_offsets;
  decode_blocks (MkState None out0 []) offsets.

(** *** The scoring and the decoding as they are documented *)

(** A value that counts in a score: finite, of magnitude below a
    million. *)
Definition finite_below_bound (v : number) : bool :=
  match v with
  | Finite _ units => bool_decide (units < 10 ^ 6 * 2 ^ 149)
  | Infinity _ => false
  | NaN => false
  end.

(** The grid: the columns of the block that are multiples of the step,
    in the first line and, when the block has several lines, in the
    middle one. *)
Definition grid_step : Z := Z.max 1 (width header / Z.min (width header) 24).

Definition grid_columns : list Z :=
  filter (fun x => x mod grid_step = 0) (map Z.of_nat (seq 0 (Z.to_nat (width header)))).

Definition grid_lines (linesInBlock : Z) : list Z :=
  if decide (1 < linesInBlock) then [0; linesInBlock / 2] else [0].

Definition grid (linesInBlock : Z) : list (Z * Z) :=
  line ← grid_lines linesInBlock; x ← grid_columns; [(x, line)].

(** The red, green and blue values at the points of the grid. *)
Definition grid_values (chunk : bytes) (linesInBlock : Z) : result (list number) :=
  triples ← mapM (fun '(x, line) => readRGB chunk x line) (grid linesInBlock);
  Ok (triples ≫= fun '(r, g, b) => [r; g; b]).

(** The score of a block: the share of the values of the grid that
    count. *)
Definition documented_score (chunk : bytes) (linesInBlock : Z) : result double :=
  values ← grid_values chunk linesInBlock;
  let counted := Z.of_nat (length (filter (fun v => finite_below_bound v = true) values)) in
  let total := Z.of_nat (length values) in
  Ok (if decide (0 < total) then fdiv counted total else MkDouble 0 0).

(** The two orders of the reverse predictor and the de-interleave. *)
Definition documented_bytes (t : ZipTransform) (inflated : bytes) : bytes :=
  match t with
  | predictor_then_unshuffle => unshuffle (reversePredictor inflated)
  | unshuffle_then_predictor => reversePredictor (unshuffle inflated)
  end.

(** The order that the scores of the two candidates call for: the
    second one when it scores strictly higher. *)
Definition documented_choice (inflated : bytes) (linesInBlock : Z) : result ZipTransform :=
  sa ← documented_score (documented_bytes predictor_then_unshuffle inflated) linesInBlock;
  sb ← documented_score (documented_bytes unshuffle_then_predictor inflated) linesInBlock;
  Ok (if flt sa sb then unshuffle_then_predictor else predictor_then_unshuffle).

(** The output when the lines of the blocks [log] are sampled, block
    after block, from the bytes that the order [t] gives. *)
Definition documented_output (t : ZipTransform) (out0 : Out) (log : list Decoded)
  : result Out :=
  fold_left (fun acc d =>
      o ← acc;
      sample_block o (documented_bytes t (inflated_bytes d)) (block_y0 d) (lines_in_block d))
    log (Ok out0).

(** *** The code against this description *)

Lemma plausible_finite_below_bound v : plausible v = finite_below_bound v.
Proof.
  destruct v as [| |neg units]; [done..|]. cbn.
  destruct (Z.ltb_spec units (10 ^ 6 * 2 ^ 149)).
  - by rewrite bool_decide_eq_true_2.
  - rewrite bool_decide_eq_false_2; [done|lia].
Qed.

Lemma multiples_below (step : Z) (n : nat) :
  0 < step ->
  filter (fun x => x mod step = 0) (map Z.of_nat (seq 0 n))
  = map (fun i => Z.of_nat i * step) (seq 0 (Z.to_nat ((Z.of_nat n + step - 1) / step))).
Proof.
  intros Hstep. induction n as [|n IH].
  - cbn [seq map Z.of_nat]. rewrite Z.div_small by lia. done.
  - rewrite seq_S, map_app, filter_app, IH. cbn [map Nat.add].
    set (k := (Z.of_nat n + step - 1) / step).
    assert (0 <= k) as Hk by (apply Z.div_pos; lia).
    assert (step * k <= Z.of_nat n + step - 1 < step * (k + 1)) as Hbounds.
    { pose proof (Z.div_mod (Z.of_nat n + step - 1) step ltac:(lia)).
      pose proof (Z.mod_pos_bound (Z.of_nat n + step - 1) step Hstep). fold k in H. lia. }
    destruct (decide (Z.of_nat n mod step = 0)) as [Hdiv|Hndiv].
    + rewrite filter_cons_True by done. cbn [filter].
      apply Z.mod_divide in Hdiv as [q Hq]; [|lia].
      assert (q = k) as -> by nia.
      assert ((Z.of_nat (S n) + step - 1) / step = k + 1) as ->.
      { symmetry.
        apply (Z.div_unique _ _ _ (Z.of_nat (S n) + step - 1 - step * (k + 1)));
          [left|]; lia. }
      rewrite Z2Nat.inj_add by lia. change (Z.to_nat 1) with 1%nat.
      rewrite Nat.add_1_r, seq_S, map_app. cbn [map Nat.add]. f_equal. f_equal.
      rewrite Z2Nat.id by lia. lia.
    + rewrite filter_cons_False by done. cbn [filter]. rewrite app_nil_r.
      assert ((Z.of_nat (S n) + step - 1) / step = k) as ->; [|done].
      assert (Z.of_nat n + step - 1 <> step * (k + 1) - 1) as Hne.
      { intros Heq. destruct Hndiv. apply Z.mod_divide; [lia|]. exists k. lia. }
      symmetry. apply (Z.div_unique _ _ _ (Z.of_nat (S n) + step - 1 - step * k));
        [left|]; lia.
Qed.

Lemma sample_columns_grid : sample_columns = grid_columns.
Proof.
  unfold sample_columns, grid_columns, grid_step. cbv zeta.
  set (step := Z.max 1 (width header / Z.min (width header) 24)).
  rewrite multiples_below by lia.
  destruct (Z.le_gt_cases 0 (width header)).
  - by rewrite Z2Nat.id by done.
  - assert (Z.to_nat (width header) = 0%nat) as -> by lia. cbn [Z.of_nat].
    rewrite (Z.div_small (0 + step - 1)) by lia.
    assert ((width header + step - 1) / step < 1) by (apply Z.div_lt_upper_bound; lia).
    by replace (Z.to_nat ((width header + step - 1) / step)) with 0%nat by lia.
Qed.

Lemma sample_lines_grid linesInBlock : sample_lines linesInBlock = grid_lines linesInBlock.
Proof.
  unfold sample_lines, grid_lines.
  destruct (Z.ltb_spec 1 linesInBlock); [by rewrite decide_True|by rewrite decide_False by lia].
Qed.

(** The counters after the columns [cols] of a line. *)
Definition tally (acc : Z * Z) (triples : list (number * number * number)) : Z * Z :=
  (acc.1 + Z.of_nat (length (filter (fun v => finite_below_bound v = true)
                               (triples ≫= fun '(r, g, b) => [r; g; b]))),
   acc.2 + Z.of_nat (length (triples ≫= fun '(r, g, b) => [r; g; b]))).

Lemma count_sample_throw chunk lineIndex cols e :
  fold_left (count_sample chunk lineIndex) cols (Throw e) = Throw e.
Proof. induction cols as [|x cols IH]; [done|exact IH]. Qed.

Lemma count_line chunk lineIndex cols : forall acc,
  fold_left (count_sample chunk lineIndex) cols (Ok acc)
  = (triples ← mapM (fun x => readRGB chunk x lineIndex) cols; Ok (tally acc triples)).
Proof.
  induction cols as [|x cols IH]; intros [score total].
  - cbn. unfold tally. cbn. by rewrite !Z.add_0_r.
  - cbn [fold_left mapM]. unfold count_sample at 2. cbn [mbind result_bind].
    destruct (readRGB chunk x lineIndex) as [[[r g] b]|e]; cbn [mbind result_bind].
    2: apply count_sample_throw.
    rewrite IH. destruct (mapM _ cols) as [triples|e]; cbn [mbind result_bind mret result_ret];
      [|done].
    f_equal. unfold tally. cbn [fst snd mbind list_bind app].
    rewrite !plausible_finite_below_bound.
    rewrite !filter_cons.
    destruct (finite_below_bound r), (finite_below_bound g), (finite_below_bound b);
      repeat (first [rewrite decide_True by done | rewrite decide_False by done]);
      cbn [length app]; f_equal; lia.
Qed.

Lemma mapM_app {A B} (f : A -> result B) l1 l2 :
  mapM f (l1 ++ l2) = (a ← mapM f l1; b ← mapM f l2; Ok (a ++ b)).
Proof.
  induction l1 as [|x l1 IH]; cbn [app mapM mbind result_bind mret result_ret].
  - by destruct (mapM f l2).
  - destruct (f x) as [y|e]; cbn [mbind result_bind]; [|done].
    rewrite IH. destruct (mapM f l1) as [a|e]; cbn [mbind result_bind]; [|done].
    by destruct (mapM f l2).
Qed.

Lemma mapM_line {B} (f : Z * Z -> result B) (line : Z) cols :
  mapM f (cols ≫= fun x => [(x, line)]) = mapM (fun x => f (x, line)) cols.
Proof.
  induction cols as [|x cols IH]; [done|].
  cbn [mbind list_bind app mapM]. fold (cols ≫= fun x => [(x, line)]). by rewrite IH.
Qed.

Lemma tally_app acc t1 t2 : tally (tally acc t1) t2 = tally acc (t1 ++ t2).
Proof.
  unfold tally. cbn [fst snd]. rewrite bind_app, filter_app, !length_app. f_equal; lia.
Qed.

(** [scoreUncompressed] computes the documented score. *)
Lemma scoreUncompressed_documented chunk linesInBlock :
  scoreUncompressed chunk linesInBlock = documented_score chunk linesInBlock.
Proof.
  unfold scoreUncompressed, documented_score, grid_values, count_samples, grid.
  rewrite sample_lines_grid, sample_columns_grid. unfold grid_lines.
  assert (forall triples : list (number * number * number),
    (let '(score, total) := tally (0, 0) triples in
     Ok (if 0 <? total then fdiv score total else MkDouble 0 0))
    = Ok (let values := triples ≫= fun '(r, g, b) => [r; g; b] in
          if decide (0 < Z.of_nat (length values))
          then fdiv (Z.of_nat (length (filter (fun v => finite_below_bound v = true) values)))
                 (Z.of_nat (length values))
          else MkDouble 0 0)) as Hfinal.
  { intros triples. unfold tally. cbn [fst snd]. cbv zeta. rewrite !Z.add_0_l.
    destruct (Z.ltb_spec 0 (Z.of_nat (length (triples ≫= fun '(r, g, b) => [r; g; b])))).
    - by rewrite decide_True.
    - by rewrite decide_False by lia. }
  destruct (decide (1 < linesInBlock)).
  - cbn [fold_left mbind list_bind app]. rewrite app_nil_r.
    rewrite mapM_app, !mapM_line.
    rewrite count_line.
    destruct (mapM (fun x => readRGB chunk x 0) grid_columns) as [t1|e];
      cbn [mbind result_bind]; [|by rewrite count_sample_throw].
    rewrite count_line.
    destruct (mapM (fun x => readRGB chunk x (linesInBlock / 2)) grid_columns) as [t2|e];
      cbn [mbind result_bind]; [|done].
    rewrite tally_app. apply Hfinal.
  - cbn [fold_left mbind list_bind app]. rewrite app_nil_r.
    rewrite mapM_line, count_line.
    destruct (mapM (fun x => readRGB chunk x 0) grid_columns) as [t1|e];
      cbn [mbind result_bind]; [|done].
    apply Hfinal.
Qed.

Lemma apply_transform_documented t inflated :
  apply_transform t inflated = documented_bytes t inflated.
Proof. by destruct t. Qed.

Lemma choose_transform_documented inflated linesInBlock :
  choose_transform inflated linesInBlock = documented_choice inflated linesInBlock.
Proof.
  unfold choose_transform, documented_choice. cbv zeta.
  rewrite !scoreUncompressed_documented. unfold reversePredictorCopy. cbn [documented_bytes].
  destruct (documented_score (unshuffle (reversePredictor inflated)) linesInBlock) as [sa|];
    cbn [mbind result_bind]; [|done].
  destruct (documented_score (reversePredictor (unshuffle inflated)) linesInBlock) as [sb|];
    cbn [mbind result_bind]; [|done].
  by destruct (flt sa sb).
Qed.

(** What holds of the loop variables between two blocks of a compressed
    file: nothing was decoded and no order is chosen, or the order is
    the documented choice for the first block decoded, made on that
    block and on no other, every block was given to the sampler in that
    order, and the output is the documented one. *)
Definition chosen_once (out0 : Out) (st : State) : Prop :=
  match decoded st with
  | [] => zipTransform st = None /\ out st = out0
  | first :: rest =>
      exists t,
        documented_choice (inflated_bytes first) (lines_in_block first) = Ok t /\
        zipTransform st = Some t /\
        chosen_here first = true /\
        Forall (fun d => chosen_here d = false) rest /\
        Forall (fun d => transform d = t /\
                         uncompressed_bytes d = documented_bytes t (inflated_bytes d))
          (first :: rest) /\
        documented_output t out0 (first :: rest) = Ok (out st)
  end.

Lemma documented_output_snoc t out0 log d o o' :
  documented_output t out0 log = Ok o ->
  sample_block o (documented_bytes t (inflated_bytes d)) (block_y0 d) (lines_in_block d)
    = Ok o' ->
  documented_output t out0 (log ++ [d]) = Ok o'.
Proof.
  unfold documented_output. intros Hlog Hd. rewrite fold_left_app, Hlog. exact Hd.
Qed.

Lemma decode_block_chosen_once out0 st blockOffset st' :
  compression header <> none ->
  decode_block st blockOffset = Ok st' ->
  chosen_once out0 st -> chosen_once out0 st'.
Proof.
  unfold decode_block. intros Hcomp Hrun Hinv.
  destruct ((blockOffset <=? 0) || (byteLength <=? blockOffset)).
  { by injection Hrun as <-. }
  destruct (readInt32LE buffer blockOffset) as [y|]; cbn in Hrun; [|discriminate].
  destruct (readInt32LE buffer (blockOffset + 4)) as [size|]; cbn in Hrun; [|discriminate].
  destruct (byteLength <? blockOffset + 8 + size); [discriminate|].
  destruct (typed_view (blockOffset + 8) size) as [compressed|]; cbn in Hrun; [|discriminate].
  set (y0 := y - dataMinY header) in *.
  set (linesInBlock := Z.min blockLines (height header - y0)) in *.
  assert (forall inflated t o,
    match zipTransform st with
    | None => choose_transform inflated linesInBlock
    | Some t => Ok t
    end = Ok t ->
    sample_block (out st) (apply_transform t inflated) y0 linesInBlock = Ok o ->
    chosen_once out0
      (MkState (Some t) o
         (decoded st ++
          [MkDecoded inflated linesInBlock
             (match zipTransform st with None => true | Some _ => false end)
             t (apply_transform t inflated) y0]))) as Hzip.
  { intros inflated t o Ht Ho. unfold chosen_once in *. cbn [decoded zipTransform out].
    rewrite apply_transform_documented in Ho.
    destruct (decoded st) as [|first rest].
    - destruct Hinv as [Hnone Hout]. rewrite Hnone in Ht |- *.
      rewrite choose_transform_documented in Ht. cbn [app].
      exists t. cbn [inflated_bytes lines_in_block chosen_here transform uncompressed_bytes].
      split; [done|]. split; [done|]. split; [done|]. split; [constructor|].
      split.
      + constructor; [|constructor]. split; [done|]. apply apply_transform_documented.
      + unfold documented_output. cbn [fold_left inflated_bytes block_y0 lines_in_block].
        rewrite <- Hout. exact Ho.
    - destruct Hinv as (t0 & Hchoice & Hz & Hfirst & Hrest & Hall & Hout).
      rewrite Hz in Ht |- *. injection Ht as <-. cbn [app].
      exists t0. split; [done|]. split; [done|]. split; [done|].
      split; [apply Forall_app; split; [done|]; by repeat constructor|].
      split.
      + rewrite app_comm_cons. apply Forall_app. split; [done|].
        constructor; [|constructor]. split; [done|]. apply apply_transform_documented.
      + rewrite app_comm_cons. by eapply documented_output_snoc. }
  destruct (compression header); [done|..].
  - destruct (decompressDeflate compressed) as [inflated|]; cbn in Hrun; [|discriminate].
    destruct (negb (Z.of_nat (length inflated) =? _)); [discriminate|].
    destruct (match zipTransform st with None => _ | Some t => Ok t end) as [t|] eqn:Ht;
      cbn in Hrun; [|discriminate].
    destruct (sample_block _ _ _ _) as [o|] eqn:Ho; cbn in Hrun; [|discriminate].
    injection Hrun as <-. by apply Hzip.
  - destruct (decompressDeflate compressed) as [inflated|]; cbn in Hrun; [|discriminate].
    destruct (negb (Z.of_nat (length inflated) =? _)); [discriminate|].
    destruct (match zipTransform st with None => _ | Some t => Ok t end) as [t|] eqn:Ht;
      cbn in Hrun; [|discriminate].
    destruct (sample_block _ _ _ _) as [o|] eqn:Ho; cbn in Hrun; [|discriminate].
    injection Hrun as <-. by apply Hzip.
Qed.

Lemma decode_blocks_throw offsets e :
  fold_left (fun acc blockOffset => st ← acc; decode_block st blockOffset) offsets (Throw e)
  = Throw e.
Proof. induction offsets as [|o offsets IH]; [reflexivity|exact IH]. Qed.

Lemma decode_blocks_chosen_once out0 offsets st st' :
  compression header <> none ->
  decode_blocks st offsets = Ok st' ->
  chosen_once out0 st -> chosen_once out0 st'.
Proof.
  unfold decode_blocks. intros Hcomp. revert st.
  induction offsets as [|o offsets IH]; intros st Hrun Hinv.
  - by injection Hrun as <-.
  - cbn [fold_left] in Hrun.
    change (Ok st ≫= (fun st => decode_block st o)) with (decode_block st o) in Hrun.
    destruct (decode_block st o) as [st1|e] eqn:Hblock.
    + apply (IH st1 Hrun). by apply (decode_block_chosen_once out0 st o).
    + rewrite decode_blocks_throw in Hrun. discriminate.
Qed.


End decode.

Arguments MkState {Out} _ _ _.
Arguments zipTransform {Out} _.
Arguments out {Out} _.
Arguments decoded {Out} _.

(** A file of two zip-compressed blocks of one line each: one channel
    [Y] of half floats, two pixels a line; the offset table, then the
    blocks at offsets 16 and 28. *)
Definition two_block_header : EXRHeader :=
  MkHeader 2 2 0 0 [MkChannel "Y" 1 1 1] zips 0.

Definition two_block_file : bytes :=
  [16; 0; 0; 0; 0; 0; 0; 0] ++ [28; 0; 0; 0; 0; 0; 0; 0] ++
  [0; 0; 0; 0] ++ [4; 0; 0; 0] ++ [0; 60; 64; 60] ++
  [1; 0; 0; 0] ++ [4; 0; 0; 0] ++ [0; 0; 60; 188].

(** An inflate that finds its input stored as it is. *)
Definition stored : bytes -> result bytes := Ok.

(** A sampler that records the lines it is given. *)
Definition record_line (o : list (bytes * Z * list Z)) (chunk : bytes) (line : Z) (outYs : list Z)
  : result (list (bytes * Z * list Z)) :=
  Ok (o ++ [(chunk, line, outYs)]).

Definition decode_two_blocks : result (State (list (bytes * Z * list Z))) :=
  decodeEXRBlocks stored _ record_line two_block_header two_block_file 2 [].

(** On the first block the second ordering scores 1 and the first 1/2;
    the second block, which alone would score 1 in both orderings and
    take the first, is decoded in the second; the sampler is given the
    bytes of the second ordering for both blocks. *)
Lemma two_block_file_decodes :
  decoded <$> decode_two_blocks =
  Ok [MkDecoded [0; 60; 64; 60] 1 true unshuffle_then_predictor [0; 192; 124; 56] 0;
      MkDecoded [0; 0; 60; 188] 1 false unshuffle_then_predictor [0; 188; 60; 120] 1] /\
  out <$> decode_two_blocks =
  Ok [([0; 192; 124; 56], 0, [0]); ([0; 188; 60; 120], 0, [1])] /\
  scoreUncompressed two_block_header (apply_transform predictor_then_unshuffle [0; 60; 64; 60]) 1
  = Ok (fdiv 3 6) /\
  scoreUncompressed two_block_header (apply_transform unshuffle_then_predictor [0; 60; 64; 60]) 1
  = Ok (fdiv 6 6) /\
  choose_transform two_block_header [0; 0; 60; 188] 1 = Ok predictor_then_unshuffle.
Proof. vm_compute. repeat split. Qed.


End ExrBlocks.

(** ** Radiance HDR: well-formed run-length data *)
Module HdrRuns.
Import HdrScanline.

(** The two kinds of run of the new-format scanline encoding: [n] copies
    of one value, or a sequence of raw values. *)
Inductive rle_run :=
  | Repeat (n : nat) (v : Z)
  | Literal (data : bytes).

(** The bytes that stand for a run in the file, and the plane values it
    stands for. *)
Definition run_bytes (r : rle_run) : bytes :=
  match r with
  | Repeat n v => [Z.of_nat (128 + n); v]
  | Literal data => Z.of_nat (length data) :: data
  end.

Definition run_pixels (r : rle_run) : bytes :=
  match r with
  | Repeat n v => replicate n v
  | Literal data => data
  end.

(** The counts that one byte can hold: 1 to 127 copies, 1 to 128 raw
    values. *)
Definition run_ok (r : rle_run) : Prop :=
  match r with
  | Repeat n _ => 1 <= n <= 127
  | Literal data => 1 <= length data <= 128
  end.

Definition runs_bytes (rs : list rle_run) : bytes := concat (map run_bytes rs).
Definition runs_pixels (rs : list rle_run) : bytes := concat (map run_pixels rs).

(** The marker that opens a new-format scanline of the given width. *)
Definition scanline_marker (width : nat) : bytes :=
  [2; 2; Z.of_nat width / 256; Z.of_nat width mod 256]%Z.

Lemma typed_fill_middle (done rest : bytes) (v : Z) (n : nat) :
  n <= length rest ->
  typed_fill (done ++ rest) v (length done) (length done + n)
    = done ++ replicate n v ++ drop n rest.
Proof.
  intros Hn. unfold typed_fill. apply list_eq. intros i.
  rewrite list_lookup_imap.
  destruct (decide (i < length done)) as [Hi|Hi].
  - rewrite !lookup_app_l by done.
    destruct (done !! i) as [x|] eqn:Hx; [|done]. simpl.
    rewrite decide_False by lia. done.
  - rewrite !lookup_app_r by lia.
    destruct (decide (i - length done < n)) as [Hr|Hr].
    + rewrite lookup_app_l by (rewrite length_replicate; lia).
      rewrite lookup_replicate_2 by done.
      destruct (rest !! (i - length done)) as [x|] eqn:Hx.
      * simpl. rewrite decide_True by lia. done.
      * apply lookup_ge_None in Hx. lia.
    + rewrite lookup_app_r by (rewrite length_replicate; lia).
      rewrite length_replicate, lookup_drop.
      replace (n + (i - length done - n)) with (i - length done) by lia.
      destruct (rest !! (i - length done)) as [x|]; [|done]. simpl.
      rewrite decide_False by lia. done.
Qed.

Lemma typed_set_middle (done rest src : bytes) :
  length src <= length rest ->
  typed_set (done ++ rest) src (length done) = Ok (done ++ src ++ drop (length src) rest).
Proof.
  intros Hn. unfold typed_set.
  rewrite decide_False by (rewrite length_app; lia).
  rewrite take_app_length. f_equal. f_equal. f_equal.
  rewrite drop_app_ge by lia. f_equal. lia.
Qed.

Lemma run_pixels_length r : run_ok r -> 1 <= length (run_pixels r) <= 128.
Proof. destruct r; simpl; [rewrite length_replicate|]; lia. Qed.

Lemma run_bytes_length r : 2 <= length (run_bytes r) \/ ~ run_ok r.
Proof.
  destruct r as [n v|data]; simpl; [left; lia|].
  destruct data; simpl; [right; lia|left; lia].
Qed.

(** The loop on a buffer that holds the runs [rs] from the read offset
    on, the plane holding [done] already. *)
Lemma rle_loop_runs (rs : list rle_run) : forall (pre post done rest : bytes) (fuel : nat),
  Forall run_ok rs ->
  length (runs_pixels rs) <= length rest ->
  length rs < fuel ->
  rle_loop (pre ++ runs_bytes rs ++ post) (length done + length (runs_pixels rs)) fuel
      (RleState (length done) (length pre) (done ++ rest))
    = Some (Ok (length pre + length (runs_bytes rs),
                done ++ runs_pixels rs ++ drop (length (runs_pixels rs)) rest)).
Proof.
  induction rs as [|r rs IH]; intros pre post done rest fuel Hok Hfit Hfuel.
  - destruct fuel as [|fuel]; [simpl in Hfuel; lia|].
    unfold runs_bytes, runs_pixels. cbn [map concat app length rle_loop].
    unfold rle_step. cbn [rle_x rle_off rle_out].
    rewrite decide_False by lia. by rewrite drop_0, Nat.add_0_r.
  - destruct fuel as [|fuel]; [simpl in Hfuel; lia|].
    apply Forall_cons in Hok as [Hr Hok].
    pose proof (run_pixels_length r Hr) as Hlen.
    unfold runs_pixels, runs_bytes in *. cbn [map concat] in *.
    rewrite length_app in Hfit.
    specialize (IH (pre ++ run_bytes r) post (done ++ run_pixels r)
                  (drop (length (run_pixels r)) rest) fuel Hok).
    rewrite length_drop in IH.
    specialize (IH ltac:(lia) ltac:(simpl in Hfuel; lia)).
    rewrite <- !app_assoc in IH. rewrite !length_app in IH.
    rewrite drop_drop in IH.
    replace (length done + length (run_pixels r) + length (concat (map run_pixels rs)))
      with (length done + (length (run_pixels r) + length (concat (map run_pixels rs))))
      in IH by lia.
    rewrite !length_app, <- !app_assoc.
    replace (length pre + (length (run_bytes r) + length (concat (map run_bytes rs))))
      with (length pre + length (run_bytes r) + length (concat (map run_bytes rs))) by lia.
    rewrite <- IH. clear IH.
    cbn [rle_loop]. unfold rle_step. cbn [rle_x rle_off rle_out].
    rewrite decide_True by lia.
    destruct r as [n v|data]; cbn [run_bytes run_pixels run_ok] in *.
    + rewrite length_replicate in *.
      rewrite lookup_app_r, Nat.sub_diag by lia. cbn [app lookup list_lookup].
      replace (128 <? Z.of_nat (128 + n))%Z with true by (symmetry; apply Z.ltb_lt; lia).
      rewrite lookup_app_r by lia.
      replace (S (length pre) - length pre) with 1 by lia. cbn [lookup list_lookup].
      replace (Z.to_nat (Z.of_nat (128 + n) - 128)) with n by lia.
      rewrite typed_fill_middle by lia.
      cbn [length]. do 2 f_equal; lia.
    + rewrite lookup_app_r, Nat.sub_diag by lia. cbn [app lookup list_lookup].
      replace (128 <? Z.of_nat (length data))%Z with false by (symmetry; apply Z.ltb_ge; lia).
      replace (0 <? Z.of_nat (length data))%Z with true by (symmetry; apply Z.ltb_lt; lia).
      rewrite Nat2Z.id.
      rewrite decide_False by (rewrite !length_app; simpl; rewrite length_app; lia).
      assert (slice (pre ++ Z.of_nat (length data) :: data ++ concat (map run_bytes rs) ++ post)
                (S (length pre)) (S (length pre) + length data) = data) as ->.
      { pose proof (HdrHeader.slice_middle (pre ++ [Z.of_nat (length data)]) data
                      (concat (map run_bytes rs) ++ post)) as Hs.
        rewrite <- !app_assoc in Hs. cbn [app] in Hs.
        rewrite length_app in Hs. cbn [length] in Hs.
        replace (length pre + 1) with (S (length pre)) in Hs by lia. exact Hs. }
      rewrite typed_set_middle by lia.
      cbn [length]. do 2 f_equal; lia.
Qed.

Lemma runs_bytes_length rs : length rs <= length (runs_bytes rs).
Proof.
  unfold runs_bytes. induction rs as [|r rs IH]; simpl; [lia|].
  rewrite length_app. destruct r; simpl; lia.
Qed.

Lemma decodeRLEChannel_runs (rs : list rle_run) (pre post out : bytes) :
  Forall run_ok rs ->
  length (runs_pixels rs) <= length out ->
  decodeRLEChannel (pre ++ runs_bytes rs ++ post) (length pre) (length (runs_pixels rs)) out
    = Some (Ok (length pre + length (runs_bytes rs),
                runs_pixels rs ++ drop (length (runs_pixels rs)) out)).
Proof.
  intros Hok Hfit. unfold decodeRLEChannel, rle_fuel.
  apply (rle_loop_runs rs pre post [] out); [done..|].
  rewrite !length_app. pose proof (runs_bytes_length rs). lia.
Qed.

(** [decodeRLEChannel] reads a plane back from its runs: on a buffer that
    holds, from the read offset on, runs of valid counts that stand for
    exactly [width] values, it returns the offset just after the runs and
    puts these values at the start of the plane, whatever the plane held
    and whatever follows the runs in the buffer. *)
Theorem decodeRLEChannel_decodes_runs (rs : list rle_run) (pre post out : bytes) (width : nat) :
  Forall run_ok rs ->
  length (runs_pixels rs) = width ->
  width <= length out ->
  decodeRLEChannel (pre ++ runs_bytes rs ++ post) (length pre) width out
    = Some (Ok (length pre + length (runs_bytes rs), runs_pixels rs ++ drop width out)).
Proof.
  intros Hok <- Hfit. unfold decodeRLEChannel, rle_fuel.
  apply (rle_loop_runs rs pre post [] out); [done..|].
  rewrite !length_app. pose proof (runs_bytes_length rs). lia.
Qed.

Lemma decodeRLEChannel_decodes_runs_witness :
  decodeRLEChannel ([7; 7] ++ runs_bytes [Repeat 3 9; Literal [1; 2]] ++ [5])%Z 2 5
      (replicate 6 0%Z)
    = Some (Ok (7, [9; 9; 9; 1; 2; 0]%Z)).
Proof.
  apply (decodeRLEChannel_decodes_runs [Repeat 3 9%Z; Literal [1; 2]%Z] [7; 7]%Z [5]%Z
           (replicate 6 0%Z) 5).
  - repeat constructor; simpl; lia.
  - reflexivity.
  - simpl. lia.
Defined.

Lemma marker_width (width : nat) :
  (Z.lor (Z.shiftl (Z.of_nat width / 256) 8) (Z.of_nat width mod 256) = Z.of_nat width)%Z.
Proof.
  rewrite Z.shiftl_mul_pow2 by lia.
  rewrite HalfFloat.lor_mul_pow2.
  - change (2 ^ 8)%Z with 256%Z. pose proof (Z.div_mod (Z.of_nat width) 256). lia.
  - lia.
  - change (2 ^ 8)%Z with 256%Z. apply Z.mod_pos_bound. lia.
Qed.

(** [decodeScanline] reads a new-format scanline back from its four
    planes: after the marker of a width between 8 and 32767, the runs of
    the red, green, blue and exponent planes, in this order, give the four
    quarters of the scanline buffer, and the offset returned is the one
    just after the runs. *)
Theorem decodeScanline_decodes_planes (r g b e : list rle_run) (pre post scanline : bytes)
    (width : nat) :
  8 <= width -> (Z.of_nat width <= 32767)%Z ->
  Forall run_ok r -> Forall run_ok g -> Forall run_ok b -> Forall run_ok e ->
  length (runs_pixels r) = width -> length (runs_pixels g) = width ->
  length (runs_pixels b) = width -> length (runs_pixels e) = width ->
  length scanline = width * 4 ->
  decodeScanline
      (pre ++ scanline_marker width ++ runs_bytes r ++ runs_bytes g ++ runs_bytes b
         ++ runs_bytes e ++ post)
      (length pre) width scanline
    = Some (Ok (length pre + 4 + length (runs_bytes r) + length (runs_bytes g)
                  + length (runs_bytes b) + length (runs_bytes e),
                runs_pixels r ++ runs_pixels g ++ runs_pixels b ++ runs_pixels e)).
Proof.
  intros Hw Hw' Hr Hg Hb He Lr Lg Lb Le Hlen. unfold decodeScanline.
  rewrite decide_False by lia.
  rewrite decide_False by (rewrite !length_app; simpl; lia).
  set (rest := runs_bytes r ++ runs_bytes g ++ runs_bytes b ++ runs_bytes e ++ post).
  assert (forall k x, scanline_marker width !! k = Some x ->
            (pre ++ scanline_marker width ++ rest) !!! (length pre + k) = x) as Hmark.
  { intros k x Hk. apply list_lookup_total_correct.
    pose proof (lookup_lt_Some _ _ _ Hk) as Hlt.
    rewrite lookup_app_r by lia. rewrite lookup_app_l by (by rewrite Nat.add_comm, Nat.add_sub).
    rewrite <- Hk. f_equal. lia. }
  pose proof (Hmark 0 _ eq_refl) as Hm0. rewrite Nat.add_0_r in Hm0.
  cbv zeta. rewrite Hm0, (Hmark 1 _ eq_refl), (Hmark 2 _ eq_refl), (Hmark 3 _ eq_refl).
  rewrite marker_width. rewrite bool_decide_eq_true_2 by done. cbn [negb].
  assert (forall (rs : list rle_run) (before after plane : bytes),
            Forall run_ok rs -> length (runs_pixels rs) = width -> length plane = width ->
            decodeRLEChannel (before ++ runs_bytes rs ++ after) (length before) width plane
              = Some (Ok (length before + length (runs_bytes rs), runs_pixels rs))) as Hplane.
  { intros rs before after plane Hok Hpix Hpl. rewrite <- Hpix at 1.
    rewrite decodeRLEChannel_runs by (done || lia).
    rewrite drop_ge by lia. by rewrite app_nil_r. }
  assert (forall i, i < 4 -> length (slice scanline (width * i) (width * S i)) = width)
    as Hslice.
  { intros i Hi. unfold slice. rewrite length_take, length_drop. nia. }
  pose proof (Hslice 0 ltac:(lia)) as H0. pose proof (Hslice 1 ltac:(lia)) as H1.
  pose proof (Hslice 2 ltac:(lia)) as H2. pose proof (Hslice 3 ltac:(lia)) as H3.
  rewrite Nat.mul_0_r, Nat.mul_1_r in H0. rewrite Nat.mul_1_r in H1.
  subst rest.
  replace (pre ++ scanline_marker width ++ runs_bytes r ++ runs_bytes g ++ runs_bytes b
             ++ runs_bytes e ++ post)
    with ((pre ++ scanline_marker width) ++ runs_bytes r
            ++ (runs_bytes g ++ runs_bytes b ++ runs_bytes e ++ post))
    by (by rewrite <- !app_assoc).
  replace (length pre + 4) with (length (pre ++ scanline_marker width))
    by (rewrite length_app; reflexivity).
  rewrite (Hplane r) by done. cbn [and_then].
  replace ((pre ++ scanline_marker width) ++ runs_bytes r
            ++ (runs_bytes g ++ runs_bytes b ++ runs_bytes e ++ post))
    with (((pre ++ scanline_marker width) ++ runs_bytes r) ++ runs_bytes g
            ++ (runs_bytes b ++ runs_bytes e ++ post))
    by (by rewrite <- !app_assoc).
  replace (length (pre ++ scanline_marker width) + length (runs_bytes r))
    with (length ((pre ++ scanline_marker width) ++ runs_bytes r))
    by (by rewrite !length_app).
  rewrite (Hplane g) by done. cbn [and_then].
  replace (((pre ++ scanline_marker width) ++ runs_bytes r) ++ runs_bytes g
            ++ (runs_bytes b ++ runs_bytes e ++ post))
    with ((((pre ++ scanline_marker width) ++ runs_bytes r) ++ runs_bytes g) ++ runs_bytes b
            ++ (runs_bytes e ++ post))
    by (by rewrite <- !app_assoc).
  replace (length ((pre ++ scanline_marker width) ++ runs_bytes r) + length (runs_bytes g))
    with (length (((pre ++ scanline_marker width) ++ runs_bytes r) ++ runs_bytes g))
    by (by rewrite !length_app).
  rewrite (Hplane b) by done. cbn [and_then].
  replace ((((pre ++ scanline_marker width) ++ runs_bytes r) ++ runs_bytes g) ++ runs_bytes b
            ++ (runs_bytes e ++ post))
    with (((((pre ++ scanline_marker width) ++ runs_bytes r) ++ runs_bytes g) ++ runs_bytes b)
            ++ runs_bytes e ++ post)
    by (by rewrite <- !app_assoc).
  replace (length (((pre ++ scanline_marker width) ++ runs_bytes r) ++ runs_bytes g)
           + length (runs_bytes b))
    with (length ((((pre ++ scanline_marker width) ++ runs_bytes r) ++ runs_bytes g)
                    ++ runs_bytes b))
    by (by rewrite !length_app).
  rewrite (Hplane e) by (done || (rewrite <- H3; f_equal; lia)). cbn [and_then].
  rewrite drop_ge by lia. rewrite app_nil_r.
  by rewrite !length_app.
Qed.

Lemma decodeScanline_decodes_planes_witness :
  decodeScanline
      ([] ++ scanline_marker 8 ++ runs_bytes [Repeat 8 1%Z]
         ++ runs_bytes [Literal [1; 2; 3; 4; 5; 6; 7; 8]%Z]
         ++ runs_bytes [Repeat 4 5%Z; Repeat 4 6%Z] ++ runs_bytes [Repeat 8 128%Z] ++ [])
      0 8 (replicate 32 0%Z)
    = Some (Ok (21, replicate 8 1%Z ++ [1; 2; 3; 4; 5; 6; 7; 8]%Z ++ replicate 4 5%Z
                      ++ replicate 4 6%Z ++ replicate 8 128%Z)).
Proof.
  apply (decodeScanline_decodes_planes [Repeat 8 1%Z] [Literal [1; 2; 3; 4; 5; 6; 7; 8]%Z]
           [Repeat 4 5%Z; Repeat 4 6%Z] [Repeat 8 128%Z] [] [] (replicate 32 0%Z) 8);
    try reflexivity; try lia; repeat constructor; simpl; lia.
Defined.

(** *** What a successful call leaves *)

Lemma typed_set_length out src x out' :
  typed_set out src x = Ok out' -> length out' = length out.
Proof.
  unfold typed_set. destruct (decide _) as [|Hfit]; [discriminate|].
  intros [= <-]. rewrite !length_app, length_take, length_drop. lia.
Qed.

Lemma rle_step_length b width s s' :
  rle_step b width s = RleContinue s' -> length (rle_out s') = length (rle_out s).
Proof.
  unfold rle_step. intros H.
  destruct (decide (rle_x s < width)); [|discriminate].
  destruct (b !! rle_off s) as [count|]; [|discriminate].
  destruct (128 <? count)%Z.
  - destruct (b !! S (rle_off s)) as [val|]; [|discriminate].
    injection H as <-. cbn [rle_out]. unfold typed_fill. apply length_imap.
  - destruct (0 <? count)%Z.
    + destruct (decide _); [discriminate|].
      destruct (typed_set _ _ _) as [out'|] eqn:Hset; [|discriminate].
      injection H as <-. cbn [rle_out]. by eapply typed_set_length.
    + by injection H as <-.
Qed.

Lemma rle_loop_result b width fuel : forall s off out,
  rle_loop b width fuel s = Some (Ok (off, out)) ->
  length out = length (rle_out s) /\
  rle_off s <= off /\
  (rle_off s <= length b -> off <= length b) /\
  (rle_x s < width -> rle_off s < off).
Proof.
  induction fuel as [|fuel IH]; intros s off out Hrun; [discriminate|].
  cbn [rle_loop] in Hrun.
  destruct (rle_step b width s) as [s'|off' out'|e] eqn:Hstep; [| |discriminate].
  - pose proof (rle_step_advances _ _ _ _ Hstep) as Hadv.
    pose proof (rle_step_length _ _ _ _ Hstep) as Hlen.
    destruct (IH _ _ _ Hrun) as (H1 & H2 & H3 & H4).
    repeat split; [congruence|lia|lia|lia].
  - unfold rle_step in Hstep.
    destruct (decide (rle_x s < width)) as [Hx|Hx].
    + destruct (b !! rle_off s) as [count|]; [|discriminate].
      destruct (128 <? count)%Z; [destruct (b !! S (rle_off s)); discriminate|].
      destruct (0 <? count)%Z; [|discriminate].
      destruct (decide _); [discriminate|]. destruct (typed_set _ _ _); discriminate.
    + injection Hstep as <- <-. injection Hrun as <- <-.
      repeat split; lia.
Qed.

Lemma decodeRLEChannel_result b offset width plane off plane' :
  0 < width ->
  decodeRLEChannel b offset width plane = Some (Ok (off, plane')) ->
  length plane' = length plane /\ offset < off <= length b.
Proof.
  intros Hw Hrun. unfold decodeRLEChannel in Hrun.
  destruct (rle_loop_result _ _ _ _ _ _ Hrun) as (H1 & H2 & H3 & H4).
  cbn [rle_x rle_off rle_out] in *.
  split; [done|]. split; [lia|].
  destruct (decide (offset <= length b)) as [|Hpast]; [lia|]. exfalso.
  unfold rle_fuel in Hrun.
  replace (length b - offset) with 0 in Hrun by lia.
  cbn [rle_loop] in Hrun. unfold rle_step in Hrun. cbn [rle_x rle_off rle_out] in Hrun.
  rewrite decide_True in Hrun by lia.
  rewrite lookup_ge_None_2 in Hrun by lia. discriminate.
Qed.

Lemma and_then_ok {A B} (r : option (result A)) (k : A -> option (result B)) v :
  and_then r k = Some (Ok v) -> exists a, r = Some (Ok a) /\ k a = Some (Ok v).
Proof. destruct r as [[a|e]|]; simpl; [eauto|discriminate..]. Qed.

(** A successful [decodeScanline] of a positive width on a scanline
    buffer of [width * 4] elements has consumed at least one byte,
    returns an offset that is not past the end of the buffer, and leaves a
    scanline buffer of the same length. *)
Theorem decodeScanline_advances (b : bytes) (offset width : nat) (scanline : bytes)
    (off : nat) (scanline' : bytes) :
  0 < width ->
  length scanline = width * 4 ->
  decodeScanline b offset width scanline = Some (Ok (off, scanline')) ->
  offset < off <= length b /\ length scanline' = width * 4.
Proof.
  intros Hw Hlen Hrun.
  assert (forall r, Some (decodeOldPixels b offset width scanline) = Some (Ok r) ->
            offset < r.1 <= length b /\ length r.2 = width * 4) as Hold.
  { intros r [= Hr]. unfold decodeOldPixels in Hr.
    destruct (decide _) as [|Hfit]; [discriminate|].
    destruct (typed_set _ _ _) as [out'|] eqn:Hset; [|discriminate].
    injection Hr as <-. cbn [fst snd].
    apply typed_set_length in Hset. split; [lia|congruence]. }
  unfold decodeScanline in Hrun.
  destruct (decide _); [exact (Hold _ Hrun)|].
  destruct (decide (length b < offset + 4)); [discriminate|].
  cbv zeta in Hrun.
  destruct (negb _); [exact (Hold _ Hrun)|].
  assert (forall i, i < 4 -> length (slice scanline (width * i) (width * S i)) = width)
    as Hslice.
  { intros i Hi. unfold slice. rewrite length_take, length_drop. nia. }
  pose proof (Hslice 0 ltac:(lia)) as H0. pose proof (Hslice 1 ltac:(lia)) as H1.
  pose proof (Hslice 2 ltac:(lia)) as H2. pose proof (Hslice 3 ltac:(lia)) as H3.
  rewrite Nat.mul_0_r, Nat.mul_1_r in H0. rewrite Nat.mul_1_r in H1.
  apply and_then_ok in Hrun as ([o1 p1] & Hr1 & Hrun).
  apply and_then_ok in Hrun as ([o2 p2] & Hr2 & Hrun).
  apply and_then_ok in Hrun as ([o3 p3] & Hr3 & Hrun).
  apply and_then_ok in Hrun as ([o4 p4] & Hr4 & Hrun).
  injection Hrun as <- <-.
  apply decodeRLEChannel_result in Hr1 as [L1 O1]; [|done].
  apply decodeRLEChannel_result in Hr2 as [L2 O2]; [|done].
  apply decodeRLEChannel_result in Hr3 as [L3 O3]; [|done].
  apply decodeRLEChannel_result in Hr4 as [L4 O4]; [|done].
  split; [lia|].
  rewrite !length_app, length_drop. lia.
Qed.

Lemma decodeScanline_advances_witness :
  0 < 12 <= length [1; 2; 3; 4; 5; 6; 7; 8; 9; 10; 11; 12]%Z /\
  length (take 12 [1; 2; 3; 4; 5; 6; 7; 8; 9; 10; 11; 12]%Z) = 3 * 4.
Proof.
  apply (decodeScanline_advances [1; 2; 3; 4; 5; 6; 7; 8; 9; 10; 11; 12]%Z 0 3
           (replicate 12 0%Z) 12 (take 12 [1; 2; 3; 4; 5; 6; 7; 8; 9; 10; 11; 12]%Z)).
  - lia.
  - reflexivity.
  - vm_compute. reflexivity.
Defined.

(** A scanline that is not run-length encoded (the image is narrower
    than 8 pixels or wider than 32767, or the scanline does not start
    with the two bytes 2, 2) is copied as it is: [decodeScanline] puts the
    next [width * 4] bytes of the buffer in the scanline buffer, in their
    order, and returns the offset after them; it throws "Unexpected end
    of HDR data" when fewer bytes are left. *)
Theorem decodeScanline_flat (b : bytes) (offset width : nat) (scanline : bytes) :
  length scanline = width * 4 ->
  width < 8 \/ (32767 < Z.of_nat width)%Z \/ take 2 (drop offset b) <> [2; 2]%Z ->
  decodeScanline b offset width scanline
    = Some (if decide (length b < offset + width * 4) then Throw eof_data
            else Ok (offset + width * 4, slice b offset (offset + width * 4))).
Proof.
  intros Hlen Hflat.
  assert (decodeOldPixels b offset width scanline
          = if decide (length b < offset + width * 4) then Throw eof_data
            else Ok (offset + width * 4, slice b offset (offset + width * 4))) as Hold.
  { unfold decodeOldPixels. cbv zeta.
    destruct (decide (length b < offset + width * 4)) as [|Hfits]; [done|].
    assert (length (slice b offset (offset + width * 4)) = width * 4) as Hslice
      by (unfold slice; rewrite length_take, length_drop; lia).
    unfold typed_set. rewrite decide_False by lia. cbn [mbind result_bind].
    rewrite take_0, drop_ge, app_nil_r by lia. done. }
  unfold decodeScanline.
  destruct (decide (width < 8 \/ (32767 < Z.of_nat width)%Z)) as [|Hwide];
    [by rewrite Hold|].
  destruct (decide (length b < offset + 4)) as [Hshort|Hlong].
  { rewrite decide_True by lia. done. }
  cbv zeta.
  destruct (bool_decide _) eqn:Hmark; cbn [negb]; [|by rewrite Hold].
  apply bool_decide_eq_true in Hmark as (H0 & H1 & _).
  destruct Hflat as [?|[?|Hnot]]; [lia|lia|]. exfalso. apply Hnot.
  destruct (lookup_lt_is_Some_2 b offset ltac:(lia)) as [b0 Hb0].
  destruct (lookup_lt_is_Some_2 b (offset + 1) ltac:(lia)) as [b1 Hb1].
  rewrite (list_lookup_total_correct _ _ _ Hb0) in H0.
  rewrite (list_lookup_total_correct _ _ _ Hb1) in H1. subst b0 b1.
  apply list_eq. intros [|[|i]].
  - by rewrite lookup_take_lt, lookup_drop, Nat.add_0_r by lia.
  - by rewrite lookup_take_lt, lookup_drop by lia.
  - rewrite lookup_take_ge by lia. done.
Qed.

Lemma decodeScanline_flat_witness :
  decodeScanline [9; 2; 1; 10; 20; 30; 40; 50; 60; 70; 80; 90]%Z 1 2 (replicate 8 0%Z)
    = Some (Ok (9, [2; 1; 10; 20; 30; 40; 50; 60]%Z)).
Proof.
  apply (decodeScanline_flat [9; 2; 1; 10; 20; 30; 40; 50; 60; 70; 80; 90]%Z 1 2
           (replicate 8 0%Z)).
  - reflexivity.
  - left. lia.
Defined.

End HdrRuns.

(** ** Radiance HDR: outcomes of the header reader *)
Module HdrHeaderOutcomes.
Import JsString HdrHeader.

(** The text lines of a buffer made of the lines [ls], each ended by a
    line feed, and of the unterminated rest [tail]. *)
Definition text_lines (ls : list bytes) (tail : bytes) : list string :=
  map decodeText ls ++ match tail with [] => [] | _ => [decodeText tail] end.

(** [readHDRMetadata] returns or throws on every buffer: the header loop
    leaves within [length + 1] tests, every line read moving the offset
    forward, and more unrolling changes nothing. *)
Theorem readHDRMetadata_terminates (b : bytes) :
  (exists r, readHDRMetadata b = Some r) /\
  (exists scan, scanHeader b = Some scan /\
     forall fuel, S (length b) <= fuel -> header_loop fuel b 0 false = Some scan) /\
  (forall offset, offset < length b -> offset < (readLine b offset).2 <= length b).
Proof.
  destruct (header_loop_total (S (length b)) b 0 false ltac:(lia)) as [scan Hscan].
  split; [|split].
  - unfold readHDRMetadata, scanHeader. rewrite Hscan.
    destruct scan as [scan|e]; [|eauto].
    destruct (negb (formatOk scan)); [eauto|]. destruct (resolution scan); eauto.
  - exists scan. split; [exact Hscan|].
    intros fuel Hle. by apply (header_loop_more_fuel _ _ _ _ _ _ Hscan).
  - apply readLine_next.
Qed.

(** *** Dimensions of an accepted header *)

Lemma parseResolution_valid line res :
  parseResolution line = Some res ->
  (0 < res_width res)%Z /\ (0 < res_height res)%Z /\
  (ySign res = "-Y" \/ ySign res = "+Y") /\ (xSign res = "+X" \/ xSign res = "-X").
Proof.
  unfold parseResolution.
  destruct (split_ws (trim line)) as [|t1 [|t2 [|t3 [|t4 [|t5 rest]]]]]; try discriminate.
  destruct (bool_decide (t1 = "" \/ _)); [discriminate|].
  destruct (negb (isFinite (parseInt t4)) || negb (isFinite (parseInt t2))); [discriminate|].
  destruct (bool_decide (_ \/ _)%Z) eqn:Hpos; [discriminate|].
  destruct (bool_decide (t1 <> "-Y" /\ _)) eqn:Hy; [discriminate|].
  destruct (bool_decide (t3 <> "+X" /\ _)) eqn:Hx; [discriminate|].
  intros [= <-]. cbn [res_width res_height ySign xSign].
  apply bool_decide_eq_false in Hpos, Hy, Hx.
  split; [lia|]. split; [lia|]. split.
  - destruct (decide (t1 = "-Y")); [by left|].
    destruct (decide (t1 = "+Y")); [by right|]. by destruct Hy.
  - destruct (decide (t3 = "+X")); [by left|].
    destruct (decide (t3 = "-X")); [by right|]. by destruct Hx.
Qed.

Lemma header_loop_resolution fuel : forall b offset ok scan res,
  header_loop fuel b offset ok = Some (Ok scan) ->
  resolution scan = Some res ->
  exists line, parseResolution line = Some res.
Proof.
  induction fuel as [|fuel IH]; intros b offset ok scan res Hrun Hres; [discriminate|].
  rewrite header_loop_unfold in Hrun.
  destruct (decide (offset < length b)).
  - destruct (readLine b offset) as [line next].
    destruct (bool_decide (trim line = "")).
    + destruct (readLine b next) as [resLine next2].
      destruct (parseResolution resLine) as [res'|] eqn:Hparse; [|discriminate].
      injection Hrun as <-. cbn [resolution] in Hres. injection Hres as <-. eauto.
    + eapply IH; eauto.
  - injection Hrun as <-. discriminate.
Qed.

(** The metadata that [readHDRMetadata] returns is that of an HDR image
    of positive width and height, whatever the buffer. *)
Theorem readHDRMetadata_positive (b : bytes) (meta : PanoramaMetadata) :
  readHDRMetadata b = Some (Ok meta) ->
  format meta = hdr /\ (0 < width meta)%Z /\ (0 < height meta)%Z.
Proof.
  unfold readHDRMetadata, scanHeader.
  destruct (header_loop _ b 0 false) as [[scan|e]|] eqn:Hscan; [|discriminate..].
  destruct (negb (formatOk scan)); [discriminate|].
  destruct (resolution scan) as [res|] eqn:Hres; [|discriminate].
  intros [= <-]. cbn [format width height].
  destruct (header_loop_resolution _ _ _ _ _ _ Hscan Hres) as [line Hline].
  apply parseResolution_valid in Hline. tauto.
Qed.

Lemma readHDRMetadata_positive_witness :
  format (Metadata hdr 8 4) = hdr /\ (0 < width (Metadata hdr 8 4))%Z /\
  (0 < height (Metadata hdr 8 4))%Z.
Proof.
  apply (readHDRMetadata_positive (file_of_lines ["FORMAT=32-bit_rle_rgbe"; ""; "-Y 4 +X 8"])).
  vm_compute. reflexivity.
Defined.

(** *** The outcome on a buffer given line by line *)

(** The value of [formatOk] when the header loop is left: whether the
    last line that starts with [FORMAT=] names the supported format. *)
Definition format_accepted (lines : list string) : bool :=
  match last_format_line lines with
  | Some l => bool_decide (trim l = supported_format)
  | None => false
  end.

Lemma header_loop_blank (hdrLines : list bytes) (blank resLine tail : bytes) :
  Forall (fun l => 10%Z ∉ l) (hdrLines ++ [blank; resLine]) ->
  (tail = [] \/ exists rest, tail = 10%Z :: rest) ->
  Forall (fun l => trim (decodeText l) <> "") hdrLines ->
  trim (decodeText blank) = "" ->
  forall pre ok fuel,
  length hdrLines < fuel ->
  exists off,
  header_loop fuel (pre ++ join_lines (hdrLines ++ [blank]) ++ resLine ++ tail)
      (length pre) ok
    = Some (match parseResolution (decodeText resLine) with
            | None => Throw (Error "Invalid HDR resolution")
            | Some res =>
                Ok (MkHeaderScan (format_flag ok (map decodeText hdrLines)) (Some res) off)
            end).
Proof.
  intros Hnl Htail Hnb Hblank.
  induction hdrLines as [|l ls IH]; intros pre ok fuel Hfuel.
  - destruct fuel as [|fuel]; [simpl in Hfuel; lia|].
    apply Forall_cons in Hnl as [Hb Hnl]. apply Forall_cons in Hnl as [Hr _].
    rewrite header_loop_unfold.
    cbn [app]. rewrite join_lines_cons. change (join_lines []) with (@nil Z).
    rewrite <- !app_assoc. cbn [app].
    destruct (decide _) as [_|Hge]; [|rewrite !length_app in Hge; simpl in Hge; lia].
    rewrite readLine_line by done.
    rewrite (blank_not_format _ Hblank). rewrite Hblank.
    rewrite bool_decide_eq_true_2 by done.
    assert (exists off, readLine (pre ++ blank ++ 10%Z :: resLine ++ tail)
              (length (pre ++ blank ++ [10%Z])) = (decodeText resLine, off)) as [off Hoff].
    { replace (pre ++ blank ++ 10%Z :: resLine ++ tail)
        with ((pre ++ blank ++ [10%Z]) ++ resLine ++ tail)
        by (rewrite <- !app_assoc; reflexivity).
      destruct Htail as [->|[rest ->]].
      - rewrite app_nil_r. rewrite readLine_last by done. eauto.
      - rewrite readLine_line by done. eauto. }
    rewrite Hoff. exists off.
    destruct (parseResolution (decodeText resLine)); reflexivity.
  - destruct fuel as [|fuel]; [simpl in Hfuel; lia|].
    apply Forall_cons in Hnl as [Hl Hnl]. apply Forall_cons in Hnb as [Hlb Hnb].
    rewrite header_loop_unfold.
    cbn [app]. rewrite join_lines_cons.
    rewrite <- !app_assoc. cbn [app].
    destruct (decide _) as [_|Hge]; [|rewrite !length_app in Hge; simpl in Hge; lia].
    rewrite readLine_line by done.
    rewrite (bool_decide_eq_false_2 _ Hlb).
    specialize (IH Hnl Hnb (pre ++ l ++ [10%Z])
      (if startsWith (decodeText l) "FORMAT="
       then bool_decide (trim (decodeText l) = supported_format) else ok) fuel).
    destruct IH as [off IH]; [simpl in Hfuel; lia|].
    rewrite <- !app_assoc in IH. cbn [app] in IH. rewrite IH. eauto.
Qed.

(** On a buffer whose header lines are followed by a blank line,
    [readHDRMetadata] looks at the line after the first blank line before
    it looks at the format: when that line is not a valid resolution line
    (or is missing) the error is "Invalid HDR resolution", whatever the
    [FORMAT=] lines say; when it is valid, the format decides between the
    metadata and "Unsupported HDR format".  What follows the resolution
    line is not read. *)
Theorem readHDRMetadata_outcome (hdrLines : list bytes) (blank resLine tail : bytes) :
  Forall (fun l => 10%Z ∉ l) (hdrLines ++ [blank; resLine]) ->
  (tail = [] \/ exists rest, tail = 10%Z :: rest) ->
  Forall (fun l => trim (decodeText l) <> "") hdrLines ->
  trim (decodeText blank) = "" ->
  readHDRMetadata (join_lines (hdrLines ++ [blank]) ++ resLine ++ tail)
    = Some (match parseResolution (decodeText resLine) with
            | None => Throw (Error "Invalid HDR resolution")
            | Some res =>
                if format_accepted (map decodeText hdrLines)
                then Ok (Metadata hdr (res_width res) (res_height res))
                else Throw (Error "Unsupported HDR format")
            end).
Proof.
  intros Hnl Htail Hnb Hblank. unfold readHDRMetadata, scanHeader.
  destruct (header_loop_blank hdrLines blank resLine tail Hnl Htail Hnb Hblank
              [] false (S (length (join_lines (hdrLines ++ [blank]) ++ resLine ++ tail))))
    as [off Hloop].
  { rewrite length_app.
    pose proof (length_join_lines (hdrLines ++ [blank])) as Hlen.
    rewrite length_app in Hlen. simpl in Hlen. lia. }
  cbn [app length] in Hloop. rewrite Hloop.
  destruct (parseResolution (decodeText resLine)) as [res|]; [|reflexivity].
  cbn [formatOk resolution]. rewrite format_flag_last. unfold format_accepted.
  destruct (last_format_line _) as [l|]; [|reflexivity].
  destruct (bool_decide _); reflexivity.
Qed.

Lemma readHDRMetadata_outcome_witness :
  readHDRMetadata (join_lines ([encodeText "FORMAT=32-bit_rle_xyze"] ++ [[]])
                     ++ encodeText "-Y 4 +Z 8" ++ [])
    = Some (Throw (Error "Invalid HDR resolution")).
Proof.
  apply (readHDRMetadata_outcome [encodeText "FORMAT=32-bit_rle_xyze"] []
           (encodeText "-Y 4 +Z 8") []).
  - vm_compute. repeat constructor; intros H;
      repeat (inversion_clear H as [|? ? ? H0]; rename H0 into H); inversion H.
  - by left.
  - repeat constructor. vm_compute. discriminate.
  - reflexivity.
Defined.

Lemma header_loop_no_blank (ls : list bytes) (tail : bytes) :
  Forall (fun l => 10%Z ∉ l) (ls ++ [tail]) ->
  Forall (fun l => trim (decodeText l) <> "") ls ->
  (tail = [] \/ trim (decodeText tail) <> "") ->
  forall pre ok fuel,
  length ls + length (take 1 tail) < fuel ->
  header_loop fuel (pre ++ join_lines ls ++ tail) (length pre) ok
    = Some (Ok (MkHeaderScan (format_flag ok (text_lines ls tail)) None
                  (length (pre ++ join_lines ls ++ tail)))).
Proof.
  intros Hnl Hnb Htail.
  induction ls as [|l ls IH]; intros pre ok fuel Hfuel.
  - apply Forall_cons in Hnl as [Ht _].
    change (join_lines []) with (@nil Z). cbn [app].
    unfold text_lines. cbn [map app].
    destruct tail as [|c tail].
    + destruct fuel as [|fuel]; [simpl in Hfuel; lia|].
      rewrite header_loop_unfold. rewrite app_nil_r.
      rewrite decide_False by lia. reflexivity.
    + destruct fuel as [|[|fuel]]; [simpl in Hfuel; lia..|].
      destruct Htail as [|Htail]; [discriminate|].
      rewrite header_loop_unfold.
      rewrite decide_True by (rewrite length_app; simpl; lia).
      rewrite readLine_last by done.
      rewrite (bool_decide_eq_false_2 _ Htail).
      rewrite header_loop_unfold. rewrite decide_False by lia. reflexivity.
  - destruct fuel as [|fuel]; [simpl in Hfuel; lia|].
    apply Forall_cons in Hnl as [Hl Hnl]. apply Forall_cons in Hnb as [Hlb Hnb].
    rewrite header_loop_unfold.
    rewrite join_lines_cons. rewrite <- !app_assoc. cbn [app].
    rewrite decide_True by (rewrite !length_app; simpl; lia).
    rewrite readLine_line by done.
    rewrite (bool_decide_eq_false_2 _ Hlb).
    specialize (IH Hnl Hnb (pre ++ l ++ [10%Z])
      (if startsWith (decodeText l) "FORMAT="
       then bool_decide (trim (decodeText l) = supported_format) else ok) fuel
      ltac:(simpl in Hfuel; lia)).
    rewrite <- !app_assoc in IH. cbn [app] in IH. rewrite IH.
    reflexivity.
Qed.

(** On a buffer without a blank line, the empty buffer among them,
    [readHDRMetadata] never returns: it reads to the end and throws
    "Unsupported HDR format", or "Missing HDR resolution" when the last
    [FORMAT=] line names the supported format. *)
Theorem readHDRMetadata_no_blank_line (ls : list bytes) (tail : bytes) :
  Forall (fun l => 10%Z ∉ l) (ls ++ [tail]) ->
  Forall (fun l => trim (decodeText l) <> "") ls ->
  (tail = [] \/ trim (decodeText tail) <> "") ->
  readHDRMetadata (join_lines ls ++ tail)
    = Some (Throw (Error (if format_accepted (text_lines ls tail)
                          then "Missing HDR resolution" else "Unsupported HDR format"))) /\
  readHDRMetadata [] = Some (Throw (Error "Unsupported HDR format")).
Proof.
  intros Hnl Hnb Htail. split; [|reflexivity].
  unfold readHDRMetadata, scanHeader.
  pose proof (header_loop_no_blank ls tail Hnl Hnb Htail [] false
                (S (length (join_lines ls ++ tail)))) as Hloop.
  cbn [app length] in Hloop. rewrite Hloop.
  - cbn [formatOk resolution]. rewrite format_flag_last. unfold format_accepted.
    destruct (last_format_line _) as [l|]; [|reflexivity].
    destruct (bool_decide _); reflexivity.
  - rewrite length_app. pose proof (length_join_lines ls) as Hlen.
    destruct tail as [|c tail]; simpl; lia.
Qed.

Lemma readHDRMetadata_no_blank_line_witness :
  readHDRMetadata (join_lines [encodeText "#?RADIANCE"; encodeText "FORMAT=32-bit_rle_rgbe"]
                     ++ encodeText "-Y 4 +X 8")
    = Some (Throw (Error "Missing HDR resolution")) /\
  readHDRMetadata [] = Some (Throw (Error "Unsupported HDR format")).
Proof.
  apply (readHDRMetadata_no_blank_line
           [encodeText "#?RADIANCE"; encodeText "FORMAT=32-bit_rle_rgbe"]
           (encodeText "-Y 4 +X 8")).
  - vm_compute. repeat constructor; intros H;
      repeat (inversion_clear H as [|? ? ? H0]; rename H0 into H); inversion H.
  - repeat constructor; vm_compute; discriminate.
  - right. vm_compute. discriminate.
Defined.

End HdrHeaderOutcomes.

(** ** Radiance HDR: the resolution line *)
Module HdrResolution.
Import JsString HdrHeader.

(** A resolution line as a writer produces it: a sign of the Y axis, the
    height in decimal digits, a sign of the X axis and the width in
    decimal digits, with white space between them and maybe around
    them. *)
Definition is_digit (c : ascii) : bool :=
  ((48 <=? N_of_ascii c) && (N_of_ascii c <=? 57))%N.

Fixpoint all_digits (s : string) : bool :=
  match s with
  | EmptyString => true
  | String c s' => is_digit c && all_digits s'
  end.

(** The number that the decimal digits [s] stand for, after [acc]. *)
Fixpoint digits_value (acc : Z) (s : string) : Z :=
  match s with
  | EmptyString => acc
  | String c s' => digits_value (10 * acc + (Z.of_N (N_of_ascii c) - 48))%Z s'
  end.

Definition decimal_value (s : string) : Z := digits_value 0 s.

(** A word: characters of the ASCII range, none of them white space. *)
Fixpoint word_text (s : string) : bool :=
  match s with
  | EmptyString => true
  | String c s' => word_char c && word_text s'
  end.

Definition resolution_line (pad1 ySign gap1 yStr gap2 xSign gap3 xStr pad2 : string)
  : string :=
  pad1 +:+ ySign +:+ gap1 +:+ yStr +:+ gap2 +:+ xSign +:+ gap3 +:+ xStr +:+ pad2.

Lemma app_nil_string (s : string) : s +:+ "" = s.
Proof.
  induction s as [|c s IH]; [done|].
  change (String c (s +:+ "") = String c s). by rewrite IH.
Qed.

Lemma app_assoc_string (s1 s2 s3 : string) : (s1 +:+ s2) +:+ s3 = s1 +:+ s2 +:+ s3.
Proof.
  induction s1 as [|c s1 IH]; [done|].
  change (String c ((s1 +:+ s2) +:+ s3) = String c (s1 +:+ s2 +:+ s3)). by rewrite IH.
Qed.

Lemma rev_app_app (s1 s2 acc : string) :
  String.rev_app (s1 +:+ s2) acc = String.rev_app s2 (String.rev_app s1 acc).
Proof.
  revert acc. induction s1 as [|c s1 IH]; intros acc; [done|].
  change (String.rev_app (s1 +:+ s2) (String c acc)
          = String.rev_app s2 (String.rev_app s1 (String c acc))).
  apply IH.
Qed.

Lemma rev_app_rev_app (s a b : string) :
  String.rev_app (String.rev_app s a) b = String.rev_app a (s +:+ b).
Proof.
  revert a b. induction s as [|c s IH]; intros a b; [done|].
  cbn [String.rev_app]. by rewrite IH.
Qed.

Lemma rev_rev (s : string) : String.rev (String.rev s) = s.
Proof. unfold String.rev. rewrite rev_app_rev_app. cbn. apply app_nil_string. Qed.

Lemma trimStart_pad (pad s : string) :
  all_space pad = true -> trimStart (pad +:+ s) = trimStart s.
Proof.
  induction pad as [|c pad IH]; intros Hpad; [done|].
  cbn in Hpad. apply andb_true_iff in Hpad as [Hc Hpad].
  change (trimStart (String c (pad +:+ s)) = trimStart s).
  cbn [trimStart]. rewrite Hc. by apply IH.
Qed.

Lemma trimStart_rev_pad (pad acc : string) :
  all_space pad = true ->
  trimStart_reversed (String.rev_app pad acc) = trimStart_reversed acc.
Proof.
  revert acc. induction pad as [|c pad IH]; intros acc Hpad; [done|].
  cbn in Hpad. apply andb_true_iff in Hpad as [Hc Hpad].
  cbn [String.rev_app]. rewrite IH by done. cbn [trimStart_reversed]. by rewrite Hc.
Qed.

Lemma trimStart_reversed_word_head c s :
  word_char c = true -> trimStart_reversed (String c s) = String c s.
Proof.
  unfold word_char. intros [Ha Hs]%andb_true_iff. apply negb_true_iff in Hs.
  cbn [trimStart_reversed]. rewrite Hs.
  destruct s as [|c2 [|c3 s]]; [done|..]; rewrite space2_ascii_r by done; [done|].
  by rewrite space3_ascii_r.
Qed.

Lemma trimStart_token (t rest : string) :
  word_text t = true -> t <> "" -> trimStart (t +:+ rest) = t +:+ rest.
Proof.
  destruct t as [|c t]; [done|]. intros Ht _.
  cbn in Ht. apply andb_true_iff in Ht as [Hc _].
  change (trimStart (String c (t +:+ rest)) = String c (t +:+ rest)).
  by apply trimStart_word.
Qed.

Lemma trimStart_rev_token (t acc : string) :
  word_text t = true -> t <> "" ->
  trimStart_reversed (String.rev_app t acc) = String.rev_app t acc.
Proof.
  revert acc. induction t as [|c t IH]; intros acc Ht Hne; [done|].
  cbn in Ht. apply andb_true_iff in Ht as [Hc Ht]. cbn [String.rev_app].
  destruct t as [|c' t].
  - cbn [String.rev_app]. by apply trimStart_reversed_word_head.
  - by apply IH.
Qed.

(** [trim] removes the white space around a text that starts and ends
    with a word. *)
Lemma trim_padded (pad1 first middle last pad2 : string) :
  all_space pad1 = true -> all_space pad2 = true ->
  word_text first = true -> first <> "" ->
  word_text last = true -> last <> "" ->
  trim (pad1 +:+ first +:+ middle +:+ last +:+ pad2) = first +:+ middle +:+ last.
Proof.
  intros Hp1 Hp2 Hf Hfne Hl Hlne. unfold trim.
  rewrite trimStart_pad, trimStart_token by done.
  replace (first +:+ middle +:+ last +:+ pad2)
    with (((first +:+ middle) +:+ last) +:+ pad2)
    by (by rewrite !app_assoc_string).
  unfold String.rev at 2. rewrite rev_app_app, trimStart_rev_pad by done.
  rewrite rev_app_app, trimStart_rev_token by done.
  rewrite <- rev_app_app. fold (String.rev ((first +:+ middle) +:+ last)).
  by rewrite rev_rev, app_assoc_string.
Qed.

Lemma split_go_word (c : ascii) (s cur : string) (in_gap : bool) :
  word_char c = true ->
  split_go cur in_gap (String c s) = split_go (String c cur) false s.
Proof.
  unfold word_char. intros [Ha Hs]%andb_true_iff. apply negb_true_iff in Hs.
  cbn [split_go]. rewrite Hs.
  destruct s as [|c2 [|c3 s]]; [done|..]; rewrite space2_ascii_l by done; [done|].
  by rewrite space3_ascii_l.
Qed.

Lemma split_go_token (t rest cur : string) (in_gap : bool) :
  word_text t = true -> t <> "" ->
  split_go cur in_gap (t +:+ rest) = split_go (String.rev_app t cur) false rest.
Proof.
  revert cur in_gap. induction t as [|c t IH]; intros cur in_gap Ht Hne; [done|].
  cbn in Ht. apply andb_true_iff in Ht as [Hc Ht].
  change (split_go cur in_gap (String c (t +:+ rest))
          = split_go (String.rev_app t (String c cur)) false rest).
  rewrite split_go_word by done.
  destruct t as [|c' t]; [done|]. by apply IH.
Qed.

Lemma split_go_in_gap (gap rest cur : string) :
  all_space gap = true -> split_go cur true (gap +:+ rest) = split_go cur true rest.
Proof.
  induction gap as [|c gap IH]; intros Hgap; [done|].
  cbn in Hgap. apply andb_true_iff in Hgap as [Hc Hgap].
  change (split_go cur true (String c (gap +:+ rest)) = split_go cur true rest).
  cbn [split_go]. rewrite Hc. by apply IH.
Qed.

Lemma split_go_gap (gap rest cur : string) :
  all_space gap = true -> gap <> "" ->
  split_go cur false (gap +:+ rest) = String.rev cur :: split_go "" true rest.
Proof.
  destruct gap as [|c gap]; [done|]. intros Hgap _.
  cbn in Hgap. apply andb_true_iff in Hgap as [Hc Hgap].
  change (split_go cur false (String c (gap +:+ rest))
          = String.rev cur :: split_go "" true rest).
  cbn [split_go]. rewrite Hc. by rewrite split_go_in_gap.
Qed.

(** The four words of a line of four words. *)
Lemma split_ws_four (t1 g1 t2 g2 t3 g3 t4 : string) :
  word_text t1 = true -> t1 <> "" -> word_text t2 = true -> t2 <> "" ->
  word_text t3 = true -> t3 <> "" -> word_text t4 = true -> t4 <> "" ->
  all_space g1 = true -> g1 <> "" -> all_space g2 = true -> g2 <> "" ->
  all_space g3 = true -> g3 <> "" ->
  split_ws (t1 +:+ g1 +:+ t2 +:+ g2 +:+ t3 +:+ g3 +:+ t4) = [t1; t2; t3; t4].
Proof.
  intros. unfold split_ws.
  rewrite split_go_token, split_go_gap by done. fold (String.rev t1). rewrite rev_rev.
  rewrite split_go_token, split_go_gap by done. fold (String.rev t2). rewrite rev_rev.
  rewrite split_go_token, split_go_gap by done. fold (String.rev t3). rewrite rev_rev.
  pose proof (split_go_token t4 "" "" true) as Hlast.
  rewrite app_nil_string in Hlast. rewrite Hlast by done.
  cbn [split_go]. fold (String.rev t4). by rewrite rev_rev.
Qed.

Lemma is_digit_value c :
  is_digit c = true ->
  digit_value c = Some (Z.of_N (N_of_ascii c) - 48)%Z /\
  word_char c = true /\ c <> "-"%char /\ c <> "+"%char.
Proof.
  destruct c as [[] [] [] [] [] [] [] []]; try discriminate; intros _; by repeat split.
Qed.

Lemma all_digits_word_text s : all_digits s = true -> word_text s = true.
Proof.
  induction s as [|c s IH]; [done|]. cbn. intros [Hc Hs]%andb_true_iff.
  destruct (is_digit_value c Hc) as (_ & -> & _). by rewrite IH.
Qed.

Lemma parse_digits_value s : forall acc,
  all_digits s = true ->
  parse_digits (Some acc) s = Some (digits_value acc s).
Proof.
  induction s as [|c s IH]; intros acc Hs; [done|].
  cbn in Hs. apply andb_true_iff in Hs as [Hc Hs].
  destruct (is_digit_value c Hc) as (Hv & _).
  cbn [parse_digits digits_value]. rewrite Hv. cbn [default]. by apply IH.
Qed.

Lemma digits_value_ge s : forall acc, all_digits s = true -> (0 <= acc -> acc <= digits_value acc s)%Z.
Proof.
  induction s as [|c s IH]; intros acc Hs Hacc; [cbn; lia|].
  cbn in Hs. apply andb_true_iff in Hs as [Hc Hs]. cbn [digits_value].
  assert (0 <= Z.of_N (N_of_ascii c) - 48)%Z.
  { unfold is_digit in Hc. apply andb_true_iff in Hc as [Hlo _].
    apply N.leb_le in Hlo. lia. }
  etrans; [|apply IH]; [lia|done|lia].
Qed.

(** An integer up to [2^53] is a double. *)
Lemma nearest_double_exact z : (Z.abs z <= 2 ^ 53)%Z -> nearest_double z = z.
Proof.
  intros Hz. unfold nearest_double.
  destruct (Z.ltb_spec (Z.abs z) (2 ^ 53)%Z) as [|Hge]; [done|].
  assert (z = 2 ^ 53 \/ z = - 2 ^ 53)%Z as [-> | ->] by lia; reflexivity.
Qed.

(** [Number.parseInt] of a non-empty text of decimal digits. *)
Lemma parseInt_digits s :
  all_digits s = true -> s <> "" ->
  parseInt s = Some (nearest_double (decimal_value s)).
Proof.
  destruct s as [|c s]; [done|]. intros Hs _.
  cbn in Hs. apply andb_true_iff in Hs as [Hc Hs].
  destruct (is_digit_value c Hc) as (Hv & Hw & Hminus & Hplus).
  unfold parseInt. rewrite trimStart_word by done.
  assert (parse_digits None (String c s) = Some (decimal_value (String c s))) as Hparse.
  { cbn [parse_digits]. rewrite Hv. cbn [default].
    rewrite parse_digits_value by done. done. }
  destruct c as [[] [] [] [] [] [] [] []]; try done; by rewrite Hparse.
Qed.

(** [parseResolution] accepts every resolution line of the usual form:
    a sign [-Y] or [+Y], the height, a sign [+X] or [-X] and the width,
    both in decimal digits and positive (up to [2^53]), with any white
    space between them and around them; it returns this width, this
    height and the two signs. *)
Theorem parseResolution_reads_line (pad1 ySign gap1 yStr gap2 xSign gap3 xStr pad2 : string) :
  all_space pad1 = true -> all_space pad2 = true ->
  all_space gap1 = true -> gap1 <> "" ->
  all_space gap2 = true -> gap2 <> "" ->
  all_space gap3 = true -> gap3 <> "" ->
  ySign = "-Y" \/ ySign = "+Y" ->
  xSign = "+X" \/ xSign = "-X" ->
  all_digits yStr = true -> all_digits xStr = true ->
  (0 < decimal_value yStr <= 2 ^ 53)%Z ->
  (0 < decimal_value xStr <= 2 ^ 53)%Z ->
  parseResolution (resolution_line pad1 ySign gap1 yStr gap2 xSign gap3 xStr pad2)
    = Some (MkResolution (decimal_value xStr) (decimal_value yStr) ySign xSign).
Proof.
  intros Hp1 Hp2 Hg1 Hg1' Hg2 Hg2' Hg3 Hg3' Hy Hx Hys Hxs Hh Hw.
  assert (yStr <> "") as Hyne by (intros ->; cbn in Hh; lia).
  assert (xStr <> "") as Hxne by (intros ->; cbn in Hw; lia).
  assert (word_text ySign = true /\ ySign <> "") as [Hysf Hysne]
    by (destruct Hy as [-> | ->]; done).
  assert (word_text xSign = true /\ xSign <> "") as [Hxsf Hxsne]
    by (destruct Hx as [-> | ->]; done).
  pose proof (all_digits_word_text _ Hys) as Hyf.
  pose proof (all_digits_word_text _ Hxs) as Hxf.
  unfold parseResolution, resolution_line.
  pose proof (trim_padded pad1 ySign (gap1 +:+ yStr +:+ gap2 +:+ xSign +:+ gap3) xStr pad2
                Hp1 Hp2 Hysf Hysne Hxf Hxne) as Htrim.
  rewrite !app_assoc_string in Htrim. rewrite Htrim.
  - rewrite split_ws_four by done.
    rewrite !parseInt_digits by done.
    rewrite !nearest_double_exact by lia.
    rewrite bool_decide_eq_false_2 by (intros [?|[?|[?|?]]]; done).
    unfold isFinite.
    replace (Z.abs (decimal_value xStr) <? 2 ^ 1024)%Z with true.
    2: { symmetry. apply Z.ltb_lt.
         assert (2 ^ 53 < 2 ^ 1024)%Z by (apply Z.pow_lt_mono_r; lia). lia. }
    replace (Z.abs (decimal_value yStr) <? 2 ^ 1024)%Z with true.
    2: { symmetry. apply Z.ltb_lt.
         assert (2 ^ 53 < 2 ^ 1024)%Z by (apply Z.pow_lt_mono_r; lia). lia. }
    cbv zeta. cbn [negb orb default]. unfold id.
    rewrite (bool_decide_eq_false_2 (_ <= 0 \/ _ <= 0)%Z) by lia.
    rewrite (bool_decide_eq_false_2 (ySign <> _ /\ _))
      by (destruct Hy as [-> | ->]; intros [? ?]; done).
    rewrite (bool_decide_eq_false_2 (xSign <> _ /\ _))
      by (destruct Hx as [-> | ->]; intros [? ?]; done).
    done.
Qed.

Lemma parseResolution_reads_line_witness :
  parseResolution (resolution_line " " "-Y" "  " "0512" " " "+X" " " "1024" " ")
    = Some (MkResolution 1024 512 "-Y" "+X").
Proof.
  apply (parseResolution_reads_line " " "-Y" "  " "0512" " " "+X" " " "1024" " ");
    try reflexivity; try discriminate; try (by left);
    (split; [reflexivity|by vm_compute]).
Defined.

End HdrResolution.

(** ** Panorama math helpers *)
Module PanoramaMath.
Local Open Scope Z_scope.

(** The 32-bit two's complement integer that a bit operation returns. *)
Definition to_int32 (n : Z) : Z :=
  let m := n mod 2 ^ 32 in
  if m <? 2 ^ 31 then m else m - 2 ^ 32.

(** [v <<= 1]. *)
Definition shift_left_1 (v : Z) : Z := to_int32 (Z.shiftl v 1).

(** The loop [while (v < value) v <<= 1], unrolled at most [fuel] times;
    [None] means the fuel ran out before the loop left.  The argument is
    an integral number. *)
Fixpoint nextPowerOfTwo_loop (fuel : nat) (value v : Z) : option Z :=
  match fuel with
  | O => None
  | S fuel' =>
      if v <? value then nextPowerOfTwo_loop fuel' value (shift_left_1 v)
      else Some v
  end.

(** [nextPowerOfTwo(value)]. *)
Definition nextPowerOfTwo (fuel : nat) (value : Z) : option Z :=
  nextPowerOfTwo_loop fuel value 1.

Lemma shift_left_1_pow2 j : 0 <= j < 30 -> shift_left_1 (2 ^ j) = 2 ^ (j + 1).
Proof.
  intros Hj. unfold shift_left_1, to_int32.
  rewrite Z.shiftl_mul_pow2 by lia. change (2 ^ 1) with 2.
  rewrite Z.pow_add_r by lia. change (2 ^ 1) with 2.
  assert (0 < 2 ^ j) by (apply Z.pow_pos_nonneg; lia).
  assert (2 ^ j <= 2 ^ 29) by (apply Z.pow_le_mono_r; lia).
  rewrite Z.mod_small by lia.
  destruct (Z.ltb_spec (2 ^ j * 2) (2 ^ 31)); lia.
Qed.

Lemma loop_from_pow2 value (n : nat) : forall j fuel,
  value <= 2 ^ 30 -> 0 <= j <= 30 -> (30 - j <= Z.of_nat n) -> (n < fuel)%nat ->
  (j = 0 \/ 2 ^ (j - 1) < value) ->
  exists k, 0 <= k <= 30 /\ nextPowerOfTwo_loop fuel value (2 ^ j) = Some (2 ^ k) /\
            value <= 2 ^ k /\ (k = 0 \/ 2 ^ (k - 1) < value).
Proof.
  induction n as [|n IH]; intros j fuel Hv Hj Hn Hfuel Hlow.
  - assert (j = 30) as -> by lia.
    destruct fuel as [|fuel]; [lia|]. cbn [nextPowerOfTwo_loop].
    destruct (Z.ltb_spec (2 ^ 30) value); [lia|].
    exists 30. repeat split; first [lia|done].
  - destruct fuel as [|fuel]; [lia|]. cbn [nextPowerOfTwo_loop].
    destruct (Z.ltb_spec (2 ^ j) value) as [Hlt|Hge].
    + assert (j < 30).
      { destruct (Z.eq_dec j 30) as [->|]; lia. }
      rewrite shift_left_1_pow2 by lia.
      apply IH; try lia. right. by replace (j + 1 - 1) with j by lia.
    + exists j. repeat split; first [lia|done].
Qed.

(** For an argument of at most [2^30], [nextPowerOfTwo] returns within
    31 loop tests, and returns the least power of two that is at least
    the argument (1 for an argument below 1). *)
Theorem nextPowerOfTwo_least (value : Z) (fuel : nat) :
  value <= 2 ^ 30 -> (31 <= fuel)%nat ->
  exists k, 0 <= k <= 30 /\ nextPowerOfTwo fuel value = Some (2 ^ k) /\
            value <= 2 ^ k /\ (k = 0 \/ 2 ^ (k - 1) < value).
Proof.
  intros Hv Hfuel. unfold nextPowerOfTwo.
  change 1 with (2 ^ 0) at 1.
  apply (loop_from_pow2 value 30); try lia.
Qed.

Lemma nextPowerOfTwo_least_witness :
  exists k, 0 <= k <= 30 /\ nextPowerOfTwo 31 1000 = Some (2 ^ k) /\
            1000 <= 2 ^ k /\ (k = 0 \/ 2 ^ (k - 1) < 1000).
Proof. apply (nextPowerOfTwo_least 1000 31); lia. Defined.

Lemma loop_from_zero value fuel :
  0 < value -> nextPowerOfTwo_loop fuel value 0 = None.
Proof.
  intros Hv. induction fuel as [|fuel IH]; [reflexivity|].
  cbn [nextPowerOfTwo_loop]. destruct (Z.ltb_spec 0 value); [|lia]. exact IH.
Qed.

Lemma loop_overflows value (n : nat) : forall j fuel,
  2 ^ 30 < value -> 0 <= j <= 30 -> (30 - j <= Z.of_nat n) ->
  nextPowerOfTwo_loop fuel value (2 ^ j) = None.
Proof.
  induction n as [|n IH]; intros j fuel Hv Hj Hn.
  - assert (j = 30) as -> by lia.
    destruct fuel as [|fuel]; [reflexivity|]. cbn [nextPowerOfTwo_loop].
    destruct (Z.ltb_spec (2 ^ 30) value); [|lia].
    change (shift_left_1 (2 ^ 30)) with (- 2 ^ 31).
    destruct fuel as [|fuel]; [reflexivity|]. cbn [nextPowerOfTwo_loop].
    destruct (Z.ltb_spec (- 2 ^ 31) value); [|lia].
    change (shift_left_1 (- 2 ^ 31)) with 0.
    apply loop_from_zero. lia.
  - destruct fuel as [|fuel]; [reflexivity|]. cbn [nextPowerOfTwo_loop].
    assert (2 ^ j <= 2 ^ 30) by (apply Z.pow_le_mono_r; lia).
    destruct (Z.ltb_spec (2 ^ j) value); [|lia].
    destruct (Z.eq_dec j 30) as [->|Hne].
    + change (shift_left_1 (2 ^ 30)) with (- 2 ^ 31).
      destruct fuel as [|fuel]; [reflexivity|]. cbn [nextPowerOfTwo_loop].
      destruct (Z.ltb_spec (- 2 ^ 31) value); [|lia].
      change (shift_left_1 (- 2 ^ 31)) with 0.
      apply loop_from_zero. lia.
    + rewrite shift_left_1_pow2 by lia. apply IH; lia.
Qed.

(** For an argument above [2^30], [nextPowerOfTwo] never returns: the
    shift of [2^30] wraps to [-2^31], the next one gives 0, and 0 stays
    below the argument for ever. *)
Theorem nextPowerOfTwo_never_returns (value : Z) :
  2 ^ 30 < value ->
  (forall fuel, nextPowerOfTwo fuel value = None) /\
  shift_left_1 (2 ^ 30) = - 2 ^ 31 /\ shift_left_1 (- 2 ^ 31) = 0 /\ shift_left_1 0 = 0.
Proof.
  intros Hv. split; [|done].
  intros fuel. unfold nextPowerOfTwo. change 1 with (2 ^ 0) at 1.
  apply (loop_overflows value 30); lia.
Qed.

Lemma nextPowerOfTwo_never_returns_witness :
  (forall fuel, nextPowerOfTwo fuel (2 ^ 30 + 1) = None) /\
  shift_left_1 (2 ^ 30) = - 2 ^ 31 /\ shift_left_1 (- 2 ^ 31) = 0 /\ shift_left_1 0 = 0.
Proof. apply (nextPowerOfTwo_never_returns (2 ^ 30 + 1)). lia. Defined.

End PanoramaMath.

(** ** The decoder client: termination and the life of a promise *)
Module DecoderLifecycle.
Import DecoderClient.

(** [PanoramaDecoderClient.terminate()]: every outstanding entry is
    rejected and the table is cleared.  The finite map does not keep the
    order of insertion, which is the order of these rejections in the
    source; no statement below depends on it. *)
Definition terminate (c : client) : client :=
  MkClient ∅ (next_promise c)
    (events c ++ ((fun entry => EvReject entry.2 "Decoder terminated")
                    <$> map_to_list (pending c))).

(** The calls that reach a client. *)
Inductive call :=
  | CallDecode (req : request)
  | CallMessage (data : response)
  | CallTerminate.

Definition after (c : client) (op : call) : client :=
  match op with
  | CallDecode req => (decode req c).1
  | CallMessage data => onmessage data c
  | CallTerminate => terminate c
  end.

(** Number of times that [resolve] or [reject] of the promise [p] was
    called. *)
Definition settles (p : nat) (e : event) : bool :=
  match e with
  | EvReject q _ | EvResolve q _ => bool_decide (q = p)
  | _ => false
  end.

Definition settlements (log : list event) (p : nat) : nat :=
  length (List.filter (settles p) log).

Lemma settlements_app log1 log2 p :
  settlements (log1 ++ log2) p = settlements log1 p + settlements log2 p.
Proof. unfold settlements. by rewrite List.filter_app, length_app. Qed.

Lemma outcome_none_settlements log p :
  outcome_of log p = None <-> settlements log p = 0.
Proof.
  unfold settlements. induction log as [|e log IH]; [done|].
  destruct e as [q m|q d|id|id q|req]; cbn [outcome_of List.filter settles]; try exact IH.
  - destruct (decide (q = p)) as [->|Hne].
    + rewrite bool_decide_eq_true_2 by done. simpl. split; discriminate.
    + rewrite bool_decide_eq_false_2 by done. exact IH.
  - destruct (decide (q = p)) as [->|Hne].
    + rewrite bool_decide_eq_true_2 by done. simpl. split; discriminate.
    + rewrite bool_decide_eq_false_2 by done. exact IH.
Qed.

Lemma settlements_settle entry data p :
  settlements [settle entry data] p = if decide (entry = p) then 1 else 0.
Proof.
  unfold settlements. destruct data; cbn [settle List.filter settles];
    destruct (decide (entry = p)) as [->|Hne];
    rewrite ?bool_decide_eq_true_2, ?bool_decide_eq_false_2 by done; reflexivity.
Qed.

Lemma settlements_message log id entry data p :
  settlements (log ++ [EvDelete id; settle entry data]) p
    = settlements log p + (if decide (entry = p) then 1 else 0).
Proof.
  rewrite settlements_app. f_equal.
  change [EvDelete id; settle entry data] with ([EvDelete id] ++ [settle entry data]).
  by rewrite settlements_app, settlements_settle.
Qed.

(** The rejections of [terminate] settle exactly the promises of the
    table, each of them once. *)
Lemma settlements_rejections (entries : list (string * nat)) p :
  NoDup (entries.*2) ->
  settlements ((fun entry => EvReject entry.2 "Decoder terminated") <$> entries) p
    = if decide (p ∈ entries.*2) then 1 else 0.
Proof.
  unfold settlements. induction entries as [|[id q] entries IH]; intros Hnd.
  - rewrite decide_False; [done|]. simpl. apply not_elem_of_nil.
  - rewrite !fmap_cons in *. cbn [snd] in *. apply NoDup_cons in Hnd as [Hq Hnd].
    cbn [List.filter settles snd]. specialize (IH Hnd).
    destruct (decide (q = p)) as [->|Hne].
    + rewrite bool_decide_eq_true_2 by done. cbn [length]. rewrite IH.
      rewrite decide_False by done. rewrite decide_True by (apply elem_of_cons; by left).
      reflexivity.
    + rewrite bool_decide_eq_false_2 by done. rewrite IH.
      destruct (decide (p ∈ entries.*2)) as [Hin|Hout].
      * rewrite decide_True by (apply elem_of_cons; by right). reflexivity.
      * rewrite decide_False; [reflexivity|].
        intros [->|Hin]%elem_of_cons; done.
Qed.

Lemma pending_values_NoDup c :
  client_wf c -> NoDup ((map_to_list (pending c)).*2).
Proof.
  intros (_ & _ & Hinj).
  apply NoDup_fmap_2_strong; [|apply NoDup_map_to_list].
  intros [id1 p1] [id2 p2] H1%elem_of_map_to_list H2%elem_of_map_to_list Heq.
  cbn [snd] in Heq. subst p2. f_equal. by eapply Hinj.
Qed.

Lemma pending_values_elem c p :
  p ∈ (map_to_list (pending c)).*2 <-> exists id, pending c !! id = Some p.
Proof.
  rewrite list_elem_of_fmap. split.
  - intros ([id q] & -> & Hin%elem_of_map_to_list). eauto.
  - intros [id Hid]. exists (id, p). split; [done|]. by apply elem_of_map_to_list.
Qed.

(** Every promise handed out is either waiting in the table, not yet
    settled, or has been settled exactly once. *)
Definition accounted (c : client) : Prop :=
  forall p, p < next_promise c ->
    (exists id, pending c !! id = Some p) \/ settlements (events c) p = 1.

Lemma terminate_wf c : client_wf c -> client_wf (terminate c).
Proof.
  intros Hwf. pose proof Hwf as (Hpend & Hfresh & Hinj).
  unfold terminate, client_wf. cbn [pending next_promise events].
  split; [|split].
  - intros id p H. by rewrite lookup_empty in H.
  - intros p Hp. apply outcome_none_settlements. rewrite settlements_app.
    rewrite (proj1 (outcome_none_settlements _ _) (Hfresh p Hp)).
    rewrite settlements_rejections by (by apply pending_values_NoDup).
    rewrite decide_False; [done|].
    intros [id Hid]%pending_values_elem. apply Hpend in Hid. lia.
  - intros id1 id2 p H. by rewrite lookup_empty in H.
Qed.

Lemma after_wf c op : client_wf c -> client_wf (after c op).
Proof.
  destruct op; cbn [after]; [apply decode_wf|apply onmessage_wf|apply terminate_wf].
Qed.

Lemma pending_unsettled c id p :
  client_wf c -> pending c !! id = Some p -> settlements (events c) p = 0.
Proof.
  intros (Hpend & _ & _) Hid. apply outcome_none_settlements. by apply (Hpend id).
Qed.

Lemma after_accounted c op :
  client_wf c -> accounted c -> accounted (after c op).
Proof.
  intros Hwf Hacc. pose proof Hwf as (Hpend & Hfresh & Hinj).
  destruct op as [req|data|]; cbn [after].
  - (* decode *)
    unfold accounted, decode.
    destruct (pending c !! req_id req) as [existing|] eqn:Hex;
      cbv zeta; cbn [pending next_promise events fst]; intros p Hp.
    + destruct (decide (p = next_promise c)) as [->|Hnew].
      { left. exists (req_id req). apply lookup_insert_eq. }
      destruct (Hacc p ltac:(lia)) as [[id Hid]|Hone].
      * destruct (decide (id = req_id req)) as [->|Hne].
        -- right. assert (p = existing) as -> by congruence.
           rewrite !settlements_app, (pending_unsettled c _ _ Hwf Hex).
           unfold settlements. cbn [List.filter settles].
           rewrite bool_decide_eq_true_2 by done. reflexivity.
        -- left. exists id. by rewrite lookup_insert_ne, lookup_delete_ne.
      * right. rewrite !settlements_app, Hone.
        unfold settlements. cbn [List.filter settles].
        rewrite bool_decide_eq_false_2; [reflexivity|].
        intros ->. rewrite (pending_unsettled c _ _ Hwf Hex) in Hone. discriminate.
    + destruct (decide (p = next_promise c)) as [->|Hnew].
      { left. exists (req_id req). apply lookup_insert_eq. }
      destruct (Hacc p ltac:(lia)) as [[id Hid]|Hone].
      * left. exists id. rewrite lookup_insert_ne; [done|]. congruence.
      * right. rewrite settlements_app, Hone. reflexivity.
  - (* a message *)
    unfold onmessage.
    destruct (pending c !! response_id data) as [entry|] eqn:Hex; [|exact Hacc].
    unfold accounted. cbn [pending next_promise events]. intros p Hp.
    destruct (Hacc p Hp) as [[id Hid]|Hone].
    + destruct (decide (id = response_id data)) as [->|Hne].
      * right. assert (p = entry) as -> by congruence.
        rewrite settlements_message, (pending_unsettled c _ _ Hwf Hex).
        by rewrite decide_True.
      * left. exists id. by rewrite lookup_delete_ne.
    + right. rewrite settlements_message, Hone.
      rewrite decide_False; [reflexivity|].
      intros ->. rewrite (pending_unsettled c _ _ Hwf Hex) in Hone. discriminate.
  - (* terminate *)
    unfold accounted, terminate. cbn [pending next_promise events]. intros p Hp. right.
    rewrite settlements_app.
    rewrite settlements_rejections by (by apply pending_values_NoDup).
    destruct (Hacc p Hp) as [[id Hid]|Hone].
    + rewrite (pending_unsettled c _ _ Hwf Hid).
      rewrite decide_True; [reflexivity|]. apply pending_values_elem. eauto.
    + rewrite Hone. rewrite decide_False; [reflexivity|].
      intros [id Hid]%pending_values_elem.
      rewrite (pending_unsettled c _ _ Hwf Hid) in Hone. discriminate.
Qed.

Lemma calls_invariant (ops : list call) : forall c,
  client_wf c -> accounted c ->
  client_wf (fold_left after ops c) /\ accounted (fold_left after ops c).
Proof.
  induction ops as [|op ops IH]; intros c Hwf Hacc; [done|].
  cbn [fold_left]. apply IH; [by apply after_wf|by apply after_accounted].
Qed.

(** Whatever calls of [decode], deliveries of worker messages and calls
    of [terminate] a new client goes through, in any order, no promise is
    settled twice and none is lost: a promise handed out is either still
    waiting in the table, unsettled, or has been resolved or rejected
    exactly once. *)
Theorem promise_settled_once (ops : list call) (p : nat) :
  let c := fold_left after ops new_client in
  settlements (events c) p <= 1 /\
  (p < next_promise c ->
     (exists id, pending c !! id = Some p) /\ settlements (events c) p = 0 \/
     (forall id, pending c !! id <> Some p) /\ settlements (events c) p = 1) /\
  (next_promise c <= p -> settlements (events c) p = 0).
Proof.
  intros c.
  destruct (calls_invariant ops new_client new_client_wf) as [Hwf Hacc].
  { intros q Hq. simpl in Hq. lia. }
  fold c in Hwf, Hacc. pose proof Hwf as (Hpend & Hfresh & Hinj).
  assert (next_promise c <= p -> settlements (events c) p = 0) as Hlate.
  { intros Hp. apply outcome_none_settlements. by apply Hfresh. }
  assert (p < next_promise c ->
     (exists id, pending c !! id = Some p) /\ settlements (events c) p = 0 \/
     (forall id, pending c !! id <> Some p) /\ settlements (events c) p = 1) as Hearly.
  { intros Hp. destruct (Hacc p Hp) as [[id Hid]|Hone].
    - left. split; [eauto|]. by apply (pending_unsettled c id).
    - right. split; [|done]. intros id Hid.
      rewrite (pending_unsettled c _ _ Hwf Hid) in Hone. discriminate. }
  split; [|split; done].
  destruct (decide (p < next_promise c)) as [Hp|Hp].
  - destruct (Hearly Hp) as [[_ ->]|[_ ->]]; lia.
  - rewrite Hlate by lia. lia.
Qed.

(** [terminate] rejects the promise of every outstanding entry with the
    error "Decoder terminated", leaves the outcome of the promises
    settled before as it was, and empties the table, so that a worker
    message delivered afterwards settles nothing. *)
Theorem terminate_rejects_outstanding (c : client) :
  client_wf c ->
  (forall id p, pending c !! id = Some p ->
     outcome_of (events (terminate c)) p = Some (Rejected "Decoder terminated")) /\
  (forall p o, outcome_of (events c) p = Some o ->
     outcome_of (events (terminate c)) p = Some o) /\
  pending (terminate c) = ∅ /\
  (forall data, onmessage data (terminate c) = terminate c).
Proof.
  intros Hwf. pose proof Hwf as (Hpend & Hfresh & Hinj).
  split; [|split; [|split]].
  - intros id p Hid. unfold terminate. cbn [events].
    rewrite outcome_of_app. rewrite (proj2 (Hpend _ _ Hid)).
    apply elem_of_map_to_list in Hid.
    induction (map_to_list (pending c)) as [|[id' q] entries IH].
    + by apply elem_of_nil in Hid.
    + rewrite fmap_cons. cbn [outcome_of snd]. destruct (decide (q = p)) as [|Hne]; [done|].
      apply IH. apply elem_of_cons in Hid as [[= _ Heq]|Hin]; [by subst|done].
  - intros p o Ho. unfold terminate. cbn [events]. by rewrite outcome_of_app, Ho.
  - reflexivity.
  - intros data. unfold onmessage, terminate. cbn [pending].
    by rewrite lookup_empty.
Qed.

Lemma terminate_rejects_outstanding_witness :
  let c := (decode fresh new_client).1 in
  (forall id p, pending c !! id = Some p ->
     outcome_of (events (terminate c)) p = Some (Rejected "Decoder terminated")) /\
  (forall p o, outcome_of (events c) p = Some o ->
     outcome_of (events (terminate c)) p = Some o) /\
  pending (terminate c) = ∅ /\
  (forall data, onmessage data (terminate c) = terminate c).
Proof.
  apply (terminate_rejects_outstanding (decode fresh new_client).1).
  apply decode_wf, new_client_wf.
Defined.

End DecoderLifecycle.

(** ** OpenEXR: the byte transforms of zip blocks *)
Module ExrTransforms.
Import ExrBlocks.
Local Open Scope Z_scope.

Definition is_byte (z : Z) : Prop := 0 <= z < 256.

(** The inverse of [unshuffle]: the elements of even index, then those
    of odd index. *)
Fixpoint deinterleave (l : bytes) : bytes * bytes :=
  match l with
  | [] => ([], [])
  | x :: l' => let '(a, b) := deinterleave l' in (x :: b, a)
  end.

Definition shuffle (l : bytes) : bytes :=
  let '(a, b) := deinterleave l in a ++ b.

(** The inverse of [reversePredictor]: every element but the first is
    replaced by its difference with the one before, plus 128. *)
Fixpoint predictor_from (prev : Z) (data : bytes) : bytes :=
  match data with
  | [] => []
  | d :: rest => (d - prev + 128) mod 256 :: predictor_from d rest
  end.

Definition predictor (data : bytes) : bytes :=
  match data with
  | [] => []
  | d :: rest => d :: predictor_from d rest
  end.

(** *** [unshuffle] *)

Lemma interleave_length a : forall b,
  length (interleave a b) = (length a + length b)%nat.
Proof.
  induction a as [|x a IH]; intros [|y b]; cbn [interleave length]; try lia.
  rewrite IH. lia.
Qed.

Lemma deinterleave_interleave a : forall b,
  (length b <= length a <= S (length b))%nat ->
  deinterleave (interleave a b) = (a, b).
Proof.
  induction a as [|x a IH]; intros [|y b] Hlen; cbn [length] in Hlen; try lia.
  - reflexivity.
  - destruct a; [reflexivity|cbn [length] in Hlen; lia].
  - cbn [interleave deinterleave]. rewrite IH by lia. reflexivity.
Qed.

Lemma unshuffle_halves (l : bytes) :
  let half := ((length l + 1) / 2)%nat in
  (length (drop half l) <= length (take half l) <= S (length (drop half l)))%nat.
Proof.
  cbv zeta. rewrite length_take, length_drop.
  pose proof (Nat.div_mod_eq (length l + 1) 2) as Hdm.
  pose proof (Nat.mod_upper_bound (length l + 1) 2 ltac:(lia)). lia.
Qed.

Lemma shuffle_unshuffle l : shuffle (unshuffle l) = l.
Proof.
  unfold shuffle, unshuffle.
  rewrite deinterleave_interleave by apply unshuffle_halves.
  apply take_drop.
Qed.

Lemma interleave_lookup a : forall b (i : nat),
  (length b <= length a <= S (length b))%nat ->
  interleave a b !! (2 * i)%nat = a !! i /\
  interleave a b !! (2 * i + 1)%nat = b !! i.
Proof.
  induction a as [|x a IH]; intros [|y b] i Hlen; cbn [length] in Hlen; try lia.
  - done.
  - destruct a; [|cbn [length] in Hlen; lia].
    destruct i as [|i]; [done|]. cbn [interleave].
    replace (2 * S i)%nat with (S (S (2 * i))) by lia. done.
  - cbn [interleave]. destruct i as [|i]; [done|].
    replace (2 * S i)%nat with (S (S (2 * i))) by lia.
    replace (S (S (2 * i)) + 1)%nat with (S (S (2 * i + 1))) by lia.
    cbn [lookup list_lookup]. apply IH. lia.
Qed.

Lemma interleave_perm a : forall b, interleave a b ≡ₚ a ++ b.
Proof.
  induction a as [|x a IH]; intros [|y b]; cbn [interleave].
  - done.
  - done.
  - by rewrite app_nil_r.
  - rewrite IH. cbn [app]. f_equiv. by rewrite Permutation_middle.
Qed.

(** [unshuffle] rearranges its input without losing anything: the
    output has the length and the elements of the input, the element of
    index [2i] being the [i]-th of the first half and that of index
    [2i + 1] the [i]-th of the second half, where the first half holds
    [floor((length + 1) / 2)] elements. *)
Theorem unshuffle_rearranges (l : bytes) :
  let half := ((length l + 1) / 2)%nat in
  length (unshuffle l) = length l /\
  unshuffle l ≡ₚ l /\
  (forall i : nat, unshuffle l !! (2 * i)%nat = if decide (i < half)%nat then l !! i else None) /\
  (forall i : nat, unshuffle l !! (2 * i + 1)%nat = l !! (half + i)%nat) /\
  (forall l', unshuffle l = unshuffle l' -> l = l').
Proof.
  cbv zeta. pose proof (unshuffle_halves l) as Hh. cbv zeta in Hh.
  split; [|split; [|split; [|split]]].
  - unfold unshuffle. rewrite interleave_length, length_take, length_drop. lia.
  - unfold unshuffle. rewrite interleave_perm. by rewrite take_drop.
  - intros i. unfold unshuffle.
    rewrite (proj1 (interleave_lookup _ _ i Hh)).
    destruct (decide _) as [Hi|Hi].
    + by rewrite lookup_take_lt.
    + apply lookup_ge_None. rewrite length_take. lia.
  - intros i. unfold unshuffle.
    rewrite (proj2 (interleave_lookup _ _ i Hh)). apply lookup_drop.
  - intros l' Heq. rewrite <- (shuffle_unshuffle l), <- (shuffle_unshuffle l').
    by rewrite Heq.
Qed.

(** *** [reversePredictor] *)

Lemma land_byte z : Z.land z 0xff = z mod 256.
Proof. change 0xff with (Z.ones 8). rewrite Z.land_ones by lia. reflexivity. Qed.

Lemma predictor_reverse_from data : forall prev,
  Forall is_byte data ->
  predictor_from prev (reversePredictor_from prev data) = data.
Proof.
  induction data as [|d data IH]; intros prev Hb; [reflexivity|].
  apply Forall_cons in Hb as [Hd Hb]. unfold is_byte in Hd.
  cbn [reversePredictor_from predictor_from]. rewrite IH by done. f_equal.
  rewrite land_byte.
  replace ((d + prev - 128) mod 256 - prev + 128) with ((d + prev - 128) mod 256 + (128 - prev))
    by lia.
  rewrite Zplus_mod_idemp_l. replace (d + prev - 128 + (128 - prev)) with d by lia.
  apply Z.mod_small. lia.
Qed.

Lemma predictor_reverse data :
  Forall is_byte data -> predictor (reversePredictor data) = data.
Proof.
  destruct data as [|d data]; [reflexivity|]. intros [_ Hb]%Forall_cons.
  cbn [reversePredictor predictor]. by rewrite predictor_reverse_from.
Qed.

Lemma reversePredictor_from_length data : forall prev,
  length (reversePredictor_from prev data) = length data.
Proof.
  induction data as [|d data IH]; intros prev; [reflexivity|].
  cbn [reversePredictor_from length]. by rewrite IH.
Qed.

Lemma reversePredictor_length data : length (reversePredictor data) = length data.
Proof.
  destruct data as [|d data]; [reflexivity|].
  cbn [reversePredictor length]. by rewrite reversePredictor_from_length.
Qed.

Lemma reversePredictor_from_bytes data : forall prev,
  Forall is_byte (reversePredictor_from prev data).
Proof.
  induction data as [|d data IH]; intros prev; [constructor|].
  cbn [reversePredictor_from]. constructor; [|apply IH].
  rewrite land_byte. unfold is_byte. apply Z.mod_pos_bound. lia.
Qed.

Lemma reversePredictor_bytes data :
  Forall is_byte data -> Forall is_byte (reversePredictor data).
Proof.
  destruct data as [|d data]; [done|]. intros [Hd _]%Forall_cons.
  cbn [reversePredictor]. constructor; [done|apply reversePredictor_from_bytes].
Qed.

Lemma unshuffle_bytes data : Forall is_byte data -> Forall is_byte (unshuffle data).
Proof.
  intros Hb. unfold unshuffle. rewrite interleave_perm. by rewrite take_drop.
Qed.

Lemma unshuffle_length data : length (unshuffle data) = length data.
Proof.
  pose proof (unshuffle_halves data) as Hh. cbv zeta in Hh.
  unfold unshuffle. rewrite interleave_length, length_take, length_drop. lia.
Qed.

Lemma apply_transform_length t data : length (apply_transform t data) = length data.
Proof.
  destruct t; cbn [apply_transform]; unfold reversePredictorCopy;
    by rewrite ?unshuffle_length, ?reversePredictor_length, ?unshuffle_length.
Qed.

(** Both orders of the two transforms are lossless on byte arrays: the
    output has the length of the input, holds bytes, and comes from no
    other input, so that the inflated block can be recovered from what
    either order produces. *)
Theorem zip_transform_lossless (t : ZipTransform) (data data' : bytes) :
  Forall is_byte data -> Forall is_byte data' ->
  length (apply_transform t data) = length data /\
  Forall is_byte (apply_transform t data) /\
  (apply_transform t data = apply_transform t data' -> data = data').
Proof.
  intros Hb Hb'. split; [apply apply_transform_length|]. split.
  - destruct t; cbn [apply_transform]; unfold reversePredictorCopy.
    + by apply unshuffle_bytes, reversePredictor_bytes.
    + by apply reversePredictor_bytes, unshuffle_bytes.
  - destruct t; cbn [apply_transform]; unfold reversePredictorCopy; intros Heq.
    + assert (reversePredictor data = reversePredictor data') as Hr.
      { rewrite <- (shuffle_unshuffle (reversePredictor data)), Heq.
        apply shuffle_unshuffle. }
      rewrite <- (predictor_reverse data Hb), Hr. by apply predictor_reverse.
    + assert (unshuffle data = unshuffle data') as Hu.
      { rewrite <- (predictor_reverse (unshuffle data)) by (by apply unshuffle_bytes).
        rewrite Heq. by apply predictor_reverse, unshuffle_bytes. }
      rewrite <- (shuffle_unshuffle data), Hu. apply shuffle_unshuffle.
Qed.

Lemma zip_transform_lossless_witness :
  length (apply_transform unshuffle_then_predictor [0; 60; 64; 60]) = 4%nat /\
  Forall is_byte (apply_transform unshuffle_then_predictor [0; 60; 64; 60]) /\
  (apply_transform unshuffle_then_predictor [0; 60; 64; 60]
     = apply_transform unshuffle_then_predictor [0; 60; 64; 60] ->
   [0; 60; 64; 60] = [0; 60; 64; 60]).
Proof.
  apply (zip_transform_lossless unshuffle_then_predictor [0; 60; 64; 60] [0; 60; 64; 60]);
    repeat constructor; unfold is_byte; lia.
Defined.

End ExrTransforms.

(** ** OpenEXR: what the block loop decodes *)
Module ExrBlockFacts.
Import ExrChannels HalfFloat Double ExrBlocks ExrTransforms.
Local Open Scope Z_scope.

Section blocks.
Variable decompressDeflate : bytes -> result bytes.
Variable Out : Type.
Variable sampleLine : Out -> bytes -> Z -> list Z -> result Out.
Variable header : EXRHeader.
Variable buffer : bytes.
Variable decodeHeight : Z.

(** The inflated block has the size that the header announces for its
    lines, and the transformed block has the size of the inflated one. *)
Definition sized (d : Decoded) : Prop :=
  Z.of_nat (length (inflated_bytes d)) = bytesPerLine header * lines_in_block d /\
  length (uncompressed_bytes d) = length (inflated_bytes d).

Definition blocks_inv (st : State Out) : Prop :=
  Forall sized (decoded st) /\
  (compression header = none -> zipTransform st = None /\ decoded st = []).

Lemma decode_block_inv st blockOffset st' :
  decode_block decompressDeflate Out sampleLine header buffer decodeHeight
    st blockOffset = Ok st' ->
  blocks_inv st -> blocks_inv st'.
Proof.
  unfold decode_block. intros Hrun [Hall Hnone].
  destruct ((blockOffset <=? 0) || (byteLength buffer <=? blockOffset)).
  { injection Hrun as <-. by split. }
  destruct (readInt32LE buffer blockOffset) as [y|]; cbn in Hrun; [|discriminate].
  destruct (readInt32LE buffer (blockOffset + 4)) as [size|]; cbn in Hrun; [|discriminate].
  destruct (byteLength buffer <? blockOffset + 8 + size); [discriminate|].
  destruct (typed_view buffer (blockOffset + 8) size) as [compressed|]; cbn in Hrun;
    [|discriminate].
  set (linesInBlock := Z.min (blockLines header) (height header - (y - dataMinY header)))
    in *.
  assert (forall inflated t o,
    (Z.of_nat (length inflated) =? bytesPerLine header * linesInBlock) = true ->
    compression header <> none ->
    blocks_inv (MkState (Some t) o
                  (decoded st ++
                   [MkDecoded inflated linesInBlock
                      (match zipTransform st with None => true | Some _ => false end)
                      t (apply_transform t inflated) (y - dataMinY header)]))) as Hzip.
  { intros inflated t o Hsize Hcomp. split; [|done].
    cbn [decoded]. apply Forall_app. split; [done|].
    constructor; [|constructor]. split; cbn [inflated_bytes uncompressed_bytes lines_in_block].
    - by apply Z.eqb_eq.
    - apply apply_transform_length. }
  destruct (compression header) eqn:Hcomp.
  - destruct (negb (Z.of_nat (length compressed) =? _)); [discriminate|].
    destruct (sample_block _ _ _ _ _ _ _ _) as [o|]; cbn in Hrun; [|discriminate].
    injection Hrun as <-. split; [done|]. cbn [zipTransform decoded]. auto.
  - destruct (decompressDeflate compressed) as [inflated|]; cbn in Hrun; [|discriminate].
    destruct (Z.of_nat (length inflated) =? _) eqn:Hsize; cbn in Hrun; [|discriminate].
    destruct (match zipTransform st with None => _ | Some t => Ok t end) as [t|];
      cbn in Hrun; [|discriminate].
    destruct (sample_block _ _ _ _ _ _ _ _) as [o|]; cbn in Hrun; [|discriminate].
    injection Hrun as <-. by apply Hzip.
  - destruct (decompressDeflate compressed) as [inflated|]; cbn in Hrun; [|discriminate].
    destruct (Z.of_nat (length inflated) =? _) eqn:Hsize; cbn in Hrun; [|discriminate].
    destruct (match zipTransform st with None => _ | Some t => Ok t end) as [t|];
      cbn in Hrun; [|discriminate].
    destruct (sample_block _ _ _ _ _ _ _ _) as [o|]; cbn in Hrun; [|discriminate].
    injection Hrun as <-. by apply Hzip.
Qed.

Lemma decode_blocks_inv offsets : forall st st',
  decode_blocks decompressDeflate Out sampleLine header buffer decodeHeight
    st offsets = Ok st' ->
  blocks_inv st -> blocks_inv st'.
Proof.
  unfold decode_blocks.
  induction offsets as [|o offsets IH]; intros st st' Hrun Hinv.
  - by injection Hrun as <-.
  - cbn [fold_left] in Hrun.
    change (Ok st ≫= _) with
      (decode_block decompressDeflate Out sampleLine header buffer decodeHeight
         st o) in Hrun.
    destruct (decode_block _ _ _ _ _ _ st o) as [st1|e] eqn:Hblock.
    + apply (IH st1 st' Hrun). by apply (decode_block_inv st o).
    + rewrite decode_blocks_throw in Hrun. discriminate.
Qed.

(** Every block that a successful decode inflated had exactly the size
    that the channel list and the number of lines of the block call for,
    and the bytes sampled from it have that size too; a file without
    compression is read without any inflation and without choosing or
    applying a transform. *)
Theorem blocks_have_expected_size (out0 : Out) (st : State Out) :
  decodeEXRBlocks decompressDeflate Out sampleLine header buffer decodeHeight out0
    = Ok st ->
  Forall (fun d =>
    Z.of_nat (length (inflated_bytes d)) = bytesPerLine header * lines_in_block d /\
    length (uncompressed_bytes d) = length (inflated_bytes d)) (decoded st) /\
  (compression header = none -> zipTransform st = None /\ decoded st = []).
Proof.
  unfold decodeEXRBlocks. intros Hrun.
  destruct (read_offsets header buffer) as [offsets|]; cbn in Hrun; [|discriminate].
  apply (decode_blocks_inv offsets _ st Hrun). split; [constructor|done].
Qed.

End blocks.

Lemma blocks_have_expected_size_witness :
  exists st,
    decode_two_blocks = Ok st /\
    Forall (fun d =>
      Z.of_nat (length (inflated_bytes d)) = bytesPerLine two_block_header * lines_in_block d /\
      length (uncompressed_bytes d) = length (inflated_bytes d)) (decoded st) /\
    (compression two_block_header = none -> zipTransform st = None /\ decoded st = []).
Proof.
  destruct decode_two_blocks as [st|] eqn:Hrun; [|vm_compute in Hrun; discriminate].
  exists st. split; [reflexivity|].
  exact (blocks_have_expected_size stored _ record_line two_block_header two_block_file 2
           [] st Hrun).
Defined.

(** *** Half-float samples *)

Lemma view_bytes_two view offset bs :
  Forall is_byte view -> view_bytes view offset 2 = Ok bs ->
  exists b0 b1, bs = [b0; b1] /\ is_byte b0 /\ is_byte b1.
Proof.
  intros Hb. unfold view_bytes.
  destruct ((offset <? 0) || _) eqn:Hcheck; [discriminate|].
  apply orb_false_iff in Hcheck as [Hneg Hlen].
  apply Z.ltb_ge in Hneg, Hlen. intros [= <-].
  assert (Forall is_byte (take 2 (drop (Z.to_nat offset) view))) as Hsub
    by (by apply Forall_take, Forall_drop).
  assert (length (take 2 (drop (Z.to_nat offset) view)) = 2%nat) as Hl
    by (rewrite length_take, length_drop; lia).
  destruct (take 2 (drop (Z.to_nat offset) view)) as [|b0 [|b1 [|b2 rest]]];
    try discriminate.
  apply Forall_cons in Hsub as [H0 Hsub]. apply Forall_cons in Hsub as [H1 _].
  eauto.
Qed.

(** A sample of a [HALF] channel passes the plausibility test of the
    scoring exactly when it is finite: no finite half-float reaches the
    magnitude bound, the largest being 65504. *)
Theorem half_sample_plausible (view : bytes) (offset : Z) (v : number) :
  Forall is_byte view ->
  decodePixel view offset 1 = Ok v ->
  match v with
  | Finite _ units => units <= 65504 * 2 ^ 149 /\ plausible v = true
  | _ => plausible v = false
  end.
Proof.
  intros Hb. unfold decodePixel. cbn [Z.eqb]. unfold getUint16.
  destruct (view_bytes view offset 2) as [bs|] eqn:Hview; [|discriminate].
  destruct (view_bytes_two _ _ _ Hb Hview) as (b0 & b1 & -> & H0 & H1).
  unfold is_byte in *. intros [= <-].
  cbn [little_endian fold_right].
  set (h := b0 + 256 * (b1 + 256 * 0)).
  assert (0 <= h < 2 ^ 16) as Hh by (unfold h; lia).
  rewrite (halfToFloat_binary16 h Hh). unfold binary16_value.
  pose proof (Z.mod_pos_bound (h / 2 ^ 10) (2 ^ 5) ltac:(lia)) as He.
  pose proof (Z.mod_pos_bound h (2 ^ 10) ltac:(lia)) as Hm.
  set (e := (h / 2 ^ 10) mod 2 ^ 5) in *. set (m := h mod 2 ^ 10) in *.
  destruct (Z.eqb_spec e 31); [destruct (m =? 0); reflexivity|].
  assert (forall units, units <= 65504 * 2 ^ 149 ->
            units <= 65504 * 2 ^ 149 /\ (units <? 10 ^ 6 * 2 ^ 149) = true) as Hfin.
  { intros units Hu. split; [done|]. apply Z.ltb_lt. lia. }
  destruct (Z.eqb_spec e 0); unfold pow2_times; cbn [plausible]; apply Hfin.
  - replace (-14 - 10 + 149) with 125 by lia.
    assert (m * 2 ^ 125 <= 2 ^ 10 * 2 ^ 125) by (apply Z.mul_le_mono_nonneg_r; lia).
    lia.
  - assert (2 ^ (e - 15 - 10 + 149) <= 2 ^ 154) by (apply Z.pow_le_mono_r; lia).
    assert (0 < 2 ^ (e - 15 - 10 + 149)) by (apply Z.pow_pos_nonneg; lia).
    assert ((2 ^ 10 + m) * 2 ^ (e - 15 - 10 + 149) <= 2047 * 2 ^ 154) by nia.
    lia.
Qed.

Lemma half_sample_plausible_witness :
  match Finite false (2 ^ 149) with
  | Finite _ units => units <= 65504 * 2 ^ 149 /\ plausible (Finite false (2 ^ 149)) = true
  | _ => plausible (Finite false (2 ^ 149)) = false
  end.
Proof.
  apply (half_sample_plausible [0; 60] 0 (Finite false (2 ^ 149))).
  - repeat constructor; unfold is_byte; lia.
  - reflexivity.
Defined.

End ExrBlockFacts.

(** ** Half-float codec: the packed output of the worker *)
Module HalfPacking.
Import Pow2 HalfFloat.
Local Open Scope Z_scope.

(** [packFloatRGBToHalf(rgb)] of the worker, on the bit patterns of the
    elements of the [Float32Array]: a store into the [Uint16Array] keeps
    the 16 low bits of the number stored. *)
Definition packFloatRGBToHalf (rgb : list Z) : list Z :=
  (fun x => floatToHalf x mod 2 ^ 16) <$> rgb.

(** The 15 low bits of the result, which depend on the exponent and
    mantissa fields only. *)
Definition half_magnitude (x : Z) : Z := floatToHalf_fields x - sign_bit x * 2 ^ 15.

Lemma half_magnitude_range x : 0 <= x < 2 ^ 32 -> 0 <= half_magnitude x <= 0x7e00.
Proof.
  intros Hx. destruct (fields_range x Hx) as (Hs & He & Hm).
  unfold half_magnitude, floatToHalf_fields.
  destruct (Z.eqb_spec (exponent_field x) 255).
  { destruct (mantissa_field x =? 0); lia. }
  destruct (Z.ltb_spec (exponent_field x) 103); [lia|].
  destruct (Z.ltb_spec (exponent_field x) 113).
  { set (e := exponent_field x) in *. set (m := mantissa_field x) in *.
    assert (0 < 2 ^ (126 - e)) by (apply pow2_pos; lia).
    assert (2 ^ (125 - e) <= 2 ^ 22) by (apply pow2_le; lia).
    assert (0 < 2 ^ (125 - e)) by (apply pow2_pos; lia).
    assert (2 ^ 14 <= 2 ^ (126 - e)) by (apply pow2_le; lia).
    assert (0 <= (2 ^ 23 + m + 2 ^ (125 - e)) / 2 ^ (126 - e)) by (apply Z.div_pos; lia).
    assert ((2 ^ 23 + m + 2 ^ (125 - e)) / 2 ^ (126 - e) < 2 ^ 11).
    { apply Z.div_lt_upper_bound; [lia|]. nia. }
    lia. }
  destruct (Z.ltb_spec 142 (exponent_field x)); [lia|].
  destruct (carry_lost x); [lia|].
  assert (0 <= (mantissa_field x + 2 ^ 12) / 2 ^ 13 <= 2 ^ 10).
  { split; [apply Z.div_pos; lia|]. apply Z.lt_succ_r, Z.div_lt_upper_bound; lia. }
  lia.
Qed.

Lemma fields_negated x :
  0 <= x < 2 ^ 31 ->
  sign_bit x = 0 /\ sign_bit (x + 2 ^ 31) = 1 /\
  exponent_field (x + 2 ^ 31) = exponent_field x /\
  mantissa_field (x + 2 ^ 31) = mantissa_field x.
Proof.
  intros Hx. unfold sign_bit, exponent_field, mantissa_field.
  split; [apply Z.div_small; lia|]. split; [|split].
  - replace (x + 2 ^ 31) with (x + 1 * 2 ^ 31) by lia.
    rewrite Z.div_add by lia. rewrite Z.div_small by lia. reflexivity.
  - replace (x + 2 ^ 31) with (x + 2 ^ 8 * 2 ^ 23) by lia.
    rewrite Z.div_add by lia.
    replace (x / 2 ^ 23 + 2 ^ 8) with (x / 2 ^ 23 + 1 * 2 ^ 8) by lia.
    apply Z.mod_add. lia.
  - replace (x + 2 ^ 31) with (x + 2 ^ 8 * 2 ^ 23) by lia.
    apply Z.mod_add. lia.
Qed.

Lemma half_magnitude_negated x :
  0 <= x < 2 ^ 31 -> half_magnitude (x + 2 ^ 31) = half_magnitude x.
Proof.
  intros Hx. destruct (fields_negated x Hx) as (Hs0 & Hs1 & He & Hm).
  unfold half_magnitude, floatToHalf_fields, carry_lost.
  rewrite Hs0, Hs1, He, Hm.
  repeat match goal with |- context [if ?c then _ else _] => destruct c end; lia.
Qed.

(** [floatToHalf] always returns a 16-bit number, and the sign bit of the
    result is
    that of the input, NaN, infinities and zero included; the 15 bits of
    the magnitude do not depend on the sign, so that the conversion of
    the opposite number is the result with the other sign bit. *)
Theorem floatToHalf_sixteen_bits (x : Z) :
  0 <= x < 2 ^ 32 ->
  0 <= floatToHalf x < 2 ^ 16 /\
  half_sign (floatToHalf x) = sign_bit x /\
  (x < 2 ^ 31 -> floatToHalf (x + 2 ^ 31) = floatToHalf x + 2 ^ 15).
Proof.
  intros Hx. destruct (fields_range x Hx) as (Hs & _ & _).
  pose proof (half_magnitude_range x Hx) as Hmag.
  assert (floatToHalf x = sign_bit x * 2 ^ 15 + half_magnitude x) as Hsplit
    by (rewrite (floatToHalf_arith x Hx); unfold half_magnitude; lia).
  assert (0 <= floatToHalf x < 2 ^ 16) as Hrange by lia.
  split; [exact Hrange|]. split.
  - rewrite Hsplit. unfold half_sign.
    rewrite Z.add_comm, Z.div_add by lia. rewrite Z.div_small by lia. reflexivity.
  - intros Hpos.
    rewrite (floatToHalf_arith (x + 2 ^ 31)) by lia.
    rewrite (floatToHalf_arith x Hx).
    pose proof (half_magnitude_negated x ltac:(lia)) as Hneg.
    destruct (fields_negated x ltac:(lia)) as (Hs0 & Hs1 & _).
    unfold half_magnitude in Hneg. lia.
Qed.

Lemma floatToHalf_sixteen_bits_witness :
  0 <= floatToHalf 0x3f800000 < 2 ^ 16 /\
  half_sign (floatToHalf 0x3f800000) = sign_bit 0x3f800000 /\
  (0x3f800000 < 2 ^ 31 -> floatToHalf (0x3f800000 + 2 ^ 31) = floatToHalf 0x3f800000 + 2 ^ 15).
Proof. apply (floatToHalf_sixteen_bits 0x3f800000). lia. Defined.

(** [packFloatRGBToHalf] converts element by element: the packed array
    has the length of the input, and its element [i] is [floatToHalf] of
    the input element [i], which the 16-bit store leaves whole. *)
Theorem packFloatRGBToHalf_elementwise (rgb : list Z) :
  Forall (fun x => 0 <= x < 2 ^ 32) rgb ->
  length (packFloatRGBToHalf rgb) = length rgb /\
  packFloatRGBToHalf rgb = floatToHalf <$> rgb /\
  Forall (fun h => 0 <= h < 2 ^ 16) (packFloatRGBToHalf rgb).
Proof.
  intros Hrgb. unfold packFloatRGBToHalf.
  split; [apply length_fmap|].
  assert (forall x, 0 <= x < 2 ^ 32 -> floatToHalf x mod 2 ^ 16 = floatToHalf x) as Hfit.
  { intros x Hx. apply Z.mod_small.
    destruct (fields_range x Hx) as (Hs & _ & _).
    pose proof (half_magnitude_range x Hx) as Hmag.
    rewrite (floatToHalf_arith x Hx). unfold half_magnitude in Hmag. lia. }
  split.
  - induction Hrgb as [|x rgb Hx Hrgb IH]; [reflexivity|].
    rewrite !fmap_cons, IH, Hfit by done. reflexivity.
  - induction Hrgb as [|x rgb Hx Hrgb IH]; [constructor|].
    rewrite fmap_cons. constructor; [|exact IH].
    apply Z.mod_pos_bound. lia.
Qed.

Lemma packFloatRGBToHalf_elementwise_witness :
  length (packFloatRGBToHalf [0x3f800000; 0xc0000000; 0]) = 3%nat /\
  packFloatRGBToHalf [0x3f800000; 0xc0000000; 0] = floatToHalf <$> [0x3f800000; 0xc0000000; 0] /\
  Forall (fun h => 0 <= h < 2 ^ 16) (packFloatRGBToHalf [0x3f800000; 0xc0000000; 0]).
Proof.
  apply (packFloatRGBToHalf_elementwise [0x3f800000; 0xc0000000; 0]).
  repeat constructor; lia.
Defined.

End HalfPacking.

(** ** Scaling a size to a limit *)
Module SizeBounds.
Import Pow2 HdrHeader Double SizePolicy.
Local Open Scope Z_scope.

(** [fitWithin(width, height, maxSize)] of the thumbnail maker returns
    [{ width, height }]. *)
Definition fitWithin (width height maxSize : Z) : Z * Z :=
  let maxDim := Z.max width height in
  if maxDim <=? maxSize then (width, height)
  else
    let scale := fdiv maxSize maxDim in
    (Z.max 1 (fround (fmul (of_int width) scale)),
     Z.max 1 (fround (fmul (of_int height) scale))).

(** The sizes of the canvases of [createPanoramaThumbnail] for a decoded
    image: the thumbnail fits within 512, the image hashed within 100. *)
Definition thumbnail_sizes (decodeWidth decodeHeight : Z) : (Z * Z) * (Z * Z) :=
  let thumbSize := fitWithin decodeWidth decodeHeight 512 in
  let hashSize := fitWithin (fst thumbSize) (snd thumbSize) 100 in
  (thumbSize, hashSize).

(** *** Rounding from below *)

Lemma round53_expo n d :
  expo (round53 n d) = 0 \/ expo (round53 n d) = ilog2 n d - 52
  \/ expo (round53 n d) = ilog2 n d - 52 + 1.
Proof.
  unfold round53. destruct (n =? 0); [by left|].
  destruct (_ =? 2 ^ 53); simpl; auto.
Qed.

(** Rounding does not cross a dyadic number [W / 2^t] from above
    either. *)
Lemma round53_ge_dyadic n d W t :
  0 < n -> 0 < d -> 0 <= t -> 0 < W < 2 ^ 53 -> W * d <= n * 2 ^ t ->
  expo (round53 n d) <= - t ->
  W * 2 ^ (- expo (round53 n d) - t) <= sig (round53 n d).
Proof.
  intros Hn Hd Ht HW Hle. unfold round53.
  destruct (Z.eqb_spec n 0) as [|_]; [lia|].
  set (e := ilog2 n d - 52).
  assert (0 < 2 ^ t) as Hpt by (apply pow2_pos; lia).
  destruct (Z.leb_spec 0 e) as [He0|Hneg].
  - destruct (Z.eqb_spec (rne n (d * 2 ^ e)) (2 ^ 53)); cbn [expo sig]; intros Hexp; [lia|].
    assert (e = 0) as He by lia. assert (t = 0) as Ht0 by lia.
    rewrite He, Ht0 in *. rewrite Z.pow_0_r, Z.mul_1_r in *.
    change (-0 - 0) with 0. rewrite Z.pow_0_r, Z.mul_1_r.
    apply rne_ge_int; lia.
  - assert (0 < 2 ^ (- e)) as Hp by (apply pow2_pos; lia).
    destruct (Z.eqb_spec (rne (n * 2 ^ (- e)) d) (2 ^ 53)) as [Heq|Hne];
      cbn [expo sig]; intros Hexp.
    + assert (0 < 2 ^ (- (e + 1) - t)) by (apply pow2_pos; lia).
      assert (2 ^ (- e) = 2 ^ t * (2 * 2 ^ (- (e + 1) - t))) as Hsplit.
      { replace (- e) with (t + (1 + (- (e + 1) - t))) by lia.
        rewrite !pow2_split by lia. reflexivity. }
      pose proof (rne_ge_int (n * 2 ^ (- e)) d (W * (2 * 2 ^ (- (e + 1) - t)))
                    ltac:(nia) Hd ltac:(rewrite Hsplit; nia)) as Hk.
      rewrite Heq in Hk. lia.
    + assert (0 < 2 ^ (- e - t)) by (apply pow2_pos; lia).
      assert (2 ^ (- e) = 2 ^ t * 2 ^ (- e - t)) as Hsplit
        by (rewrite <- pow2_split by lia; f_equal; lia).
      apply rne_ge_int; [nia|lia|]. rewrite Hsplit. nia.
Qed.

Lemma fround_le_quarter x M :
  expo x <= -2 -> sig x <= (4 * M + 1) * 2 ^ (- expo x - 2) -> fround x <= M.
Proof.
  intros He Hs. unfold fround. destruct (Z.leb_spec 0 (expo x)); [lia|].
  assert (0 < 2 ^ (- expo x - 2)) by (apply pow2_pos; lia).
  assert (2 ^ (- expo x) = 2 ^ 2 * 2 ^ (- expo x - 2)) as Ha
    by (rewrite <- pow2_split by lia; f_equal; lia).
  assert (2 ^ (1 - expo x) = 2 ^ 3 * 2 ^ (- expo x - 2)) as Hb
    by (rewrite <- pow2_split by lia; f_equal; lia).
  rewrite Ha, Hb. apply Z.lt_succ_r, Z.div_lt_upper_bound; lia.
Qed.

Lemma fround_ge_quarter x M :
  expo x <= -2 -> (4 * M - 1) * 2 ^ (- expo x - 2) <= sig x -> M <= fround x.
Proof.
  intros He Hs. unfold fround. destruct (Z.leb_spec 0 (expo x)); [lia|].
  assert (0 < 2 ^ (- expo x - 2)) by (apply pow2_pos; lia).
  assert (2 ^ (- expo x) = 2 ^ 2 * 2 ^ (- expo x - 2)) as Ha
    by (rewrite <- pow2_split by lia; f_equal; lia).
  assert (2 ^ (1 - expo x) = 2 ^ 3 * 2 ^ (- expo x - 2)) as Hb
    by (rewrite <- pow2_split by lia; f_equal; lia).
  rewrite Ha, Hb. apply Z.div_le_lower_bound; lia.
Qed.

(** *** A dimension scaled by [limit / largest] *)

Section scaled.
Variables (limit largest : Z).
Hypothesis Hlimit : 0 < limit < largest.
Hypothesis Hlargest : largest <= 2 ^ 50.

Let scale := fdiv limit largest.
Let upper := (limit * 2 ^ 52 + largest - 1) / largest.
Let lower := limit * 2 ^ 52 / largest.

Lemma upper_spec : limit * 2 ^ 52 <= upper * largest <= limit * 2 ^ 52 + largest - 1.
Proof.
  unfold upper.
  pose proof (Z.div_mod (limit * 2 ^ 52 + largest - 1) largest ltac:(lia)).
  pose proof (Z.mod_pos_bound (limit * 2 ^ 52 + largest - 1) largest ltac:(lia)). lia.
Qed.

Lemma lower_spec : limit * 2 ^ 52 - largest + 1 <= lower * largest <= limit * 2 ^ 52.
Proof.
  unfold lower.
  pose proof (Z.div_mod (limit * 2 ^ 52) largest ltac:(lia)).
  pose proof (Z.mod_pos_bound (limit * 2 ^ 52) largest ltac:(lia)). lia.
Qed.

Lemma scale_bounds :
  expo scale <= -52 /\
  lower * 2 ^ (- expo scale - 52) <= sig scale <= upper * 2 ^ (- expo scale - 52).
Proof.
  pose proof upper_spec as Hu. pose proof lower_spec as Hl.
  assert (0 < upper < 2 ^ 53) as HU by nia.
  assert (0 < lower < 2 ^ 53) as HL by nia.
  destruct (round53_le_dyadic limit largest upper 52 ltac:(lia) ltac:(lia) ltac:(lia) HU
              ltac:(lia)) as (He & _ & Hs).
  split; [exact He|]. split; [|exact Hs].
  apply round53_ge_dyadic; first [lia|exact He].
Qed.

Lemma scaled_product w :
  0 < w <= largest ->
  let z := fmul (of_int w) scale in
  expo z <= -2 /\ sig z <= (4 * limit + 1) * 2 ^ (- expo z - 2) /\
  (w = largest -> (4 * limit - 1) * 2 ^ (- expo z - 2) <= sig z).
Proof.
  intros Hw z. destruct scale_bounds as (Hey & Hlo & Hhi).
  pose proof upper_spec as Hu. pose proof lower_spec as Hl.
  destruct (of_int_exact w ltac:(lia)) as [He1 Hs1].
  unfold z, fmul. set (e1 := expo (of_int w)) in *. set (ey := expo scale) in *.
  set (sy := sig scale) in *.
  destruct (Z.leb_spec 0 (e1 + ey)); [lia|].
  assert (0 < 2 ^ (- e1)) by (apply pow2_pos; lia).
  assert (0 < 2 ^ (- ey - 52)) as Hq by (apply pow2_pos; lia).
  assert (2 ^ (- (e1 + ey)) = 2 ^ (- e1) * (2 ^ 52 * 2 ^ (- ey - 52))) as Hsplit.
  { replace (- (e1 + ey)) with (- e1 + (52 + (- ey - 52))) by lia.
    rewrite !pow2_split by lia. reflexivity. }
  assert (0 < lower) as HL by nia.
  assert (0 < sy) by nia.
  rewrite Hs1.
  assert (0 < w * 2 ^ (- e1) * sy) as Hprod by nia.
  assert (0 < 2 ^ (- (e1 + ey))) as Hden by (apply pow2_pos; lia).
  assert (w * upper <= limit * 2 ^ 52 + 2 ^ 50) as Hwu by nia.
  assert (w * 2 ^ (- e1) * sy * 2 ^ 2 <= (4 * limit + 1) * 2 ^ (- (e1 + ey))) as Hup.
  { rewrite Hsplit.
    assert (w * sy <= w * (upper * 2 ^ (- ey - 52))) by (apply Z.mul_le_mono_nonneg_l; lia).
    assert (w * (upper * 2 ^ (- ey - 52)) = w * upper * 2 ^ (- ey - 52)) by lia.
    assert (w * upper * 2 ^ (- ey - 52) <= (limit * 2 ^ 52 + 2 ^ 50) * 2 ^ (- ey - 52))
      by (apply Z.mul_le_mono_nonneg_r; lia).
    assert (w * sy * 2 ^ 2 <= (4 * limit + 1) * (2 ^ 52 * 2 ^ (- ey - 52))) by lia.
    replace (w * 2 ^ (- e1) * sy * 2 ^ 2) with (2 ^ (- e1) * (w * sy * 2 ^ 2)) by lia.
    replace ((4 * limit + 1) * (2 ^ (- e1) * (2 ^ 52 * 2 ^ (- ey - 52))))
      with (2 ^ (- e1) * ((4 * limit + 1) * (2 ^ 52 * 2 ^ (- ey - 52)))) by lia.
    apply Z.mul_le_mono_nonneg_l; lia. }
  destruct (round53_le_dyadic (w * 2 ^ (- e1) * sy) (2 ^ (- (e1 + ey))) (4 * limit + 1) 2
              Hprod Hden ltac:(lia) ltac:(lia) Hup) as (Hez & _ & Hsz).
  split; [exact Hez|]. split; [exact Hsz|].
  intros ->.
  apply round53_ge_dyadic; try lia; try exact Hez.
  rewrite Hsplit.
  assert (largest * (lower * 2 ^ (- ey - 52)) <= largest * sy)
    by (apply Z.mul_le_mono_nonneg_l; lia).
  assert ((limit * 2 ^ 52 - 2 ^ 50) * 2 ^ (- ey - 52) <= largest * lower * 2 ^ (- ey - 52))
    by (apply Z.mul_le_mono_nonneg_r; lia).
  assert ((4 * limit - 1) * (2 ^ 52 * 2 ^ (- ey - 52)) <= largest * sy * 2 ^ 2) by lia.
  replace (largest * 2 ^ (- e1) * sy * 2 ^ 2) with (2 ^ (- e1) * (largest * sy * 2 ^ 2)) by lia.
  replace ((4 * limit - 1) * (2 ^ (- e1) * (2 ^ 52 * 2 ^ (- ey - 52))))
    with (2 ^ (- e1) * ((4 * limit - 1) * (2 ^ 52 * 2 ^ (- ey - 52)))) by lia.
  apply Z.mul_le_mono_nonneg_l; lia.
Qed.

(** A dimension that is at most the largest one scales to at most the
    limit, and the largest one to the limit itself. *)
Lemma scaled_dimension w :
  0 < w <= largest ->
  1 <= Z.max 1 (fround (fmul (of_int w) scale)) <= limit /\
  (w = largest -> Z.max 1 (fround (fmul (of_int w) scale)) = limit).
Proof.
  intros Hw. destruct (scaled_product w Hw) as (He & Hup & Hlow).
  pose proof (fround_le_quarter _ limit He Hup) as Hle.
  split; [lia|]. intros Heq.
  pose proof (fround_ge_quarter _ limit He (Hlow Heq)). lia.
Qed.

End scaled.

(** *** The decode size and the texture limit *)

(** For a source of positive dimensions (up to [2^50]), both dimensions
    that [computeDecodeSize] returns are at most [maxDim], the limit that
    [chooseDecodeMaxDim] derives from the quality and the texture size;
    when the source exceeds [maxDim], its larger dimension is decoded at
    exactly [maxDim].  The decode size is therefore within
    [maxTextureSize] whenever that is 256 or more. *)
Theorem computeDecodeSize_within_limit (meta : PanoramaMetadata)
    (quality : PanoramaDecodeQuality) (maxTextureSize : Z) :
  0 < width meta <= 2 ^ 50 ->
  0 < height meta <= 2 ^ 50 ->
  let maxDim := chooseDecodeMaxDim quality maxTextureSize in
  let size := computeDecodeSize meta quality maxTextureSize in
  1 <= fst size <= maxDim /\
  1 <= snd size <= maxDim /\
  (maxDim < Z.max (width meta) (height meta) -> Z.max (fst size) (snd size) = maxDim) /\
  (256 <= maxTextureSize -> fst size <= maxTextureSize /\ snd size <= maxTextureSize).
Proof.
  intros Hw Hh maxDim size.
  assert (256 <= maxDim <= 4096) as Hdim
    by (unfold maxDim, chooseDecodeMaxDim; destruct quality; simpl; lia).
  assert (256 <= maxTextureSize -> maxDim <= maxTextureSize) as Hmts
    by (unfold maxDim, chooseDecodeMaxDim; lia).
  assert (1 <= fst size <= maxDim /\ 1 <= snd size <= maxDim /\
          (maxDim < Z.max (width meta) (height meta) ->
           Z.max (fst size) (snd size) = maxDim)) as (H1 & H2 & H3).
  { unfold size, computeDecodeSize. fold maxDim. cbv zeta.
    set (srcMax := Z.max (width meta) (height meta)).
    destruct (Z.ltb_spec maxDim srcMax) as [Hlt|Hge]; cbn [fst snd].
    - assert (0 < maxDim < srcMax) as Hlim by lia.
      assert (srcMax <= 2 ^ 50) as Hmax by (unfold srcMax; lia).
      destruct (scaled_dimension maxDim srcMax Hlim Hmax (width meta)
                  ltac:(unfold srcMax; lia)) as [Hwle Hweq].
      destruct (scaled_dimension maxDim srcMax Hlim Hmax (height meta)
                  ltac:(unfold srcMax; lia)) as [Hhle Hheq].
      split; [exact Hwle|]. split; [exact Hhle|]. intros _.
      destruct (Z.max_spec (width meta) (height meta)) as [[_ Hm]|[_ Hm]];
        fold srcMax in Hm.
      + rewrite (Hheq (eq_sym Hm)). lia.
      + rewrite (Hweq (eq_sym Hm)). lia.
    - rewrite (unscaled_dimension (width meta)), (unscaled_dimension (height meta)) by lia.
      unfold srcMax in *. lia. }
  split; [exact H1|]. split; [exact H2|]. split; [exact H3|].
  intros Hbig. specialize (Hmts Hbig). lia.
Qed.

Lemma computeDecodeSize_within_limit_witness :
  let maxDim := chooseDecodeMaxDim medium 16384 in
  let size := computeDecodeSize (Metadata hdr 8192 4096) medium 16384 in
  1 <= fst size <= maxDim /\
  1 <= snd size <= maxDim /\
  (maxDim < Z.max 8192 4096 -> Z.max (fst size) (snd size) = maxDim) /\
  (256 <= 16384 -> fst size <= 16384 /\ snd size <= 16384).
Proof.
  apply (computeDecodeSize_within_limit (Metadata hdr 8192 4096) medium 16384); simpl; lia.
Defined.

(** *** The sizes of the thumbnail canvases *)

Lemma fitWithin_bounds width height maxSize :
  0 < width <= 2 ^ 50 -> 0 < height <= 2 ^ 50 -> 0 < maxSize ->
  let size := fitWithin width height maxSize in
  1 <= fst size <= maxSize /\ 1 <= snd size <= maxSize /\
  fst size <= 2 ^ 50 /\ snd size <= 2 ^ 50 /\
  (Z.max width height <= maxSize -> size = (width, height)) /\
  (maxSize < Z.max width height -> Z.max (fst size) (snd size) = maxSize).
Proof.
  intros Hw Hh Hs size. unfold size, fitWithin.
  set (maxDim := Z.max width height).
  destruct (Z.leb_spec maxDim maxSize) as [Hfit|Hbig]; cbn [fst snd].
  - unfold maxDim in *. repeat split; lia.
  - assert (0 < maxSize < maxDim) as Hlim by lia.
    assert (maxDim <= 2 ^ 50) as Hmax by (unfold maxDim; lia).
    destruct (scaled_dimension maxSize maxDim Hlim Hmax width ltac:(unfold maxDim; lia))
      as [Hwle Hweq].
    destruct (scaled_dimension maxSize maxDim Hlim Hmax height ltac:(unfold maxDim; lia))
      as [Hhle Hheq].
    split; [exact Hwle|]. split; [exact Hhle|].
    split; [lia|]. split; [lia|]. split; [lia|]. intros _.
    destruct (Z.max_spec width height) as [[_ Hm]|[_ Hm]]; fold maxDim in Hm.
    + rewrite (Hheq (eq_sym Hm)). lia.
    + rewrite (Hweq (eq_sym Hm)). lia.
Qed.

(** [fitWithin] returns a size whose two dimensions are between 1 and
    [maxSize]: the size given when it fits already, and otherwise a size
    whose larger dimension is exactly [maxSize] (dimensions up to
    [2^50]). *)
Theorem fitWithin_fits (width height maxSize : Z) :
  0 < width <= 2 ^ 50 -> 0 < height <= 2 ^ 50 -> 0 < maxSize ->
  let size := fitWithin width height maxSize in
  1 <= fst size <= maxSize /\ 1 <= snd size <= maxSize /\
  (Z.max width height <= maxSize -> size = (width, height)) /\
  (maxSize < Z.max width height -> Z.max (fst size) (snd size) = maxSize).
Proof.
  intros Hw Hh Hs size.
  destruct (fitWithin_bounds width height maxSize Hw Hh Hs) as (H1 & H2 & _ & _ & H3 & H4).
  done.
Qed.

Lemma fitWithin_fits_witness :
  let size := fitWithin 1024 512 100 in
  1 <= fst size <= 100 /\ 1 <= snd size <= 100 /\
  (Z.max 1024 512 <= 100 -> size = (1024, 512)) /\
  (100 < Z.max 1024 512 -> Z.max (fst size) (snd size) = 100).
Proof. apply (fitWithin_fits 1024 512 100); lia. Defined.

(** The canvas that [createPanoramaThumbnail] hands to the hash function
    is never larger than 100 by 100, and the thumbnail never larger than
    512 by 512, whatever the size of the decoded image. *)
Theorem thumbnail_sizes_fit (decodeWidth decodeHeight : Z) :
  0 < decodeWidth <= 2 ^ 50 -> 0 < decodeHeight <= 2 ^ 50 ->
  let '(thumbSize, hashSize) := thumbnail_sizes decodeWidth decodeHeight in
  1 <= fst thumbSize <= 512 /\ 1 <= snd thumbSize <= 512 /\
  1 <= fst hashSize <= 100 /\ 1 <= snd hashSize <= 100.
Proof.
  intros Hw Hh. unfold thumbnail_sizes. cbv zeta.
  destruct (fitWithin_bounds decodeWidth decodeHeight 512 Hw Hh ltac:(lia))
    as (H1 & H2 & H3 & H4 & _).
  destruct (fitWithin_bounds (fst (fitWithin decodeWidth decodeHeight 512))
              (snd (fitWithin decodeWidth decodeHeight 512)) 100
              ltac:(lia) ltac:(lia) ltac:(lia)) as (H5 & H6 & _).
  done.
Qed.

Lemma thumbnail_sizes_fit_witness :
  let '(thumbSize, hashSize) := thumbnail_sizes 1024 512 in
  1 <= fst thumbSize <= 512 /\ 1 <= snd thumbSize <= 512 /\
  1 <= fst hashSize <= 100 /\ 1 <= snd hashSize <= 100.
Proof. apply (thumbnail_sizes_fit 1024 512); lia. Defined.

End SizeBounds.

(** ** Panorama file names and the variants of a photo *)
Module PhotoVariants.
Import ExrChannels HdrHeader.

Definition to_lower (c : ascii) : ascii :=
  let n := N_of_ascii c in
  if ((65 <=? n) && (n <=? 90))%N then ascii_of_N (n + 32) else c.

(** [s.toLowerCase()] on the ASCII range. *)
Fixpoint toLowerCase (s : string) : string :=
  match s with
  | EmptyString => EmptyString
  | String c s' => String (to_lower c) (toLowerCase s')
  end.

(** [normalizeExt(name)]. *)
Definition normalizeExt (name : string) : string :=
  match lastIndexOf_dot name with
  | None => EmptyString
  | Some idx =>
      toLowerCase (String.substring (idx + 1) (String.length name - (idx + 1)) name)
  end.

(** [getPanoramaFormatFromName(name)]; [None] is [null]. *)
Definition getPanoramaFormatFromName (name : string) : option PanoramaFormat :=
  let ext := normalizeExt name in
  if bool_decide (ext = "hdr") then Some hdr
  else if bool_decide (ext = "exr") then Some exr
  else None.

Definition isPanoramaFileName (name : string) : bool :=
  match getPanoramaFormatFromName name with Some _ => true | None => false end.

Definition getUploadContentTypeForPanorama (format : PanoramaFormat) : string :=
  match format with
  | hdr => "image/vnd.radiance"
  | exr => "image/x-exr"
  end.

(** [getStorageKeyExt(storageKey)] and
    [getPanoramaFormatFromStorageKey(storageKey)]: the argument is a
    string, or [None] for [null] and [undefined]; the empty string is
    falsy too. *)
Definition getStorageKeyExt (storageKey : option string) : string :=
  match storageKey with
  | Some (String _ _ as key) => normalizeExt key
  | _ => EmptyString
  end.

Definition getPanoramaFormatFromStorageKey (storageKey : option string)
  : option PanoramaFormat :=
  match storageKey with
  | Some (String _ _ as key) => getPanoramaFormatFromName key
  | _ => None
  end.

(** [stripStorageKeyExt(storageKey)]. *)
Definition stripStorageKeyExt (storageKey : string) : string :=
  match lastIndexOf_dot storageKey with
  | None => storageKey
  | Some idx => String.substring 0 idx storageKey
  end.

Section merge.
(** A [Photo] is a record of the database of which the functions below
    read the fields [id] and [storageKey] and copy the others. *)
Context {Photo : Type}.
Variable id : Photo -> string.
Variable storageKey : Photo -> option string.

(** A [DisplayPhoto]: the fields of a photo and the optional property
    [panoramaVariants]. *)
Record DisplayPhoto := MkDisplay {
  base : Photo;
  panoramaVariants : option (list Photo)
}.

Definition plain (photo : Photo) : DisplayPhoto := MkDisplay photo None.

(** The variables [merged], [groupIndexByKey] and [groupPhotosByKey] of
    [mergePanoramaPhotoVariants]. *)
Record MergeState := MkMerge {
  merged : list DisplayPhoto;
  groupIndexByKey : jsmap nat;
  groupPhotosByKey : jsmap (list Photo)
}.

(** Body of the first loop.  The array of a group is shared with the
    map, so that [push] updates the entry of the map. *)
Definition add_photo (st : MergeState) (photo : Photo) : MergeState :=
  match getPanoramaFormatFromStorageKey (storageKey photo) with
  | None =>
      MkMerge (merged st ++ [plain photo]) (groupIndexByKey st) (groupPhotosByKey st)
  | Some _ =>
      let key := stripStorageKeyExt (default EmptyString (storageKey photo)) in
      match map_get (groupIndexByKey st) key with
      | None =>
          MkMerge (merged st ++ [plain photo])
            (map_set (groupIndexByKey st) key (length (merged st)))
            (map_set (groupPhotosByKey st) key [photo])
      | Some _ =>
          MkMerge (merged st) (groupIndexByKey st)
            (match map_get (groupPhotosByKey st) key with
             | Some group => map_set (groupPhotosByKey st) key (group ++ [photo])
             | None => groupPhotosByKey st
             end)
      end
  end.

(** Body of the second loop, for the entry [[key, groupPhotos]]; the
    index assigned to is always within [merged]. *)
Definition attach_variants (groupIndexByKey : jsmap nat) (merged : list DisplayPhoto)
    (entry : string * list Photo) : list DisplayPhoto :=
  let '(key, groupPhotos) := entry in
  if length groupPhotos <? 2 then merged
  else
    match map_get groupIndexByKey key with
    | None => merged
    | Some index =>
        match groupPhotos with
        | first :: rest => <[index := MkDisplay first (Some rest)]> merged
        | [] => merged
        end
    end.

(** [mergePanoramaPhotoVariants(photos)]. *)
Definition mergePanoramaPhotoVariants (photos : list Photo) : list DisplayPhoto :=
  let st := fold_left add_photo photos (MkMerge [] [] []) in
  fold_left (attach_variants (groupIndexByKey st)) (groupPhotosByKey st) (merged st).

(** [photoMatchesId(photo, id)]. *)
Definition photoMatchesId (photo : DisplayPhoto) (i : string) : bool :=
  if bool_decide (id (base photo) = i) then true
  else
    match panoramaVariants photo with
    | Some variants => existsb (fun p => bool_decide (id p = i)) variants
    | None => false
    end.

(** [findDisplayPhotoById(photos, id)]; [None] is [undefined]. *)
Definition findDisplayPhotoById (photos : list DisplayPhoto) (i : string)
  : option DisplayPhoto :=
  List.find (fun photo => photoMatchesId photo i) photos.

(** [findDisplayPhotoIndexById(photos, id)]. *)
Definition findDisplayPhotoIndexById (photos : list DisplayPhoto) (i : string) : Z :=
  match list_find (fun photo => photoMatchesId photo i = true) photos with
  | Some (index, _) => Z.of_nat index
  | None => (-1)%Z
  end.

(** *** The merge as a description of its result *)

(** The stem that groups the variants of a panorama: the storage key
    without its extension, for a photo whose storage key has the
    extension of a panorama format. *)
Definition key_of (photo : Photo) : option string :=
  match getPanoramaFormatFromStorageKey (storageKey photo) with
  | Some _ => Some (stripStorageKeyExt (default EmptyString (storageKey photo)))
  | None => None
  end.

(** The photos shown: those that are no panorama, and the first photo of
    every stem. *)
Definition keep (acc : list Photo) (photo : Photo) : list Photo :=
  match key_of photo with
  | None => acc ++ [photo]
  | Some k => if decide (Some k ∈ key_of <$> acc) then acc else acc ++ [photo]
  end.

Definition firsts (photos : list Photo) : list Photo := fold_left keep photos [].

(** The photos of a stem, in the order of the list. *)
Definition group_of (photos : list Photo) (k : string) : list Photo :=
  filter (fun p => key_of p = Some k) photos.

Definition variants_of (photos : list Photo) (photo : Photo) : option (list Photo) :=
  match key_of photo with
  | None => None
  | Some k =>
      match group_of photos k with
      | _ :: ((_ :: _) as rest) => Some rest
      | _ => None
      end
  end.

Definition documented_merge (photos : list Photo) : list DisplayPhoto :=
  (fun p => MkDisplay p (variants_of photos p)) <$> firsts photos.

Lemma firsts_snoc l p : firsts (l ++ [p]) = keep (firsts l) p.
Proof. unfold firsts. by rewrite fold_left_app. Qed.

Lemma group_snoc l p k :
  group_of (l ++ [p]) k = group_of l k ++ (if decide (key_of p = Some k) then [p] else []).
Proof.
  unfold group_of. rewrite filter_app. f_equal.
Qed.

Lemma keep_cases acc p :
  keep acc p = acc /\ (exists k, key_of p = Some k /\ Some k ∈ key_of <$> acc) \/
  keep acc p = acc ++ [p] /\ (forall k, key_of p = Some k -> Some k ∉ key_of <$> acc).
Proof.
  unfold keep. destruct (key_of p) as [k|] eqn:Hk.
  - destruct (decide _) as [Hin|Hout]; [left; eauto|].
    right. split; [done|]. by intros k' [= <-].
  - right. split; [done|]. discriminate.
Qed.

Lemma firsts_keys l k : Some k ∈ key_of <$> firsts l <-> Some k ∈ key_of <$> l.
Proof.
  induction l as [|p l IH] using rev_ind; [done|].
  rewrite firsts_snoc, fmap_app, elem_of_app, <- IH.
  destruct (keep_cases (firsts l) p) as [[-> (k' & Hk' & Hin)]|[-> Hnew]].
  - split; [auto|]. intros [H|H]; [done|].
    apply list_elem_of_fmap in H as (q & Hq & ->%list_elem_of_singleton).
    rewrite Hk' in Hq. by injection Hq as ->.
  - by rewrite fmap_app, elem_of_app.
Qed.

Lemma firsts_subset l p : p ∈ firsts l -> p ∈ l.
Proof.
  induction l as [|q l IH] using rev_ind; [done|].
  rewrite firsts_snoc, elem_of_app.
  destruct (keep_cases (firsts l) q) as [[-> _]|[-> _]]; [auto|].
  rewrite elem_of_app. intros [?|?]; auto.
Qed.

Lemma group_empty l k : Some k ∉ key_of <$> l -> group_of l k = [].
Proof.
  intros Hout. unfold group_of.
  induction l as [|p l IH]; [done|].
  rewrite fmap_cons, not_elem_of_cons in Hout. destruct Hout as [Hp Hl].
  rewrite filter_cons, decide_False by congruence. auto.
Qed.

Lemma group_elem l k p : p ∈ group_of l k <-> p ∈ l /\ key_of p = Some k.
Proof. unfold group_of. rewrite list_elem_of_filter. tauto. Qed.

Lemma firsts_unique l : forall i j p q k,
  firsts l !! i = Some p -> firsts l !! j = Some q ->
  key_of p = Some k -> key_of q = Some k -> i = j.
Proof.
  induction l as [|x l IH] using rev_ind; intros i j p q k Hi Hj Hp Hq; [done|].
  rewrite firsts_snoc in Hi, Hj.
  destruct (keep_cases (firsts l) x) as [[Heq _]|[Heq Hnew]]; rewrite Heq in Hi, Hj.
  - eapply IH; eauto.
  - assert (forall i p, firsts l !! i = Some p -> key_of p = Some k ->
              Some k ∈ key_of <$> firsts l) as Hseen.
    { intros i' p' Hi' Hp'. apply list_elem_of_fmap. exists p'. split; [done|].
      by eapply list_elem_of_lookup_2. }
    apply lookup_app_Some in Hi as [Hi|[Hil Hi]];
      apply lookup_app_Some in Hj as [Hj|[Hjl Hj]].
    + eapply IH; eauto.
    + apply list_lookup_singleton_Some in Hj as [_ ->].
      exfalso. apply (Hnew k Hq). eauto.
    + apply list_lookup_singleton_Some in Hi as [_ ->].
      exfalso. apply (Hnew k Hp). eauto.
    + apply list_lookup_singleton_Some in Hi as [Hi _].
      apply list_lookup_singleton_Some in Hj as [Hj _]. lia.
Qed.

Lemma firsts_head l : forall i p k,
  firsts l !! i = Some p -> key_of p = Some k -> head (group_of l k) = Some p.
Proof.
  induction l as [|x l IH] using rev_ind; intros i p k Hi Hp; [done|].
  rewrite firsts_snoc in Hi. rewrite group_snoc.
  destruct (keep_cases (firsts l) x) as [[Heq _]|[Heq Hnew]]; rewrite Heq in Hi.
  - specialize (IH _ _ _ Hi Hp).
    destruct (group_of l k); [done|]. exact IH.
  - apply lookup_app_Some in Hi as [Hi|[_ Hi]].
    + specialize (IH _ _ _ Hi Hp).
      destruct (group_of l k); [done|]. exact IH.
    + apply list_lookup_singleton_Some in Hi as [_ ->].
      rewrite group_empty; [by rewrite decide_True|].
      rewrite <- firsts_keys. by apply Hnew.
Qed.

Lemma firsts_position l i p k :
  firsts l !! i = Some p -> key_of p = Some k ->
  list_find (fun q => key_of q = Some k) (firsts l) = Some (i, p).
Proof.
  intros Hi Hp. apply list_find_Some. split; [done|]. split; [done|].
  intros j q Hj Hlt Hq. pose proof (firsts_unique l _ _ _ _ _ Hi Hj Hp Hq). lia.
Qed.

(** *** The first loop *)

Definition grouped (done : list Photo) (st : MergeState) : Prop :=
  merged st = plain <$> firsts done /\
  (forall k, map_get (groupPhotosByKey st) k =
     match group_of done k with [] => None | g => Some g end) /\
  (forall k, map_get (groupIndexByKey st) k =
     fst <$> list_find (fun q => key_of q = Some k) (firsts done)) /\
  NoDup (map fst (groupPhotosByKey st)).

Lemma find_key_None l k :
  list_find (fun q => key_of q = Some k) l = None <-> Some k ∉ key_of <$> l.
Proof.
  rewrite list_find_None, Forall_forall. split.
  - intros H Hin. apply list_elem_of_fmap in Hin as (q & Hq & Hin). by apply (H q).
  - intros H q Hin Hq. apply H. apply list_elem_of_fmap. eauto.
Qed.

Lemma add_photo_grouped done st p :
  grouped done st -> grouped (done ++ [p]) (add_photo st p).
Proof.
  intros (Hm & Hgp & Hgi & Hnd). unfold add_photo.
  assert (key_of p = match getPanoramaFormatFromStorageKey (storageKey p) with
                     | Some _ => Some (stripStorageKeyExt (default EmptyString (storageKey p)))
                     | None => None
                     end) as Hkey by reflexivity.
  destruct (getPanoramaFormatFromStorageKey (storageKey p)) as [fmt|].
  - set (key := stripStorageKeyExt (default EmptyString (storageKey p))) in *.
    destruct (map_get (groupIndexByKey st) key) as [index|] eqn:Hindex.
    + (* the stem was met before *)
      assert (Some key ∈ key_of <$> firsts done) as Hseen.
      { destruct (decide (Some key ∈ key_of <$> firsts done)) as [|Hout]; [done|].
        apply find_key_None in Hout. rewrite Hgi, Hout in Hindex. discriminate. }
      assert (firsts (done ++ [p]) = firsts done) as Hf.
      { rewrite firsts_snoc. unfold keep. rewrite Hkey. by rewrite decide_True. }
      assert (group_of done key <> []) as Hne.
      { intros Hnil. apply (proj1 (firsts_keys _ _)) in Hseen.
        apply list_elem_of_fmap in Hseen as (q & Hq & Hin).
        assert (q ∈ group_of done key) as Hg by (apply group_elem; split; [done|congruence]).
        rewrite Hnil in Hg. by apply elem_of_nil in Hg. }
      pose proof (Hgp key) as Hgk.
      destruct (group_of done key) as [|g0 g] eqn:Hgroup; [done|].
      rewrite Hgk. split; [|split; [|split]]; cbn [merged groupIndexByKey groupPhotosByKey].
      * by rewrite Hf.
      * intros k. rewrite map_get_set, group_snoc, Hkey.
        destruct (decide (key = k)) as [->|Hne'].
        -- rewrite Hgroup. by rewrite decide_True.
        -- rewrite decide_False by congruence. rewrite app_nil_r. apply Hgp.
      * intros k. rewrite Hf. apply Hgi.
      * by rewrite (map_set_keys_present _ _ _ _ Hgk).
    + (* a new stem *)
      assert (Some key ∉ key_of <$> firsts done) as Hnew.
      { apply find_key_None. specialize (Hgi key). rewrite Hindex in Hgi.
        by destruct (list_find _ (firsts done)). }
      assert (firsts (done ++ [p]) = firsts done ++ [p]) as Hf.
      { rewrite firsts_snoc. unfold keep. rewrite Hkey. by rewrite decide_False. }
      assert (group_of done key = []) as Hnil
        by (apply group_empty; by rewrite <- firsts_keys).
      assert (map_get (groupPhotosByKey st) key = None) as Hgk
        by (by rewrite Hgp, Hnil).
      split; [|split; [|split]]; cbn [merged groupIndexByKey groupPhotosByKey].
      * by rewrite Hf, fmap_app, Hm.
      * intros k. rewrite map_get_set, group_snoc, Hkey.
        destruct (decide (key = k)) as [->|Hne'].
        -- rewrite Hnil. by rewrite decide_True.
        -- rewrite decide_False by congruence. rewrite app_nil_r. apply Hgp.
      * intros k. rewrite map_get_set, Hf, list_find_snoc, Hm, length_fmap.
        destruct (decide (key = k)) as [->|Hne'].
        -- apply find_key_None in Hnew. rewrite Hnew. by rewrite decide_True.
        -- rewrite Hgi. destruct (list_find _ (firsts done)) as [[j q]|]; [done|].
           by rewrite decide_False by congruence.
      * rewrite (map_set_keys_absent _ _ _ Hgk). apply NoDup_app.
        split; [done|]. split; [|apply NoDup_singleton].
        intros k Hk ->%list_elem_of_singleton. by apply map_get_None in Hgk.
  - (* no panorama *)
    assert (firsts (done ++ [p]) = firsts done ++ [p]) as Hf.
    { rewrite firsts_snoc. unfold keep. by rewrite Hkey. }
    split; [|split; [|split]]; cbn [merged groupIndexByKey groupPhotosByKey].
    + by rewrite Hf, fmap_app, Hm.
    + intros k. rewrite group_snoc, Hkey, decide_False by done.
      rewrite app_nil_r. apply Hgp.
    + intros k. rewrite Hf, list_find_snoc, Hgi.
      destruct (list_find _ (firsts done)) as [[j q]|]; [done|].
      by rewrite decide_False by congruence.
    + done.
Qed.

Lemma first_loop_grouped rest : forall done st,
  grouped done st -> grouped (done ++ rest) (fold_left add_photo rest st).
Proof.
  induction rest as [|p rest IH]; intros done st Hinv.
  - by rewrite app_nil_r.
  - cbn [fold_left]. replace (done ++ p :: rest) with ((done ++ [p]) ++ rest)
      by (by rewrite <- app_assoc).
    apply IH. by apply add_photo_grouped.
Qed.

(** *** The second loop *)

(** What the second loop leaves at the place of the first photo of the
    stem [k], which held [old]. *)
Definition shown (photos : list Photo) (k : string) (old : DisplayPhoto) : DisplayPhoto :=
  match group_of photos k with
  | first :: ((_ :: _) as rest) => MkDisplay first (Some rest)
  | _ => old
  end.

Definition attached (photos : list Photo) (keys : list string) (p : Photo)
    (old : DisplayPhoto) : DisplayPhoto :=
  match key_of p with
  | Some k => if decide (k ∈ keys) then shown photos k old else old
  | None => old
  end.

Lemma attach_variants_length gi m entry :
  length (attach_variants gi m entry) = length m.
Proof.
  unfold attach_variants. destruct entry as [k g].
  destruct (length g <? 2); [done|]. destruct (map_get gi k); [|done].
  destruct g; [done|]. apply length_insert.
Qed.

Lemma second_loop_lookup (photos : list Photo) (gi : jsmap nat) :
  (forall k, map_get gi k = fst <$> list_find (fun q => key_of q = Some k) (firsts photos)) ->
  forall es m,
  NoDup (map fst es) ->
  (forall k g, (k, g) ∈ es -> g = group_of photos k) ->
  length m = length (firsts photos) ->
  length (fold_left (attach_variants gi) es m) = length m /\
  forall j p, firsts photos !! j = Some p ->
    fold_left (attach_variants gi) es m !! j
      = attached photos (map fst es) p <$> m !! j.
Proof.
  intros Hgi es. induction es as [|[k0 g0] es IH]; intros m Hnd Hgroups Hlen.
  - split; [done|]. intros j p Hj. cbn [fold_left map].
    unfold attached. destruct (m !! j) as [old|]; [|done]. cbn.
    destruct (key_of p); [|done]. rewrite decide_False; [done|apply not_elem_of_nil].
  - cbn [map fst] in Hnd. apply NoDup_cons in Hnd as [Hk0 Hnd].
    assert (g0 = group_of photos k0) as Hg0 by (apply Hgroups; left).
    cbn [fold_left].
    set (m1 := attach_variants gi m (k0, g0)).
    assert (length m1 = length m) as Hlen1 by apply attach_variants_length.
    destruct (IH m1 Hnd) as [IHlen IHlookup].
    { intros k g Hin. apply Hgroups. by right. }
    { lia. }
    split; [lia|]. intros j p Hj. rewrite (IHlookup j p Hj).
    assert (j < length m) as Hjm by (rewrite Hlen; by eapply lookup_lt_Some).
    destruct (lookup_lt_is_Some_2 m j Hjm) as [old Hold]. rewrite Hold.
    assert (key_of p <> Some k0 -> m1 !! j = Some old) as Hother.
    { intros Hp. unfold m1, attach_variants. destruct (length g0 <? 2); [done|].
      destruct (map_get gi k0) as [i|] eqn:Hi; [|done].
      destruct g0 as [|first rest]; [done|].
      rewrite list_lookup_insert_ne; [done|]. intros <-.
      rewrite Hgi in Hi.
      destruct (list_find _ (firsts photos)) as [[i' q]|] eqn:Hfind; [|done].
      injection Hi as ->. apply list_find_Some in Hfind as (Hq & Hkq & _).
      rewrite Hj in Hq. injection Hq as <-. congruence. }
    cbn [map fst].
    destruct (decide (key_of p = Some k0)) as [Hp|Hp].
    + (* the entry of the stem of [p] *)
      assert (m1 !! j = Some (shown photos k0 old)) as ->.
      { unfold m1, attach_variants, shown. rewrite <- Hg0.
        rewrite Hgi, (firsts_position photos j p k0 Hj Hp).
        cbn [fmap option_fmap option_map fst].
        destruct g0 as [|first [|second rest]]; cbn [length Nat.ltb Nat.leb]; [done..|].
        by rewrite list_lookup_insert_eq by lia. }
      cbn [fmap option_fmap option_map]. f_equal. unfold attached. rewrite Hp.
      rewrite (decide_False (P := k0 ∈ map fst es)) by done.
      by rewrite (decide_True (P := k0 ∈ k0 :: map fst es)) by left.
    + rewrite (Hother Hp). cbn [fmap option_fmap option_map]. f_equal.
      unfold attached. destruct (key_of p) as [k|]; [|done].
      destruct (decide (k ∈ map fst es)) as [Hin|Hout].
      * by rewrite decide_True by (by right).
      * rewrite decide_False; [done|]. intros [->|?]%elem_of_cons; done.
Qed.

Lemma merge_as_documented photos :
  mergePanoramaPhotoVariants photos = documented_merge photos.
Proof.
  unfold mergePanoramaPhotoVariants. cbv zeta.
  destruct (first_loop_grouped photos [] (MkMerge [] [] [])) as (Hm & Hgp & Hgi & Hnd).
  { split; [done|]. split; [done|]. split; [done|constructor]. }
  cbn [app] in *.
  set (st := fold_left add_photo photos (MkMerge [] [] [])) in *.
  destruct (second_loop_lookup photos (groupIndexByKey st) Hgi (groupPhotosByKey st)
              (merged st) Hnd) as [Hlen Hlookup].
  { intros k g Hin. apply (elem_map_get _ _ _ Hnd) in Hin. rewrite Hgp in Hin.
    destruct (group_of photos k); [discriminate|]. by injection Hin as <-. }
  { by rewrite Hm, length_fmap. }
  apply list_eq. intros j. unfold documented_merge.
  destruct (firsts photos !! j) as [p|] eqn:Hj.
  - rewrite (Hlookup j p Hj), Hm, !list_lookup_fmap, Hj. cbn. f_equal.
    unfold attached, variants_of, plain.
    destruct (key_of p) as [k|] eqn:Hp; [|done].
    pose proof (firsts_head photos j p k Hj Hp) as Hhead.
    rewrite decide_True.
    + unfold shown. destruct (group_of photos k) as [|first [|second rest]]; [done| |].
      * done.
      * cbn in Hhead. by injection Hhead as ->.
    + destruct (decide (k ∈ map fst (groupPhotosByKey st))) as [|Hout]; [done|].
      apply map_get_None in Hout. rewrite Hgp in Hout.
      destruct (group_of photos k); [discriminate Hhead|discriminate].
  - rewrite list_lookup_fmap, Hj. cbn. apply lookup_ge_None.
    rewrite Hlen, Hm, length_fmap. by apply lookup_ge_None.
Qed.

Lemma firsts_length l : length (firsts l) <= length l.
Proof.
  induction l as [|p l IH] using rev_ind; [done|].
  rewrite firsts_snoc, length_app. cbn.
  destruct (keep_cases (firsts l) p) as [[-> _]|[-> _]]; [lia|].
  rewrite length_app. cbn. lia.
Qed.

Lemma firsts_no_key l p : p ∈ l -> key_of p = None -> p ∈ firsts l.
Proof.
  induction l as [|q l IH] using rev_ind; [done|].
  rewrite firsts_snoc, elem_of_app. intros [Hin| ->%list_elem_of_singleton] Hp.
  - destruct (keep_cases (firsts l) q) as [[-> _]|[-> _]]; [auto|].
    rewrite elem_of_app. auto.
  - unfold keep. rewrite Hp. rewrite elem_of_app. right. by apply list_elem_of_singleton.
Qed.

(** [mergePanoramaPhotoVariants] shows, in the order of the list, every
    photo that is no panorama and the first photo of every panorama stem
    (the storage key without its extension); a first photo whose stem
    comes again carries the later photos of that stem, in their order, as
    its [panoramaVariants], and the other photos shown carry none. *)
Theorem mergePanoramaPhotoVariants_documented (photos : list Photo) :
  mergePanoramaPhotoVariants photos = documented_merge photos /\
  base <$> mergePanoramaPhotoVariants photos = firsts photos /\
  length (mergePanoramaPhotoVariants photos) <= length photos /\
  (forall p, p ∈ photos -> key_of p = None ->
     MkDisplay p None ∈ mergePanoramaPhotoVariants photos).
Proof.
  rewrite merge_as_documented. unfold documented_merge.
  split; [done|]. split; [|split].
  - rewrite <- list_fmap_compose. cbn. apply list_fmap_id.
  - rewrite length_fmap. apply firsts_length.
  - intros p Hin Hp. apply list_elem_of_fmap. exists p. split.
    + unfold variants_of. by rewrite Hp.
    + by apply firsts_no_key.
Qed.

(** No photo is lost by the merge: every photo of the list is found by
    its id in the merged list, as the photo shown or as one of its
    variants. *)
Theorem merged_photo_found (photos : list Photo) (p : Photo) :
  p ∈ photos ->
  exists shown_photo,
    findDisplayPhotoById (mergePanoramaPhotoVariants photos) (id p) = Some shown_photo /\
    photoMatchesId shown_photo (id p) = true /\
    (0 <= findDisplayPhotoIndexById (mergePanoramaPhotoVariants photos) (id p)
       < Z.of_nat (length (mergePanoramaPhotoVariants photos)))%Z.
Proof.
  intros Hin. rewrite merge_as_documented.
  assert (exists d, d ∈ documented_merge photos /\ photoMatchesId d (id p) = true)
    as (d & Hd & Hmatch).
  { destruct (key_of p) as [k|] eqn:Hp.
    - assert (Some k ∈ key_of <$> firsts photos) as Hseen.
      { apply firsts_keys. apply list_elem_of_fmap. eauto. }
      apply list_elem_of_fmap in Hseen as (q & Hq & Hqin).
      apply list_elem_of_lookup in Hqin as [i Hi].
      pose proof (firsts_head photos i q k Hi (eq_sym Hq)) as Hhead.
      assert (p ∈ group_of photos k) as Hpg by (by apply group_elem).
      exists (MkDisplay q (variants_of photos q)). split.
      + apply list_elem_of_fmap. exists q. split; [done|]. by eapply list_elem_of_lookup_2.
      + unfold photoMatchesId, variants_of. cbn [base panoramaVariants].
        rewrite <- Hq.
        destruct (group_of photos k) as [|first [|second rest]]; [done| |].
        * cbn in Hhead. injection Hhead as ->.
          apply list_elem_of_singleton in Hpg as ->. by rewrite bool_decide_eq_true_2.
        * cbn in Hhead. injection Hhead as ->.
          apply elem_of_cons in Hpg as [->|Hrest]; [by rewrite bool_decide_eq_true_2|].
          destruct (bool_decide (id q = id p)); [done|].
          apply existsb_exists. exists p. split; [by apply list_elem_of_In|].
          by apply bool_decide_eq_true_2.
    - exists (MkDisplay p None). split.
      + apply list_elem_of_fmap. exists p. split; [|by apply firsts_no_key].
        unfold variants_of. by rewrite Hp.
      + unfold photoMatchesId. cbn [base]. by rewrite bool_decide_eq_true_2. }
  unfold findDisplayPhotoById, findDisplayPhotoIndexById.
  destruct (List.find _ (documented_merge photos)) as [found|] eqn:Hfind.
  - exists found. split; [done|]. split; [by apply find_some in Hfind as [_ ?]|].
    destruct (list_find _ (documented_merge photos)) as [[index y]|] eqn:Hindex.
    + apply list_find_Some in Hindex as (Hy & _). apply lookup_lt_Some in Hy. lia.
    + apply list_find_None in Hindex. rewrite Forall_forall in Hindex.
      by destruct (Hindex d Hd).
  - exfalso. pose proof (find_none _ _ Hfind d) as Hno.
    rewrite Hno in Hmatch; [done|]. by apply list_elem_of_In.
Qed.

End merge.

(** File names (or storage keys) with the ids of three photos: two
    variants of one panorama and a picture. *)
Definition sample_photos : list (string * option string) :=
  [("a", Some "photos/sky.HDR"); ("b", Some "photos/cat.jpg"); ("c", Some "photos/sky.exr")].

Lemma merged_photo_found_witness :
  exists shown_photo,
    findDisplayPhotoById fst (mergePanoramaPhotoVariants snd sample_photos) "c"
      = Some shown_photo /\
    photoMatchesId fst shown_photo "c" = true /\
    (0 <= findDisplayPhotoIndexById fst (mergePanoramaPhotoVariants snd sample_photos) "c"
       < Z.of_nat (length (mergePanoramaPhotoVariants snd sample_photos)))%Z.
Proof.
  apply (merged_photo_found fst snd sample_photos ("c", Some "photos/sky.exr")).
  unfold sample_photos. set_solver.
Defined.

Lemma merge_sample_photos :
  mergePanoramaPhotoVariants snd sample_photos =
    [MkDisplay ("a", Some "photos/sky.HDR") (Some [("c", Some "photos/sky.exr")]);
     MkDisplay ("b", Some "photos/cat.jpg") None].
Proof. vm_compute. reflexivity. Qed.

(** *** The two parts of a storage key *)

Fixpoint dot_free (s : string) : bool :=
  match s with
  | EmptyString => true
  | String c s' => negb (bool_decide (c = "."%char)) && dot_free s'
  end.

Lemma lastIndexOf_from_dot_free s i found :
  dot_free s = true -> lastIndexOf_from s i found = found.
Proof.
  revert i found. induction s as [|c s IH]; intros i found Hs; [done|].
  cbn in Hs. apply andb_true_iff in Hs as [Hc Hs]. cbn [lastIndexOf_from].
  destruct (bool_decide (c = "."%char)); [done|]. by apply IH.
Qed.

Lemma lastIndexOf_from_last_dot stem ext i found :
  dot_free ext = true ->
  lastIndexOf_from (stem +:+ String "." ext) i found = Some (i + String.length stem).
Proof.
  intros Hext. revert i found. induction stem as [|c stem IH]; intros i found.
  - change (lastIndexOf_from ext (S i) (Some i) = Some (i + 0)).
    rewrite lastIndexOf_from_dot_free by done. f_equal. lia.
  - change (lastIndexOf_from (stem +:+ String "." ext) (S i)
              (if bool_decide (c = "."%char) then Some i else found)
            = Some (i + S (String.length stem))).
    rewrite IH. f_equal. lia.
Qed.

Lemma substring_prefix stem rest :
  String.substring 0 (String.length stem) (stem +:+ rest) = stem.
Proof.
  induction stem as [|c stem IH].
  - by destruct rest.
  - change (String c (String.substring 0 (String.length stem) (stem +:+ rest))
            = String c stem).
    by rewrite IH.
Qed.

Lemma substring_whole s : String.substring 0 (String.length s) s = s.
Proof. induction s as [|c s IH]; cbn; [done|by rewrite IH]. Qed.

Lemma substring_suffix stem ext :
  String.substring (String.length stem + 1)
      (String.length (stem +:+ String "." ext) - (String.length stem + 1))
      (stem +:+ String "." ext)
    = ext.
Proof.
  induction stem as [|c stem IH].
  - change (String.substring 0 (String.length ext - 0) ext = ext).
    rewrite Nat.sub_0_r. apply substring_whole.
  - exact IH.
Qed.



End PhotoVariants.

(** ** OpenEXR: the header

    The names and types of attributes and the names of channels are text
    decoded from bytes; as for the Radiance header, the text of bytes
    below [0x80] is modelled. *)
Module ExrHeaderParse.
Import JsString HdrHeader ExrChannels ExrBlocks ExrTransforms.

(** The [while] loop of [readNullTerminatedString]: index of the first
    zero byte at or after [stop], or the length of the buffer. *)
Fixpoint scan_zero (rest : bytes) (stop : nat) : nat :=
  match rest with
  | [] => stop
  | c :: rest' => if bool_decide (c = 0%Z) then stop else scan_zero rest' (S stop)
  end.

(** [readNullTerminatedString(bytes, offset)] returns [{ value, next }]. *)
Definition readNullTerminatedString (b : bytes) (offset : nat) : string * nat :=
  let stop := scan_zero (drop offset b) offset in
  (decodeText (slice b offset stop), stop + 1).

Definition readUint32LE (b : bytes) (offset : nat) : result Z :=
  getUint32 b (Z.of_nat offset).

(** The channel that one turn of the loop of [parseChannels] pushes,
    read at the offset that follows the name. *)
Definition read_channel (value : bytes) (name : string) (off : nat) : result EXRChannel :=
  pixelType ← readInt32LE value (Z.of_nat off);
  xSampling ← readInt32LE value (Z.of_nat (off + 8));
  ySampling ← readInt32LE value (Z.of_nat (off + 12));
  Ok (MkChannel name pixelType xSampling ySampling).

(** The loop of [parseChannels], unrolled at most [fuel] times. *)
Fixpoint parseChannels_loop (fuel : nat) (value : bytes) (off : nat)
    (channels : list EXRChannel) : option (result (list EXRChannel)) :=
  match fuel with
  | O => None
  | S fuel' =>
      if decide (off < length value) then
        let '(name, next) := readNullTerminatedString value off in
        let off := next in
        if bool_decide (name = EmptyString) then Some (Ok channels)
        else if decide (length value < off + 16) then
          Some (Throw (Error "Invalid EXR channels"))
        else
          match read_channel value name off with
          | Throw e => Some (Throw e)
          | Ok ch => parseChannels_loop fuel' value (off + 16) (channels ++ [ch])
          end
      else Some (Ok channels)
  end.

(** [parseChannels(value)]. *)
Definition parseChannels (value : bytes) : option (result (list EXRChannel)) :=
  match parseChannels_loop (S (length value)) value 0 [] with
  | Some (Ok []) => Some (Throw (Error "EXR has no channels"))
  | r => r
  end.

Record Box2i := MkBox { minX : Z; minY : Z; maxX : Z; maxY : Z }.

(** [parseBox2i(view, offset)]. *)
Definition parseBox2i (view : bytes) (offset : Z) : result Box2i :=
  minX ← readInt32LE view offset;
  minY ← readInt32LE view (offset + 4);
  maxX ← readInt32LE view (offset + 8);
  maxY ← readInt32LE view (offset + 12);
  Ok (MkBox minX minY maxX maxY).

(** The variables [dataWindow], [channels], [compression] and [hasTiles]
    of [parseHeader]. *)
Record HeaderVars := MkVars {
  dataWindow : option Box2i;
  found_channels : option (list EXRChannel);
  found_compression : EXRCompression;
  hasTiles : bool
}.

Definition no_attribute : HeaderVars := MkVars None None none false.

(** What the loop of [parseHeader] does with the attribute it has read. *)
Definition apply_attribute (vars : HeaderVars) (name type : string) (size : Z) (value : bytes)
  : option (result HeaderVars) :=
  if bool_decide (name = "dataWindow") && bool_decide (type = "box2i") && (size =? 16)%Z then
    Some (box ← parseBox2i value 0;
          Ok (MkVars (Some box) (found_channels vars) (found_compression vars) (hasTiles vars)))
  else if bool_decide (name = "channels") && bool_decide (type = "chlist") then
    match parseChannels value with
    | None => None
    | Some r =>
        Some (channels ← r;
              Ok (MkVars (dataWindow vars) (Some channels) (found_compression vars)
                    (hasTiles vars)))
    end
  else if bool_decide (name = "compression") && bool_decide (type = "compression")
          && (size =? 1)%Z then
    Some (compression ←
            match value !! 0 with
            | Some 0%Z => Ok none
            | Some 2%Z => Ok zips
            | Some 3%Z => Ok zip
            | _ => Throw (Error "Unsupported EXR compression")
            end;
          Ok (MkVars (dataWindow vars) (found_channels vars) compression (hasTiles vars)))
  else if bool_decide (name = "tiles") then
    Some (Ok (MkVars (dataWindow vars) (found_channels vars) (found_compression vars) true))
  else Some (Ok vars).

(** The loop of [parseHeader], unrolled at most [fuel] times: the
    variables and the offset when the loop is left. *)
Fixpoint header_attributes (fuel : nat) (b : bytes) (off : nat) (vars : HeaderVars)
  : option (result (HeaderVars * nat)) :=
  match fuel with
  | O => None
  | S fuel' =>
      if decide (off < length b) then
        let '(name, next) := readNullTerminatedString b off in
        let off := next in
        if bool_decide (name = EmptyString) then Some (Ok (vars, off))
        else
          let '(type, next2) := readNullTerminatedString b off in
          let off := next2 in
          if decide (length b < off + 4) then Some (Throw (Error "Invalid EXR header"))
          else
            match readUint32LE b off with
            | Throw e => Some (Throw e)
            | Ok size =>
                let off := off + 4 in
                let stop := off + Z.to_nat size in
                if decide (length b < stop) then
                  Some (Throw (Error "Invalid EXR header attribute size"))
                else
                  match apply_attribute vars name type size (slice b off stop) with
                  | None => None
                  | Some (Throw e) => Some (Throw e)
                  | Some (Ok vars') => header_attributes fuel' b stop vars'
                  end
            end
      else Some (Ok (vars, off))
  end.

(** The checks that follow the loop. *)
Definition finish_header (vars : HeaderVars) (off : nat) : result EXRHeader :=
  if hasTiles vars then Throw (Error "Tiled EXR is not supported")
  else
    match dataWindow vars with
    | None => Throw (Error "EXR missing dataWindow")
    | Some box =>
        match found_channels vars with
        | None => Throw (Error "EXR missing channels")
        | Some channels =>
            let width := (maxX box - minX box + 1)%Z in
            let height := (maxY box - minY box + 1)%Z in
            if ((width <=? 0) || (height <=? 0))%Z then Throw (Error "Invalid EXR dataWindow")
            else Ok (MkHeader width height (minX box) (minY box) channels
                       (found_compression vars) (Z.of_nat off))
        end
    end.

(** [parseHeader(buffer)]. *)
Definition parseHeader (b : bytes) : option (result EXRHeader) :=
  match readUint32LE b 0 with
  | Throw e => Some (Throw e)
  | Ok magic =>
      if negb (magic =? 20000630)%Z then Some (Throw (Error "Invalid EXR signature"))
      else
        match header_attributes (S (length b)) b 8 no_attribute with
        | None => None
        | Some (Throw e) => Some (Throw e)
        | Some (Ok (vars, off)) => Some (finish_header vars off)
        end
  end.

(** [readEXRMetadata(buffer)]. *)
Definition readEXRMetadata (b : bytes) : option (result PanoramaMetadata) :=
  match parseHeader b with
  | None => None
  | Some r =>
      Some (header ← r; Ok (Metadata exr (ExrBlocks.width header) (ExrBlocks.height header)))
  end.

(** The [exr] branch of [validatePanoramaBuffer(format, buffer)], and the
    function itself. *)
Definition validatePanoramaBuffer_exr (b : bytes) : result Validation :=
  if decide (length b < 8) then Ok (ValidationFailed "Invalid EXR header")
  else
    magic ← getUint32 b 0;
    if negb (magic =? 20000630)%Z then Ok (ValidationFailed "Invalid EXR signature")
    else Ok ValidationOk.

Definition validatePanoramaBuffer (format : PanoramaFormat) (b : bytes) : result Validation :=
  match format with
  | hdr => Ok (validatePanoramaBuffer_hdr b)
  | exr => validatePanoramaBuffer_exr b
  end.

(** *** Termination *)

Lemma scan_zero_ge rest n : n <= scan_zero rest n <= n + length rest.
Proof.
  revert n. induction rest as [|c rest IH]; intros n; cbn [scan_zero length]; [lia|].
  destruct (bool_decide _); [lia|]. specialize (IH (S n)). lia.
Qed.

Lemma readNullTerminatedString_next b offset :
  offset < (readNullTerminatedString b offset).2 <= S (Nat.max offset (length b)).
Proof.
  unfold readNullTerminatedString. cbn [snd].
  pose proof (scan_zero_ge (drop offset b) offset) as H. rewrite length_drop in H. lia.
Qed.

Lemma parseChannels_loop_total fuel : forall value off channels,
  length value - off < fuel ->
  exists r, parseChannels_loop fuel value off channels = Some r.
Proof.
  induction fuel as [|fuel IH]; intros value off channels Hfuel; [lia|].
  cbn [parseChannels_loop].
  destruct (decide (off < length value)); [|eauto].
  pose proof (readNullTerminatedString_next value off) as Hnext.
  destruct (readNullTerminatedString value off) as [name next]. cbn [snd] in Hnext.
  destruct (bool_decide (name = EmptyString)); [eauto|].
  destruct (decide (length value < next + 16)); [eauto|].
  destruct (read_channel value name next); [|eauto].
  apply IH. lia.
Qed.

Lemma parseChannels_total value : exists r, parseChannels value = Some r.
Proof.
  unfold parseChannels.
  destruct (parseChannels_loop_total (S (length value)) value 0 [] ltac:(lia)) as [r ->].
  destruct r as [[|ch chs]|e]; eauto.
Qed.

Lemma apply_attribute_total vars name type size value :
  exists r, apply_attribute vars name type size value = Some r.
Proof.
  unfold apply_attribute.
  destruct (_ && _ && _); [eauto|].
  destruct (_ && _).
  { destruct (parseChannels_total value) as [r ->]. eauto. }
  destruct (_ && _ && _); [eauto|].
  destruct (bool_decide _); eauto.
Qed.

Lemma header_attributes_total fuel : forall b off vars,
  length b - off < fuel ->
  exists r, header_attributes fuel b off vars = Some r.
Proof.
  induction fuel as [|fuel IH]; intros b off vars Hfuel; [lia|].
  cbn [header_attributes].
  destruct (decide (off < length b)); [|eauto].
  pose proof (readNullTerminatedString_next b off) as Hnext.
  destruct (readNullTerminatedString b off) as [name next]. cbn [snd] in Hnext.
  destruct (bool_decide (name = EmptyString)); [eauto|].
  pose proof (readNullTerminatedString_next b next) as Hnext2.
  destruct (readNullTerminatedString b next) as [type next2]. cbn [snd] in Hnext2.
  destruct (decide (length b < next2 + 4)); [eauto|].
  destruct (readUint32LE b next2) as [size|]; [|eauto].
  destruct (decide (length b < next2 + 4 + Z.to_nat size)); [eauto|].
  destruct (apply_attribute_total vars name type size
              (slice b (next2 + 4) (next2 + 4 + Z.to_nat size))) as [[vars'|e] ->]; [|eauto].
  apply IH. lia.
Qed.

(** [parseHeader], and [readEXRMetadata] with it, returns or throws on
    every buffer: each turn of the loop over the attributes, and of the
    loop over the channels, moves the offset forward. *)
Theorem parseHeader_terminates (b : bytes) :
  (exists r, parseHeader b = Some r) /\
  (exists r, readEXRMetadata b = Some r) /\
  (forall value, exists r, parseChannels value = Some r) /\
  (forall offset, offset < (readNullTerminatedString b offset).2).
Proof.
  assert (exists r, parseHeader b = Some r) as [r Hr].
  { unfold parseHeader. destruct (readUint32LE b 0) as [magic|]; [|eauto].
    destruct (negb _); [eauto|].
    destruct (header_attributes_total (S (length b)) b 8 no_attribute ltac:(lia))
      as [[[vars off]|e] ->]; eauto. }
  split; [eauto|]. split; [|split].
  - unfold readEXRMetadata. rewrite Hr. eauto.
  - apply parseChannels_total.
  - intros offset. apply readNullTerminatedString_next.
Qed.

(** *** What an accepted header holds *)

Lemma view_bytes_four view offset bs :
  Forall is_byte view -> view_bytes view offset 4 = Ok bs ->
  (0 <= little_endian bs < 2 ^ 32)%Z.
Proof.
  intros Hb. unfold view_bytes.
  destruct ((offset <? 0)%Z || _) eqn:Hcheck; [discriminate|].
  apply orb_false_iff in Hcheck as [Hneg Hlen].
  apply Z.ltb_ge in Hneg, Hlen. intros [= <-].
  assert (Forall is_byte (take 4 (drop (Z.to_nat offset) view))) as Hsub
    by (by apply Forall_take, Forall_drop).
  assert (length (take 4 (drop (Z.to_nat offset) view)) = 4) as Hl
    by (rewrite length_take, length_drop; lia).
  destruct (take 4 (drop (Z.to_nat offset) view)) as [|b0 [|b1 [|b2 [|b3 [|b4 rest]]]]];
    try discriminate.
  repeat (apply Forall_cons in Hsub as [? Hsub]). unfold is_byte in *.
  cbn [little_endian fold_right]. lia.
Qed.

Lemma readInt32LE_range view offset v :
  Forall is_byte view -> readInt32LE view offset = Ok v -> (- 2 ^ 31 <= v < 2 ^ 31)%Z.
Proof.
  intros Hb. unfold readInt32LE, getUint32.
  destruct (view_bytes view offset 4) as [bs|] eqn:Hview; [|discriminate].
  pose proof (view_bytes_four _ _ _ Hb Hview) as Hr. cbn.
  intros [= <-]. destruct (Z.ltb_spec (little_endian bs) (2 ^ 31)); lia.
Qed.

Definition int32 (v : Z) : Prop := (- 2 ^ 31 <= v < 2 ^ 31)%Z.

(** What the loop of [parseHeader] keeps true of its variables. *)
Definition vars_ok (vars : HeaderVars) : Prop :=
  (forall box, dataWindow vars = Some box ->
     int32 (minX box) /\ int32 (minY box) /\ int32 (maxX box) /\ int32 (maxY box)) /\
  (forall channels, found_channels vars = Some channels -> channels <> []).

Lemma parseBox2i_range view offset box :
  Forall is_byte view -> parseBox2i view offset = Ok box ->
  int32 (minX box) /\ int32 (minY box) /\ int32 (maxX box) /\ int32 (maxY box).
Proof.
  intros Hb. unfold parseBox2i.
  destruct (readInt32LE view offset) as [x0|] eqn:H0; cbn; [|discriminate].
  destruct (readInt32LE view (offset + 4)) as [y0|] eqn:H1; cbn; [|discriminate].
  destruct (readInt32LE view (offset + 8)) as [x1|] eqn:H2; cbn; [|discriminate].
  destruct (readInt32LE view (offset + 12)) as [y1|] eqn:H3; cbn; [|discriminate].
  intros [= <-]. cbn [minX minY maxX maxY]. unfold int32.
  repeat split; eapply readInt32LE_range; eauto.
Qed.

Lemma parseChannels_nonempty value channels :
  parseChannels value = Some (Ok channels) -> channels <> [].
Proof.
  unfold parseChannels.
  destruct (parseChannels_loop _ value 0 []) as [[[|ch chs]|e]|]; try discriminate.
  by intros [= <-].
Qed.

Lemma apply_attribute_ok vars name type size value vars' :
  Forall is_byte value -> vars_ok vars ->
  apply_attribute vars name type size value = Some (Ok vars') -> vars_ok vars'.
Proof.
  intros Hb [Hbox Hch]. unfold apply_attribute.
  destruct (_ && _ && _).
  { destruct (parseBox2i value 0) as [box|] eqn:Hparse; cbn; [|discriminate].
    intros [= <-]. split; cbn [dataWindow found_channels]; [|done].
    intros box' [= <-]. by eapply parseBox2i_range. }
  destruct (_ && _).
  { destruct (parseChannels value) as [[channels|e]|] eqn:Hparse; cbn; [|discriminate..].
    intros [= <-]. split; cbn [dataWindow found_channels]; [done|].
    intros channels' [= <-]. by eapply parseChannels_nonempty. }
  destruct (_ && _ && _).
  { destruct (match value !! 0 with Some 0%Z => _ | _ => _ end) as [c|]; cbn; [|discriminate].
    by intros [= <-]. }
  destruct (bool_decide _); by intros [= <-].
Qed.

Lemma header_attributes_ok fuel : forall b off vars vars' off',
  Forall is_byte b -> vars_ok vars ->
  header_attributes fuel b off vars = Some (Ok (vars', off')) -> vars_ok vars'.
Proof.
  induction fuel as [|fuel IH]; intros b off vars vars' off' Hb Hok Hrun; [discriminate|].
  cbn [header_attributes] in Hrun.
  destruct (decide (off < length b)); [|by injection Hrun as <- <-].
  destruct (readNullTerminatedString b off) as [name next].
  destruct (bool_decide (name = EmptyString)); [by injection Hrun as <- <-|].
  destruct (readNullTerminatedString b next) as [type next2].
  destruct (decide (length b < next2 + 4)); [discriminate|].
  destruct (readUint32LE b next2) as [size|]; [|discriminate].
  destruct (decide (length b < next2 + 4 + Z.to_nat size)); [discriminate|].
  destruct (apply_attribute vars name type size _) as [[vars1|e]|] eqn:Happly;
    [|discriminate..].
  apply (IH _ _ _ _ _ Hb) in Hrun; [done|].
  eapply apply_attribute_ok; [|done|exact Happly].
  unfold slice. by apply Forall_take, Forall_drop.
Qed.

(** A header that [parseHeader] accepts describes an image of positive
    width and height, each at most [2^32], with at least one channel; the
    buffer is one that [validatePanoramaBuffer] accepts as EXR, and
    [readEXRMetadata] returns these dimensions. *)
Theorem parseHeader_accepted (b : bytes) (header : EXRHeader) :
  Forall is_byte b ->
  parseHeader b = Some (Ok header) ->
  (0 < ExrBlocks.width header <= 2 ^ 32)%Z /\
  (0 < ExrBlocks.height header <= 2 ^ 32)%Z /\
  channels header <> [] /\
  validatePanoramaBuffer exr b = Ok ValidationOk /\
  readEXRMetadata b
    = Some (Ok (Metadata exr (ExrBlocks.width header) (ExrBlocks.height header))).
Proof.
  intros Hb Hparse.
  assert (readEXRMetadata b
            = Some (Ok (Metadata exr (ExrBlocks.width header) (ExrBlocks.height header))))
    as Hmeta by (unfold readEXRMetadata; by rewrite Hparse).
  unfold parseHeader in Hparse. unfold readUint32LE in Hparse.
  destruct (getUint32 b (Z.of_nat 0)) as [magic|] eqn:Hmagic; [|discriminate].
  destruct (negb (magic =? 20000630)%Z) eqn:Hsig; [discriminate|].
  destruct (header_attributes _ b 8 no_attribute) as [[[vars off]|e]|] eqn:Hloop;
    [|discriminate..].
  injection Hparse as Hfinish.
  assert (vars_ok no_attribute) as Hinit by (split; intros ? [=]).
  destruct (header_attributes_ok _ _ _ _ _ _ Hb Hinit Hloop) as [Hbox Hch].
  unfold finish_header in Hfinish.
  destruct (hasTiles vars); [discriminate|].
  destruct (dataWindow vars) as [box|] eqn:Hwindow; [|discriminate].
  destruct (found_channels vars) as [chs|] eqn:Hchs; [|discriminate].
  destruct (((maxX box - minX box + 1 <=? 0) || (maxY box - minY box + 1 <=? 0))%Z) eqn:Hdims;
    [discriminate|].
  injection Hfinish as <-. cbn [ExrBlocks.width ExrBlocks.height channels].
  apply orb_false_iff in Hdims as [Hw Hh]. apply Z.leb_gt in Hw, Hh.
  destruct (Hbox box eq_refl) as (H1 & H2 & H3 & H4). unfold int32 in *.
  split; [lia|]. split; [lia|]. split; [by apply Hch|]. split; [|exact Hmeta].
  assert (8 < length b) as Hlen.
  { destruct (decide (8 < length b)) as [|Hshort]; [done|]. exfalso.
    cbn [header_attributes] in Hloop. rewrite decide_False in Hloop by done.
    injection Hloop as <- _. discriminate. }
  cbn [validatePanoramaBuffer]. unfold validatePanoramaBuffer_exr.
  rewrite decide_False by lia. change (Z.of_nat 0) with 0%Z in Hmagic.
  rewrite Hmagic. cbn. by rewrite Hsig.
Qed.

(** *** Reading back a header written attribute by attribute *)

(** The [n] bytes of [v], the least significant first. *)
Fixpoint le_bytes (n : nat) (v : Z) : bytes :=
  match n with
  | O => []
  | S n' => (v mod 256)%Z :: le_bytes n' (v / 256)%Z
  end.

(** A text followed by its terminating zero byte. *)
Definition text0 (s : string) : bytes := encodeText s ++ [0%Z].

(** A text that holds no zero character. *)
Definition zero_free (s : string) : Prop := 0%Z ∉ encodeText s.

Record Attribute := MkAttribute {
  attr_name : string;
  attr_type : string;
  attr_value : bytes
}.

(** The bytes of an attribute in the file: name, type, size of the
    value on 32 bits, value. *)
Definition attribute_bytes (a : Attribute) : bytes :=
  text0 (attr_name a) ++ text0 (attr_type a)
    ++ le_bytes 4 (Z.of_nat (length (attr_value a))) ++ attr_value a.

Definition attributes_bytes (attrs : list Attribute) : bytes :=
  concat (map attribute_bytes attrs).

(** An attribute that a writer can put in a header: its name and its
    type are texts of the ASCII range without a zero character, the name
    is not empty, and the size of the value fits 32 bits. *)
Definition attribute_ok (a : Attribute) : Prop :=
  attr_name a <> EmptyString /\
  ascii_text (attr_name a) = true /\ zero_free (attr_name a) /\
  ascii_text (attr_type a) = true /\ zero_free (attr_type a) /\
  (Z.of_nat (length (attr_value a)) < 2 ^ 32)%Z.

(** The variables after the attributes [attrs] were met in this order. *)
Fixpoint apply_attributes (vars : HeaderVars) (attrs : list Attribute)
  : option (result HeaderVars) :=
  match attrs with
  | [] => Some (Ok vars)
  | a :: rest =>
      match apply_attribute vars (attr_name a) (attr_type a)
              (Z.of_nat (length (attr_value a))) (attr_value a) with
      | Some (Ok vars') => apply_attributes vars' rest
      | r => r
      end
  end.

Lemma scan_zero_stop l rest n :
  0%Z ∉ l -> scan_zero (l ++ 0%Z :: rest) n = n + length l.
Proof.
  revert n. induction l as [|c l IH]; intros n Hnz; cbn [scan_zero app length].
  - rewrite bool_decide_eq_true_2 by done. lia.
  - apply not_elem_of_cons in Hnz as [Hc Hl].
    rewrite bool_decide_eq_false_2 by done. rewrite IH by done. lia.
Qed.

Lemma readNullTerminatedString_text pre s rest :
  ascii_text s = true -> zero_free s ->
  readNullTerminatedString (pre ++ text0 s ++ rest) (length pre)
    = (s, length (pre ++ text0 s)).
Proof.
  intros Ha Hz. unfold readNullTerminatedString, text0.
  rewrite <- !app_assoc. cbn [app].
  rewrite drop_app_length, scan_zero_stop by done.
  rewrite slice_middle, decodeText_encodeText by done. f_equal.
  rewrite !length_app. cbn [length]. lia.
Qed.

Lemma little_endian_le_bytes n : forall v,
  (0 <= v < 256 ^ Z.of_nat n)%Z -> little_endian (le_bytes n v) = v.
Proof.
  induction n as [|n IH]; intros v Hv.
  - cbn in *. lia.
  - cbn [le_bytes little_endian fold_right]. fold (little_endian (le_bytes n (v / 256))).
    rewrite IH.
    + pose proof (Z.div_mod v 256). lia.
    + rewrite Nat2Z.inj_succ, Z.pow_succ_r in Hv by lia.
      split; [apply Z.div_pos; lia|]. apply Z.div_lt_upper_bound; lia.
Qed.

Lemma le_bytes_length n v : length (le_bytes n v) = n.
Proof. revert v. induction n as [|n IH]; intros v; cbn; [done|]. by rewrite IH. Qed.

Lemma getUint32_le_bytes pre v rest :
  (0 <= v < 2 ^ 32)%Z ->
  getUint32 (pre ++ le_bytes 4 v ++ rest) (Z.of_nat (length pre)) = Ok v.
Proof.
  intros Hv. unfold getUint32, view_bytes.
  replace ((Z.of_nat (length pre) <? 0)%Z) with false by (symmetry; apply Z.ltb_ge; lia).
  replace ((Z.of_nat (length (pre ++ le_bytes 4 v ++ rest))
            <? Z.of_nat (length pre) + Z.of_nat 4)%Z) with false.
  2: { symmetry. apply Z.ltb_ge. rewrite !length_app, le_bytes_length. lia. }
  cbn [orb]. rewrite Nat2Z.id, drop_app_length.
  rewrite take_app_length' by (by rewrite le_bytes_length).
  cbn [fmap result_fmap]. f_equal. apply (little_endian_le_bytes 4). lia.
Qed.

Lemma header_attributes_read (attrs : list Attribute) : forall pre rest vars fuel,
  Forall attribute_ok attrs ->
  length attrs < fuel ->
  header_attributes fuel (pre ++ attributes_bytes attrs ++ 0%Z :: rest) (length pre) vars
    = match apply_attributes vars attrs with
      | None => None
      | Some (Throw e) => Some (Throw e)
      | Some (Ok vars') =>
          Some (Ok (vars', length (pre ++ attributes_bytes attrs) + 1))
      end.
Proof.
  induction attrs as [|a attrs IH]; intros pre rest vars fuel Hok Hfuel.
  - destruct fuel as [|fuel]; [cbn in Hfuel; lia|].
    unfold attributes_bytes. cbn [map concat app apply_attributes header_attributes].
    rewrite decide_True by (rewrite length_app; cbn; lia).
    pose proof (readNullTerminatedString_text pre EmptyString rest) as Hread.
    unfold text0 in Hread. cbn [encodeText list_ascii_of_string map app] in Hread.
    rewrite Hread by (done || (unfold zero_free; cbn; by intros ?%elem_of_nil)).
    rewrite bool_decide_eq_true_2 by done.
    rewrite app_nil_r, length_app. cbn [length]. reflexivity.
  - destruct fuel as [|fuel]; [cbn in Hfuel; lia|].
    apply Forall_cons in Hok as [(Hname & Hna & Hnz & Hta & Htz & Hsize) Hok].
    unfold attributes_bytes in *. cbn [map concat apply_attributes].
    assert (pre ++ (attribute_bytes a ++ concat (map attribute_bytes attrs)) ++ 0%Z :: rest
            = pre ++ text0 (attr_name a) ++ text0 (attr_type a) ++
              le_bytes 4 (Z.of_nat (length (attr_value a))) ++ attr_value a ++
              concat (map attribute_bytes attrs) ++ 0%Z :: rest) as ->
      by (unfold attribute_bytes; by rewrite <- !app_assoc).
    cbn [header_attributes].
    rewrite decide_True by (rewrite !length_app; unfold text0; rewrite length_app; cbn; lia).
    rewrite readNullTerminatedString_text by done.
    rewrite (bool_decide_eq_false_2 _ Hname).
    replace (pre ++ text0 (attr_name a) ++ text0 (attr_type a) ++
             le_bytes 4 (Z.of_nat (length (attr_value a))) ++ attr_value a ++
             concat (map attribute_bytes attrs) ++ 0%Z :: rest)
      with ((pre ++ text0 (attr_name a)) ++ text0 (attr_type a) ++
            le_bytes 4 (Z.of_nat (length (attr_value a))) ++ attr_value a ++
            concat (map attribute_bytes attrs) ++ 0%Z :: rest)
      by (by rewrite <- !app_assoc).
    rewrite readNullTerminatedString_text by done.
    set (pre2 := (pre ++ text0 (attr_name a)) ++ text0 (attr_type a)).
    replace ((pre ++ text0 (attr_name a)) ++ text0 (attr_type a) ++
             le_bytes 4 (Z.of_nat (length (attr_value a))) ++ attr_value a ++
             concat (map attribute_bytes attrs) ++ 0%Z :: rest)
      with (pre2 ++ le_bytes 4 (Z.of_nat (length (attr_value a))) ++ attr_value a ++
            concat (map attribute_bytes attrs) ++ 0%Z :: rest)
      by (unfold pre2; by rewrite <- !app_assoc).
    rewrite decide_False by (rewrite !length_app, le_bytes_length; lia).
    unfold readUint32LE. rewrite getUint32_le_bytes by lia.
    rewrite Nat2Z.id.
    rewrite decide_False by (rewrite !length_app, le_bytes_length; lia).
    set (pre3 := pre2 ++ le_bytes 4 (Z.of_nat (length (attr_value a)))).
    assert (length pre2 + 4 = length pre3) as Hp3
      by (unfold pre3; rewrite length_app, le_bytes_length; lia).
    rewrite Hp3.
    replace (pre2 ++ le_bytes 4 (Z.of_nat (length (attr_value a))) ++ attr_value a ++
             concat (map attribute_bytes attrs) ++ 0%Z :: rest)
      with (pre3 ++ attr_value a ++ concat (map attribute_bytes attrs) ++ 0%Z :: rest)
      by (unfold pre3; by rewrite <- !app_assoc).
    rewrite slice_middle.
    destruct (apply_attribute vars (attr_name a) (attr_type a)
                (Z.of_nat (length (attr_value a))) (attr_value a)) as [[vars'|e]|];
      [|reflexivity..].
    replace (pre3 ++ attr_value a ++ concat (map attribute_bytes attrs) ++ 0%Z :: rest)
      with ((pre3 ++ attr_value a) ++ concat (map attribute_bytes attrs) ++ 0%Z :: rest)
      by (by rewrite <- !app_assoc).
    replace (length pre3 + length (attr_value a)) with (length (pre3 ++ attr_value a))
      by (by rewrite length_app).
    rewrite IH by (done || (cbn in Hfuel; lia)).
    destruct (apply_attributes vars' attrs) as [[vars''|e]|]; [|reflexivity..].
    do 3 f_equal. unfold pre3, pre2, attribute_bytes.
    rewrite !length_app. lia.
Qed.

(** [parseHeader] reads back a header written attribute by attribute:
    after the magic number and the four bytes of the version, it meets the
    attributes in their order, each with its name, its type and the bytes
    of its value, whatever these bytes are, and stops at the empty name;
    the offset table starts right after it.  The names and the types are
    texts of the ASCII range without a zero character, the names are not
    empty, and a value is shorter than [2^32]. *)
Theorem parseHeader_reads_attributes (version : bytes) (attrs : list Attribute)
    (rest : bytes) :
  length version = 4 ->
  Forall attribute_ok attrs ->
  parseHeader (le_bytes 4 20000630 ++ version ++ attributes_bytes attrs ++ 0%Z :: rest)
    = match apply_attributes no_attribute attrs with
      | None => None
      | Some (Throw e) => Some (Throw e)
      | Some (Ok vars) =>
          Some (finish_header vars (8 + length (attributes_bytes attrs) + 1))
      end.
Proof.
  intros Hversion Hok. unfold parseHeader, readUint32LE.
  pose proof (getUint32_le_bytes [] 20000630
                (version ++ attributes_bytes attrs ++ 0%Z :: rest) ltac:(lia)) as Hmagic.
  cbn [app length] in Hmagic. rewrite Hmagic. cbn [negb Z.eqb Pos.eqb].
  pose proof (header_attributes_read attrs (le_bytes 4 20000630 ++ version) rest no_attribute
                (S (length (le_bytes 4 20000630 ++ version ++ attributes_bytes attrs
                              ++ 0%Z :: rest))) Hok) as Hloop.
  rewrite <- !app_assoc in Hloop.
  replace (length (le_bytes 4 20000630 ++ version)) with 8 in Hloop
    by (rewrite length_app, le_bytes_length; lia).
  rewrite Hloop.
  - destruct (apply_attributes no_attribute attrs) as [[vars|e]|]; [|reflexivity..].
    do 2 f_equal. rewrite !length_app, le_bytes_length. lia.
  - rewrite !length_app. unfold attributes_bytes.
    assert (length attrs <= length (concat (map attribute_bytes attrs))) as Hlen.
    { clear. induction attrs as [|a attrs IH]; [done|].
      cbn [map concat]. rewrite length_app. unfold attribute_bytes at 1, text0.
      rewrite !length_app. cbn [length]. lia. }
    lia.
Qed.

(** *** Reading back a channel list and a whole header *)

(** The four bytes of a 32-bit integer in two's complement. *)
Definition int32_bytes (v : Z) : bytes := le_bytes 4 (v mod 2 ^ 32)%Z.

(** A channel in the file: its name, its pixel type, four bytes that the
    reader skips, and the two sampling rates. *)
Definition channel_bytes (entry : EXRChannel * bytes) : bytes :=
  let '(ch, skipped) := entry in
  text0 (name ch) ++ int32_bytes (pixelType ch) ++ skipped
    ++ int32_bytes (xSampling ch) ++ int32_bytes (ySampling ch).

Definition chlist_bytes (entries : list (EXRChannel * bytes)) : bytes :=
  concat (map channel_bytes entries) ++ [0%Z].

(** A channel that a writer can put in the list: its name is a text of
    the ASCII range, not empty and without a zero character, and its
    three numbers fit 32 bits. *)
Definition channel_ok (entry : EXRChannel * bytes) : Prop :=
  let '(ch, skipped) := entry in
  name ch <> EmptyString /\ ascii_text (name ch) = true /\ zero_free (name ch) /\
  length skipped = 4 /\
  int32 (pixelType ch) /\ int32 (xSampling ch) /\ int32 (ySampling ch).

Lemma int32_bytes_length v : length (int32_bytes v) = 4.
Proof. apply le_bytes_length. Qed.

Lemma readInt32LE_int32_bytes pre v rest :
  int32 v ->
  readInt32LE (pre ++ int32_bytes v ++ rest) (Z.of_nat (length pre)) = Ok v.
Proof.
  intros Hv. unfold readInt32LE, int32_bytes, int32 in *.
  pose proof (Z.mod_pos_bound v (2 ^ 32)%Z ltac:(lia)) as Hm.
  rewrite getUint32_le_bytes by lia. cbn [fmap result_fmap]. f_equal.
  destruct (Z.le_gt_cases 0 v) as [Hpos|Hneg].
  - rewrite Z.mod_small by lia. destruct (Z.ltb_spec v (2 ^ 31)%Z); lia.
  - assert (v mod 2 ^ 32 = v + 2 ^ 32)%Z as ->.
    { symmetry. apply (Z.mod_unique v (2 ^ 32) (-1))%Z; lia. }
    destruct (Z.ltb_spec (v + 2 ^ 32) (2 ^ 31))%Z; lia.
Qed.

Lemma read_channel_bytes pre ch skipped rest :
  channel_ok (ch, skipped) ->
  read_channel (pre ++ channel_bytes (ch, skipped) ++ rest) (name ch)
      (length (pre ++ text0 (name ch)))
    = Ok ch.
Proof.
  intros (_ & _ & _ & Hsk & Hp & Hx & Hy). unfold read_channel, channel_bytes.
  rewrite <- !app_assoc.
  replace (pre ++ text0 (name ch) ++ int32_bytes (pixelType ch) ++ skipped ++
           int32_bytes (xSampling ch) ++ int32_bytes (ySampling ch) ++ rest)
    with ((pre ++ text0 (name ch)) ++ int32_bytes (pixelType ch) ++ skipped ++
           int32_bytes (xSampling ch) ++ int32_bytes (ySampling ch) ++ rest)
    by (by rewrite <- !app_assoc).
  set (pre1 := pre ++ text0 (name ch)).
  rewrite readInt32LE_int32_bytes by done. cbn [mbind result_bind].
  replace (pre1 ++ int32_bytes (pixelType ch) ++ skipped ++
           int32_bytes (xSampling ch) ++ int32_bytes (ySampling ch) ++ rest)
    with ((pre1 ++ int32_bytes (pixelType ch) ++ skipped) ++
           int32_bytes (xSampling ch) ++ int32_bytes (ySampling ch) ++ rest)
    by (by rewrite <- !app_assoc).
  replace (length pre1 + 8) with (length (pre1 ++ int32_bytes (pixelType ch) ++ skipped))
    by (rewrite !length_app, int32_bytes_length; lia).
  rewrite readInt32LE_int32_bytes by done. cbn [mbind result_bind].
  replace (length pre1 + 12)
    with (length ((pre1 ++ int32_bytes (pixelType ch) ++ skipped)
                    ++ int32_bytes (xSampling ch)))
    by (rewrite !length_app, !int32_bytes_length; lia).
  replace ((pre1 ++ int32_bytes (pixelType ch) ++ skipped) ++
           int32_bytes (xSampling ch) ++ int32_bytes (ySampling ch) ++ rest)
    with (((pre1 ++ int32_bytes (pixelType ch) ++ skipped) ++ int32_bytes (xSampling ch))
            ++ int32_bytes (ySampling ch) ++ rest)
    by (by rewrite <- !app_assoc).
  rewrite readInt32LE_int32_bytes by done. cbn [mbind result_bind].
  by destruct ch.
Qed.

Lemma channel_bytes_length ch skipped :
  length skipped = 4 ->
  length (channel_bytes (ch, skipped)) = length (text0 (name ch)) + 16.
Proof.
  intros Hsk. unfold channel_bytes. rewrite !length_app, !int32_bytes_length. lia.
Qed.

Lemma parseChannels_loop_read (entries : list (EXRChannel * bytes)) :
  forall pre rest channels fuel,
  Forall channel_ok entries ->
  length entries < fuel ->
  parseChannels_loop fuel (pre ++ concat (map channel_bytes entries) ++ 0%Z :: rest)
      (length pre) channels
    = Some (Ok (channels ++ map fst entries)).
Proof.
  induction entries as [|[ch skipped] entries IH]; intros pre rest channels fuel Hok Hfuel.
  - destruct fuel as [|fuel]; [cbn in Hfuel; lia|].
    cbn [map concat app parseChannels_loop].
    rewrite decide_True by (rewrite length_app; cbn; lia).
    pose proof (readNullTerminatedString_text pre EmptyString rest) as Hread.
    unfold text0 in Hread. cbn [encodeText list_ascii_of_string map app] in Hread.
    rewrite Hread by (done || (unfold zero_free; cbn; by intros ?%elem_of_nil)).
    rewrite bool_decide_eq_true_2 by done. by rewrite app_nil_r.
  - destruct fuel as [|fuel]; [cbn in Hfuel; lia|].
    apply Forall_cons in Hok as [Hch Hok].
    pose proof Hch as (Hname & Hna & Hnz & Hsk & _).
    cbn [map concat]. rewrite <- app_assoc.
    set (after := concat (map channel_bytes entries) ++ 0%Z :: rest).
    pose proof (read_channel_bytes pre ch skipped after Hch) as Hread.
    pose proof (channel_bytes_length ch skipped Hsk) as Hlen.
    assert (pre ++ channel_bytes (ch, skipped) ++ after
            = pre ++ text0 (name ch)
                ++ (int32_bytes (pixelType ch) ++ skipped ++ int32_bytes (xSampling ch)
                      ++ int32_bytes (ySampling ch) ++ after)) as Hsplit
      by (unfold channel_bytes; by rewrite <- !app_assoc).
    cbn [parseChannels_loop].
    rewrite decide_True by (rewrite !length_app, Hlen; unfold text0; rewrite length_app; cbn; lia).
    rewrite Hsplit at 1. rewrite readNullTerminatedString_text by done.
    rewrite (bool_decide_eq_false_2 _ Hname).
    rewrite decide_False by (rewrite !length_app, Hlen; lia).
    rewrite Hread.
    replace (length (pre ++ text0 (name ch)) + 16)
      with (length (pre ++ channel_bytes (ch, skipped)))
      by (rewrite !length_app, Hlen; lia).
    replace (pre ++ channel_bytes (ch, skipped) ++ after)
      with ((pre ++ channel_bytes (ch, skipped)) ++ after) by (by rewrite <- app_assoc).
    unfold after. rewrite IH by (done || (cbn in Hfuel; lia)).
    cbn [map fst]. by rewrite <- app_assoc.
Qed.

(** [parseChannels] reads back a channel list written channel by
    channel and ended by a zero byte, the names being texts of the ASCII
    range, not empty and without a zero character: it returns the
    channels in their order, with their names, pixel types and sampling
    rates, and ignores the four bytes that follow the pixel type; a list
    without a channel is refused. *)
Theorem parseChannels_reads_channels (entries : list (EXRChannel * bytes)) :
  Forall channel_ok entries ->
  parseChannels (chlist_bytes entries)
    = Some (match entries with
            | [] => Throw (Error "EXR has no channels")
            | _ => Ok (map fst entries)
            end).
Proof.
  intros Hok. unfold parseChannels, chlist_bytes.
  pose proof (parseChannels_loop_read entries [] [] []
                (S (length (concat (map channel_bytes entries) ++ [0%Z]))) Hok) as Hloop.
  cbn [app length] in Hloop. rewrite Hloop.
  - by destruct entries.
  - rewrite length_app. cbn [length].
    assert (length entries <= length (concat (map channel_bytes entries))) as Hlen.
    { clear. induction entries as [|[ch sk] entries IH]; [done|].
      cbn [map concat]. rewrite length_app. unfold channel_bytes at 1, text0.
      rewrite !length_app. cbn [length]. lia. }
    lia.
Qed.

Lemma parseChannels_reads_channels_witness :
  parseChannels (chlist_bytes [(MkChannel "B" 1 1 1, [0; 0; 0; 0]%Z);
                               (MkChannel "sky.R" 2 1 1, [1; 0; 0; 0]%Z)])
    = Some (Ok [MkChannel "B" 1 1 1; MkChannel "sky.R" 2 1 1]).
Proof.
  apply (parseChannels_reads_channels [(MkChannel "B" 1 1 1, [0; 0; 0; 0]%Z);
                                       (MkChannel "sky.R" 2 1 1, [1; 0; 0; 0]%Z)]).
  repeat constructor; try discriminate; try (unfold int32; cbn; lia);
    apply (bool_decide_unpack _); by vm_compute.
Defined.

Lemma parseHeader_reads_attributes_witness :
  parseHeader (le_bytes 4 20000630 ++ [2; 0; 0; 0]%Z
                 ++ attributes_bytes [MkAttribute "owner" "string" [0; 1; 0]%Z;
                                      MkAttribute "tiles" "tiledesc" []]
                 ++ 0%Z :: [7; 7]%Z)
    = Some (Throw (Error "Tiled EXR is not supported")).
Proof.
  apply (parseHeader_reads_attributes [2; 0; 0; 0]%Z
           [MkAttribute "owner" "string" [0; 1; 0]%Z; MkAttribute "tiles" "tiledesc" []]
           [7; 7]%Z).
  - reflexivity.
  - repeat constructor; try discriminate; try (cbn; lia);
      apply (bool_decide_unpack _); by vm_compute.
Defined.

(** A header of one channel [Y] of half floats, compression [zips] and
    the data window [(0, 0) - (1, 1)], and what follows it in
    [two_block_file]. *)
Definition sample_header_bytes : bytes :=
  le_bytes 4 20000630 ++ [2; 0; 0; 0]%Z
    ++ attributes_bytes
         [MkAttribute "channels" "chlist" (chlist_bytes [(MkChannel "Y" 1 1 1, [0; 0; 0; 0]%Z)]);
          MkAttribute "compression" "compression" [2%Z];
          MkAttribute "dataWindow" "box2i"
            (int32_bytes 0 ++ int32_bytes 0 ++ int32_bytes 1 ++ int32_bytes 1)]
    ++ [0%Z].

Lemma sample_header_parsed :
  parseHeader sample_header_bytes
    = Some (Ok (MkHeader 2 2 0 0 [MkChannel "Y" 1 1 1] zips
                  (Z.of_nat (length sample_header_bytes)))).
Proof. vm_compute. reflexivity. Qed.

Lemma parseHeader_accepted_witness :
  let header := MkHeader 2 2 0 0 [MkChannel "Y" 1 1 1] zips
                  (Z.of_nat (length sample_header_bytes)) in
  (0 < ExrBlocks.width header <= 2 ^ 32)%Z /\
  (0 < ExrBlocks.height header <= 2 ^ 32)%Z /\
  channels header <> [] /\
  validatePanoramaBuffer exr sample_header_bytes = Ok ValidationOk /\
  readEXRMetadata sample_header_bytes = Some (Ok (Metadata exr 2 2)).
Proof.
  apply (parseHeader_accepted sample_header_bytes).
  - vm_compute. repeat constructor; discriminate.
  - vm_compute. reflexivity.
Defined.

End ExrHeaderParse.
